(** * Action execution engine of the workbench: a shallow embedding

    Source files embedded here:
    - [app/lib/runtime/action-runner.ts]: the [ActionRunner] class
      (action store, execution chain, the three handlers);
    - the workbench store ([addArtifact], [updateArtifact], [addAction],
      [runAction]) that owns one runner per artifact.

    The runner is asynchronous JavaScript.  Its promises are modelled by a
    heap of promise cells with reaction lists and a microtask queue; its
    async handlers by a small monad over the sandbox; calls from the
    outside, microtask ticks and handler completions are the events of a
    deterministic step function. *)

From Stdlib Require Import ZArith Lia Ascii.
From stdpp Require Import base option list gmap strings pretty sorting.

Set Default Proof Using "Type".
Local Open Scope string_scope.
Local Open Scope list_scope.
Local Open Scope nat_scope.

(** ** Strings *)

(** [s.includes(search)] of JavaScript. *)
Fixpoint includes (s search : string) : bool :=
  if String.prefix search s then true
  else match s with
       | EmptyString => false
       | String _ s' => includes s' search
       end.

Definition is_empty (s : string) : bool :=
  match s with EmptyString => true | _ => false end.

(** [folder.replace(/\/+$/g, '')]: the trailing run of slashes is dropped. *)
Fixpoint strip_trailing_slashes (s : string) : string :=
  match s with
  | EmptyString => EmptyString
  | String c s' =>
      let r := strip_trailing_slashes s' in
      if Ascii.eqb c "/"%char && is_empty r then EmptyString else String c r
  end.

(** ** Action descriptors and records *)

Inductive ActionStatus := Pending | Running | Complete | Aborted | Failed.

Global Instance ActionStatus_eq_dec : EqDecision ActionStatus.
Proof. solve_decision. Defined.

Definition terminal (st : ActionStatus) : bool :=
  match st with Complete | Aborted | Failed => true | _ => false end.

Record ImportFile := { path : string; content : string }.

(** Modelled from the spec: the declaration of [BoltAction] (module
    [~/types/actions]) is not part of the sources at hand.  The three
    variants and their fields are those the handlers read: [content] for
    a shell action, [filePath] and [content] for a file action,
    [targetPath], [files] and the optional [postImportCommands] for an
    import action. *)
Inductive BoltAction :=
| ShellAction (content : string)
| FileAction (filePath content : string)
| ImportAction (targetPath : string) (files : list ImportFile)
    (postImportCommands : option (list string)).

(** [{...action, ...data.action}]: the fields of the new descriptor win;
    a key the new descriptor does not carry keeps its old value.  Only
    [postImportCommands] is optional, and only the import handler reads
    it. *)
Definition spread_action (old new : BoltAction) : BoltAction :=
  match new, old with
  | ImportAction t fs None, ImportAction _ _ (Some cs) => ImportAction t fs (Some cs)
  | _, _ => new
  end.

(** The closure stored in the [abort] field captures the controller it
    signals and the id whose record it updates. *)
Record AbortClosure := { ac_controller : nat; ac_actionId : string }.

(** A record of the action store.  [abortSignal] is a reference into the
    heap of abort controllers: copies of a record share the signal. *)
Record ActionState := {
  descriptor : BoltAction;
  status : ActionStatus;
  executed : bool;
  abort : AbortClosure;
  abortSignal : nat;
  error : option string;
}.

(** [ActionStateUpdate]: every key is optional. *)
Record ActionStateUpdate := {
  u_descriptor : option BoltAction;
  u_status : option ActionStatus;
  u_executed : option bool;
  u_abort : option AbortClosure;
  u_abortSignal : option nat;
  u_error : option string;
}.

Definition no_update : ActionStateUpdate :=
  {| u_descriptor := None; u_status := None; u_executed := None;
     u_abort := None; u_abortSignal := None; u_error := None |}.

Definition status_update (st : ActionStatus) : ActionStateUpdate :=
  {| u_descriptor := None; u_status := Some st; u_executed := None;
     u_abort := None; u_abortSignal := None; u_error := None |}.

Definition failed_update (msg : string) : ActionStateUpdate :=
  {| u_descriptor := None; u_status := Some Failed; u_executed := None;
     u_abort := None; u_abortSignal := None; u_error := Some msg |}.

(** [{ ...a, ...u }] *)
Definition spread (a : ActionState) (u : ActionStateUpdate) : ActionState :=
  {| descriptor := match u_descriptor u with
                   | Some d => spread_action (descriptor a) d
                   | None => descriptor a
                   end;
     status := default (status a) (u_status u);
     executed := default (executed a) (u_executed u);
     abort := default (abort a) (u_abort u);
     abortSignal := default (abortSignal a) (u_abortSignal u);
     error := match u_error u with Some e => Some e | None => error a end |}.

(** What a [throw] carries: an [Error] object with its message, or some
    other value. *)
Inductive Thrown := ErrorObj (message : string) | NonError.

(** [error instanceof Error ? error.message : 'Action failed'] *)
Definition error_message (e : Thrown) : string :=
  match e with ErrorObj m => m | NonError => "Action failed" end.

(** ** The sandbox

    The runner consumes the WebContainer through [fs.mkdir],
    [fs.writeFile] and [spawn]; a spawned process offers [kill()] and an
    awaitable exit code.  The container is external: its behaviour is a
    parameter. *)

Inductive ExitOutcome :=
| ExitsAt (ms : Z) (code : Z)       (* [process.exit] fulfils after [ms] *)
| ExitFailsAt (ms : Z) (e : Thrown) (* [process.exit] rejects after [ms] *)
| NeverExits.

(** A process: how it exits, depending on whether [kill()] was called. *)
Record Process := { proc_exit : bool → ExitOutcome }.

Class WebContainer := {
  World : Type;
  fs_mkdir : World → string → option Thrown * World;
  fs_writeFile : World → string → string → option Thrown * World;
  spawn : World → string → list (string * string) → (Thrown + Process) * World;
}.

(** [nodePath.dirname] of [node:path]. *)
Class NodePath := { dirname : string → string }.

(** The promise [#webcontainer] handed to the constructor, by what
    awaiting it gives. *)
Inductive Boot := Booted | BootFailed (e : Thrown) | BootPending.

(** The calls a handler made on the sandbox, in order. *)
Inductive Call :=
| CMkdir (p : string)
| CWriteFile (p c : string)
| CSpawn (cmd : string).

Inductive Outcome (A : Type) :=
| Done (a : A)         (* the async function returned *)
| Threw (e : Thrown)   (* it threw *)
| Hangs.               (* an awaited promise never settles *)
Arguments Done {A} a.
Arguments Threw {A} e.
Arguments Hangs {A}.

Section Handlers.
Context `{WC : WebContainer} `{NP : NodePath}.

(** An async computation over the sandbox: outcome, sandbox left
    behind, calls made. *)
Definition Async (A : Type) : Type := World → Outcome A * World * list Call.

Definition ret {A} (a : A) : Async A := λ w, (Done a, w, []).
Definition throw {A} (e : Thrown) : Async A := λ w, (Threw e, w, []).
Definition hang {A} : Async A := λ w, (Hangs, w, []).

Definition bind {A B} (m : Async A) (k : A → Async B) : Async B :=
  λ w, match m w with
       | (Done a, w1, l1) =>
           match k a w1 with (o, w2, l2) => (o, w2, l1 ++ l2) end
       | (Threw e, w1, l1) => (Threw e, w1, l1)
       | (Hangs, w1, l1) => (Hangs, w1, l1)
       end.

(** [try { m } catch (error) { h error }] *)
Definition try_catch {A} (m : Async A) (h : Thrown → Async A) : Async A :=
  λ w, match m w with
       | (Threw e, w1, l1) =>
           match h e w1 with (o, w2, l2) => (o, w2, l1 ++ l2) end
       | r => r
       end.

#[global] Instance Async_ret : MRet Async := @ret.
#[global] Instance Async_bind : MBind Async := λ A B k m, bind m k.

(** [for (const x of xs) { await body(x) }] *)
Fixpoint for_of {A} (xs : list A) (body : A → Async unit) : Async unit :=
  match xs with
  | [] => ret tt
  | x :: xs' => body x;; for_of xs' body
  end.

Definition await_webcontainer (boot : Boot) : Async unit :=
  match boot with
  | Booted => ret tt
  | BootFailed e => throw e
  | BootPending => hang
  end.

Definition mkdir (p : string) : Async unit :=
  λ w, match fs_mkdir w p with
       | (None, w') => (Done tt, w', [CMkdir p])
       | (Some e, w') => (Threw e, w', [CMkdir p])
       end.

Definition writeFile (p c : string) : Async unit :=
  λ w, match fs_writeFile w p c with
       | (None, w') => (Done tt, w', [CWriteFile p c])
       | (Some e, w') => (Threw e, w', [CWriteFile p c])
       end.

Definition spawn_jsh (cmd : string) (env : list (string * string)) : Async Process :=
  λ w, match spawn w cmd env with
       | (inr p, w') => (Done p, w', [CSpawn cmd])
       | (inl e, w') => (Threw e, w', [CSpawn cmd])
       end.

(** [await process.exit] *)
Definition await_exit (x : ExitOutcome) : Async Z :=
  match x with
  | ExitsAt _ code => ret code
  | ExitFailsAt _ e => throw e
  | NeverExits => hang
  end.

Definition timeout_ms : Z := 5000.

Definition long_running (content : string) : bool :=
  includes content "next dev" || includes content "npm".

(** [Promise.race([exitPromise, timer])]: the timer resolves with 0
    after [timeout_ms], and only for a long-running command; otherwise
    it never settles and the race is decided by the exit alone. *)
Definition race_exit (content : string) (x : ExitOutcome) : Async Z :=
  match x with
  | ExitsAt ms code =>
      if (ms <? timeout_ms)%Z then ret code
      else if long_running content then ret 0%Z else ret code
  | ExitFailsAt ms e =>
      if (ms <? timeout_ms)%Z then throw e
      else if long_running content then ret 0%Z else throw e
  | NeverExits => if long_running content then ret 0%Z else hang
  end.

Definition shell_env : list (string * string) := [("npm_config_yes", "true")].

(** [#runShellAction].  [killed] tells whether the abort listener the
    handler registers on the signal has fired, that is whether
    [process.kill()] was called. *)
Definition runShellAction (boot : Boot) (killed : bool) (content : string) : Async unit :=
  await_webcontainer boot;;
  process ← spawn_jsh content shell_env;
  exitCode ← race_exit content (proc_exit process killed);
  if negb (exitCode =? 0)%Z && negb (includes content "next dev")
  then throw (ErrorObj ("Process failed with exit code " +:+ pretty exitCode))
  else ret tt.

(** [#runFileAction] *)
Definition runFileAction (boot : Boot) (filePath content : string) : Async unit :=
  await_webcontainer boot;;
  let folder := strip_trailing_slashes (dirname filePath) in
  (if negb (String.eqb folder ".")
   then try_catch (mkdir folder) (λ _, ret tt)
   else ret tt);;
  try_catch (writeFile filePath content) (λ _, ret tt).

(** The body of the loop over [action.files]. *)
Definition import_file (folder : string) (file : ImportFile) : Async unit :=
  let filePath := folder +:+ "/" +:+ path file in
  let fileDir := dirname filePath in
  (if negb (String.eqb fileDir ".") then mkdir fileDir else ret tt);;
  writeFile filePath (content file).

(** The body of the loop over [action.postImportCommands]. *)
Definition post_import_command (command : string) : Async unit :=
  process ← spawn_jsh command [];
  exitCode ← await_exit (proc_exit process false);
  if negb (exitCode =? 0)%Z
  then throw (ErrorObj ("Post-import command failed: " +:+ command))
  else ret tt.

(** [#importRepository]; its [catch] logs and rethrows. *)
Definition importRepository (boot : Boot) (targetPath : string)
    (files : list ImportFile) (postImportCommands : option (list string)) : Async unit :=
  await_webcontainer boot;;
  try_catch
    (let folder := if is_empty targetPath then "." else targetPath in
     (if negb (String.eqb folder ".") then mkdir folder else ret tt);;
     for_of files (import_file folder);;
     match postImportCommands with
     | Some (c :: cs) => for_of (c :: cs) post_import_command
     | _ => ret tt
     end)
    (λ e, throw e).

(** The [switch (action.type)] of [#executeAction]. *)
Definition run_handler (boot : Boot) (killed : bool) (a : ActionState) : Async unit :=
  match descriptor a with
  | ShellAction c => runShellAction boot killed c
  | FileAction p c => runFileAction boot p c
  | ImportAction t fs cs => importRepository boot t fs cs
  end.

End Handlers.

(** ** Promises and the microtask queue

    Every promise the runner creates is a cell of a heap.  A pending
    cell holds the reactions registered on it by [then] and [catch];
    settling a cell turns its reactions into jobs of the microtask
    queue, in registration order.  The callbacks the runner registers
    are closures of three kinds, kept as data. *)

Inductive Settlement := Fulfilled | Rejected (e : Thrown).

Inductive Callback :=
| CbSetRunning (actionId : string) (* [() => this.#updateAction(actionId, { status: 'running' })] *)
| CbExecute (actionId : string)    (* [() => this.#executeAction(actionId)] *)
| CbLogError.                      (* [(error) => console.error('Action failed:', error)] *)

(** A reaction names the promise derived by the [then] or [catch] that
    registered it; [None] when the caller drops that promise at once, as
    [addAction] does. *)
Inductive Reaction :=
| OnFulfilled (cb : Callback) (derived : option nat)
| OnRejected (cb : Callback) (derived : option nat).

Inductive PromiseState :=
| PendingP (reactions : list Reaction)
| Settled (v : Settlement).

Definition Job : Type := Reaction * Settlement.

(** A call of [#executeAction] suspended in its handler: the snapshot
    [action] it read from the store, whether the abort listener has
    fired, and the promise that settles when the call ends.  That promise
    and the one derived by the [then] whose callback returned it settle
    alike, the second adopting the first: they are one cell here. *)
Record Task := {
  t_actionId : string;
  t_action : ActionState;
  t_killed : bool;
  t_promise : option nat;
}.

(** What an observer of the runner sees happen, in order: a [runAction]
    that enqueued an execution, a handler starting, a handler ending.
    The source keeps no such log; the [trace] field of the runner is
    written and never read by the functions below. *)
Inductive Obs :=
| ObsRun (actionId : string)
| ObsBegin (actionId : string)
| ObsSettle (actionId : string) (failure : option Thrown).

Global Instance Thrown_eq_dec : EqDecision Thrown.
Proof. solve_decision. Defined.
Global Instance Obs_eq_dec : EqDecision Obs.
Proof. solve_decision. Defined.

(** ** The runner *)

Record ActionCallbackData := {
  messageId : string;
  actionId : string;
  action : BoltAction;
}.

Record ActionRunner := {
  webcontainer : Boot;                 (* [#webcontainer] *)
  currentExecutionPromise : nat;       (* [#currentExecutionPromise] *)
  actions : gmap string ActionState;   (* the [actions] map store *)
  promises : list PromiseState;
  microtasks : list Job;
  controllers : list bool;             (* [AbortController]s: has it aborted *)
  suspended : list Task;
  trace : list Obs;
}.

Definition set_current (p : nat) (s : ActionRunner) : ActionRunner :=
  {| webcontainer := webcontainer s; currentExecutionPromise := p;
     actions := actions s; promises := promises s; microtasks := microtasks s;
     controllers := controllers s; suspended := suspended s; trace := trace s |}.

Definition set_actions (m : gmap string ActionState) (s : ActionRunner) : ActionRunner :=
  {| webcontainer := webcontainer s; currentExecutionPromise := currentExecutionPromise s;
     actions := m; promises := promises s; microtasks := microtasks s;
     controllers := controllers s; suspended := suspended s; trace := trace s |}.

Definition set_promises (h : list PromiseState) (s : ActionRunner) : ActionRunner :=
  {| webcontainer := webcontainer s; currentExecutionPromise := currentExecutionPromise s;
     actions := actions s; promises := h; microtasks := microtasks s;
     controllers := controllers s; suspended := suspended s; trace := trace s |}.

Definition set_microtasks (q : list Job) (s : ActionRunner) : ActionRunner :=
  {| webcontainer := webcontainer s; currentExecutionPromise := currentExecutionPromise s;
     actions := actions s; promises := promises s; microtasks := q;
     controllers := controllers s; suspended := suspended s; trace := trace s |}.

Definition set_controllers (c : list bool) (s : ActionRunner) : ActionRunner :=
  {| webcontainer := webcontainer s; currentExecutionPromise := currentExecutionPromise s;
     actions := actions s; promises := promises s; microtasks := microtasks s;
     controllers := c; suspended := suspended s; trace := trace s |}.

Definition set_suspended (ts : list Task) (s : ActionRunner) : ActionRunner :=
  {| webcontainer := webcontainer s; currentExecutionPromise := currentExecutionPromise s;
     actions := actions s; promises := promises s; microtasks := microtasks s;
     controllers := controllers s; suspended := ts; trace := trace s |}.

Definition observe (o : Obs) (s : ActionRunner) : ActionRunner :=
  {| webcontainer := webcontainer s; currentExecutionPromise := currentExecutionPromise s;
     actions := actions s; promises := promises s; microtasks := microtasks s;
     controllers := controllers s; suspended := suspended s; trace := trace s ++ [o] |}.

(** [new ActionRunner(webcontainerPromise)]; the chain starts as
    [Promise.resolve()]. *)
Definition new_runner (boot : Boot) : ActionRunner :=
  {| webcontainer := boot; currentExecutionPromise := 0; actions := ∅;
     promises := [Settled Fulfilled]; microtasks := []; controllers := [];
     suspended := []; trace := [] |}.

(** Register a reaction on promise [p]: kept in the cell while [p] is
    pending, queued as a job at once when [p] has settled. *)
Definition attach (p : nat) (r : Reaction) (s : ActionRunner) : ActionRunner :=
  match promises s !! p with
  | Some (PendingP rs) => set_promises (<[p := PendingP (rs ++ [r])]> (promises s)) s
  | Some (Settled v) => set_microtasks (microtasks s ++ [(r, v)]) s
  | None => s
  end.

(** [p.then(cb)], the derived promise being kept by the caller. *)
Definition then_ (p : nat) (cb : Callback) (s : ActionRunner) : nat * ActionRunner :=
  let d := length (promises s) in
  (d, attach p (OnFulfilled cb (Some d)) (set_promises (promises s ++ [PendingP []]) s)).

(** [p.then(cb)] as a statement: the derived promise is dropped. *)
Definition then_drop (p : nat) (cb : Callback) (s : ActionRunner) : ActionRunner :=
  attach p (OnFulfilled cb None) s.

(** [p.catch(cb)] *)
Definition catch_ (p : nat) (cb : Callback) (s : ActionRunner) : nat * ActionRunner :=
  let d := length (promises s) in
  (d, attach p (OnRejected cb (Some d)) (set_promises (promises s ++ [PendingP []]) s)).

(** Settle a derived promise: its reactions become jobs.  A promise
    settles once. *)
Definition settle (d : option nat) (v : Settlement) (s : ActionRunner) : ActionRunner :=
  match d with
  | None => s
  | Some d =>
      match promises s !! d with
      | Some (PendingP rs) =>
          set_microtasks (microtasks s ++ map (λ r, (r, v)) rs)
            (set_promises (<[d := Settled v]> (promises s)) s)
      | _ => s
      end
  end.

(** [#updateAction(id, newState)].  Every call site passes the id of a
    record that is in the store ([updateAction_targets_present] below);
    on an absent id the source would store a record holding the keys of
    [newState] alone, which [ActionState] cannot express: the store is
    then left as it is. *)
Definition updateAction (id : string) (newState : ActionStateUpdate)
    (s : ActionRunner) : ActionRunner :=
  match actions s !! id with
  | Some a => set_actions (<[id := spread a newState]> (actions s)) s
  | None => s
  end.

(** [addAction(data)] *)
Definition addAction (data : ActionCallbackData) (s : ActionRunner) : ActionRunner :=
  match actions s !! actionId data with
  | Some _ => s
  | None =>
      let abortController := length (controllers s) in
      let s1 :=
        set_actions
          (<[actionId data :=
               {| descriptor := action data; status := Pending; executed := false;
                  abort := {| ac_controller := abortController;
                              ac_actionId := actionId data |};
                  abortSignal := abortController; error := None |}]> (actions s))
          (set_controllers (controllers s ++ [false]) s) in
      then_drop (currentExecutionPromise s1) (CbSetRunning (actionId data)) s1
  end.

(** [{ ...action, ...data.action, executed: true }] *)
Definition run_update (a : ActionState) (d : BoltAction) : ActionStateUpdate :=
  {| u_descriptor := Some (spread_action (descriptor a) d);
     u_status := Some (status a); u_executed := Some true;
     u_abort := Some (abort a); u_abortSignal := Some (abortSignal a);
     u_error := error a |}.

(** [unreachable(message)] throws; its module is not among the sources,
    the error carries the message. *)
Definition unreachable (message : string) : Thrown := ErrorObj message.

(** [runAction(data)].  The function is [async] and awaits nothing: the
    promise it returns is settled when the call returns, fulfilled with
    [undefined] or rejected with what [unreachable] threw.  The first
    component is that settlement. *)
Definition runAction (data : ActionCallbackData) (s : ActionRunner)
    : Settlement * ActionRunner :=
  match actions s !! actionId data with
  | None => (Rejected (unreachable ("Action " +:+ actionId data +:+ " not found")), s)
  | Some a =>
      if executed a then (Fulfilled, s)
      else
        let s1 := updateAction (actionId data) (run_update a (action data)) s in
        let '(q, s2) := then_ (currentExecutionPromise s1) (CbExecute (actionId data)) s1 in
        let '(p, s3) := catch_ q CbLogError s2 in
        (Fulfilled, observe (ObsRun (actionId data)) (set_current p s3))
  end.

(** [#executeAction(actionId)] up to the first [await] of its handler:
    the record is read, the status set to running, the handler entered.
    [d] is the promise that settles when the call ends.  The callback is
    only ever registered for an id in the store; for an absent id the
    access [action.type] throws. *)
Definition executeAction (id : string) (d : option nat) (s : ActionRunner) : ActionRunner :=
  match actions s !! id with
  | None => settle d (Rejected (ErrorObj "TypeError")) s
  | Some a =>
      let s1 := updateAction id (status_update Running) s in
      observe (ObsBegin id)
        (set_suspended
           (suspended s1 ++ [{| t_actionId := id; t_action := a;
                                t_killed := false; t_promise := d |}]) s1)
  end.

(** [#executeAction] from the point where its handler has settled. *)
Definition finishAction (t : Task) (o : Outcome unit) (s : ActionRunner) : ActionRunner :=
  match o with
  | Done _ =>
      let aborted := default false (controllers s !! abortSignal (t_action t)) in
      observe (ObsSettle (t_actionId t) None)
        (settle (t_promise t) Fulfilled
           (updateAction (t_actionId t)
              (status_update (if aborted then Aborted else Complete)) s))
  | Threw e =>
      observe (ObsSettle (t_actionId t) (Some e))
        (settle (t_promise t) (Rejected e)
           (updateAction (t_actionId t) (failed_update (error_message e)) s))
  | Hangs => s
  end.

Definition run_callback (cb : Callback) (d : option nat) (s : ActionRunner) : ActionRunner :=
  match cb with
  | CbSetRunning id => settle d Fulfilled (updateAction id (status_update Running) s)
  | CbExecute id => executeAction id d s
  | CbLogError => settle d Fulfilled s
  end.

(** One job of the microtask queue. *)
Definition run_job (j : Job) (s : ActionRunner) : ActionRunner :=
  match j with
  | (OnFulfilled cb d, Fulfilled) => run_callback cb d s
  | (OnFulfilled _ d, Rejected e) => settle d (Rejected e) s
  | (OnRejected _ d, Fulfilled) => settle d Fulfilled s
  | (OnRejected cb d, Rejected _) => run_callback cb d s
  end.

Definition is_shell (a : BoltAction) : bool :=
  match a with ShellAction _ => true | _ => false end.

(** The listener the shell handler puts on its signal.  The source
    registers it once [spawn] has resolved, and a listener put on a
    signal that is already raised never fires.  The handler being one
    step here, the listener is taken to be there from the moment the
    call is dispatched: an abort raised while the call is suspended
    kills the process, an abort raised before the dispatch does not.
    A run in which the abort comes between the dispatch and the end of
    [spawn], and so kills nothing, is the run on a sandbox whose
    process exits the same way killed or not. *)
Definition fire_listener (c : nat) (t : Task) : Task :=
  if is_shell (descriptor (t_action t)) && Nat.eqb (abortSignal (t_action t)) c
  then {| t_actionId := t_actionId t; t_action := t_action t;
          t_killed := true; t_promise := t_promise t |}
  else t.

(** [abortController.abort()]: the first call raises the signal and
    fires its listeners; later calls do nothing. *)
Definition signal_abort (c : nat) (s : ActionRunner) : ActionRunner :=
  match controllers s !! c with
  | Some false =>
      set_suspended (map (fire_listener c) (suspended s))
        (set_controllers (<[c := true]> (controllers s)) s)
  | _ => s
  end.

(** A caller invoking [actions.get()[id].abort()]. *)
Definition abortAction (id : string) (s : ActionRunner) : ActionRunner :=
  match actions s !! id with
  | None => s
  | Some a =>
      updateAction (ac_actionId (abort a)) (status_update Aborted)
        (signal_abort (ac_controller (abort a)) s)
  end.

(** ** The event loop

    The runner advances by calls from outside ([addAction], [runAction],
    a record's [abort]), by the microtask queue running its next job, and
    by the sandbox completing the work a suspended handler awaits.  Any
    interleaving of these is allowed. *)

Inductive Event :=
| EvAdd (data : ActionCallbackData)
| EvRun (data : ActionCallbackData)
| EvAbort (id : string)
| EvTick
| EvSettle (k : nat).

Section EventLoop.
Context `{WC : WebContainer} `{NP : NodePath}.

(** The runner with its sandbox.  A handler makes its calls on the
    sandbox its predecessors left.  [sandbox] and [calls] are that
    sandbox and the calls of the handlers that have ended; [waiting]
    holds what the handler in flight has done when it has made its
    calls and awaits a promise that has not settled: the sandbox as
    its calls left it, and those calls.  The source keeps no log of
    calls: [calls] and [waiting] are written and never read by the
    runner. *)
Record System := {
  runner : ActionRunner;
  sandbox : World;
  calls : list Call;
  waiting : option (World * list Call);
}.

(** The sandbox as it is, and every call made on it so far. *)
Definition sandbox_now (sys : System) : World :=
  match waiting sys with
  | Some (w, _) => w
  | None => sandbox sys
  end.

Definition calls_now (sys : System) : list Call :=
  calls sys ++ match waiting sys with
               | Some (_, cs) => cs
               | None => []
               end.

Definition on_runner (f : ActionRunner → ActionRunner) (sys : System) : System :=
  {| runner := f (runner sys); sandbox := sandbox sys; calls := calls sys;
     waiting := waiting sys |}.

Definition tick (s : ActionRunner) : ActionRunner :=
  match microtasks s with
  | [] => s
  | j :: q => run_job j (set_microtasks q s)
  end.

(** The sandbox does the work the [k]-th suspended call awaits.  The
    sandbox calls of one handler are made in one step here: the source
    awaits each of them, but between two awaits of a handler nothing of
    the runner reads or writes the sandbox, and the store is written
    only after the last one.  When the handler returns or throws, the
    call resumes and the sandbox is the one the handler left.  When it
    comes to an await that does not settle, its calls have been made
    and the call stays suspended; a later step finds it there again,
    and lets it end once the process has been killed and exits. *)
Definition settle_task (k : nat) (sys : System) : System :=
  match suspended (runner sys) !! k with
  | None => sys
  | Some t =>
      match run_handler (webcontainer (runner sys)) (t_killed t) (t_action t) (sandbox sys) with
      | (Hangs, w, cs) =>
          {| runner := runner sys; sandbox := sandbox sys; calls := calls sys;
             waiting := Some (w, cs) |}
      | (o, w, cs) =>
          {| runner := finishAction t o
                         (set_suspended (delete k (suspended (runner sys))) (runner sys));
             sandbox := w;
             calls := calls sys ++ cs;
             waiting := None |}
      end
  end.

Definition step (sys : System) (ev : Event) : System :=
  match ev with
  | EvAdd data => on_runner (addAction data) sys
  | EvRun data => on_runner (λ s, (runAction data s).2) sys
  | EvAbort id => on_runner (abortAction id) sys
  | EvTick => on_runner tick sys
  | EvSettle k => settle_task k sys
  end.

Definition run_events (sys : System) (evs : list Event) : System :=
  fold_left step evs sys.

Definition boot_system (boot : Boot) (w : World) : System :=
  {| runner := new_runner boot; sandbox := w; calls := []; waiting := None |}.

Definition status_of (sys : System) (id : string) : option ActionStatus :=
  status <$> actions (runner sys) !! id.

End EventLoop.

(** ** A sandbox to run examples in

    An in-memory file system whose failures and processes are data of
    the world: writing below a read-only path fails, and each known
    command has a scripted exit. *)

Module MemBox.

Record world := {
  files : gmap string string;
  dirs : list string;
  readonly : list string;
  programs : list (string * (bool → ExitOutcome));
}.

Definition denied (w : world) (p : string) : bool :=
  existsb (λ r, String.prefix r p) (readonly w).

Definition eacces (p : string) : Thrown :=
  ErrorObj ("EACCES: permission denied, " +:+ p).

Definition do_mkdir (w : world) (p : string) : option Thrown * world :=
  if denied w p then (Some (eacces p), w)
  else (None, {| files := files w; dirs := dirs w ++ [p];
                 readonly := readonly w; programs := programs w |}).

Definition do_writeFile (w : world) (p c : string) : option Thrown * world :=
  if denied w p then (Some (eacces p), w)
  else (None, {| files := <[p := c]> (files w); dirs := dirs w;
                 readonly := readonly w; programs := programs w |}).

Fixpoint program (ps : list (string * (bool → ExitOutcome))) (cmd : string)
    : bool → ExitOutcome :=
  match ps with
  | [] => λ _, ExitsAt 1 127
  | (c, f) :: ps' => if String.eqb c cmd then f else program ps' cmd
  end.

Definition do_spawn (w : world) (cmd : string) (env : list (string * string))
    : (Thrown + Process) * world :=
  (inr {| proc_exit := program (programs w) cmd |}, w).

#[export] Instance container : WebContainer :=
  {| World := world; fs_mkdir := do_mkdir; fs_writeFile := do_writeFile;
     spawn := do_spawn |}.

(** POSIX [dirname], as [node:path] computes it: scanning from the
    right and never looking at the first character, skip the trailing
    slashes, skip the last component, and cut at the slash before it. *)
Fixpoint skip_slashes (cs : list ascii) : list ascii :=
  match cs with
  | c :: cs' => if Ascii.eqb c "/" then skip_slashes cs' else cs
  | [] => []
  end.

Fixpoint skip_component (cs : list ascii) : list ascii :=
  match cs with
  | c :: cs' => if Ascii.eqb c "/" then cs else skip_component cs'
  | [] => []
  end.

Definition posix_dirname (p : string) : string :=
  match String.list_ascii_of_string p with
  | [] => "."
  | c0 :: rest =>
      let hasRoot := Ascii.eqb c0 "/" in
      match skip_component (skip_slashes (rev rest)) with
      | [] => if hasRoot then "/" else "."
      | _ :: before =>
          if hasRoot && Nat.eqb (length before) 0 then "//"
          else String.string_of_list_ascii (c0 :: rev before)
      end
  end.

#[export] Instance node_path : NodePath := {| dirname := posix_dirname |}.

Definition empty_world : world :=
  {| files := ∅; dirs := []; readonly := []; programs := [] |}.

End MemBox.

(** ** The workbench store: artifacts and their runners *)

Module Workbench.

Definition action_messageId : ActionCallbackData → string := messageId.
Definition runner_addAction := addAction.
Definition runner_runAction := runAction.

(** [runner] is a reference to the [ActionRunner] instance the
    artifact owns. *)
Record ArtifactState := {
  id : string;
  title : string;
  closed : bool;
  runner : nat;
}.

Record ArtifactCallbackData := {
  messageId : string;
  cb_title : string;
  cb_id : string;
}.

(** [Partial<ArtifactUpdateState>] *)
Record ArtifactUpdate := {
  u_title : option string;
  u_closed : option bool;
}.

Record WorkbenchStore := {
  artifacts : gmap string ArtifactState;
  artifactIdList : list string;
  instances : list ActionRunner;   (* the runners created so far *)
  container : Boot;                (* the shared [webcontainer] promise *)
}.

(** [new WorkbenchStore()].  The [artifacts] field is initialised with
    [import.meta.hot?.data.artifacts ?? map({})]: when the module is
    reloaded in development, the new store takes over the artifacts map
    of the store it replaces, [previous], and with it the runners the
    artifacts own.  [artifactIdList] starts empty either way. *)
Definition new_store (boot : Boot) (previous : option WorkbenchStore) : WorkbenchStore :=
  {| artifacts := default ∅ (artifacts <$> previous);
     artifactIdList := [];
     instances := default [] (instances <$> previous);
     container := boot |}.

(** The store of a page load: there is no hot data. *)
Definition empty_store (boot : Boot) : WorkbenchStore := new_store boot None.

(** [addArtifact({ messageId, title, id })] *)
Definition addArtifact (data : ArtifactCallbackData) (s : WorkbenchStore) : WorkbenchStore :=
  match artifacts s !! messageId data with
  | Some _ => s
  | None =>
      {| artifacts :=
           <[messageId data :=
               {| id := cb_id data; title := cb_title data; closed := false;
                  runner := length (instances s) |}]> (artifacts s);
         artifactIdList :=
           if bool_decide (messageId data ∈ artifactIdList s) then artifactIdList s
           else artifactIdList s ++ [messageId data];
         instances := instances s ++ [new_runner (container s)];
         container := container s |}
  end.

(** [updateArtifact({ messageId }, state)] *)
Definition updateArtifact (data : ArtifactCallbackData) (state : ArtifactUpdate)
    (s : WorkbenchStore) : WorkbenchStore :=
  match artifacts s !! messageId data with
  | None => s
  | Some artifact =>
      {| artifacts :=
           <[messageId data :=
               {| id := id artifact;
                  title := default (title artifact) (u_title state);
                  closed := default (closed artifact) (u_closed state);
                  runner := runner artifact |}]> (artifacts s);
         artifactIdList := artifactIdList s;
         instances := instances s;
         container := container s |}
  end.

Definition on_instance (i : nat) (f : ActionRunner → ActionRunner)
    (s : WorkbenchStore) : WorkbenchStore :=
  {| artifacts := artifacts s; artifactIdList := artifactIdList s;
     instances := alter f i (instances s); container := container s |}.

(** [addAction(data)] of the store: routed to the artifact's runner;
    [inl] is the rejection of the returned promise. *)
Definition addAction (data : ActionCallbackData) (s : WorkbenchStore)
    : Thrown + WorkbenchStore :=
  match artifacts s !! action_messageId data with
  | None => inl (unreachable "Artifact not found")
  | Some artifact => inr (on_instance (runner artifact) (runner_addAction data) s)
  end.

(** [runAction(data)] of the store.  It awaits the runner's handle
    inside [try]/[catch] and logs ['Action completed'] or
    ['Action failed'] by how the handle settled; the logged line is
    returned with the store. *)
Definition runAction (data : ActionCallbackData) (s : WorkbenchStore)
    : Thrown + string * WorkbenchStore :=
  match artifacts s !! action_messageId data with
  | None => inl (unreachable "Artifact not found")
  | Some artifact =>
      match instances s !! runner artifact with
      | None => inl (ErrorObj "TypeError")
      | Some r =>
          let '(handle, r') := runner_runAction data r in
          inr (match handle with
               | Fulfilled => "Action completed"
               | Rejected _ => "Action failed"
               end,
               on_instance (runner artifact) (λ _, r') s)
      end
  end.

End Workbench.

(** ** The execution chain, seen as a queue

    What the promise cells and the microtask queue of a runner hold is
    described by a front and a chain.  The chain lists, promise by
    promise, the status updates [addAction] scheduled and the execution
    [runAction] appended; the front tells how far the runtime has got. *)

Inductive Chain :=
| Last (sets : list string)
| Seg (sets : list string) (id : string) (rest : Chain).

Inductive Front :=
| FIdle (cur : nat) (sets : list string)
    (* the current promise has settled; its status updates are queued jobs *)
| FJobs (sets : list string) (id : string) (rest : Chain)
    (* queued jobs: status updates, then the execution of [id] *)
| FTask (rest : Chain)
    (* a handler is in flight *)
| FCatch (v : Settlement) (rest : Chain).
    (* the handler has settled with [v]; the [catch] job is queued *)

Definition set_reaction (id : string) : Reaction := OnFulfilled (CbSetRunning id) None.
Definition exec_reaction (id : string) (q : nat) : Reaction := OnFulfilled (CbExecute id) (Some q).
Definition catch_reaction (p : nat) : Reaction := OnRejected CbLogError (Some p).

Definition set_jobs (sets : list string) : list Job :=
  map (λ id, (set_reaction id, Fulfilled)) sets.

(** The pending cells of a chain whose first promise is cell [base]. *)
Fixpoint chain_cells (base : nat) (c : Chain) : list PromiseState :=
  match c with
  | Last sets => [PendingP (map set_reaction sets)]
  | Seg sets id rest =>
      PendingP (map set_reaction sets ++ [exec_reaction id (S base)])
      :: PendingP [catch_reaction (S (S base))]
      :: chain_cells (S (S base)) rest
  end.

Fixpoint chain_cur (base : nat) (c : Chain) : nat :=
  match c with
  | Last _ => base
  | Seg _ _ rest => chain_cur (S (S base)) rest
  end.

Fixpoint chain_last (c : Chain) : list string :=
  match c with
  | Last sets => sets
  | Seg _ _ rest => chain_last rest
  end.

Fixpoint chain_add (id : string) (c : Chain) : Chain :=
  match c with
  | Last sets => Last (sets ++ [id])
  | Seg sets i rest => Seg sets i (chain_add id rest)
  end.

Fixpoint chain_run (id : string) (c : Chain) : Chain :=
  match c with
  | Last sets => Seg sets id (Last [])
  | Seg sets i rest => Seg sets i (chain_run id rest)
  end.

Definition front_add (id : string) (f : Front) : Front :=
  match f with
  | FIdle c sets => FIdle c (sets ++ [id])
  | FJobs sets i rest => FJobs sets i (chain_add id rest)
  | FTask rest => FTask (chain_add id rest)
  | FCatch v rest => FCatch v (chain_add id rest)
  end.

Definition front_run (id : string) (f : Front) : Front :=
  match f with
  | FIdle _ sets => FJobs sets id (Last [])
  | FJobs sets i rest => FJobs sets i (chain_run id rest)
  | FTask rest => FTask (chain_run id rest)
  | FCatch v rest => FCatch v (chain_run id rest)
  end.

(** What a front with settled cells [hist] puts in the runner: the
    promise heap, the current promise, the microtask queue. *)
Definition front_heap (hist : list Settlement) (f : Front) : list PromiseState :=
  let base := length hist in
  match f with
  | FIdle _ _ => map Settled hist
  | FJobs _ _ rest | FTask rest =>
      map Settled hist ++ PendingP [catch_reaction (S base)] :: chain_cells (S base) rest
  | FCatch _ rest => map Settled hist ++ chain_cells base rest
  end.

Definition front_cur (hist : list Settlement) (f : Front) : nat :=
  let base := length hist in
  match f with
  | FIdle c _ => c
  | FJobs _ _ rest | FTask rest => chain_cur (S base) rest
  | FCatch _ rest => chain_cur base rest
  end.

Definition front_jobs (hist : list Settlement) (f : Front) : list Job :=
  let base := length hist in
  match f with
  | FIdle _ sets => set_jobs sets
  | FJobs sets id _ => set_jobs sets ++ [(exec_reaction id base, Fulfilled)]
  | FTask _ => []
  | FCatch v _ => [(catch_reaction base, v)]
  end.

(** The runner [s] holds exactly what the settled cells [hist] and the
    front [f] describe. *)
Definition Repr (s : ActionRunner) (hist : list Settlement) (f : Front) : Prop :=
  promises s = front_heap hist f
  ∧ currentExecutionPromise s = front_cur hist f
  ∧ microtasks s = front_jobs hist f
  ∧ match f with
    | FIdle c _ => hist !! c = Some Fulfilled ∧ suspended s = []
    | FTask _ => ∃ t, suspended s = [t] ∧ t_promise t = Some (length hist)
    | _ => suspended s = []
    end.

(** The queue a front stands for. *)
Inductive Item := ISet (id : string) | IExec (id : string).

Global Instance Item_eq_dec : EqDecision Item.
Proof. solve_decision. Defined.

Fixpoint chain_queue (c : Chain) : list Item :=
  match c with
  | Last sets => map ISet sets
  | Seg sets id rest => map ISet sets ++ IExec id :: chain_queue rest
  end.

Definition queue (f : Front) : list Item :=
  match f with
  | FIdle _ sets => map ISet sets
  | FJobs sets id rest => map ISet sets ++ IExec id :: chain_queue rest
  | FTask rest => chain_queue rest
  | FCatch _ rest => chain_queue rest
  end.

(** ** Reading the trace *)

Definition obs_run (o : Obs) : option string :=
  match o with ObsRun id => Some id | _ => None end.
Definition obs_begin (o : Obs) : option string :=
  match o with ObsBegin id => Some id | _ => None end.
Definition obs_settle (o : Obs) : option string :=
  match o with ObsSettle id _ => Some id | _ => None end.

(** The ids [runAction] enqueued, the ids whose handler began, the ids
    whose handler ended, each in order of occurrence. *)
Definition runs (t : list Obs) : list string := omap obs_run t.
Definition begun (t : list Obs) : list string := omap obs_begin t.
Definition ended (t : list Obs) : list string := omap obs_settle t.

(** Reading a trace from left to right with the handler in flight, if
    any: a handler may begin only when none is in flight, and the one to
    end is the one in flight.  [None] when the trace breaks this. *)
Definition serial_step (cur : option string) (o : Obs) : option (option string) :=
  match o, cur with
  | ObsRun _, _ => Some cur
  | ObsBegin id, None => Some (Some id)
  | ObsBegin _, Some _ => None
  | ObsSettle id _, Some id' => if decide (id = id') then Some None else None
  | ObsSettle _ _, None => None
  end.

Fixpoint serial_from (cur : option string) (t : list Obs) : option (option string) :=
  match t with
  | [] => Some cur
  | o :: t' =>
      match serial_step cur o with
      | Some cur' => serial_from cur' t'
      | None => None
      end
  end.

Definition item_set (i : Item) : option string :=
  match i with ISet id => Some id | _ => None end.
Definition item_exec (i : Item) : option string :=
  match i with IExec id => Some id | _ => None end.
Definition sets (q : list Item) : list string := omap item_set q.
Definition execs (q : list Item) : list string := omap item_exec q.

(** In a queue, the status update of an id never comes after the
    execution of that id. *)
Fixpoint ordered (q : list Item) : Prop :=
  match q with
  | [] => True
  | ISet _ :: q' => ordered q'
  | IExec id :: q' => (ISet id ∉ q') ∧ ordered q'
  end.

(** What holds of the store, the trace and the queue in every state the
    runner can reach. *)
Record Good (s : ActionRunner) (f : Front) : Prop := {
  good_closure : ∀ id r, actions s !! id = Some r →
    abort r = {| ac_controller := abortSignal r; ac_actionId := id |}
    ∧ abortSignal r < length (controllers s);
  good_signal_inj : ∀ id id' r r',
    actions s !! id = Some r → actions s !! id' = Some r' →
    abortSignal r = abortSignal r' → id = id';
  good_task : ∀ t, t ∈ suspended s →
    ∃ r, actions s !! t_actionId t = Some r
         ∧ abortSignal (t_action t) = abortSignal r;
  good_runs : runs (trace s) = begun (trace s) ++ execs (queue f);
  good_runs_nodup : NoDup (runs (trace s));
  good_executed : ∀ id, id ∈ runs (trace s) →
    ∃ r, actions s !! id = Some r ∧ executed r = true;
  good_serial :
    serial_from None (trace s) = Some (t_actionId <$> head (suspended s));
  good_sets_nodup : NoDup (sets (queue f));
  good_sets_present : ∀ id, ISet id ∈ queue f → is_Some (actions s !! id);
  good_ordered : ordered (queue f);
  good_begun : ∀ id, id ∈ begun (trace s) → ISet id ∉ queue f;
  good_ended : ∀ id, id ∈ ended (trace s) → id ∈ begun (trace s);
  good_inflight : ∀ t, t ∈ suspended s →
    t_actionId t ∈ begun (trace s) ∧ t_actionId t ∉ ended (trace s);
  good_status : ∀ id r, actions s !! id = Some r →
    controllers s !! abortSignal r = Some false →
    (ISet id ∈ queue f ↔ status r = Pending)
    ∧ (id ∈ ended (trace s) ↔ terminal (status r) = true)
    ∧ status r ≠ Aborted;
}.

Definition Inv (s : ActionRunner) : Prop :=
  ∃ hist f, Repr s hist f ∧ Good s f.

(** How one tick moves the front; [present] tells whether the store
    holds the id whose execution is at the head. *)
Definition tick_front (present : bool) (hist : list Settlement) (f : Front)
    : list Settlement * Front :=
  match f with
  | FIdle c (_ :: sets) => (hist, FIdle c sets)
  | FJobs (_ :: sets) i rest => (hist, FJobs sets i rest)
  | FJobs [] i rest =>
      if present then (hist, FTask rest)
      else (hist ++ [Rejected (ErrorObj "TypeError")],
            FCatch (Rejected (ErrorObj "TypeError")) rest)
  | FCatch v (Last sets) => (hist ++ [Fulfilled], FIdle (length hist) sets)
  | FCatch v (Seg sets i rest) => (hist ++ [Fulfilled], FJobs sets i rest)
  | _ => (hist, f)
  end.

Definition front_pre (hist : list Settlement) (f : Front) : list PromiseState :=
  map Settled hist ++
  match f with
  | FJobs _ _ _ | FTask _ => [PendingP [catch_reaction (S (length hist))]]
  | _ => []
  end.

Definition front_chain (f : Front) : option Chain :=
  match f with
  | FIdle _ _ => None
  | FJobs _ _ r | FTask r | FCatch _ r => Some r
  end.

Definition same_task (g : Task → Task) : Prop :=
  ∀ t, t_actionId (g t) = t_actionId t ∧ t_action (g t) = t_action t
       ∧ t_promise (g t) = t_promise t.

(** The status [#executeAction] stores when the handler is over. *)
Definition final_update (s : ActionRunner) (t : Task) (o : Outcome unit) : ActionStateUpdate :=
  match o with
  | Threw e => failed_update (error_message e)
  | _ => status_update
           (if default false (controllers s !! abortSignal (t_action t))
            then Aborted else Complete)
  end.

Definition failure_of (o : Outcome unit) : option Thrown :=
  match o with Threw e => Some e | _ => None end.

(** ** Vocabulary of the statements *)

(** The moves of the status state machine: a record appears as
    [Pending], goes to [Running], and from there to [Complete] or
    [Failed]. *)
Definition status_step_ok (old new : option ActionStatus) : Prop :=
  new = old
  ∨ (old = None ∧ new = Some Pending)
  ∨ (old = Some Pending ∧ new = Some Running)
  ∨ (old = Some Running ∧ (new = Some Complete ∨ new = Some Failed)).

Definition callback_target (cb : Callback) : option string :=
  match cb with
  | CbSetRunning id | CbExecute id => Some id
  | CbLogError => None
  end.

(** The action id a job updates, if its callback runs. *)
Definition job_target (j : Job) : option string :=
  match j with
  | (OnFulfilled cb _, Fulfilled) | (OnRejected cb _, Rejected _) => callback_target cb
  | _ => None
  end.

(** [folder] of [#importRepository]: [action.targetPath || '.'] *)
Definition import_folder (targetPath : string) : string :=
  if is_empty targetPath then "." else targetPath.

Section Vocabulary.
Context `{WC : WebContainer} `{NP : NodePath}.

(** The action id an event operates on. *)
Definition target (sys : System) (ev : Event) : option string :=
match ev with
| EvAdd data | EvRun data => Some (actionId data)
| EvAbort id => Some id
| EvTick => head (microtasks (runner sys)) ≫= job_target
| EvSettle k => t_actionId <$> suspended (runner sys) !! k
end.

(** [#importRepository] up to and including the files [files]. *)
Definition import_prefix (targetPath : string) (files : list ImportFile) : Async unit :=
let folder := import_folder targetPath in
(if negb (String.eqb folder ".") then mkdir folder else ret tt);;
for_of files (import_file folder).

End Vocabulary.

(** [a'] is [a] with another status or error, nothing else. *)
Definition status_only (a a' : ActionState) : Prop :=
  descriptor a' = descriptor a ∧ executed a' = executed a
  ∧ abort a' = abort a ∧ abortSignal a' = abortSignal a.

(** Two stores with the same ids, whose records differ in status or
    error at most. *)
Definition same_records (m m' : gmap string ActionState) : Prop :=
  ∀ y, match m !! y, m' !! y with
       | Some a, Some a' => status_only a a'
       | None, None => True
       | _, _ => False
       end.

(** The record of [id] is enqueued with descriptor [D], its signal [c]
    is raised, and no call suspended for [id] has had its process
    killed. *)
Definition raised_before_run (id : string) (c : nat) (D : BoltAction)
    (s : ActionRunner) : Prop :=
  (∃ r, actions s !! id = Some r ∧ abortSignal r = c ∧ descriptor r = D
        ∧ executed r = true)
  ∧ controllers s !! c = Some true
  ∧ ∀ t, t ∈ suspended s → t_actionId t = id →
         t_killed t = false ∧ abortSignal (t_action t) = c
         ∧ descriptor (t_action t) = D.

(** ** Example runs *)

Module Examples.
Import MemBox.

Definition data (id : string) (a : BoltAction) : ActionCallbackData :=
  {| messageId := "msg-1"; actionId := id; action := a |}.

(** The events that add an action, enqueue it and let the runtime reach
    its handler. *)
Definition dispatch (d : ActionCallbackData) : list Event :=
  [EvAdd d; EvTick; EvRun d; EvTick].

(** A file action below a read-only directory: [mkdir] and [writeFile]
    both fail. *)
Definition locked_world : world :=
  {| files := ∅; dirs := []; readonly := ["/home/project/locked"]; programs := [] |}.
Definition locked_file : BoltAction :=
  FileAction "/home/project/locked/src/a.txt" "hi".
Definition file_sys : System :=
  Eval vm_compute in
  run_events (boot_system Booted locked_world) (dispatch (data "0" locked_file)).

(** An import of two files, the directory of the second being
    read-only. *)
Definition half_locked_world : world :=
  {| files := ∅; dirs := []; readonly := ["./locked"]; programs := [] |}.
Definition two_files : list ImportFile :=
  [{| path := "a.txt"; content := "A" |}; {| path := "locked/b.txt"; content := "B" |}].
Definition import_sys : System :=
  Eval vm_compute in
  run_events (boot_system Booted half_locked_world)
    (dispatch (data "0" (ImportAction "" two_files (Some ["npm install"])))).

(** An import whose second post-import command exits with 2. *)
Definition build_world : world :=
  {| files := ∅; dirs := []; readonly := [];
     programs := [("npm install", λ _, ExitsAt 900 0); ("npm run build", λ _, ExitsAt 1200 2)] |}.
Definition post_sys : System :=
  Eval vm_compute in
  run_events (boot_system Booted build_world)
    (dispatch (data "0" (ImportAction "" [{| path := "a.txt"; content := "A" |}]
                           (Some ["npm install"; "npm run build"; "npm test"])))).

(** Shell commands: [false] exits with 1 at once; [npm install] exits
    with 1 after a second; [next dev] is killed after a minute. *)
Definition shell_world : world :=
  {| files := ∅; dirs := []; readonly := [];
     programs := [("false", λ _, ExitsAt 3 1);
                  ("npm install", λ _, ExitsAt 1000 1);
                  ("npx next dev", λ _, ExitsAt 60000 143)] |}.
Definition shell_sys (cmd : string) : System :=
  run_events (boot_system Booted shell_world) (dispatch (data "0" (ShellAction cmd))).
Definition false_sys : System := Eval vm_compute in shell_sys "false".
Definition npm_sys : System := Eval vm_compute in shell_sys "npm install".
Definition next_sys : System := Eval vm_compute in shell_sys "npx next dev".

(** Two actions added and enqueued, the first one in its handler. *)
Definition two_sys : System :=
  Eval vm_compute in
  run_events (boot_system Booted shell_world)
    [EvAdd (data "0" (ShellAction "false")); EvAdd (data "1" (ShellAction "npm install"));
     EvRun (data "0" (ShellAction "false")); EvRun (data "1" (ShellAction "npm install"));
     EvTick; EvTick; EvTick].

(** The workbench store with one artifact and the action ["0"] added to
    its runner. *)
Definition store_with_action : option Workbench.WorkbenchStore :=
  Eval vm_compute in
  match Workbench.addAction (data "0" (ShellAction "false"))
          (Workbench.addArtifact
             {| Workbench.messageId := "msg-1"; Workbench.cb_title := "Demo";
                Workbench.cb_id := "demo" |}
             (Workbench.empty_store Booted)) with
  | inr st => Some st
  | inl _ => None
  end.

(** The runner of the first artifact of a store, with a sandbox. *)
Definition system_of (st : Workbench.WorkbenchStore) (w : world) : option System :=
  (λ r, {| runner := r; sandbox := w; calls := []; waiting := None |}) <$> Workbench.instances st !! 0.

Definition file_a : ActionCallbackData := data "0" (FileAction "/home/project/a.txt" "hi").
Definition shell_b : ActionCallbackData := data "1" (ShellAction "npm install").

(** A file action run to completion. *)
Definition complete_events : list Event :=
  dispatch file_a ++ [EvSettle 0; EvTick; EvTick].

(** A second action is added while the first is in its handler, and
    aborted before the chain reaches its scheduled status update. *)
Definition aborted_pending_events : list Event :=
  dispatch file_a ++ [EvAdd shell_b; EvAbort "1"].

(** An action aborted before it is enqueued, then enqueued and
    dispatched. *)
Definition abort_then_run_events : list Event :=
  [EvAdd file_a; EvAbort "0"; EvRun file_a; EvTick; EvTick].

Definition start : System := boot_system Booted empty_world.

(** The call suspended in [two_sys]. *)
Definition two_task : Task :=
  Eval vm_compute in
  match suspended (runner two_sys) with
  | t :: _ => t
  | [] => {| t_actionId := ""; t_killed := false; t_promise := None;
             t_action := {| descriptor := ShellAction ""; status := Pending;
                            executed := false; abortSignal := 0; error := None;
                            abort := {| ac_controller := 0; ac_actionId := "" |} |} |}
  end.

End Examples.

(** * More of the code

    The rest of the development covers what the runner and the workbench
    store do beyond the statements above, and three smaller modules of
    the application: the grouping of history items by date, the chat
    store, and the import of a local directory. *)

(** ** More vocabulary for the runner *)

(** [r'] is a later state of the record [r]: the same cancellation
    handle, and, once executed, the same descriptor. *)
Definition later_record (r r' : ActionState) : Prop :=
  abort r' = abort r ∧ abortSignal r' = abortSignal r
  ∧ (executed r = true → executed r' = true ∧ descriptor r' = descriptor r).

(** A terminal status is backed by the trace: [Complete] by a handler
    of the id that returned, [Failed] by one that threw the error whose
    message the record holds. *)
Definition earned (t : list Obs) (id : string) (r : ActionState) : Prop :=
  (status r = Complete → ObsSettle id None ∈ t)
  ∧ (status r = Failed →
     ∃ e, ObsSettle id (Some e) ∈ t ∧ error r = Some (error_message e)).

(** What [then] and [catch] leave alone. *)
Definition same_fields (s s' : ActionRunner) : Prop :=
  actions s' = actions s ∧ controllers s' = controllers s ∧ trace s' = trace s
  ∧ suspended s' = suspended s ∧ webcontainer s' = webcontainer s.

(** How many steps of the runtime a chain and a front still need. *)
Fixpoint chain_size (c : Chain) : nat :=
  match c with
  | Last sets => length sets
  | Seg sets _ rest => length sets + 3 + chain_size rest
  end.

Definition front_size (f : Front) : nat :=
  match f with
  | FIdle _ sets => length sets
  | FJobs sets _ rest => length sets + 3 + chain_size rest
  | FTask rest => 2 + chain_size rest
  | FCatch _ rest => 1 + chain_size rest
  end.

(** An event of the runtime itself: a microtask, or the completion of
    the handler in flight. *)
Definition runtime_event (ev : Event) : Prop := ev = EvTick ∨ ev = EvSettle 0.

Section HandlerPlans.
Context `{WC : WebContainer} `{NP : NodePath}.

(** The calls a handler makes when nothing goes wrong. *)
Definition file_plan (filePath content : string) : list Call :=
  let folder := strip_trailing_slashes (dirname filePath) in
  (if String.eqb folder "." then [] else [CMkdir folder])
  ++ [CWriteFile filePath content].

Definition import_file_plan (folder : string) (file : ImportFile) : list Call :=
  let filePath := folder +:+ "/" +:+ path file in
  (if String.eqb (dirname filePath) "." then [] else [CMkdir (dirname filePath)])
  ++ [CWriteFile filePath (content file)].

Definition import_plan (targetPath : string) (files : list ImportFile)
    (postImportCommands : option (list string)) : list Call :=
  let folder := import_folder targetPath in
  (if String.eqb folder "." then [] else [CMkdir folder])
  ++ flat_map (import_file_plan folder) files
  ++ map CSpawn (default [] postImportCommands).

Definition handler_plan (a : BoltAction) : list Call :=
  match a with
  | ShellAction c => [CSpawn c]
  | FileAction p c => file_plan p c
  | ImportAction t fs cs => import_plan t fs cs
  end.

(** The computation [m] makes the calls of [plan] in order, stopping
    early only when it does not return. *)
Definition follows {A} (m : Async A) (plan : list Call) : Prop :=
  ∀ w, (m w).2 `prefix_of` plan ∧ ∀ a, (m w).1.1 = Done a → (m w).2 = plan.


(** The runtime is through with a runner: nothing queued, nothing in
    flight, every enqueued execution begun and ended. *)
Definition drained (sys : System) : Prop :=
  microtasks (runner sys) = [] ∧ suspended (runner sys) = []
  ∧ begun (trace (runner sys)) = runs (trace (runner sys))
  ∧ ended (trace (runner sys)) = runs (trace (runner sys)).

(** The handler in flight never settles. *)
Definition stuck (sys : System) : Prop :=
  ∃ t, suspended (runner sys) = [t]
       ∧ (run_handler (webcontainer (runner sys)) (t_killed t) (t_action t)
            (sandbox sys)).1.1 = Hangs.

End HandlerPlans.

(** ** Calls on the workbench store *)

Module WorkbenchCalls.
Import Workbench.

(** [#getArtifact(id)] *)
Definition getArtifact (id : string) (s : WorkbenchStore) : option ArtifactState :=
  artifacts s !! id.

(** The getter [firstArtifact]: [this.#getArtifact(this.artifactIdList[0])].
    On an empty list the index gives [undefined], which as a property
    key is the string ["undefined"]. *)
Definition firstArtifact (s : WorkbenchStore) : option ArtifactState :=
  getArtifact (default "undefined" (head (artifactIdList s))) s.

(** What happens to a store: the four methods that touch the artifact
    registry, the runtime advancing the runner of an artifact (a
    microtask, or a handler completing), and, in development, a hot
    reload of the module, which replaces the store by a new one. *)
Inductive StoreCall :=
| CallAddArtifact (data : ArtifactCallbackData)
| CallUpdateArtifact (data : ArtifactCallbackData) (state : ArtifactUpdate)
| CallAddAction (data : ActionCallbackData)
| CallRunAction (data : ActionCallbackData)
| RunnerAdvances (i : nat) (f : ActionRunner → ActionRunner)
| ModuleReloaded.

(** A rejected call leaves the store as it was. *)
Definition store_step (s : WorkbenchStore) (c : StoreCall) : WorkbenchStore :=
  match c with
  | CallAddArtifact data => addArtifact data s
  | CallUpdateArtifact data state => updateArtifact data state s
  | CallAddAction data =>
      match addAction data s with inr s' => s' | inl _ => s end
  | CallRunAction data =>
      match runAction data s with inr (_, s') => s' | inl _ => s end
  | RunnerAdvances i f => on_instance i f s
  | ModuleReloaded => new_store (container s) (Some s)
  end.

Definition store_run (s : WorkbenchStore) (cs : list StoreCall) : WorkbenchStore :=
  fold_left store_step cs s.

(** What holds of the registry whatever happened: the id list names
    artifacts of the map, each once; every artifact owns a runner that
    exists, and no two artifacts own the same. *)
Definition registry_sound (s : WorkbenchStore) : Prop :=
  NoDup (artifactIdList s)
  ∧ (∀ m, m ∈ artifactIdList s → is_Some (artifacts s !! m))
  ∧ (∀ m a, artifacts s !! m = Some a → runner a < length (instances s))
  ∧ (∀ m m' a a', artifacts s !! m = Some a → artifacts s !! m' = Some a' →
                  runner a = runner a' → m = m').

(** What holds as long as the module has not been reloaded: the id list
    names each artifact once, in creation order, and the [n]-th
    artifact created owns the [n]-th runner. *)
Definition registry_ok (s : WorkbenchStore) : Prop :=
  NoDup (artifactIdList s)
  ∧ (∀ m, m ∈ artifactIdList s ↔ is_Some (artifacts s !! m))
  ∧ length (instances s) = length (artifactIdList s)
  ∧ (∀ m a, artifacts s !! m = Some a → artifactIdList s !! runner a = Some m).

(** Two updates in a row, as one: the keys of the later win. *)
Definition merge_update (u1 u2 : ArtifactUpdate) : ArtifactUpdate :=
  {| u_title := match u_title u2 with Some t => Some t | None => u_title u1 end;
     u_closed := match u_closed u2 with Some c => Some c | None => u_closed u1 end |}.

End WorkbenchCalls.

(** ** The stores behind the workbench store

    The files store and the editor store are external.  Of the files
    store the workbench store uses [getFile(path)?.content],
    [saveFile(path, content)] and [clearFiles()], the last two of which
    may reject; of the editor store the [documents] map, the
    [currentDocument] atom and [updateFile(path, content)]. *)

Class FilesStore := {
  Files : Type;
  files_getFile : Files → string → option string;
  files_saveFile : Files → string → string → option Thrown * Files;
  files_clearFiles : Files → option Thrown * Files;
}.

(** An [EditorDocument], by the two fields the workbench store reads. *)
Record EditorDocument := { doc_filePath : string; doc_value : string }.

Class EditorStore := {
  Editor : Type;
  editor_documents : Editor → string → option EditorDocument;
  editor_currentDocument : Editor → option EditorDocument;
  editor_updateFile : Editor → string → string → Editor;
}.


(** ** Unsaved files *)

Module Documents.

(** A [Set<string>]: its elements once each, in insertion order. *)
Definition set_has (x : string) (s : list string) : bool := bool_decide (x ∈ s).
Definition set_add (x : string) (s : list string) : list string :=
  if set_has x s then s else s ++ [x].
Definition set_delete (x : string) (s : list string) : list string :=
  filter (λ y, y ≠ x) s.

Section Documents.
Context `{FS : FilesStore} `{ES : EditorStore}.

(** The part of the workbench store the document methods touch. *)
Record DocumentState := {
  filesStore : Files;
  editorStore : Editor;
  unsavedFiles : list string;
}.

Definition set_unsavedFiles (s : list string) (st : DocumentState) : DocumentState :=
  {| filesStore := filesStore st; editorStore := editorStore st; unsavedFiles := s |}.

(** [setCurrentDocumentContent(newContent)] *)
Definition setCurrentDocumentContent (newContent : string) (st : DocumentState)
    : DocumentState :=
  match editor_currentDocument (editorStore st) with
  | None => st
  | Some document =>
      let filePath := doc_filePath document in
      if is_empty filePath then st
      else
        let originalContent := files_getFile (filesStore st) filePath in
        let unsavedChanges :=
          match originalContent with
          | Some c => negb (String.eqb c newContent)
          | None => false
          end in
        let st1 :=
          {| filesStore := filesStore st;
             editorStore := editor_updateFile (editorStore st) filePath newContent;
             unsavedFiles := unsavedFiles st |} in
        match editor_currentDocument (editorStore st1) with
        | None => st1
        | Some currentDocument =>
            let previousUnsavedFiles := unsavedFiles st1 in
            if unsavedChanges && set_has (doc_filePath currentDocument) previousUnsavedFiles
            then st1
            else
              set_unsavedFiles
                (if unsavedChanges
                 then set_add (doc_filePath currentDocument) previousUnsavedFiles
                 else set_delete (doc_filePath currentDocument) previousUnsavedFiles)
                st1
        end
  end.

(** [saveFile(filePath)]; the first component is the rejection, if
    any, of the promise it returns. *)
Definition saveFile (filePath : string) (st : DocumentState)
    : option Thrown * DocumentState :=
  match editor_documents (editorStore st) filePath with
  | None => (None, st)
  | Some document =>
      match files_saveFile (filesStore st) filePath (doc_value document) with
      | (Some e, fs) =>
          (Some e, {| filesStore := fs; editorStore := editorStore st;
                      unsavedFiles := unsavedFiles st |})
      | (None, fs) =>
          (None, {| filesStore := fs; editorStore := editorStore st;
                    unsavedFiles := set_delete filePath (unsavedFiles st) |})
      end
  end.

(** [saveCurrentDocument()] *)
Definition saveCurrentDocument (st : DocumentState) : option Thrown * DocumentState :=
  match editor_currentDocument (editorStore st) with
  | None => (None, st)
  | Some currentDocument => saveFile (doc_filePath currentDocument) st
  end.

(** [resetCurrentDocument()] *)
Definition resetCurrentDocument (st : DocumentState) : DocumentState :=
  match editor_currentDocument (editorStore st) with
  | None => st
  | Some currentDocument =>
      match files_getFile (filesStore st) (doc_filePath currentDocument) with
      | None => st
      | Some content => setCurrentDocumentContent content st
      end
  end.

(** The loop of [saveAllFiles] over the paths of the set it started
    from. *)
Fixpoint save_each (paths : list string) (st : DocumentState)
    : option Thrown * DocumentState :=
  match paths with
  | [] => (None, st)
  | filePath :: paths' =>
      match saveFile filePath st with
      | (Some e, st') => (Some e, st')
      | (None, st') => save_each paths' st'
      end
  end.

(** [saveAllFiles()] *)
Definition saveAllFiles (st : DocumentState) : option Thrown * DocumentState :=
  save_each (unsavedFiles st) st.

(** The mark of [q] survives the saving of the files [saved]. *)
Definition stays_unsaved (editor : Editor) (saved : list string) (q : string) : Prop :=
  ¬ (q ∈ saved ∧ is_Some (editor_documents editor q)).

End Documents.
End Documents.

(** ** Importing a local directory into the workbench

    [importLocalRepo] of the workbench store walks a directory handle of
    the browser twice, first to count the files and then to read them
    into the files store, and reports its progress through the
    [importStatus] atom. *)

Module LocalImport.

(** What [getFile()] resolves to: the size in bytes, what [text()]
    gives, and what reading the stream gives, chunk by chunk, each
    chunk decoded on its own. *)
Record LocalFile := {
  size : Z;
  text : Thrown + string;
  stream : Thrown + list string;
}.

(** A handle of the File System Access API.  Iterating the [values()]
    of a directory yields its entries, name and handle, and may then
    fail. *)
Inductive Handle :=
| FileHandle (getFile : Thrown + LocalFile)
| DirectoryHandle (values : list (string * Handle)) (fails : option Thrown).

Inductive Stage :=
| StageImporting | StageInstalling | StageStarting | StageComplete | StageError.

Record ImportStatus := {
  stage : Stage;
  message : string;
  progress : option (nat * nat);   (* [{ current, total }] *)
}.

Inductive WorkbenchViewType := CodeView | PreviewView.

Section Importing.
Context `{FS : FilesStore}.

(** The part of the workbench store the import touches.  [statusLog]
    and [saveLog] record every value set on [importStatus] and every
    call of [saveFile], in order. *)
Record ImportState := {
  filesStore : Files;
  importStatus : option ImportStatus;
  showWorkbench : bool;
  currentView : WorkbenchViewType;
  statusLog : list ImportStatus;
  saveLog : list (string * string);
}.

(** An async method of the store: it throws or returns, and leaves a
    state. *)
Definition Imp (A : Type) : Type := ImportState → (Thrown + A) * ImportState.

#[global] Instance Imp_ret : MRet Imp := λ A a st, (inr a, st).
#[global] Instance Imp_bind : MBind Imp := λ A B k m st,
  match m st with
  | (inr a, st1) => k a st1
  | (inl e, st1) => (inl e, st1)
  end.

Definition imp_throw {A} (e : Thrown) : Imp A := λ st, (inl e, st).

(** [try { m } catch (error) { h error }] *)
Definition imp_try {A} (m : Imp A) (h : Thrown → Imp A) : Imp A :=
  λ st, match m st with
        | (inl e, st1) => h e st1
        | r => r
        end.

(** Awaiting a promise that is already settled one way or the other. *)
Definition imp_await {A} (x : Thrown + A) : Imp A :=
  match x with inl e => imp_throw e | inr a => mret a end.

(** [this.importStatus.set(status)] *)
Definition set_importStatus (status : ImportStatus) : Imp unit :=
  λ st, (inr tt,
         {| filesStore := filesStore st; importStatus := Some status;
            showWorkbench := showWorkbench st; currentView := currentView st;
            statusLog := statusLog st ++ [status]; saveLog := saveLog st |}).

(** [this.setShowWorkbench(show)] *)
Definition setShowWorkbench (show : bool) : Imp unit :=
  λ st, (inr tt,
         {| filesStore := filesStore st; importStatus := importStatus st;
            showWorkbench := show; currentView := currentView st;
            statusLog := statusLog st; saveLog := saveLog st |}).

(** [this.currentView.set(view)] *)
Definition set_currentView (view : WorkbenchViewType) : Imp unit :=
  λ st, (inr tt,
         {| filesStore := filesStore st; importStatus := importStatus st;
            showWorkbench := showWorkbench st; currentView := view;
            statusLog := statusLog st; saveLog := saveLog st |}).

(** [await this.#filesStore.clearFiles()] *)
Definition store_clearFiles : Imp unit :=
  λ st, let '(r, fs) := files_clearFiles (filesStore st) in
        (match r with Some e => inl e | None => inr tt end,
         {| filesStore := fs; importStatus := importStatus st;
            showWorkbench := showWorkbench st; currentView := currentView st;
            statusLog := statusLog st; saveLog := saveLog st |}).

(** [await this.#filesStore.saveFile(path, content)] *)
Definition store_saveFile (path content : string) : Imp unit :=
  λ st, let '(r, fs) := files_saveFile (filesStore st) path content in
        (match r with Some e => inl e | None => inr tt end,
         {| filesStore := fs; importStatus := importStatus st;
            showWorkbench := showWorkbench st; currentView := currentView st;
            statusLog := statusLog st; saveLog := saveLog st ++ [(path, content)] |}).

(** [entry.name === 'node_modules' || entry.name.startsWith('.')] *)
Definition skipped (name : string) : bool :=
  String.eqb name "node_modules" || String.prefix "." name.

(** [countFiles(dirHandle)]: the closure counts into [totalFiles],
    which is passed along here; [inl] when iterating a directory
    fails. *)
Fixpoint countFiles (dirHandle : Handle) (totalFiles : nat) : Thrown + nat :=
  match dirHandle with
  | FileHandle _ => inr totalFiles
  | DirectoryHandle values fails =>
      (fix loop (entries : list (string * Handle)) (totalFiles : nat) : Thrown + nat :=
         match entries with
         | [] => match fails with Some e => inl e | None => inr totalFiles end
         | (name, entry) :: entries' =>
             if skipped name then loop entries' totalFiles
             else
               match entry with
               | FileHandle _ => loop entries' (S totalFiles)
               | DirectoryHandle _ _ =>
                   match countFiles entry totalFiles with
                   | inl e => inl e
                   | inr n => loop entries' n
                   end
               end
         end) values totalFiles
  end.

Definition large_file : Z := 10 * 1024 * 1024.
Definition chunked_file : Z := 1024 * 1024.

Definition importing (msg : string) (current total : nat) : ImportStatus :=
  {| stage := StageImporting; message := msg; progress := Some (current, total) |}.

(** The content of a file: by chunks of its stream when it is larger
    than 1MB, [chunks.join('')], else by [file.text()]. *)
Definition read_content (file : LocalFile) : Thrown + string :=
  if (chunked_file <? size file)%Z
  then match stream file with
       | inl e => inl e
       | inr chunks => inr (String.concat "" chunks)
       end
  else text file.

(** [path ? `${path}/${entry.name}` : entry.name] *)
Definition entry_path (path name : string) : string :=
  if is_empty path then name else path +:+ "/" +:+ name.

(** The body of [readDirectory] for an entry that is a file, the
    counter [currentFiles] being passed along. *)
Definition read_file (totalFiles : nat) (entryPath : string)
    (getFile : Thrown + LocalFile) (currentFiles : nat) : Imp nat :=
  imp_try
    (file ← imp_await getFile;
     if (large_file <? size file)%Z
     then
       set_importStatus
         (importing "Importing project files..." (S currentFiles) totalFiles);;
       mret (S currentFiles)
     else
       content ← imp_await (read_content file);
       store_saveFile ("/home/project/" +:+ entryPath) content;;
       set_importStatus
         (importing "Importing project files..." (S currentFiles) totalFiles);;
       mret (S currentFiles))
    (λ _,
       set_importStatus
         (importing ("Skipped file " +:+ entryPath +:+ " due to error")
            (S currentFiles) totalFiles);;
       mret (S currentFiles)).

(** [readDirectory(dirHandle, path)] *)
Fixpoint readDirectory (totalFiles : nat) (dirHandle : Handle) (path : string)
    (currentFiles : nat) : Imp nat :=
  match dirHandle with
  | FileHandle _ => mret currentFiles
  | DirectoryHandle values fails =>
      (fix loop (entries : list (string * Handle)) (currentFiles : nat) : Imp nat :=
         match entries with
         | [] => match fails with Some e => imp_throw e | None => mret currentFiles end
         | (name, entry) :: entries' =>
             if skipped name then loop entries' currentFiles
             else
               let entryPath := entry_path path name in
               match entry with
               | FileHandle getFile =>
                   n ← read_file totalFiles entryPath getFile currentFiles;
                   loop entries' n
               | DirectoryHandle _ _ =>
                   n ← readDirectory totalFiles entry entryPath currentFiles;
                   loop entries' n
               end
         end) values currentFiles
  end.

(** [importLocalRepo(directoryHandle)] *)
Definition importLocalRepo (directoryHandle : Handle) : Imp bool :=
  imp_try
    (store_clearFiles;;
     totalFiles ← imp_await (countFiles directoryHandle 0);
     set_importStatus (importing "Importing project files..." 0 totalFiles);;
     readDirectory totalFiles directoryHandle "" 0;;
     setShowWorkbench true;;
     set_currentView CodeView;;
     set_importStatus
       {| stage := StageComplete; message := "Project imported successfully!";
          progress := None |};;
     mret true)
    (λ error,
       set_importStatus
         {| stage := StageError; message := "Failed to import repository";
            progress := None |};;
       imp_throw error).




(** The file entries an import visits, in the order of the walk, each
    with its path below the root: those not below an entry named
    [node_modules] or starting with a dot. *)
Fixpoint visited (dirHandle : Handle) (path : string)
    : list (string * (Thrown + LocalFile)) :=
  match dirHandle with
  | FileHandle _ => []
  | DirectoryHandle values _ =>
      (fix loop (entries : list (string * Handle)) :=
         match entries with
         | [] => []
         | (name, entry) :: entries' =>
             if skipped name then loop entries'
             else
               match entry with
               | FileHandle getFile => (entry_path path name, getFile) :: loop entries'
               | DirectoryHandle _ _ => visited entry (entry_path path name) ++ loop entries'
               end
         end) values
  end.

(** Every directory the walk enters can be listed. *)
Fixpoint listable (dirHandle : Handle) : bool :=
  match dirHandle with
  | FileHandle _ => true
  | DirectoryHandle values fails =>
      (fix loop (entries : list (string * Handle)) :=
         match entries with
         | [] => match fails with Some _ => false | None => true end
         | (name, entry) :: entries' =>
             if skipped name then loop entries'
             else listable entry && loop entries'
         end) values
  end.

(** What the import passes to [saveFile] for a visited file: nothing
    when the file cannot be read or is larger than 10MB. *)
Definition to_save (f : string * (Thrown + LocalFile)) : option (string * string) :=
  match f.2 with
  | inl _ => None
  | inr file =>
      if (large_file <? size file)%Z then None
      else match read_content file with
           | inl _ => None
           | inr content => Some ("/home/project/" +:+ f.1, content)
           end
  end.

(** The path of an entry from the names of the directories down to
    it, outermost first. *)
Definition path_of (names : list string) : string :=
  fold_left entry_path names "".

(** Going down from [h] by the entry names [names] leads to [target]. *)
Fixpoint reaches (h : Handle) (names : list string) (target : Handle) : Prop :=
  match names with
  | [] => h = target
  | name :: names' =>
      match h with
      | FileHandle _ => False
      | DirectoryHandle values _ =>
          ∃ entry, (name, entry) ∈ values ∧ reaches entry names' target
      end
  end.

(** A name a file system gives to an entry: not empty, no slash. *)
Fixpoint no_slash (s : string) : bool :=
  match s with
  | EmptyString => true
  | String c s' => negb (Ascii.eqb c "/") && no_slash s'
  end.

Definition plain (name : string) : bool := negb (is_empty name) && no_slash name.

(** Every entry below [h] has such a name. *)
Fixpoint plain_names (h : Handle) : bool :=
  match h with
  | FileHandle _ => true
  | DirectoryHandle values _ =>
      (fix loop (entries : list (string * Handle)) :=
         match entries with
         | [] => true
         | (name, entry) :: entries' => plain name && plain_names entry && loop entries'
         end) values
  end.

(** What follows the first name of a path. *)
Fixpoint path_tail (names : list string) : string :=
  match names with
  | [] => ""
  | name :: names' => "/" +:+ name +:+ path_tail names'
  end.
(** What walking over the visited files [fs] does to the state, the
    counter being [n] before: the files are saved in order, and each
    visited file sets one status with the next value of the counter. *)
Definition walked (total n : nat) (fs : list (string * (Thrown + LocalFile)))
    (st st' : ImportState) : Prop :=
  saveLog st' = saveLog st ++ omap to_save fs
  ∧ (∃ sts, statusLog st' = statusLog st ++ sts
            ∧ map progress sts = map (λ i, Some (i, total)) (seq (S n) (length fs))
            ∧ Forall (λ s, stage s = StageImporting) sts
            ∧ importStatus st'
              = match last sts with Some s => Some s | None => importStatus st end)
  ∧ showWorkbench st' = showWorkbench st ∧ currentView st' = currentView st.

Definition import_complete : ImportStatus :=
  {| stage := StageComplete; message := "Project imported successfully!";
     progress := None |}.
Definition import_error : ImportStatus :=
  {| stage := StageError; message := "Failed to import repository"; progress := None |}.

End Importing.
End LocalImport.

(** ** Grouping items by date ([date-binning.ts]) *)

Module DateBinning.

(** The library [date-fns], on the date of a timestamp:
    [isValid(new Date(timestamp))] and
    [format(new Date(timestamp), 'MMMM d, yyyy')]. *)
Class DateFns := {
  Number : Type;
  isValid : Number → bool;
  format : Number → string;
}.

(** A plain object used as a map: its own properties in creation
    order.  Every object inherits the properties of
    [Object.prototype]. *)
Definition inherited : list string :=
  ["constructor"; "__defineGetter__"; "__defineSetter__"; "hasOwnProperty";
   "__lookupGetter__"; "__lookupSetter__"; "isPrototypeOf"; "propertyIsEnumerable";
   "toString"; "valueOf"; "__proto__"; "toLocaleString"].

Fixpoint own {V} (o : list (string * V)) (key : string) : option V :=
  match o with
  | [] => None
  | (k, v) :: o' => if String.eqb k key then Some v else own o' key
  end.

(** What [o[key]] finds. *)
Inductive Property (V : Type) :=
| Own (v : V)
| Inherited
| Undefined.
Arguments Own {V} v.
Arguments Inherited {V}.
Arguments Undefined {V}.

Definition get {V} (o : list (string * V)) (key : string) : Property V :=
  match own o key with
  | Some v => Own v
  | None => if bool_decide (key ∈ inherited) then Inherited else Undefined
  end.

(** [o[key] = v] for a key that [o] does not inherit: an own property
    keeps its place, a new one comes last. *)
Fixpoint set {V} (o : list (string * V)) (key : string) (v : V) : list (string * V) :=
  match o with
  | [] => [(key, v)]
  | (k, v0) :: o' =>
      if String.eqb k key then (k, v) :: o' else (k, v0) :: set o' key v
  end.

(** A property key that is an array index: the canonical decimal
    numeral of an integer below 2^32 - 1. *)
Definition digit (c : ascii) : option N :=
  let n := N_of_ascii c in
  if ((48 <=? n) && (n <=? 57))%N then Some (n - 48)%N else None.

Fixpoint numeral (s : string) (acc : N) : option N :=
  match s with
  | EmptyString => Some acc
  | String c s' => d ← digit c; numeral s' (acc * 10 + d)%N
  end.

Definition array_index (key : string) : option N :=
  match key with
  | EmptyString => None
  | String "0" EmptyString => Some 0%N
  | String "0" _ => None
  | _ => v ← numeral key 0; if (v <=? 4294967294)%N then Some v else None
  end.

Definition index_le {V} (e1 e2 : string * V) : Prop :=
  (default 0 (array_index e1.1) ≤ default 0 (array_index e2.1))%N.

Global Instance index_le_dec {V} (e1 e2 : string * V) : Decision (index_le e1 e2).
Proof. unfold index_le. apply _. Defined.

(** [Object.entries(o)]: the array indices in ascending order, then
    the other keys in creation order. *)
Definition entries {V} (o : list (string * V)) : list (string * V) :=
  merge_sort index_le (filter (λ e, is_Some (array_index e.1)) o)
  ++ filter (λ e, ¬ is_Some (array_index e.1)) o.

Record DateBin (T : Type) := { date : string; items : list T }.
Arguments date {T} _.
Arguments items {T} _.

Section Binning.
Context `{DF : DateFns} {T : Type} (timestamp : T → Number).

(** [dateCategory(timestamp)] *)
Definition dateCategory (timestamp : Number) : string :=
  if negb (isValid timestamp) then "Invalid Date" else format timestamp.

(** The callback of [items.forEach]; it throws when [binsMap[category]]
    is not an array. *)
Definition bin_item (binsMap : list (string * list T)) (item : T)
    : Thrown + list (string * list T) :=
  let category := dateCategory (timestamp item) in
  let binsMap1 :=
    match get binsMap category with
    | Undefined => set binsMap category []
    | _ => binsMap
    end in
  match get binsMap1 category with
  | Own bin => inr (set binsMap1 category (bin ++ [item]))
  | _ => inl (ErrorObj "binsMap[category].push is not a function")
  end.

Fixpoint forEach (items : list T) (binsMap : list (string * list T))
    : Thrown + list (string * list T) :=
  match items with
  | [] => inr binsMap
  | item :: items' =>
      match bin_item binsMap item with
      | inl e => inl e
      | inr binsMap' => forEach items' binsMap'
      end
  end.

(** [binDates(items)] *)
Definition binDates (items : list T) : Thrown + list (DateBin T) :=
  match forEach items [] with
  | inl e => inl e
  | inr binsMap => inr (map (λ e, {| date := e.1; items := e.2 |}) (entries binsMap))
  end.




(** The elements of a list, once each, in the order of their first
    occurrence. *)
Definition first_seen (l : list string) : list string :=
  fold_left (λ seen x, if bool_decide (x ∈ seen) then seen else seen ++ [x]) l [].

(** The category of an item, and the items of one category in the
    order of the input. *)
Definition category (item : T) : string := dateCategory (timestamp item).

Definition of_category (c : string) (items : list T) : list T :=
  filter (λ item, category item = c) items.

(** The bins of [items] in the order their dates first occur. *)
Definition grouped (items : list T) : list (string * list T) :=
  map (λ c, (c, of_category c items)) (first_seen (map category items)).

(** The error [binsMap[category].push(item)] throws when the lookup
    finds an inherited property. *)
Definition push_error : Thrown := ErrorObj "binsMap[category].push is not a function".

End Binning.
End DateBinning.

(** ** The chat store *)

Module Chat.

Inductive Role := UserRole | AssistantRole.

Record Message := {
  id : string;
  content : string;
  role : Role;
  timestamp : Z;
}.

(** [Omit<Message, 'timestamp'>] *)
Record NewMessage := {
  new_id : string;
  new_content : string;
  new_role : Role;
}.

Record ChatStore := {
  started : bool;
  aborted : bool;
  showChat : bool;
  messages : list Message;
  pendingMessage : option Message;
  isGenerating : bool;
  error : option string;
  currentAssistantMessage : option string;
}.

Definition initialState : ChatStore :=
  {| started := false; aborted := false; showChat := true; messages := [];
     pendingMessage := None; isGenerating := false; error := None;
     currentAssistantMessage := None |}.

(** [clearChat()]: [chatStore.set(initialState)] *)
Definition clearChat (s : ChatStore) : ChatStore := initialState.

(** [addMessage(message)].  [now] is what [Date.now()] returned, [None]
    standing for [NaN]. *)
Definition addMessage (now : option Z) (message : NewMessage) (s : ChatStore) : ChatStore :=
  match now with
  | None => s
  | Some timestamp =>
      let newMessage :=
        {| id := new_id message; content := new_content message;
           role := new_role message; timestamp := timestamp |} in
      let currentMessages := messages s in
      {| started := started s; aborted := aborted s; showChat := showChat s;
         messages := currentMessages ++ [newMessage];
         pendingMessage := pendingMessage s; isGenerating := isGenerating s;
         error := error s; currentAssistantMessage := currentAssistantMessage s |}
  end.

(** A sequence of [addMessage] calls, each with the reading of the
    clock at the call. *)
Definition addMessages (calls : list (option Z * NewMessage)) (s : ChatStore) : ChatStore :=
  fold_left (λ s call, addMessage call.1 call.2 s) calls s.

(** The message a call stores. *)
Definition stamped (call : option Z * NewMessage) : option Message :=
  (λ t, {| id := new_id call.2; content := new_content call.2;
           role := new_role call.2; timestamp := t |}) <$> call.1.

End Chat.

(** ** The development server: the Chrome 129 check *)

Module ViteConfig.

(** [s] without the prefix [p], when it starts with [p]. *)
Fixpoint strip (p s : string) : option string :=
  match p, s with
  | EmptyString, _ => Some s
  | String a p', String b s' => if Ascii.eqb a b then strip p' s' else None
  | String _ _, EmptyString => None
  end.

Definition is_digit (c : ascii) : bool :=
  let n := N_of_ascii c in ((48 <=? n) && (n <=? 57))%N.

(** The longest run of digits [s] starts with, and what follows. *)
Fixpoint digits (s : string) : string * string :=
  match s with
  | String c s' =>
      if is_digit c then let '(ds, rest) := digits s' in (String c ds, rest)
      else (EmptyString, s)
  | EmptyString => (EmptyString, EmptyString)
  end.

(** [\/([0-9]+)\.] at the start of [s]: the digits captured.  The run
    of digits is taken whole: giving one back would leave a digit where
    the dot has to be. *)
Definition version_here (s : string) : option string :=
  r ← strip "/" s;
  let '(ds, r') := digits r in
  match ds with
  | EmptyString => None
  | String _ _ => match strip "." r' with Some _ => Some ds | None => None end
  end.

(** [/Chrom(e|ium)\/([0-9]+)\./] at the start of [s]: the second
    group.  The alternatives are tried in order. *)
Definition match_here (s : string) : option string :=
  r ← strip "Chrom" s;
  match strip "e" r ≫= version_here with
  | Some ds => Some ds
  | None => strip "ium" r ≫= version_here
  end.

(** [userAgent.match(/Chrom(e|ium)\/([0-9]+)\./)]: the leftmost match,
    by its second group. *)
Fixpoint match_version (s : string) : option string :=
  match match_here s with
  | Some ds => Some ds
  | None =>
      match s with
      | EmptyString => None
      | String _ s' => match_version s'
      end
  end.

(** [p] occurs in [s]. *)
Fixpoint occurs (p s : string) : bool :=
  match strip p s with
  | Some _ => true
  | None =>
      match s with
      | EmptyString => false
      | String _ s' => occurs p s'
      end
  end.

Fixpoint all_digits (s : string) : bool :=
  match s with
  | EmptyString => true
  | String c s' => is_digit c && all_digits s'
  end.

(** [parseInt(ds, 10)] of a string of digits. *)
Fixpoint parseInt_from (acc : N) (ds : string) : N :=
  match ds with
  | EmptyString => acc
  | String c ds' => parseInt_from (acc * 10 + (N_of_ascii c - 48))%N ds'
  end.
Definition parseInt (ds : string) : N := parseInt_from 0 ds.

(** What the middleware does with a request: it answers, or it calls
    [next()]. *)
Inductive Handled :=
| Answered (contentType body : string)
| Next.

Definition quote : string := String (ascii_of_nat 34) EmptyString.

Definition chrome129_page : string :=
  "<body><h1>Please use Chrome Canary for testing.</h1><p>Chrome 129 has an issue with JavaScript modules & Vite local development, see <a href="
  +:+ quote +:+ "https://github.com/stackblitz/bolt.new/issues/86#issuecomment-2395519258" +:+ quote
  +:+ ">for more information.</a></p><p><b>Note:</b> This only impacts <u>local development</u>. `pnpm run build` and `pnpm run start` will work fine in this browser.</p></body>".

(** The middleware of [chrome129IssuePlugin], on the [user-agent]
    header of the request. *)
Definition middleware (userAgent : option string) : Handled :=
  match userAgent ≫= match_version with
  | Some raw2 =>
      if (parseInt raw2 =? 129)%N then Answered "text/html" chrome129_page else Next
  | None => Next
  end.

End ViteConfig.

(** ** More example runs *)

Module MoreExamples.
Import MemBox Examples.

(** A watcher that never exits, killed or not, and a dev server. *)
Definition hang_world : world :=
  {| files := ∅; dirs := []; readonly := [];
     programs := [("tail -f out.log", λ _, NeverExits);
                  ("npm run dev", λ _, NeverExits)] |}.

Definition no_task : Task :=
  {| t_actionId := ""; t_killed := false; t_promise := None;
     t_action := {| descriptor := ShellAction ""; status := Pending;
                    executed := false; abortSignal := 0; error := None;
                    abort := {| ac_controller := 0; ac_actionId := "" |} |} |}.

Definition false_task : Task :=
  Eval vm_compute in default no_task (head (suspended (runner false_sys))).

(** The record of action ["0"] in [false_sys]. *)
Definition false_record : ActionState :=
  Eval vm_compute in default (t_action no_task) (actions (runner false_sys) !! "0").

(** Events after which the runner is [false_sys] and [hang_sys]. *)
Definition false_events : list Event := dispatch (data "0" (ShellAction "false")).

(** The record of action ["0"] once [false] has exited with code 1. *)
Definition failed_record : ActionState :=
  Eval vm_compute in
    default (t_action no_task)
      (actions (runner (run_events (boot_system Booted shell_world)
                          (false_events ++ [EvSettle 0]))) !! "0").

(** Two artifacts, an action added to the first. *)
Definition two_artifacts : list WorkbenchCalls.StoreCall :=
  [WorkbenchCalls.CallAddArtifact
     {| Workbench.messageId := "msg-1"; Workbench.cb_title := "Todo app";
        Workbench.cb_id := "todo" |};
   WorkbenchCalls.CallAddArtifact
     {| Workbench.messageId := "msg-2"; Workbench.cb_title := "Blog";
        Workbench.cb_id := "blog" |};
   WorkbenchCalls.CallAddAction (data "0" (ShellAction "false"))].

(** Stores in memory.  The files store holds contents by path; saving
    to a path of [unwritable] fails, and clearing fails when the store
    is [sealed]. *)
Record mem_files := {
  contents : gmap string string;
  unwritable : list string;
  sealed : bool;
}.

Definition eio (p : string) : Thrown := ErrorObj ("EIO: " +:+ p).

#[export] Instance mem_files_store : FilesStore :=
  {| Files := mem_files;
     files_getFile fs p := contents fs !! p;
     files_saveFile fs p c :=
       if bool_decide (p ∈ unwritable fs) then (Some (eio p), fs)
       else (None, {| contents := <[p := c]> (contents fs);
                      unwritable := unwritable fs; sealed := sealed fs |});
     files_clearFiles fs :=
       if sealed fs then (Some (eio "/"), fs)
       else (None, {| contents := ∅; unwritable := unwritable fs; sealed := false |}) |}.

(** The editor holds its documents by path and the selected path;
    [updateFile] replaces the value of a document it holds. *)
Record mem_editor := {
  docs : gmap string EditorDocument;
  selected : option string;
}.

#[export] Instance mem_editor_store : EditorStore :=
  {| Editor := mem_editor;
     editor_documents e p := docs e !! p;
     editor_currentDocument e := selected e ≫= λ p, docs e !! p;
     editor_updateFile e p c :=
       match docs e !! p with
       | Some d =>
           {| docs := <[p := {| doc_filePath := doc_filePath d; doc_value := c |}]> (docs e);
              selected := selected e |}
       | None => e
       end |}.

(** One file open in the editor, as the files store holds it. *)
Definition app_js : string := "/home/project/app.js".
Definition one_document : Documents.DocumentState :=
  {| Documents.filesStore :=
       {| contents := {[ app_js := "let x = 1" ]}; unwritable := []; sealed := false |};
     Documents.editorStore :=
       {| docs := {[ app_js := {| doc_filePath := app_js; doc_value := "let x = 1" |} ]};
          selected := Some app_js |};
     Documents.unsavedFiles := [] |}.

(** A local project: two sources, one of which cannot be read, a
    video of 20MB, a hidden file and a [node_modules] directory. *)
Definition small (t : string) : Thrown + LocalImport.LocalFile :=
  inr {| LocalImport.size := 10; LocalImport.text := inr t;
         LocalImport.stream := inr [t] |}.

Definition project : LocalImport.Handle :=
  LocalImport.DirectoryHandle
    [("src", LocalImport.DirectoryHandle
               [("index.ts", LocalImport.FileHandle (small "export {}"));
                ("broken.ts", LocalImport.FileHandle (inl (ErrorObj "NotReadableError")))]
               None);
     (".env", LocalImport.FileHandle (small "SECRET=1"));
     ("node_modules", LocalImport.DirectoryHandle
                        [("left-pad.js", LocalImport.FileHandle (small "module.exports"))]
                        None);
     ("demo.mp4", LocalImport.FileHandle
                    (inr {| LocalImport.size := 20971520; LocalImport.text := inr "";
                            LocalImport.stream := inr [] |}));
     ("README.md", LocalImport.FileHandle (small "# Demo"))]
    None.

(** A project whose directory cannot be listed. *)
Definition unlistable_project : LocalImport.Handle :=
  LocalImport.DirectoryHandle [] (Some (ErrorObj "NotAllowedError")).

Definition import_start (fs : mem_files) : LocalImport.ImportState :=
  {| LocalImport.filesStore := fs; LocalImport.importStatus := None;
     LocalImport.showWorkbench := false; LocalImport.currentView := LocalImport.PreviewView;
     LocalImport.statusLog := []; LocalImport.saveLog := [] |}.

Definition old_files : mem_files :=
  {| contents := {[ "/home/project/old.txt" := "old" ]}; unwritable := []; sealed := false |}.

(** [date-fns] for the examples, in UTC: a timestamp is a number of
    milliseconds or [NaN], valid within 8.64e15 ms of the epoch; the
    format is the name of the month, the day and the year. *)
Definition month_names : list string :=
  ["January"; "February"; "March"; "April"; "May"; "June"; "July"; "August";
   "September"; "October"; "November"; "December"].

(** The civil date of a day number counted from 1970-01-01. *)
Definition civil_from_days (days : Z) : Z * Z * Z :=
  let z := (days + 719468)%Z in
  let era := (z / 146097)%Z in
  let doe := (z - era * 146097)%Z in
  let yoe := ((doe - doe / 1460 + doe / 36524 - doe / 146096) / 365)%Z in
  let doy := (doe - (365 * yoe + yoe / 4 - yoe / 100))%Z in
  let mp := ((5 * doy + 2) / 153)%Z in
  let d := (doy - (153 * mp + 2) / 5 + 1)%Z in
  let m := (if (mp <? 10)%Z then mp + 3 else mp - 9)%Z in
  let y := (yoe + era * 400 + (if (m <=? 2)%Z then 1 else 0))%Z in
  (y, m, d).

Definition utc_format (t : option Z) : string :=
  match t with
  | None => "Invalid Date"
  | Some ms =>
      let '(y, m, d) := civil_from_days (ms / 86400000) in
      default "" (month_names !! Z.to_nat (m - 1)) +:+ " " +:+ pretty d +:+ ", " +:+ pretty y
  end.

#[export] Instance utc_dates : DateBinning.DateFns :=
  {| DateBinning.Number := option Z;
     DateBinning.isValid t :=
       match t with
       | Some ms => ((-8640000000000000 <=? ms) && (ms <=? 8640000000000000))%Z
       | None => false
       end;
     DateBinning.format := utc_format |}.

(** History items: two chats of 2 November 2026, one of the day
    before, one without a valid timestamp. *)
Definition history : list (string * option Z) :=
  [("chat-4", Some 1793620800000%Z); ("chat-3", Some 1793577600000%Z);
   ("chat-2", Some 1793491200000%Z); ("chat-1", None)].

(** The bins of [history]. *)
Definition history_bins : list (DateBinning.DateBin (string * option Z)) :=
  Eval vm_compute in
  match DateBinning.binDates snd history with
  | inr bins => bins
  | inl _ => []
  end.

(** The store after the first two calls of [two_artifacts], and its
    two artifacts. *)
Definition two_store : Workbench.WorkbenchStore :=
  WorkbenchCalls.store_run (Workbench.empty_store Booted) (take 2 two_artifacts).
Definition todo : Workbench.ArtifactState :=
  {| Workbench.id := "todo"; Workbench.title := "Todo app"; Workbench.closed := false;
     Workbench.runner := 0 |}.
Definition blog : Workbench.ArtifactState :=
  {| Workbench.id := "blog"; Workbench.title := "Blog"; Workbench.closed := false;
     Workbench.runner := 1 |}.

(** [one_document] after an edit. *)
Definition edited_document : Documents.DocumentState :=
  Eval vm_compute in Documents.setCurrentDocumentContent "let x = 2" one_document.

(** User agents of Chrome 129 and Chrome 130 on Linux. *)
Definition webkit_prefix : string :=
  "Mozilla/5.0 (X11; Linux x86_64) AppleWebKit/537.36 (KHTML, like Gecko) ".
Definition chrome129_agent : string :=
  webkit_prefix +:+ "Chrome/129.0.0.0 Safari/537.36".

End MoreExamples.

(** * Lemmas *)

Section Proofs.
Context `{WC : WebContainer} `{NP : NodePath}.

Lemma chain_cells_length base c : length (chain_cells base c) = S (chain_cur base c - base) ∧ base ≤ chain_cur base c.
Proof.
  revert base. induction c as [sets|sets id rest IH]; intros base; simpl.
  - split; [f_equal; lia | lia].
  - destruct (IH (S (S base))) as [-> ?]. split; lia.
Qed.

Lemma chain_lookup_cur pre c :
  (pre ++ chain_cells (length pre) c) !! chain_cur (length pre) c
  = Some (PendingP (map set_reaction (chain_last c))).
Proof.
  revert pre. induction c as [sets|sets id rest IH]; intros pre; simpl.
  - rewrite lookup_app_r by lia. by rewrite Nat.sub_diag.
  - specialize (IH (pre ++ [PendingP (map set_reaction sets ++ [exec_reaction id (S (length pre))]);
                          PendingP [catch_reaction (S (S (length pre)))]])).
    rewrite length_app in IH. simpl in IH.
    replace (length pre + 2) with (S (S (length pre))) in IH by lia.
    rewrite <- app_assoc in IH. exact IH.
Qed.

Lemma chain_insert_add pre c id :
  <[chain_cur (length pre) c :=
      PendingP (map set_reaction (chain_last c) ++ [set_reaction id])]>
    (pre ++ chain_cells (length pre) c)
  = pre ++ chain_cells (length pre) (chain_add id c).
Proof.
  revert pre. induction c as [sets|sets i rest IH]; intros pre; simpl.
  - rewrite insert_app_r_alt by lia. rewrite Nat.sub_diag. simpl.
    by rewrite map_app.
  - specialize (IH (pre ++ [PendingP (map set_reaction sets ++ [exec_reaction i (S (length pre))]);
                          PendingP [catch_reaction (S (S (length pre)))]])).
    rewrite length_app in IH. simpl in IH.
    replace (length pre + 2) with (S (S (length pre))) in IH by lia.
    rewrite <- !app_assoc in IH. exact IH.
Qed.

Lemma chain_add_cur base c id : chain_cur base (chain_add id c) = chain_cur base c.
Proof. revert base. induction c; intros; simpl; auto. Qed.

Lemma chain_run_cur base c id : chain_cur base (chain_run id c) = S (S (chain_cur base c)).
Proof. revert base. induction c; intros; simpl; auto. Qed.

Lemma chain_heap_length pre c :
  length (pre ++ chain_cells (length pre) c) = S (chain_cur (length pre) c).
Proof.
  rewrite length_app. destruct (chain_cells_length (length pre) c) as [-> ?]. lia.
Qed.

Lemma chain_insert_run pre c id :
  let h0 := pre ++ chain_cells (length pre) c in
  let cur := chain_cur (length pre) c in
  <[S cur := PendingP [catch_reaction (S (S cur))]]>
    (<[cur := PendingP (map set_reaction (chain_last c) ++ [exec_reaction id (S cur)])]>
       (h0 ++ [PendingP []]) ++ [PendingP []])
  = pre ++ chain_cells (length pre) (chain_run id c).
Proof.
  revert pre. induction c as [sets|sets i rest IH]; intros pre; simpl.
  - rewrite <- !app_assoc. simpl.
    rewrite (insert_app_r_alt pre _ (length pre)) by lia. rewrite Nat.sub_diag. simpl.
    rewrite <- !app_assoc. simpl.
    rewrite (insert_app_r_alt pre _ (S (length pre))) by lia.
    replace (S (length pre) - length pre) with 1 by lia. done.
  - specialize (IH (pre ++ [PendingP (map set_reaction sets ++ [exec_reaction i (S (length pre))]);
                          PendingP [catch_reaction (S (S (length pre)))]])).
    simpl in IH. rewrite length_app in IH. simpl in IH.
    replace (length pre + 2) with (S (S (length pre))) in IH by lia.
    rewrite <- !app_assoc in IH. simpl in IH. rewrite <- !app_assoc. exact IH.
Qed.

Lemma front_heap_chain hist f rest :
  front_chain f = Some rest →
  front_heap hist f = front_pre hist f ++ chain_cells (length (front_pre hist f)) rest
  ∧ front_cur hist f = chain_cur (length (front_pre hist f)) rest.
Proof.
  unfold front_pre.
  destruct f; simpl; intros [= <-];
    rewrite ?length_app, ?length_map, ?Nat.add_0_r, ?app_nil_r; simpl;
    rewrite ?Nat.add_0_r, ?Nat.add_1_r, <- ?app_assoc; simpl; auto.
Qed.

Lemma front_pre_add hist f id : front_pre hist (front_add id f) = front_pre hist f.
Proof. by destruct f. Qed.
Lemma front_pre_run hist f id :
  front_chain f ≠ None → front_pre hist (front_run id f) = front_pre hist f.
Proof. by destruct f. Qed.
Lemma front_chain_add f id : front_chain (front_add id f) = chain_add id <$> front_chain f.
Proof. by destruct f. Qed.
Lemma front_chain_run f id rest :
  front_chain f = Some rest → front_chain (front_run id f) = Some (chain_run id rest).
Proof. destruct f; simpl; congruence. Qed.
Lemma front_jobs_add hist f id rest :
  front_chain f = Some rest → front_jobs hist (front_add id f) = front_jobs hist f.
Proof. destruct f; simpl; congruence. Qed.
Lemma front_jobs_run hist f id rest :
  front_chain f = Some rest → front_jobs hist (front_run id f) = front_jobs hist f.
Proof. destruct f; simpl; congruence. Qed.

(** Registering a status update on the current promise. *)
Lemma attach_set s hist f id :
  Repr s hist f →
  let s' := attach (currentExecutionPromise s) (set_reaction id) s in
  Repr s' hist (front_add id f)
  ∧ actions s' = actions s ∧ controllers s' = controllers s
  ∧ trace s' = trace s ∧ webcontainer s' = webcontainer s
  ∧ suspended s' = suspended s.
Proof.
  intros (Hp & Hc & Hm & Hs). unfold attach.
  destruct (front_chain f) as [rest|] eqn:Hch.
  - destruct (front_heap_chain hist f rest Hch) as [Hh Hcur].
    rewrite Hp, Hc, Hh, Hcur, chain_lookup_cur. simpl.
    split; [|done]. split; [|split; [|split]]; simpl.
    + rewrite chain_insert_add.
      destruct (front_heap_chain hist (front_add id f) (chain_add id rest)) as [-> _].
      { by rewrite front_chain_add, Hch. }
      by rewrite front_pre_add.
    + destruct (front_heap_chain hist (front_add id f) (chain_add id rest)) as [_ ->].
      { by rewrite front_chain_add, Hch. }
      by rewrite front_pre_add, chain_add_cur, Hc.
    + by rewrite Hm, (front_jobs_add _ _ _ rest).
    + destruct f; try done.
  - destruct f as [c sets| | |]; try done. simpl in *. destruct Hs as [Hcf Hs].
    rewrite Hp, Hc, list_lookup_fmap, Hcf. simpl.
    split; [|done]. split; [|split; [|split]]; simpl; auto.
    rewrite Hm. unfold set_jobs. by rewrite map_app.
Qed.

Lemma Repr_heap_length s hist f rest :
  Repr s hist f → front_chain f = Some rest →
  length (promises s) = S (currentExecutionPromise s).
Proof.
  intros (Hp & Hc & _) Hch.
  destruct (front_heap_chain hist f rest Hch) as [Hh Hcur].
  rewrite Hp, Hc, Hh, Hcur. apply chain_heap_length.
Qed.

(** [runAction] extending the chain: [then] of the execution, [catch]
    of the logger, the result becoming the current promise. *)
Lemma append_execution s hist f id :
  Repr s hist f →
  let s2 := (then_ (currentExecutionPromise s) (CbExecute id) s).2 in
  let q := (then_ (currentExecutionPromise s) (CbExecute id) s).1 in
  let s3 := (catch_ q CbLogError s2).2 in
  let p := (catch_ q CbLogError s2).1 in
  Repr (set_current p s3) hist (front_run id f)
  ∧ actions s3 = actions s ∧ controllers s3 = controllers s
  ∧ trace s3 = trace s ∧ webcontainer s3 = webcontainer s ∧ suspended s3 = suspended s.
Proof.
  intros HR. pose proof HR as (Hp & Hc & Hm & Hs).
  unfold then_, catch_, attach. simpl.
  destruct (front_chain f) as [rest|] eqn:Hch.
  - pose proof (Repr_heap_length _ _ _ _ HR Hch) as Hlen.
    destruct (front_heap_chain hist f rest Hch) as [Hh Hcur].
    assert (promises s !! currentExecutionPromise s
            = Some (PendingP (map set_reaction (chain_last rest)))) as Hl.
    { rewrite Hp, Hc, Hh, Hcur. apply chain_lookup_cur. }
    rewrite lookup_app_l by lia. rewrite Hl. simpl.
    rewrite length_insert, length_app. simpl.
    rewrite lookup_app_l by (rewrite length_insert, length_app; simpl; lia).
    rewrite list_lookup_insert_ne by lia.
    rewrite lookup_app_r by lia. rewrite Hlen, Nat.sub_diag. simpl.
    split; [|done]. split; [|split; [|split]]; simpl.
    + destruct (front_heap_chain hist (front_run id f) (chain_run id rest)) as [-> _].
      { by apply front_chain_run. }
      rewrite front_pre_run by congruence.
      rewrite <- chain_insert_run. rewrite <- Hh, <- Hcur, <- Hp, <- Hc.
      unfold catch_reaction, exec_reaction. repeat f_equal. lia.
    + destruct (front_heap_chain hist (front_run id f) (chain_run id rest)) as [_ ->].
      { by apply front_chain_run. }
      rewrite front_pre_run by congruence.
      rewrite chain_run_cur, <- Hcur, <- Hc. lia.
    + by rewrite Hm, (front_jobs_run _ _ _ rest).
    + destruct f; try done.
  - destruct f as [c sets| | |]; try done. simpl in *. destruct Hs as [Hcf Hs].
    assert (promises s !! currentExecutionPromise s = Some (Settled Fulfilled)) as Hl.
    { by rewrite Hp, Hc, list_lookup_fmap, Hcf. }
    assert (currentExecutionPromise s < length (promises s)) by (by eapply lookup_lt_Some).
    rewrite lookup_app_l by lia. rewrite Hl. simpl.
    rewrite length_app. simpl.
    rewrite lookup_app_l by (rewrite length_app; simpl; lia).
    rewrite lookup_app_r by lia. rewrite Nat.sub_diag. simpl.
    split; [|done]. split; [|split; [|split]]; simpl; auto.
    + rewrite <- app_assoc. simpl.
      rewrite Hp, length_map.
      rewrite insert_app_r_alt by (rewrite length_map; lia).
      rewrite length_map, Nat.sub_diag, Nat.add_1_r. simpl. done.
    + rewrite Hp, length_map. lia.
    + rewrite Hm, Hp, length_map. done.
Qed.

(** Settling the first pending cell. *)
Lemma settle_first s hist rs tl v :
  promises s = map Settled hist ++ PendingP rs :: tl →
  settle (Some (length hist)) v s
  = set_microtasks (microtasks s ++ map (λ r, (r, v)) rs)
      (set_promises (map Settled (hist ++ [v]) ++ tl) s).
Proof.
  intros Hp. unfold settle. rewrite Hp.
  rewrite lookup_app_r by (rewrite length_map; lia).
  rewrite length_map, Nat.sub_diag. simpl.
  rewrite insert_app_r_alt by (rewrite length_map; lia).
  rewrite length_map, Nat.sub_diag. simpl.
  by rewrite map_app, <- app_assoc.
Qed.

Lemma runs_snoc t o : runs (t ++ [o]) = runs t ++ from_option (λ x, [x]) [] (obs_run o).
Proof. unfold runs. rewrite omap_app. simpl. by destruct (obs_run o). Qed.
Lemma begun_snoc t o : begun (t ++ [o]) = begun t ++ from_option (λ x, [x]) [] (obs_begin o).
Proof. unfold begun. rewrite omap_app. simpl. by destruct (obs_begin o). Qed.
Lemma ended_snoc t o : ended (t ++ [o]) = ended t ++ from_option (λ x, [x]) [] (obs_settle o).
Proof. unfold ended. rewrite omap_app. simpl. by destruct (obs_settle o). Qed.

Lemma serial_from_snoc c t o :
  serial_from c (t ++ [o]) = serial_from c t ≫= λ c', serial_step c' o.
Proof.
  revert c. induction t as [|o' t IH]; intros c; simpl.
  - by destruct (serial_step c o).
  - destruct (serial_step c o'); [apply IH | done].
Qed.

Lemma elem_of_sets q id : id ∈ sets q ↔ ISet id ∈ q.
Proof.
  unfold sets. rewrite list_elem_of_omap. split.
  - intros ([x|x] & Hin & Heq); simpl in Heq; [by simplify_eq | done].
  - intros Hin. exists (ISet id). done.
Qed.
Lemma elem_of_execs q id : id ∈ execs q ↔ IExec id ∈ q.
Proof.
  unfold execs. rewrite list_elem_of_omap. split.
  - intros ([x|x] & Hin & Heq); simpl in Heq; [done | by simplify_eq].
  - intros Hin. exists (IExec id). done.
Qed.
Lemma sets_app q1 q2 : sets (q1 ++ q2) = sets q1 ++ sets q2.
Proof. apply omap_app. Qed.
Lemma execs_app q1 q2 : execs (q1 ++ q2) = execs q1 ++ execs q2.
Proof. apply omap_app. Qed.
Lemma sets_map_ISet l : sets (map ISet l) = l.
Proof. induction l; simpl; [done | by f_equal]. Qed.
Lemma execs_map_ISet l : execs (map ISet l) = [].
Proof. induction l; simpl; done. Qed.

Lemma ordered_snoc_set q id : ordered (q ++ [ISet id]) ↔ ordered q ∧ IExec id ∉ q.
Proof.
  induction q as [|[x|x] q IH]; simpl.
  - split; [intros _; split; [done | apply not_elem_of_nil] | done].
  - rewrite IH, not_elem_of_cons. naive_solver.
  - rewrite IH, not_elem_of_cons, not_elem_of_app, not_elem_of_cons.
    split.
    + intros ((H1 & H2 & _) & H3 & H4). repeat split; try done. congruence.
    + intros ((H1 & H2) & H3 & H4). repeat split; try done.
      * congruence.
      * apply not_elem_of_nil.
Qed.

Lemma ordered_snoc_exec q id : ordered (q ++ [IExec id]) ↔ ordered q.
Proof.
  induction q as [|[x|x] q IH]; simpl.
  - split; [done | intros _; split; [apply not_elem_of_nil | done]].
  - done.
  - rewrite IH, not_elem_of_app, not_elem_of_cons. split; [naive_solver|].
    intros (H1 & H2). repeat split; try done. apply not_elem_of_nil.
Qed.

Lemma chain_queue_add id c : chain_queue (chain_add id c) = chain_queue c ++ [ISet id].
Proof.
  induction c as [sets|sets i rest IH]; simpl.
  - by rewrite map_app.
  - by rewrite IH, <- app_assoc.
Qed.
Lemma chain_queue_run id c : chain_queue (chain_run id c) = chain_queue c ++ [IExec id].
Proof.
  induction c as [sets|sets i rest IH]; simpl.
  - done.
  - by rewrite IH, <- app_assoc.
Qed.
Lemma queue_add id f : queue (front_add id f) = queue f ++ [ISet id].
Proof.
  destruct f; simpl; rewrite ?chain_queue_add, ?map_app, <- ?app_assoc; done.
Qed.
Lemma queue_run id f : queue (front_run id f) = queue f ++ [IExec id].
Proof.
  destruct f; simpl; rewrite ?chain_queue_run, <- ?app_assoc; done.
Qed.

Lemma updateAction_lookup id u s y :
  actions (updateAction id u s) !! y
  = if decide (id = y) then (λ a, spread a u) <$> actions s !! id else actions s !! y.
Proof.
  unfold updateAction. destruct (actions s !! id) as [a|] eqn:Ha; simpl.
  - rewrite lookup_insert. by case_decide.
  - case_decide; [by subst|done].
Qed.

Lemma updateAction_other id u s :
  promises (updateAction id u s) = promises s
  ∧ currentExecutionPromise (updateAction id u s) = currentExecutionPromise s
  ∧ microtasks (updateAction id u s) = microtasks s
  ∧ suspended (updateAction id u s) = suspended s
  ∧ controllers (updateAction id u s) = controllers s
  ∧ trace (updateAction id u s) = trace s
  ∧ webcontainer (updateAction id u s) = webcontainer s.
Proof. unfold updateAction. by destruct (actions s !! id). Qed.

Lemma Repr_same s s' hist f :
  promises s' = promises s → currentExecutionPromise s' = currentExecutionPromise s →
  microtasks s' = microtasks s → suspended s' = suspended s →
  Repr s hist f → Repr s' hist f.
Proof. unfold Repr. intros -> -> -> ->. done. Qed.

Lemma Repr_updateAction id u s hist f : Repr s hist f → Repr (updateAction id u s) hist f.
Proof.
  destruct (updateAction_other id u s) as (?&?&?&?&_). by apply Repr_same.
Qed.

Lemma repr_addAction s hist f data :
  Repr s hist f → actions s !! actionId data = None →
  Repr (addAction data s) hist (front_add (actionId data) f).
Proof.
  intros HR Hnone. unfold addAction. rewrite Hnone. unfold then_drop.
  match goal with |- Repr (attach _ _ ?s1) _ _ =>
    assert (Repr s1 hist f) as HR1 by (by eapply Repr_same; [..|exact HR]);
    apply (attach_set s1 hist f (actionId data) HR1)
  end.
Qed.

Lemma repr_runAction s hist f data a :
  Repr s hist f → actions s !! actionId data = Some a → executed a = false →
  Repr (runAction data s).2 hist (front_run (actionId data) f).
Proof.
  intros HR Ha Hex. unfold runAction. rewrite Ha, Hex.
  pose proof (Repr_updateAction (actionId data) (run_update a (action data)) s hist f HR) as HR1.
  pose proof (append_execution _ hist f (actionId data) HR1) as [HR2 _].
  destruct (then_ _ _ _) as [q s2]. destruct (catch_ _ _ _) as [p s3]. simpl in *.
  eapply Repr_same; [..|exact HR2]; done.
Qed.

Lemma tick_set s id js :
  microtasks s = (set_reaction id, Fulfilled) :: js →
  tick s = updateAction id (status_update Running) (set_microtasks js s).
Proof. unfold tick. by intros ->. Qed.

Lemma tick_exec s id q js :
  microtasks s = (exec_reaction id q, Fulfilled) :: js →
  tick s = executeAction id (Some q) (set_microtasks js s).
Proof. unfold tick. by intros ->. Qed.

Lemma tick_catch s p v js :
  microtasks s = (catch_reaction p, v) :: js →
  tick s = settle (Some p) Fulfilled (set_microtasks js s).
Proof. unfold tick. intros ->. by destruct v. Qed.

Lemma tick_nil s : microtasks s = [] → tick s = s.
Proof. unfold tick. by intros ->. Qed.

Lemma repr_tick_idle s hist c id sets :
  Repr s hist (FIdle c (id :: sets)) →
  tick s = updateAction id (status_update Running) (set_microtasks (set_jobs sets) s)
  ∧ Repr (tick s) hist (FIdle c sets).
Proof.
  intros (Hp & Hc & Hm & Hs). simpl in *.
  rewrite (tick_set s id (set_jobs sets) Hm). split; [done|].
  apply Repr_updateAction. done.
Qed.

Lemma repr_tick_jobs s hist id sets i rest :
  Repr s hist (FJobs (id :: sets) i rest) →
  tick s = updateAction id (status_update Running)
             (set_microtasks (front_jobs hist (FJobs sets i rest)) s)
  ∧ Repr (tick s) hist (FJobs sets i rest).
Proof.
  intros (Hp & Hc & Hm & Hs). simpl in *.
  rewrite (tick_set s id _ Hm). split; [done|].
  apply Repr_updateAction. done.
Qed.

Lemma repr_tick_exec s hist i rest a :
  Repr s hist (FJobs [] i rest) → actions s !! i = Some a →
  tick s = observe (ObsBegin i)
             (set_suspended [{| t_actionId := i; t_action := a; t_killed := false;
                                t_promise := Some (length hist) |}]
                (updateAction i (status_update Running) (set_microtasks [] s)))
  ∧ Repr (tick s) hist (FTask rest).
Proof.
  intros (Hp & Hc & Hm & Hs) Ha. simpl in *.
  rewrite (tick_exec s i _ _ Hm). unfold executeAction. simpl. rewrite Ha.
  match goal with |- context [updateAction ?i ?u ?s0] =>
    destruct (updateAction_other i u s0) as (E1 & E2 & E3 & E4 & _) end.
  rewrite E4. simpl. rewrite Hs. simpl. split; [done|].
  split; [|split; [|split]]; simpl; rewrite ?E1, ?E2, ?E3; simpl; try congruence;
    try (eexists; split; reflexivity).
Qed.

Lemma repr_tick_catch_last s hist v sets :
  Repr s hist (FCatch v (Last sets)) →
  tick s = set_microtasks (set_jobs sets)
             (set_promises (map Settled (hist ++ [Fulfilled])) s)
  ∧ Repr (tick s) (hist ++ [Fulfilled]) (FIdle (length hist) sets).
Proof.
  intros (Hp & Hc & Hm & Hs). simpl in *.
  rewrite (tick_catch s _ _ _ Hm).
  erewrite settle_first by (simpl; exact Hp). simpl.
  unfold set_jobs. rewrite map_map, app_nil_r. split; [done|].
  repeat split; simpl; try done.
  rewrite lookup_app_r by lia. by rewrite Nat.sub_diag.
Qed.

Lemma repr_tick_catch_seg s hist v sets i rest :
  Repr s hist (FCatch v (Seg sets i rest)) →
  tick s = set_microtasks (front_jobs (hist ++ [Fulfilled]) (FJobs sets i rest))
             (set_promises (front_heap (hist ++ [Fulfilled]) (FJobs sets i rest)) s)
  ∧ Repr (tick s) (hist ++ [Fulfilled]) (FJobs sets i rest).
Proof.
  intros (Hp & Hc & Hm & Hs). simpl in *.
  rewrite (tick_catch s _ _ _ Hm).
  erewrite settle_first by (simpl; exact Hp). simpl.
  rewrite length_app. simpl. rewrite Nat.add_1_r.
  unfold set_jobs. rewrite map_app, map_map. simpl. split; [done|].
  repeat split; simpl; try done;
    rewrite ?length_app; simpl; rewrite ?Nat.add_1_r; done.
Qed.

Lemma repr_finish s hist rest t o v :
  Repr s hist (FTask rest) → suspended s = [t] →
  (o = Done tt ∧ v = Fulfilled ∨ ∃ e, o = Threw e ∧ v = Rejected e) →
  let s' := finishAction t o (set_suspended (delete 0 (suspended s)) s) in
  Repr s' (hist ++ [v]) (FCatch v rest).
Proof.
  intros (Hp & Hc & Hm & (t' & Hs & Ht)) Hst Ho. simpl in *.
  assert (t' = t) as -> by congruence. rewrite Hst. simpl.
  assert (∀ u, Repr (observe (ObsSettle (t_actionId t)
                        (match v with Rejected e => Some e | _ => None end))
             (settle (t_promise t) v
                (updateAction (t_actionId t) u (set_suspended [] s))))
            (hist ++ [v]) (FCatch v rest)) as Hgen.
  { intros u. rewrite Ht.
    match goal with |- context [updateAction ?i ?u ?s0] =>
      destruct (updateAction_other i u s0) as (E1 & E2 & E3 & E4 & _) end.
    erewrite settle_first by (rewrite E1; exact Hp).
    repeat split; simpl; rewrite ?E2, ?E3, ?E4; simpl;
      rewrite ?length_app; simpl; rewrite ?Nat.add_1_r; try done.
    by rewrite Hm. }
  destruct Ho as [[-> ->] | (e & -> & ->)]; simpl; apply Hgen.
Qed.

Lemma Good_present_exec s f id :
  Good s f → IExec id ∈ queue f → ∃ r, actions s !! id = Some r ∧ executed r = true.
Proof.
  intros HG Hin. apply (good_executed _ _ HG).
  rewrite (good_runs _ _ HG). apply elem_of_app. right. by apply elem_of_execs.
Qed.

Lemma Good_begun_present s f id :
  Good s f → id ∈ begun (trace s) → ∃ r, actions s !! id = Some r ∧ executed r = true.
Proof.
  intros HG Hin. apply (good_executed _ _ HG).
  rewrite (good_runs _ _ HG). apply elem_of_app. by left.
Qed.

Lemma addAction_effect s hist f data :
  Repr s hist f → actions s !! actionId data = None →
  let s' := addAction data s in
  actions s' = <[actionId data :=
                   {| descriptor := action data; status := Pending; executed := false;
                      abort := {| ac_controller := length (controllers s);
                                  ac_actionId := actionId data |};
                      abortSignal := length (controllers s); error := None |}]> (actions s)
  ∧ controllers s' = controllers s ++ [false]
  ∧ trace s' = trace s ∧ suspended s' = suspended s ∧ webcontainer s' = webcontainer s.
Proof.
  intros HR Hnone. cbv zeta. unfold addAction. rewrite Hnone. unfold then_drop.
  match goal with |- context [attach _ _ ?s1] =>
    assert (Repr s1 hist f) as HR1 by (by eapply Repr_same; [..|exact HR]);
    destruct (attach_set s1 hist f (actionId data) HR1) as (_ & E1 & E2 & E3 & E4 & E5)
  end.
  cbv zeta in *. unfold set_reaction in *. rewrite E1, E2, E3, E4, E5. done.
Qed.

Lemma good_addAction s hist f data :
  Repr s hist f → Good s f → actions s !! actionId data = None →
  Good (addAction data s) (front_add (actionId data) f).
Proof.
  intros HR HG Hnone.
  destruct (addAction_effect s hist f data HR Hnone) as (Ea & Ec & Et & Es & _).
  set (id := actionId data) in *.
  assert (id ∉ runs (trace s)) as Hnr.
  { intros Hin. destruct (good_executed _ _ HG _ Hin) as (r & Hr & _). congruence. }
  assert (id ∉ begun (trace s)) as Hnb.
  { intros Hin. destruct (Good_begun_present _ _ _ HG Hin) as (r & Hr & _). congruence. }
  assert (ISet id ∉ queue f) as Hns.
  { intros Hin. destruct (good_sets_present _ _ HG _ Hin) as (r & Hr). congruence. }
  assert (IExec id ∉ queue f) as Hne.
  { intros Hin. destruct (Good_present_exec _ _ _ HG Hin) as (r & Hr & _). congruence. }
  split; rewrite ?Ea, ?Ec, ?Et, ?Es, ?queue_add.
  - intros y r. rewrite lookup_insert. case_decide as Hy.
    + intros [= <-]. simpl. subst y. split; [done|]. rewrite length_app. simpl. lia.
    + intros Hr. destruct (good_closure _ _ HG _ _ Hr) as [? ?]. split; [done|].
      rewrite length_app. simpl. lia.
  - intros y y' r r'. rewrite !lookup_insert.
    case_decide as Hy; case_decide as Hy'; intros Hr Hr' Heq; simplify_eq; simpl in *.
    + done.
    + destruct (good_closure _ _ HG _ _ Hr') as [_ ?]. lia.
    + destruct (good_closure _ _ HG _ _ Hr) as [_ ?]. lia.
    + by eapply (good_signal_inj _ _ HG).
  - intros t Ht. destruct (good_task _ _ HG _ Ht) as (r & Hr & Hsig).
    exists r. split; [|done]. rewrite lookup_insert_ne; [done|]. congruence.
  - rewrite execs_app. simpl. rewrite app_nil_r. apply (good_runs _ _ HG).
  - apply (good_runs_nodup _ _ HG).
  - intros y Hy. destruct (good_executed _ _ HG _ Hy) as (r & Hr & Hex).
    exists r. split; [|done]. rewrite lookup_insert_ne; [done|]. congruence.
  - apply (good_serial _ _ HG).
  - rewrite sets_app. simpl. apply NoDup_app. split; [apply (good_sets_nodup _ _ HG)|].
    split; [|apply NoDup_singleton].
    intros y Hy Hy'. apply list_elem_of_singleton in Hy'. subst y.
    by apply elem_of_sets in Hy.
  - intros y Hy. apply elem_of_app in Hy as [Hy|Hy].
    + destruct (good_sets_present _ _ HG _ Hy) as (r & Hr).
      exists r. rewrite lookup_insert_ne; [done|]. congruence.
    + apply list_elem_of_singleton in Hy. simplify_eq. rewrite lookup_insert_eq. eauto.
  - apply ordered_snoc_set. split; [apply (good_ordered _ _ HG) | done].
  - intros y Hy Hin. apply elem_of_app in Hin as [Hin|Hin].
    + by apply (good_begun _ _ HG _ Hy).
    + apply list_elem_of_singleton in Hin. simplify_eq. done.
  - apply (good_ended _ _ HG).
  - apply (good_inflight _ _ HG).
  - intros y r. rewrite lookup_insert. case_decide as Hy.
    + intros [= <-] _. simpl. subst y. split; [|split; [|done]].
      * split; [done|]. intros _. apply elem_of_app. right. by apply list_elem_of_singleton.
      * split; [|done]. intros Hin. destruct Hnb. by apply (good_ended _ _ HG).
    + intros Hr Hc. destruct (good_closure _ _ HG _ _ Hr) as [_ Hlt].
      rewrite lookup_app_l in Hc by done.
      destruct (good_status _ _ HG _ _ Hr Hc) as (H1 & H2 & H3).
      split; [|done]. rewrite <- H1. rewrite elem_of_app, list_elem_of_singleton.
      split; [|tauto]. intros [?|?]; [done|]. congruence.
Qed.

Lemma runAction_effect s hist f data a :
  Repr s hist f → actions s !! actionId data = Some a → executed a = false →
  let s' := (runAction data s).2 in
  actions s' = <[actionId data := spread a (run_update a (action data))]> (actions s)
  ∧ controllers s' = controllers s
  ∧ trace s' = trace s ++ [ObsRun (actionId data)]
  ∧ suspended s' = suspended s ∧ webcontainer s' = webcontainer s.
Proof.
  intros HR Ha Hex. cbv zeta. unfold runAction. rewrite Ha, Hex.
  pose proof (Repr_updateAction (actionId data) (run_update a (action data)) s hist f HR) as HR1.
  pose proof (append_execution _ hist f (actionId data) HR1) as (_ & E1 & E2 & E3 & E4 & E5).
  destruct (then_ _ _ _) as [q s2]. destruct (catch_ _ _ _) as [p s3]. simpl in *.
  rewrite E1, E2, E3, E4, E5.
  destruct (updateAction_other (actionId data) (run_update a (action data)) s)
    as (_ & _ & _ & -> & -> & -> & ->).
  unfold updateAction. rewrite Ha. done.
Qed.

Lemma good_runAction s hist f data a :
  Repr s hist f → Good s f → actions s !! actionId data = Some a → executed a = false →
  Good (runAction data s).2 (front_run (actionId data) f).
Proof.
  intros HR HG Ha Hex.
  destruct (runAction_effect s hist f data a HR Ha Hex) as (Ea & Ec & Et & Es & _).
  set (id := actionId data) in *.
  assert (id ∉ runs (trace s)) as Hnr.
  { intros Hin. destruct (good_executed _ _ HG _ Hin) as (r & Hr & ?). congruence. }
  split; rewrite ?Ea, ?Ec, ?Et, ?Es, ?queue_run, ?runs_snoc, ?begun_snoc, ?ended_snoc;
    simpl; rewrite ?app_nil_r.
  - intros y r. rewrite lookup_insert. case_decide as Hy.
    + intros [= <-]. simpl. subst y. apply (good_closure _ _ HG _ _ Ha).
    + apply (good_closure _ _ HG).
  - intros y y' r r'. rewrite !lookup_insert.
    case_decide as Hy; case_decide as Hy'; intros Hr Hr' Heq; simplify_eq; simpl in *.
    + done.
    + by eapply (good_signal_inj _ _ HG).
    + by eapply (good_signal_inj _ _ HG).
    + by eapply (good_signal_inj _ _ HG).
  - intros t Ht. destruct (good_task _ _ HG _ Ht) as (r & Hr & Hsig).
    rewrite lookup_insert. case_decide as Hy.
    + eexists. split; [done|]. simpl. rewrite Hy in Ha. congruence.
    + eauto.
  - rewrite execs_app. simpl. rewrite (good_runs _ _ HG). by rewrite app_assoc.
  - apply NoDup_app. split; [apply (good_runs_nodup _ _ HG)|].
    split; [|apply NoDup_singleton].
    intros y Hy Hy'. apply list_elem_of_singleton in Hy'. by subst y.
  - intros y Hy. rewrite lookup_insert. case_decide as Hyid.
    + eexists. split; [done|]. done.
    + apply elem_of_app in Hy as [Hy|Hy].
      * by apply (good_executed _ _ HG).
      * apply list_elem_of_singleton in Hy. congruence.
  - rewrite serial_from_snoc, (good_serial _ _ HG). done.
  - rewrite sets_app. simpl. rewrite app_nil_r. apply (good_sets_nodup _ _ HG).
  - intros y Hy. apply elem_of_app in Hy as [Hy|Hy].
    + destruct (good_sets_present _ _ HG _ Hy) as (r & Hr).
      rewrite lookup_insert. case_decide; eauto.
    + apply list_elem_of_singleton in Hy. done.
  - apply ordered_snoc_exec. apply (good_ordered _ _ HG).
  - intros y Hy Hin. apply elem_of_app in Hin as [Hin|Hin].
    + by apply (good_begun _ _ HG _ Hy).
    + apply list_elem_of_singleton in Hin. done.
  - apply (good_ended _ _ HG).
  - apply (good_inflight _ _ HG).
  - intros y r. rewrite lookup_insert. case_decide as Hy.
    + intros [= <-]. simpl. subst y. intros Hc.
      destruct (good_status _ _ HG _ _ Ha Hc) as (H1 & H2 & H3).
      split; [|done]. rewrite <- H1. rewrite elem_of_app, list_elem_of_singleton.
      split; [|tauto]. intros [?|?]; done.
    + intros Hr Hc. destruct (good_status _ _ HG _ _ Hr Hc) as (H1 & H2 & H3).
      split; [|done]. rewrite <- H1. rewrite elem_of_app, list_elem_of_singleton.
      split; [|tauto]. intros [?|?]; done.
Qed.

Lemma Good_same s s' f f' :
  actions s' = actions s → controllers s' = controllers s → trace s' = trace s →
  suspended s' = suspended s → queue f' = queue f →
  Good s f → Good s' f'.
Proof.
  intros Ea Ec Et Es Eq HG. destruct HG.
  split; rewrite ?Ea, ?Ec, ?Et, ?Es, ?Eq; done.
Qed.

Lemma good_set_running s s' f f' id :
  Good s f → queue f = ISet id :: queue f' →
  actions s' = actions (updateAction id (status_update Running) s) →
  controllers s' = controllers s → trace s' = trace s → suspended s' = suspended s →
  Good s' f'.
Proof.
  intros HG Hq Ea Ec Et Es.
  assert (ISet id ∈ queue f) as Hin by (rewrite Hq; left).
  destruct (good_sets_present _ _ HG _ Hin) as (a & Ha).
  assert (ISet id ∉ queue f') as Hnin.
  { pose proof (good_sets_nodup _ _ HG) as Hnd. rewrite Hq in Hnd. simpl in Hnd.
    apply NoDup_cons in Hnd as [Hnd _]. by rewrite elem_of_sets in Hnd. }
  assert (∀ y, actions s' !! y
               = if decide (id = y) then Some (spread a (status_update Running))
                 else actions s !! y) as Hlk.
  { intros y. rewrite Ea, updateAction_lookup. case_decide; [by rewrite Ha|done]. }
  assert (∀ y, ISet y ∈ queue f' → ISet y ∈ queue f) as Hsub.
  { intros y Hy. rewrite Hq. by right. }
  split; rewrite ?Ec, ?Et, ?Es.
  - intros y r. rewrite Hlk. case_decide as Hy.
    + intros [= <-]. simpl. subst y. apply (good_closure _ _ HG _ _ Ha).
    + apply (good_closure _ _ HG).
  - intros y y' r r'. rewrite !Hlk.
    case_decide as Hy; case_decide as Hy'; intros Hr Hr' Heq; simplify_eq; simpl in *;
      try done; by eapply (good_signal_inj _ _ HG).
  - intros t Ht. destruct (good_task _ _ HG _ Ht) as (r & Hr & Hsig).
    rewrite Hlk. case_decide as Hy.
    + eexists. split; [done|]. simpl. rewrite Hy in Ha. congruence.
    + eauto.
  - rewrite (good_runs _ _ HG), Hq. done.
  - apply (good_runs_nodup _ _ HG).
  - intros y Hy. destruct (good_executed _ _ HG _ Hy) as (r & Hr & Hex).
    rewrite Hlk. case_decide as Hyid.
    + eexists. split; [done|]. simpl. rewrite <- Hyid in Hr. congruence.
    + eauto.
  - apply (good_serial _ _ HG).
  - pose proof (good_sets_nodup _ _ HG) as Hnd. rewrite Hq in Hnd. simpl in Hnd.
    by apply NoDup_cons in Hnd as [_ Hnd].
  - intros y Hy. destruct (good_sets_present _ _ HG _ (Hsub _ Hy)) as (r & Hr).
    rewrite Hlk. case_decide; eauto.
  - pose proof (good_ordered _ _ HG) as Ho. rewrite Hq in Ho. done.
  - intros y Hy Hin'. by apply (good_begun _ _ HG _ Hy), Hsub.
  - apply (good_ended _ _ HG).
  - apply (good_inflight _ _ HG).
  - intros y r. rewrite Hlk. case_decide as Hy.
    + intros [= <-]. simpl. subst y. intros Hc. split; [|split; [|done]].
      * split; [done|]. intros [=].
      * split; [|done]. intros Hend.
        destruct (good_begun _ _ HG _ (good_ended _ _ HG _ Hend) Hin).
    + intros Hr Hc. destruct (good_status _ _ HG _ _ Hr Hc) as (H1 & H2 & H3).
      split; [|done]. rewrite <- H1. rewrite Hq. rewrite elem_of_cons.
      split; [tauto|]. intros [?|?]; [congruence|done].
Qed.

Lemma good_begin s s' f f' id a d :
  Good s f → queue f = IExec id :: queue f' →
  actions s !! id = Some a → suspended s = [] →
  actions s' = actions (updateAction id (status_update Running) s) →
  controllers s' = controllers s → trace s' = trace s ++ [ObsBegin id] →
  suspended s' = [{| t_actionId := id; t_action := a; t_killed := false; t_promise := d |}] →
  Good s' f'.
Proof.
  intros HG Hq Ha Hsus Ea Ec Et Es.
  assert (∀ y, actions s' !! y
               = if decide (id = y) then Some (spread a (status_update Running))
                 else actions s !! y) as Hlk.
  { intros y. rewrite Ea, updateAction_lookup. case_decide; [by rewrite Ha|done]. }
  assert (∀ y, ISet y ∈ queue f' → ISet y ∈ queue f) as Hsub.
  { intros y Hy. rewrite Hq. by right. }
  pose proof (good_ordered _ _ HG) as Hord. rewrite Hq in Hord. destruct Hord as [Hnset Hord].
  pose proof (good_runs _ _ HG) as Hruns. rewrite Hq in Hruns. simpl in Hruns.
  assert (id ∉ begun (trace s)) as Hnb.
  { pose proof (good_runs_nodup _ _ HG) as Hnd. rewrite Hruns in Hnd.
    apply NoDup_app in Hnd as (_ & Hnd & _). intros Hin. apply (Hnd _ Hin). left. }
  assert (id ∉ ended (trace s)) as Hne.
  { intros Hin. by apply Hnb, (good_ended _ _ HG). }
  split; rewrite ?Ec, ?Et, ?Es, ?runs_snoc, ?begun_snoc, ?ended_snoc; simpl;
    rewrite ?app_nil_r.
  - intros y r. rewrite Hlk. case_decide as Hy.
    + intros [= <-]. simpl. subst y. apply (good_closure _ _ HG _ _ Ha).
    + apply (good_closure _ _ HG).
  - intros y y' r r'. rewrite !Hlk.
    case_decide as Hy; case_decide as Hy'; intros Hr Hr' Heq; simplify_eq; simpl in *;
      try done; by eapply (good_signal_inj _ _ HG).
  - intros t Ht. apply list_elem_of_singleton in Ht. subst t. simpl.
    rewrite Hlk. rewrite decide_True by done. eauto.
  - rewrite Hruns. by rewrite <- app_assoc.
  - apply (good_runs_nodup _ _ HG).
  - intros y Hy. destruct (good_executed _ _ HG _ Hy) as (r & Hr & Hex).
    rewrite Hlk. case_decide as Hyid.
    + eexists. split; [done|]. simpl. rewrite <- Hyid in Hr. congruence.
    + eauto.
  - rewrite serial_from_snoc, (good_serial _ _ HG), Hsus. done.
  - pose proof (good_sets_nodup _ _ HG) as Hnd. by rewrite Hq in Hnd.
  - intros y Hy. destruct (good_sets_present _ _ HG _ (Hsub _ Hy)) as (r & Hr).
    rewrite Hlk. case_decide; eauto.
  - done.
  - intros y Hy Hin'. apply elem_of_app in Hy as [Hy|Hy].
    + by apply (good_begun _ _ HG _ Hy), Hsub.
    + apply list_elem_of_singleton in Hy. by subst y.
  - intros y Hy. apply elem_of_app. left. by apply (good_ended _ _ HG).
  - intros t Ht. apply list_elem_of_singleton in Ht. subst t. simpl. split; [|done].
    apply elem_of_app. right. by apply list_elem_of_singleton.
  - intros y r. rewrite Hlk. case_decide as Hy.
    + intros [= <-]. simpl. subst y. intros Hc. split; [|split; [|done]].
      * split; [done|]. intros [=].
      * split; [done|]. intros [=].
    + intros Hr Hc. destruct (good_status _ _ HG _ _ Hr Hc) as (H1 & H2 & H3).
      split; [|done]. rewrite <- H1. rewrite Hq. rewrite elem_of_cons.
      split; [tauto|]. intros [?|?]; [congruence|done].
Qed.

Lemma settle_other d v s :
  actions (settle d v s) = actions s ∧ controllers (settle d v s) = controllers s
  ∧ trace (settle d v s) = trace s ∧ suspended (settle d v s) = suspended s
  ∧ webcontainer (settle d v s) = webcontainer s.
Proof.
  unfold settle. destruct d as [d|]; [|done].
  destruct (promises s !! d) as [[rs|]|]; done.
Qed.

Lemma finishAction_effect t o s :
  o ≠ Hangs →
  let s' := finishAction t o s in
  actions s' = actions (updateAction (t_actionId t) (final_update s t o) s)
  ∧ controllers s' = controllers s
  ∧ trace s' = trace s ++ [ObsSettle (t_actionId t) (failure_of o)]
  ∧ suspended s' = suspended s ∧ webcontainer s' = webcontainer s.
Proof.
  intros Ho. cbv zeta. unfold finishAction, final_update, failure_of.
  destruct o as [[]|e|]; [| |done]; simpl;
    match goal with |- context [settle ?d ?v ?s0] =>
      destruct (settle_other d v s0) as (-> & -> & -> & -> & ->) end;
    match goal with |- context [updateAction ?i ?u ?s0] =>
      destruct (updateAction_other i u s0) as (_ & _ & _ & -> & -> & -> & ->) end;
    done.
Qed.

Lemma good_finish s s' f f' t u o :
  Good s f → queue f' = queue f → suspended s = [t] →
  (u = failed_update (error_message o)
   ∨ u = status_update (if default false (controllers s !! abortSignal (t_action t))
                        then Aborted else Complete)) →
  ∀ fl,
  actions s' = actions (updateAction (t_actionId t) u s) →
  controllers s' = controllers s →
  trace s' = trace s ++ [ObsSettle (t_actionId t) fl] →
  suspended s' = [] →
  Good s' f'.
Proof.
  intros HG Hq Hsus Hu fl Ea Ec Et Es. set (id := t_actionId t) in *.
  assert (t ∈ suspended s) as Htin by (rewrite Hsus; left).
  destruct (good_task _ _ HG _ Htin) as (a & Ha & Hsig).
  destruct (good_inflight _ _ HG _ Htin) as (Hb & Hne). fold id in Ha, Hb, Hne.
  assert (∀ y, actions s' !! y
               = if decide (id = y) then Some (spread a u) else actions s !! y) as Hlk.
  { intros y. rewrite Ea, updateAction_lookup. case_decide; [by rewrite Ha|done]. }
  assert (abort (spread a u) = abort a ∧ abortSignal (spread a u) = abortSignal a
          ∧ executed (spread a u) = executed a) as (Hab & Has & Hax).
  { destruct Hu as [-> | ->]; done. }
  split; rewrite ?Ec, ?Et, ?Es, ?Hq, ?runs_snoc, ?begun_snoc, ?ended_snoc; simpl;
    rewrite ?app_nil_r.
  - intros y r. rewrite Hlk. case_decide as Hy.
    + intros [= <-]. subst y. rewrite Hab, Has. apply (good_closure _ _ HG _ _ Ha).
    + apply (good_closure _ _ HG).
  - intros y y' r r'. rewrite !Hlk.
    case_decide as Hy; case_decide as Hy'; intros Hr Hr' Heq.
    + congruence.
    + injection Hr as <-. rewrite Has in Heq. subst y. by eapply (good_signal_inj _ _ HG).
    + injection Hr' as <-. rewrite Has in Heq. subst y'. by eapply (good_signal_inj _ _ HG).
    + by eapply (good_signal_inj _ _ HG).
  - intros t' Ht'. by apply not_elem_of_nil in Ht'.
  - apply (good_runs _ _ HG).
  - apply (good_runs_nodup _ _ HG).
  - intros y Hy. destruct (good_executed _ _ HG _ Hy) as (r & Hr & Hex).
    rewrite Hlk. case_decide as Hyid.
    + eexists. split; [done|]. rewrite Hax. rewrite <- Hyid in Hr. congruence.
    + eauto.
  - rewrite serial_from_snoc, (good_serial _ _ HG), Hsus. simpl.
    fold id. by rewrite decide_True.
  - apply (good_sets_nodup _ _ HG).
  - intros y Hy. destruct (good_sets_present _ _ HG _ Hy) as (r & Hr).
    rewrite Hlk. case_decide; eauto.
  - apply (good_ordered _ _ HG).
  - apply (good_begun _ _ HG).
  - intros y Hy. apply elem_of_app in Hy as [Hy|Hy].
    + by apply (good_ended _ _ HG).
    + apply list_elem_of_singleton in Hy. by subst y.
  - intros t' Ht'. by apply not_elem_of_nil in Ht'.
  - intros y r. rewrite Hlk. case_decide as Hy.
    + intros [= <-]. subst y. rewrite Has. intros Hc.
      assert (status (spread a u) = Complete ∨ status (spread a u) = Failed) as Hst.
      { destruct Hu as [-> | ->]; simpl; [by right|]. rewrite Hsig, Hc. simpl. by left. }
      split; [|split].
      * split; [|destruct Hst as [-> | ->]; done].
        intros Hin. destruct (good_begun _ _ HG _ Hb Hin).
      * split; [destruct Hst as [-> | ->]; done|]. intros _.
        apply elem_of_app. right. by apply list_elem_of_singleton.
      * destruct Hst as [-> | ->]; done.
    + intros Hr Hc. destruct (good_status _ _ HG _ _ Hr Hc) as (H1 & H2 & H3).
      split; [done|]. split; [|done]. rewrite <- H2.
      rewrite elem_of_app, list_elem_of_singleton.
      split; [|tauto]. intros [?|?]; [done|congruence].
Qed.

Lemma fire_listener_same c : same_task (fire_listener c).
Proof. intros t. unfold fire_listener. by destruct (_ && _). Qed.

Lemma signal_abort_effect c s :
  c < length (controllers s) →
  let s' := signal_abort c s in
  controllers s' = <[c := true]> (controllers s)
  ∧ actions s' = actions s ∧ trace s' = trace s ∧ webcontainer s' = webcontainer s
  ∧ promises s' = promises s ∧ currentExecutionPromise s' = currentExecutionPromise s
  ∧ microtasks s' = microtasks s
  ∧ ∃ g, same_task g ∧ suspended s' = map g (suspended s).
Proof.
  intros Hlt. cbv zeta. unfold signal_abort.
  destruct (lookup_lt_is_Some_2 _ _ Hlt) as [b Hb]. rewrite Hb.
  destruct b; simpl.
  - rewrite list_insert_id by done. repeat split; try done.
    exists id. split; [done|]. by rewrite map_id.
  - repeat split; try done. exists (fire_listener c). split; [apply fire_listener_same|done].
Qed.

Lemma Repr_map_suspended s s' hist f g :
  same_task g →
  promises s' = promises s → currentExecutionPromise s' = currentExecutionPromise s →
  microtasks s' = microtasks s → suspended s' = map g (suspended s) →
  Repr s hist f → Repr s' hist f.
Proof.
  intros Hg Ep Ec Em Es (Hp & Hc & Hm & Hs).
  split; [congruence|]. split; [congruence|]. split; [congruence|].
  rewrite Es. destruct f as [c sets|sets i rest|rest|v rest].
  - destruct Hs as [Hcf Hs]. split; [done|]. by rewrite Hs.
  - by rewrite Hs.
  - destruct Hs as (t & Hs & Ht). rewrite Hs. simpl. eexists. split; [done|].
    destruct (Hg t) as (_ & _ & ->). done.
  - by rewrite Hs.
Qed.

Lemma abortAction_effect s f id a :
  Good s f → actions s !! id = Some a →
  let s' := abortAction id s in
  actions s' = <[id := spread a (status_update Aborted)]> (actions s)
  ∧ controllers s' = <[abortSignal a := true]> (controllers s)
  ∧ trace s' = trace s ∧ webcontainer s' = webcontainer s
  ∧ promises s' = promises s ∧ currentExecutionPromise s' = currentExecutionPromise s
  ∧ microtasks s' = microtasks s
  ∧ ∃ g, same_task g ∧ suspended s' = map g (suspended s).
Proof.
  intros HG Ha. cbv zeta. unfold abortAction. rewrite Ha.
  destruct (good_closure _ _ HG _ _ Ha) as [-> Hlt]. simpl.
  destruct (signal_abort_effect (abortSignal a) s Hlt) as (Ec & Eac & Et & Ew & Ep & Ecur & Em & g & Hg & Es).
  match goal with |- context [updateAction ?i ?u ?s0] =>
    destruct (updateAction_other i u s0) as (-> & -> & -> & -> & -> & -> & ->) end.
  rewrite Ec, Et, Ew, Ep, Ecur, Em. repeat split; try done.
  - unfold updateAction. rewrite Eac, Ha. done.
  - eauto.
Qed.

Lemma good_abortAction s f id a :
  Good s f → actions s !! id = Some a → Good (abortAction id s) f.
Proof.
  intros HG Ha.
  destruct (abortAction_effect s f id a HG Ha)
    as (Ea & Ec & Et & _ & _ & _ & _ & g & Hg & Es).
  destruct (good_closure _ _ HG _ _ Ha) as [_ Hlt].
  assert (∀ y, actions (abortAction id s) !! y
               = if decide (id = y) then Some (spread a (status_update Aborted))
                 else actions s !! y) as Hlk.
  { intros y. rewrite Ea, lookup_insert. done. }
  split; rewrite ?Ec, ?Et, ?Es.
  - intros y r. rewrite length_insert, Hlk. case_decide as Hy.
    + intros [= <-]. simpl. subst y. apply (good_closure _ _ HG _ _ Ha).
    + apply (good_closure _ _ HG).
  - intros y y' r r'. rewrite !Hlk.
    case_decide as Hy; case_decide as Hy'; intros Hr Hr' Heq; simplify_eq; simpl in *;
      try done; by eapply (good_signal_inj _ _ HG).
  - intros t Ht. apply list_elem_of_fmap in Ht as (t0 & -> & Ht0).
    destruct (Hg t0) as (-> & -> & _).
    destruct (good_task _ _ HG _ Ht0) as (r & Hr & Hsig).
    rewrite Hlk. case_decide as Hy.
    + eexists. split; [done|]. simpl. rewrite Hy in Ha. congruence.
    + eauto.
  - apply (good_runs _ _ HG).
  - apply (good_runs_nodup _ _ HG).
  - intros y Hy. destruct (good_executed _ _ HG _ Hy) as (r & Hr & Hex).
    rewrite Hlk. case_decide as Hyid.
    + eexists. split; [done|]. simpl. rewrite <- Hyid in Hr. congruence.
    + eauto.
  - rewrite (good_serial _ _ HG). f_equal.
    destruct (suspended s) as [|t0 ts]; [done|]. simpl.
    destruct (Hg t0) as (-> & _). done.
  - apply (good_sets_nodup _ _ HG).
  - intros y Hy. destruct (good_sets_present _ _ HG _ Hy) as (r & Hr).
    rewrite Hlk. case_decide; eauto.
  - apply (good_ordered _ _ HG).
  - apply (good_begun _ _ HG).
  - apply (good_ended _ _ HG).
  - intros t Ht. apply list_elem_of_fmap in Ht as (t0 & -> & Ht0).
    destruct (Hg t0) as (-> & _). by apply (good_inflight _ _ HG).
  - intros y r. rewrite Hlk. case_decide as Hy.
    + intros [= <-]. simpl. rewrite list_lookup_insert_eq by done. done.
    + intros Hr Hc.
      destruct (decide (abortSignal r = abortSignal a)) as [Heq|Hne].
      * rewrite Heq, list_lookup_insert_eq in Hc by done. done.
      * rewrite list_lookup_insert_ne in Hc by done.
        apply (good_status _ _ HG _ _ Hr Hc).
Qed.

Lemma Inv_new boot : Inv (new_runner boot).
Proof.
  exists [Fulfilled], (FIdle 0 []). split.
  - repeat split; done.
  - split; simpl; try done;
      first [ apply NoDup_nil_2
            | intros ? Hin; by apply not_elem_of_nil in Hin ].
Qed.

Lemma Inv_addAction data s : Inv s → Inv (addAction data s).
Proof.
  intros (hist & f & HR & HG).
  destruct (actions s !! actionId data) as [a|] eqn:Ha.
  - unfold addAction. rewrite Ha. by exists hist, f.
  - exists hist, (front_add (actionId data) f). split.
    + by apply repr_addAction.
    + by eapply good_addAction.
Qed.

Lemma Inv_runAction data s : Inv s → Inv (runAction data s).2.
Proof.
  intros (hist & f & HR & HG).
  destruct (actions s !! actionId data) as [a|] eqn:Ha.
  - destruct (executed a) eqn:Hex.
    + unfold runAction. rewrite Ha, Hex. by exists hist, f.
    + exists hist, (front_run (actionId data) f). split.
      * by eapply repr_runAction.
      * by eapply good_runAction.
  - unfold runAction. rewrite Ha. by exists hist, f.
Qed.

Lemma Inv_abortAction id s : Inv s → Inv (abortAction id s).
Proof.
  intros (hist & f & HR & HG).
  destruct (actions s !! id) as [a|] eqn:Ha.
  - exists hist, f.
    destruct (abortAction_effect s f id a HG Ha)
      as (_ & _ & _ & _ & Ep & Ec & Em & g & Hg & Es).
    split.
    + by eapply Repr_map_suspended.
    + by eapply good_abortAction.
  - unfold abortAction. rewrite Ha. by exists hist, f.
Qed.

Lemma updateAction_actions_ext id u s s0 :
  actions s0 = actions s →
  actions (updateAction id u s0) = actions (updateAction id u s).
Proof. intros E. unfold updateAction. rewrite E. by destruct (actions s !! id). Qed.

Lemma Inv_tick s : Inv s → Inv (tick s).
Proof.
  intros (hist & f & HR & HG).
  destruct f as [c [|id sets]|[|id sets] i rest|rest|v [sets|sets i rest]].
  - rewrite tick_nil; [by exists hist, (FIdle c [])|]. by destruct HR as (_ & _ & ? & _).
  - destruct (repr_tick_idle _ _ _ _ _ HR) as [Eq HR'].
    exists hist, (FIdle c sets). split; [done|].
    eapply (good_set_running s _ _ _ id HG); [done|rewrite Eq..].
    + by apply updateAction_actions_ext.
    + by destruct (updateAction_other id (status_update Running) (set_microtasks (set_jobs sets) s))
        as (_ & _ & _ & _ & -> & _).
    + by destruct (updateAction_other id (status_update Running) (set_microtasks (set_jobs sets) s))
        as (_ & _ & _ & _ & _ & -> & _).
    + by destruct (updateAction_other id (status_update Running) (set_microtasks (set_jobs sets) s))
        as (_ & _ & _ & -> & _).
  - assert (IExec i ∈ queue (FJobs [] i rest)) as Hin by (simpl; left).
    destruct (Good_present_exec _ _ _ HG Hin) as (a & Ha & _).
    destruct (repr_tick_exec _ _ _ _ _ HR Ha) as [Eq HR'].
    exists hist, (FTask rest). split; [done|].
    eapply (good_begin s _ _ _ i a _ HG); [done|done|by destruct HR as (_ & _ & _ & ?)|rewrite Eq..].
    + simpl. by apply updateAction_actions_ext.
    + simpl. by destruct (updateAction_other i (status_update Running) (set_microtasks [] s))
        as (_ & _ & _ & _ & -> & _).
    + simpl. by destruct (updateAction_other i (status_update Running) (set_microtasks [] s))
        as (_ & _ & _ & _ & _ & -> & _).
    + done.
  - destruct (repr_tick_jobs _ _ _ _ _ _ HR) as [Eq HR'].
    exists hist, (FJobs sets i rest). split; [done|].
    eapply (good_set_running s _ _ _ id HG); [done|rewrite Eq..].
    + by apply updateAction_actions_ext.
    + match goal with |- context [updateAction ?i ?u ?s0] =>
        by destruct (updateAction_other i u s0) as (_ & _ & _ & _ & -> & _) end.
    + match goal with |- context [updateAction ?i ?u ?s0] =>
        by destruct (updateAction_other i u s0) as (_ & _ & _ & _ & _ & -> & _) end.
    + match goal with |- context [updateAction ?i ?u ?s0] =>
        by destruct (updateAction_other i u s0) as (_ & _ & _ & -> & _) end.
  - rewrite tick_nil; [by exists hist, (FTask rest)|]. by destruct HR as (_ & _ & ? & _).
  - destruct (repr_tick_catch_last _ _ _ _ HR) as [Eq HR'].
    exists (hist ++ [Fulfilled]), (FIdle (length hist) sets). split; [done|].
    eapply Good_same; [..|exact HG]; rewrite ?Eq; done.
  - destruct (repr_tick_catch_seg _ _ _ _ _ _ HR) as [Eq HR'].
    exists (hist ++ [Fulfilled]), (FJobs sets i rest). split; [done|].
    eapply Good_same; [..|exact HG]; rewrite ?Eq; done.
Qed.

Lemma Repr_suspended s hist f t k :
  Repr s hist f → suspended s !! k = Some t →
  k = 0 ∧ suspended s = [t] ∧ ∃ rest, f = FTask rest.
Proof.
  intros (_ & _ & _ & Hs) Hk.
  destruct f as [c sets|sets i rest|rest|v rest].
  - destruct Hs as [_ Hs]. by rewrite Hs in Hk.
  - by rewrite Hs in Hk.
  - destruct Hs as (t' & Hs & _). rewrite Hs in Hk.
    destruct k; simpl in Hk; [|done]. simplify_eq. eauto.
  - by rewrite Hs in Hk.
Qed.

Lemma Inv_finish s hist rest t o :
  Repr s hist (FTask rest) → Good s (FTask rest) → suspended s = [t] → o ≠ Hangs →
  let v := match o with Threw e => Rejected e | _ => Fulfilled end in
  let s' := finishAction t o (set_suspended (delete 0 (suspended s)) s) in
  Repr s' (hist ++ [v]) (FCatch v rest) ∧ Good s' (FCatch v rest).
Proof.
  intros HR HG Hs Ho v s'. split.
  - apply repr_finish; [done|done|]. destruct o as [[]|e|]; [left|right|]; eauto; done.
  - destruct (finishAction_effect t o (set_suspended (delete 0 (suspended s)) s) Ho)
      as (Ea & Ec & Et & Es & _).
    eapply (good_finish s _ (FTask rest) (FCatch v rest) t (final_update s t o)
              (match o with Threw e => e | _ => NonError end) HG);
      [done|done| |subst s'; rewrite Ea|subst s'; rewrite Ec
       |subst s'; rewrite Et|subst s'; rewrite Es].
    + destruct o as [[]|e|]; [right|left|]; done.
    + by apply updateAction_actions_ext.
    + done.
    + done.
    + rewrite Hs. done.
Qed.

Lemma Inv_settle_task k sys : Inv (runner sys) → Inv (runner (settle_task k sys)).
Proof.
  intros HI. unfold settle_task.
  destruct (suspended (runner sys) !! k) as [t|] eqn:Hk; [|done].
  destruct (run_handler _ _ _ _) as [[o w] cs].
  destruct HI as (hist & f & HR & HG).
  destruct (Repr_suspended _ _ _ _ _ HR Hk) as (-> & Hs & rest & ->).
  destruct o as [[]|e|].
  - destruct (Inv_finish _ _ _ t (Done tt) HR HG Hs) as [HR' HG']; [done|].
    eexists _, _. split; [exact HR' | exact HG'].
  - destruct (Inv_finish _ _ _ t (Threw e) HR HG Hs) as [HR' HG']; [done|].
    eexists _, _. split; [exact HR' | exact HG'].
  - by exists hist, (FTask rest).
Qed.

Lemma Inv_step sys ev : Inv (runner sys) → Inv (runner (step sys ev)).
Proof.
  destruct ev; simpl.
  - apply Inv_addAction.
  - apply Inv_runAction.
  - apply Inv_abortAction.
  - apply Inv_tick.
  - apply Inv_settle_task.
Qed.

Lemma run_events_snoc sys evs ev :
  run_events sys (evs ++ [ev]) = step (run_events sys evs) ev.
Proof. unfold run_events. by rewrite fold_left_app. Qed.

Lemma run_events_app sys evs evs' :
  run_events sys (evs ++ evs') = run_events (run_events sys evs) evs'.
Proof. unfold run_events. by rewrite fold_left_app. Qed.

Lemma Inv_run_events sys evs : Inv (runner sys) → Inv (runner (run_events sys evs)).
Proof.
  revert sys. induction evs as [|ev evs IH]; intros sys HI; [done|].
  simpl. apply IH. by apply Inv_step.
Qed.

Lemma Inv_reachable boot w evs : Inv (runner (run_events (boot_system boot w) evs)).
Proof. apply Inv_run_events. apply Inv_new. Qed.

Lemma bind_Done {A B} (m : Async A) (k : A → Async B) w a w1 l1 :
  m w = (Done a, w1, l1) →
  (m ≫= k) w = (let '(o, w2, l2) := k a w1 in (o, w2, l1 ++ l2)).
Proof. unfold mbind, Async_bind, bind. by intros ->. Qed.

Lemma bind_Threw {A B} (m : Async A) (k : A → Async B) w e w1 l1 :
  m w = (Threw e, w1, l1) → (m ≫= k) w = (Threw e, w1, l1).
Proof. unfold mbind, Async_bind, bind. by intros ->. Qed.

Lemma for_of_app {A} (xs ys : list A) body w :
  for_of (xs ++ ys) body w = (for_of xs body ≫= λ _, for_of ys body) w.
Proof.
  revert w. induction xs as [|x xs IH]; intros w; simpl.
  - unfold mbind, Async_bind, bind, ret. by destruct (for_of ys body w) as [[o w2] l2].
  - unfold mbind, Async_bind, bind in *.
    destruct (body x w) as [[[[]|e|] w1] l1]; try done.
    rewrite IH. destruct (for_of xs body w1) as [[[[]|e|] w2] l2]; try done.
    destruct (for_of ys body w2) as [[o w3] l3]. by rewrite app_assoc.
Qed.

(** What a suspended call leaves in the store when its handler is over. *)
Lemma settle_task_effect sys k t r o w cs :
  suspended (runner sys) !! k = Some t →
  run_handler (webcontainer (runner sys)) (t_killed t) (t_action t) (sandbox sys) = (o, w, cs) →
  o ≠ Hangs →
  actions (runner sys) !! t_actionId t = Some r →
  actions (runner (settle_task k sys)) !! t_actionId t
  = Some (spread r (final_update (runner sys) t o))
  ∧ sandbox (settle_task k sys) = w
  ∧ calls (settle_task k sys) = calls sys ++ cs
  ∧ trace (runner (settle_task k sys))
    = trace (runner sys) ++ [ObsSettle (t_actionId t) (failure_of o)].
Proof.
  intros Hk Hrun Ho Hr. unfold settle_task. rewrite Hk, Hrun.
  assert (∀ s0, actions s0 = actions (runner sys) → controllers s0 = controllers (runner sys) →
                trace s0 = trace (runner sys) →
            actions (finishAction t o s0) !! t_actionId t
            = Some (spread r (final_update (runner sys) t o))
            ∧ trace (finishAction t o s0)
              = trace (runner sys) ++ [ObsSettle (t_actionId t) (failure_of o)]) as Hgen.
  { intros s0 Ea Ec Et. destruct (finishAction_effect t o s0 Ho) as (-> & _ & -> & _).
    rewrite updateAction_lookup, decide_True by done. rewrite Ea, Hr, Et. simpl.
    split; [|done]. do 2 f_equal. unfold final_update. by rewrite Ec. }
  destruct o as [[]|e|]; [| |done]; cbv iota beta; cbn [runner sandbox calls];
    match goal with |- context [finishAction ?t ?o ?s0] =>
      destruct (Hgen s0 eq_refl eq_refl eq_refl) as [H1 H2] end; done.
Qed.

Lemma settle_task_hangs sys k t w cs :
  suspended (runner sys) !! k = Some t →
  run_handler (webcontainer (runner sys)) (t_killed t) (t_action t) (sandbox sys)
  = (Hangs, w, cs) →
  settle_task k sys
  = {| runner := runner sys; sandbox := sandbox sys; calls := calls sys;
       waiting := Some (w, cs) |}.
Proof. intros Hk Hrun. unfold settle_task. by rewrite Hk, Hrun. Qed.

Lemma runFileAction_returns w filePath content :
  ∃ w' cs, runFileAction Booted filePath content w = (Done tt, w', cs)
           ∧ CWriteFile filePath content ∈ cs.
Proof.
  unfold runFileAction, await_webcontainer, mbind, Async_bind, bind, ret, try_catch,
    mkdir, writeFile.
  destruct (negb _); simpl.
  - destruct (fs_mkdir w _) as [[e|] w1]; simpl;
      destruct (fs_writeFile w1 filePath content) as [[e'|] w2]; simpl;
      eexists _, _; (split; [reflexivity|]); set_solver.
  - destruct (fs_writeFile w filePath content) as [[e'|] w2]; simpl;
      eexists _, _; (split; [reflexivity|]); set_solver.
Qed.

Lemma ret_bind {A B} (a : A) (k : A → Async B) w : (ret a ≫= k) w = k a w.
Proof. unfold mbind, Async_bind, bind, ret. by destruct (k a w) as [[o w2] l2]. Qed.

Lemma bind_assoc {A B C} (m : Async A) (k1 : A → Async B) (k2 : B → Async C) w :
  ((m ≫= k1) ≫= k2) w = (m ≫= λ x, k1 x ≫= k2) w.
Proof.
  unfold mbind, Async_bind, bind.
  destruct (m w) as [[[a|e|] w1] l1]; try done.
  destruct (k1 a w1) as [[[b|e|] w2] l2]; try done.
  destruct (k2 b w2) as [[o w3] l3]. by rewrite app_assoc.
Qed.

Lemma try_catch_rethrow {A} (m : Async A) w : try_catch m (λ e, throw e) w = m w.
Proof.
  unfold try_catch, throw. destruct (m w) as [[[a|e|] w1] l1]; try done.
  by rewrite app_nil_r.
Qed.

Lemma importRepository_eq targetPath files post w :
  importRepository Booted targetPath files post w
  = (import_prefix targetPath files ≫= λ _,
       match post with
       | Some (c :: cs) => for_of (c :: cs) post_import_command
       | _ => ret tt
       end) w.
Proof.
  unfold importRepository, import_prefix, await_webcontainer.
  rewrite ret_bind, try_catch_rethrow. fold (import_folder targetPath).
  by rewrite bind_assoc.
Qed.

Lemma import_file_calls folder f w o w' cs c :
  import_file folder f w = (o, w', cs) → CSpawn c ∉ cs.
Proof.
  unfold import_file, mbind, Async_bind, bind, mkdir, writeFile, ret.
  destruct (negb _).
  - destruct (fs_mkdir w _) as [[e|] w1]; [intros [= <- <- <-]; set_solver|].
    destruct (fs_writeFile w1 _ _) as [[e|] w2]; intros [= <- <- <-]; set_solver.
  - destruct (fs_writeFile w _ _) as [[e|] w2]; intros [= <- <- <-]; set_solver.
Qed.

Lemma import_files_calls folder files w o w' cs c :
  for_of files (import_file folder) w = (o, w', cs) → CSpawn c ∉ cs.
Proof.
  revert w cs. induction files as [|f files IH]; intros w cs; simpl.
  - unfold ret. intros [= <- <- <-]. set_solver.
  - unfold mbind, Async_bind, bind.
    destruct (import_file folder f w) as [[[[]|e|] w1] l1] eqn:Hf;
      pose proof (import_file_calls _ _ _ _ _ _ c Hf) as Hl1;
      try (intros [= <- <- <-]; done).
    destruct (for_of files (import_file folder) w1) as [[o2 w2] l2] eqn:Hr.
    intros [= <- <- <-]. apply not_elem_of_app. split; [done|]. by eapply IH.
Qed.

Lemma import_prefix_calls target files w o w' cs c :
  import_prefix target files w = (o, w', cs) → CSpawn c ∉ cs.
Proof.
  unfold import_prefix, mbind, Async_bind, bind.
  destruct (negb _).
  - unfold mkdir at 1. destruct (fs_mkdir w _) as [[e|] w1]; [intros [= <- <- <-]; set_solver|].
    destruct (for_of files _ w1) as [[o2 w2] l2] eqn:Hr.
    pose proof (import_files_calls _ _ _ _ _ _ c Hr).
    intros [= <- <- <-]. set_solver.
  - unfold ret at 1.
    destruct (for_of files _ w) as [[o2 w2] l2] eqn:Hr.
    intros [= <- <- <-]. by eapply import_files_calls.
Qed.

(** The files before a failing one are written, the failing call is
    the last one made. *)
Lemma import_prefix_fails target files1 f files2 w w1 cs1 e w2 cs2 :
  import_prefix target files1 w = (Done tt, w1, cs1) →
  import_file (import_folder target) f w1 = (Threw e, w2, cs2) →
  import_prefix target (files1 ++ f :: files2) w = (Threw e, w2, cs1 ++ cs2).
Proof.
  intros H1 H2. unfold import_prefix in *.
  set (pre := if negb _ then _ else _) in *.
  assert ((pre ≫= λ _, for_of (files1 ++ f :: files2) (import_file (import_folder target))) w
          = ((pre ≫= λ _, for_of files1 (import_file (import_folder target)))
               ≫= λ _, for_of (f :: files2) (import_file (import_folder target))) w) as ->.
  { rewrite bind_assoc. unfold mbind, Async_bind, bind.
    destruct (pre w) as [[[[]|e0|] w0] l0]; try done.
    pose proof (for_of_app files1 (f :: files2) (import_file (import_folder target)) w0) as E.
    unfold mbind, Async_bind, bind in E. by rewrite E. }
  rewrite (bind_Done _ _ _ _ _ _ H1). simpl.
  by rewrite (bind_Threw _ _ _ _ _ _ H2).
Qed.

(** The loop body stops at the first call that fails. *)
Lemma import_file_mkdir_fails folder f w e w2 :
  dirname (folder +:+ "/" +:+ path f) ≠ "." →
  fs_mkdir w (dirname (folder +:+ "/" +:+ path f)) = (Some e, w2) →
  import_file folder f w = (Threw e, w2, [CMkdir (dirname (folder +:+ "/" +:+ path f))]).
Proof.
  intros Hd Hm. unfold import_file, mbind, Async_bind, bind, mkdir.
  apply String.eqb_neq in Hd. rewrite Hd. simpl. by rewrite Hm.
Qed.

Lemma import_file_write_fails folder f w wd e w2 :
  (dirname (folder +:+ "/" +:+ path f) = "." ∧ wd = w)
  ∨ (dirname (folder +:+ "/" +:+ path f) ≠ "."
     ∧ fs_mkdir w (dirname (folder +:+ "/" +:+ path f)) = (None, wd)) →
  fs_writeFile wd (folder +:+ "/" +:+ path f) (content f) = (Some e, w2) →
  import_file folder f w
  = (Threw e, w2,
     (if decide (dirname (folder +:+ "/" +:+ path f) = ".") then []
      else [CMkdir (dirname (folder +:+ "/" +:+ path f))])
     ++ [CWriteFile (folder +:+ "/" +:+ path f) (content f)]).
Proof.
  intros [[Hd ->]|[Hd Hm]] Hw; unfold import_file, mbind, Async_bind, bind, mkdir, writeFile, ret.
  - rewrite decide_True by done. rewrite Hd. simpl. by rewrite Hw.
  - rewrite decide_False by done. apply String.eqb_neq in Hd. rewrite Hd. simpl.
    by rewrite Hm, Hw.
Qed.

(** A file the loop body got through has been written. *)
Lemma import_file_written folder f w w' cs :
  import_file folder f w = (Done tt, w', cs) →
  CWriteFile (folder +:+ "/" +:+ path f) (content f) ∈ cs.
Proof.
  unfold import_file, mbind, Async_bind, bind, mkdir, writeFile, ret.
  destruct (negb _).
  - destruct (fs_mkdir w _) as [[e|] w1]; [done|].
    destruct (fs_writeFile w1 _ _) as [[e|] w2]; [done|]. intros [= <- <-]. set_solver.
  - destruct (fs_writeFile w _ _) as [[e|] w2]; [done|]. intros [= <- <-]. set_solver.
Qed.

Lemma import_files_written folder files w w' cs f :
  for_of files (import_file folder) w = (Done tt, w', cs) → f ∈ files →
  CWriteFile (folder +:+ "/" +:+ path f) (content f) ∈ cs.
Proof.
  revert w cs. induction files as [|f0 files IH]; intros w cs; simpl.
  - by intros _ ?%elem_of_nil.
  - unfold mbind, Async_bind, bind.
    destruct (import_file folder f0 w) as [[[[]|e|] w1] l1] eqn:Hf; [|done|done].
    destruct (for_of files (import_file folder) w1) as [[o2 w2] l2] eqn:Hr.
    intros [= -> <- <-] [->|Hin]%elem_of_cons; apply elem_of_app.
    + left. by eapply import_file_written.
    + right. by eapply IH.
Qed.

Lemma import_prefix_written target files w w' cs f :
  import_prefix target files w = (Done tt, w', cs) → f ∈ files →
  CWriteFile (import_folder target +:+ "/" +:+ path f) (content f) ∈ cs.
Proof.
  unfold import_prefix, mbind, Async_bind, bind.
  destruct (negb _).
  - unfold mkdir at 1. destruct (fs_mkdir w _) as [[e|] w1]; [done|].
    destruct (for_of files _ w1) as [[o2 w2] l2] eqn:Hr.
    intros [= -> <- <-] Hin. apply elem_of_cons. right. by eapply import_files_written.
  - unfold ret at 1.
    destruct (for_of files _ w) as [[o2 w2] l2] eqn:Hr.
    intros [= -> <- <-] Hin. by eapply import_files_written.
Qed.

Lemma import_prefix_base_fails target files w e w2 :
  import_folder target ≠ "." →
  fs_mkdir w (import_folder target) = (Some e, w2) →
  import_prefix target files w = (Threw e, w2, [CMkdir (import_folder target)]).
Proof.
  intros Hd Hm. unfold import_prefix, mbind, Async_bind, bind, mkdir.
  apply String.eqb_neq in Hd. rewrite Hd. simpl. by rewrite Hm.
Qed.

Lemma post_import_command_nonzero w c p w' ms code :
  spawn w c [] = (inr p, w') → proc_exit p false = ExitsAt ms code → code ≠ 0%Z →
  post_import_command c w
  = (Threw (ErrorObj ("Post-import command failed: " +:+ c)), w', [CSpawn c]).
Proof.
  intros Hs Hx Hc. unfold post_import_command, mbind, Async_bind, bind, spawn_jsh.
  rewrite Hs, Hx. simpl. destruct (Z.eqb_spec code 0); [done|]. done.
Qed.

Lemma prefix_refl s : String.prefix s s = true.
Proof.
  induction s as [|c s IH]; simpl; [done|].
  destruct (ascii_dec c c); [done|congruence].
Qed.

Lemma includes_refl s : includes s s = true.
Proof. destruct s; simpl; [done|]. destruct (ascii_dec a a); [|congruence]. by rewrite prefix_refl. Qed.

Lemma includes_app_r a b : includes (a +:+ b) b = true.
Proof.
  induction a as [|c a IH]; simpl.
  - apply includes_refl.
  - change (String c a +:+ b) with (String c (a +:+ b)). simpl. rewrite IH.
    by match goal with |- (if ?x then _ else _) = _ => destruct x end.
Qed.

Lemma runShellAction_exit w cmd killed p w1 ms code :
  spawn w cmd shell_env = (inr p, w1) → proc_exit p killed = ExitsAt ms code →
  runShellAction Booted killed cmd w
  = (let seen := if (ms <? timeout_ms)%Z then code
                 else if long_running cmd then 0%Z else code in
     if negb (seen =? 0)%Z && negb (includes cmd "next dev")
     then Threw (ErrorObj ("Process failed with exit code " +:+ pretty seen))
     else Done tt,
     w1, [CSpawn cmd]).
Proof.
  intros Hs Hx. unfold runShellAction, await_webcontainer.
  rewrite ret_bind. unfold mbind, Async_bind, bind, spawn_jsh. rewrite Hs, Hx.
  unfold race_exit, ret, throw.
  destruct (ms <? timeout_ms)%Z; [|destruct (long_running cmd)];
    cbv zeta; match goal with |- context [negb (?c =? 0)%Z && ?b] =>
      destruct (negb (c =? 0)%Z && b) end; done.
Qed.

Lemma same_records_refl m : same_records m m.
Proof. intros y. by destruct (m !! y). Qed.

Lemma same_records_update id u s :
  u_descriptor u = None → u_executed u = None → u_abort u = None → u_abortSignal u = None →
  same_records (actions s) (actions (updateAction id u s)).
Proof.
  intros H1 H2 H3 H4 y. rewrite updateAction_lookup. case_decide as Hy.
  - subst y. destruct (actions s !! id) as [a|]; simpl; [|done].
    unfold status_only, spread. rewrite H1, H2, H3, H4. done.
  - by destruct (actions s !! y).
Qed.

(** One job leaves the controllers alone and every record in place; it
    changes a status at most, and only of the id its callback names. *)
Lemma tick_store s :
  controllers (tick s) = controllers s
  ∧ same_records (actions s) (actions (tick s))
  ∧ ∀ y, head (microtasks s) ≫= job_target ≠ Some y →
         actions (tick s) !! y = actions s !! y.
Proof.
  unfold tick. destruct (microtasks s) as [|[r v] q] eqn:Hm.
  { split; [done|]. split; [apply same_records_refl|done]. }
  set (s0 := set_microtasks q s).
  assert (∀ d v', controllers (settle d v' s0) = controllers s
                  ∧ actions (settle d v' s0) = actions s) as Hsettle.
  { intros d v'. by destruct (settle_other d v' s0) as (-> & -> & _). }
  assert (∀ cb d, controllers (run_callback cb d s0) = controllers s
                  ∧ same_records (actions s) (actions (run_callback cb d s0))
                  ∧ ∀ y, callback_target cb ≠ Some y →
                         actions (run_callback cb d s0) !! y = actions s !! y) as Hcb.
  { intros cb d. destruct cb as [id|id|]; simpl.
    - match goal with |- context [settle ?d ?v ?s1] =>
        destruct (settle_other d v s1) as (-> & -> & _) end.
      destruct (updateAction_other id (status_update Running) s0) as (_&_&_&_& -> &_).
      split; [done|]. split.
      + by apply (same_records_update id (status_update Running) s0).
      + intros y Hy. rewrite updateAction_lookup, decide_False by congruence. done.
    - unfold executeAction. change (actions s0) with (actions s).
      destruct (actions s !! id) as [a|] eqn:Ha.
      + simpl.
        destruct (updateAction_other id (status_update Running) s0) as (_&_&_&_& -> &_).
        split; [done|]. split.
        * by apply (same_records_update id (status_update Running) s0).
        * intros y Hy. rewrite updateAction_lookup, decide_False by congruence. done.
      + destruct (Hsettle d (Rejected (ErrorObj "TypeError"))) as [-> ->].
        split; [done|]. split; [apply same_records_refl|done].
    - destruct (Hsettle d Fulfilled) as [-> ->].
      split; [done|]. split; [apply same_records_refl|done]. }
  destruct r as [cb d|cb d], v as [|e]; simpl.
  - apply Hcb.
  - destruct (Hsettle d (Rejected e)) as [-> ->].
    split; [done|]. split; [apply same_records_refl|done].
  - destruct (Hsettle d Fulfilled) as [-> ->].
    split; [done|]. split; [apply same_records_refl|done].
  - apply Hcb.
Qed.

Lemma settle_task_store k sys :
  controllers (runner (settle_task k sys)) = controllers (runner sys)
  ∧ same_records (actions (runner sys)) (actions (runner (settle_task k sys)))
  ∧ ∀ y, t_actionId <$> suspended (runner sys) !! k ≠ Some y →
         actions (runner (settle_task k sys)) !! y = actions (runner sys) !! y.
Proof.
  unfold settle_task. destruct (suspended (runner sys) !! k) as [t|] eqn:Hk.
  2:{ split; [done|]. split; [apply same_records_refl|done]. }
  destruct (run_handler _ _ _ _) as [[o w] cs].
  set (s0 := set_suspended (delete k (suspended (runner sys))) (runner sys)).
  assert (∀ o', o' ≠ Hangs →
            controllers (finishAction t o' s0) = controllers (runner sys)
            ∧ same_records (actions (runner sys)) (actions (finishAction t o' s0))
            ∧ ∀ y, Some (t_actionId t) ≠ Some y →
                   actions (finishAction t o' s0) !! y = actions (runner sys) !! y) as Hfin.
  { intros o' Ho. destruct (finishAction_effect t o' s0 Ho) as (Ea & Ec & _).
    rewrite Ea, Ec. split; [done|]. split.
    - apply (same_records_update _ _ s0); by destruct o'.
    - intros y Hy. rewrite updateAction_lookup, decide_False; [done|]. congruence. }
  destruct o as [[]|e|].
  - by apply Hfin.
  - by apply Hfin.
  - split; [done|]. split; [apply same_records_refl|done].
Qed.

Lemma same_records_signal m m' id r' :
  same_records m m' → m' !! id = Some r' →
  ∃ r, m !! id = Some r ∧ abortSignal r' = abortSignal r.
Proof.
  intros Hs Hr'. specialize (Hs id). rewrite Hr' in Hs.
  destruct (m !! id) as [r|]; [|done]. exists r. split; [done|]. apply Hs.
Qed.

Lemma same_records_None m m' id :
  same_records m m' → m !! id = None → m' !! id = None.
Proof.
  intros Hs Hr. specialize (Hs id). rewrite Hr in Hs. by destruct (m' !! id).
Qed.

(** As long as [abort] is not invoked on an id, the signal of its
    record is not raised. *)
Lemma unaborted boot w evs id r :
  EvAbort id ∉ evs →
  actions (runner (run_events (boot_system boot w) evs)) !! id = Some r →
  controllers (runner (run_events (boot_system boot w) evs)) !! abortSignal r = Some false.
Proof.
  revert r. induction evs as [|ev evs IH] using rev_ind; intros r Hnot; [done|].
  apply not_elem_of_app in Hnot as [Hnot Hev]. apply not_elem_of_cons in Hev as [Hev _].
  specialize (λ r, IH r Hnot).
  rewrite run_events_snoc.
  pose proof (Inv_reachable boot w evs) as (hist & f & HR & HG).
  set (sys := run_events (boot_system boot w) evs) in *.
  destruct ev as [d|d|id'| |k]; simpl.
  - destruct (actions (runner sys) !! actionId d) as [a|] eqn:Ha.
    + unfold addAction. rewrite Ha. apply IH.
    + destruct (addAction_effect _ _ _ d HR Ha) as (-> & -> & _).
      rewrite lookup_insert. case_decide as Hid.
      * intros [= <-]. simpl. rewrite lookup_app_r by done. by rewrite Nat.sub_diag.
      * intros Hr. destruct (good_closure _ _ HG _ _ Hr) as [_ Hlt].
        rewrite lookup_app_l by done. by apply IH.
  - destruct (actions (runner sys) !! actionId d) as [a|] eqn:Ha.
    + destruct (executed a) eqn:Hex.
      * unfold runAction. rewrite Ha, Hex. apply IH.
      * destruct (runAction_effect _ _ _ d a HR Ha Hex) as (-> & -> & _).
        rewrite lookup_insert. case_decide as Hid.
        -- intros [= <-]. simpl. apply IH. by rewrite <- Hid.
        -- apply IH.
    + unfold runAction. rewrite Ha. apply IH.
  - assert (id' ≠ id) as Hne by congruence.
    destruct (actions (runner sys) !! id') as [a|] eqn:Ha.
    + destruct (abortAction_effect _ _ id' a HG Ha) as (-> & -> & _).
      rewrite lookup_insert_ne by done. intros Hr.
      rewrite list_lookup_insert_ne; [by apply IH|].
      intros Heq. apply Hne. by eapply (good_signal_inj _ _ HG).
    + unfold abortAction. rewrite Ha. apply IH.
  - destruct (tick_store (runner sys)) as (-> & Hsame & _). intros Hr.
    destruct (same_records_signal _ _ _ _ Hsame Hr) as (r0 & Hr0 & ->). by apply IH.
  - destruct (settle_task_store k sys) as (-> & Hsame & _). intros Hr.
    destruct (same_records_signal _ _ _ _ Hsame Hr) as (r0 & Hr0 & ->). by apply IH.
Qed.

Lemma status_of_running s f i q' id r :
  Good s f → queue f = ISet i :: q' →
  actions s !! id = Some r → controllers s !! abortSignal r = Some false →
  status_step_ok (Some (status r))
    (status <$> actions (updateAction i (status_update Running) s) !! id).
Proof.
  intros HG Hq Hr Hc. rewrite updateAction_lookup. case_decide as Hi.
  - subst i. rewrite Hr. simpl.
    destruct (good_status _ _ HG _ _ Hr Hc) as (H1 & _).
    assert (status r = Pending) as -> by (apply H1; rewrite Hq; left).
    right. right. left. done.
  - rewrite Hr. by left.
Qed.

Lemma status_at_dispatch s f i q' r :
  Good s f → queue f = IExec i :: q' →
  actions s !! i = Some r → controllers s !! abortSignal r = Some false →
  status r = Running.
Proof.
  intros HG Hq Hr Hc.
  destruct (good_status _ _ HG _ _ Hr Hc) as (H1 & H2 & H3).
  pose proof (good_ordered _ _ HG) as Hord. rewrite Hq in Hord. destruct Hord as [Hnset _].
  pose proof (good_runs _ _ HG) as Hruns. rewrite Hq in Hruns. simpl in Hruns.
  assert (i ∉ begun (trace s)) as Hnb.
  { pose proof (good_runs_nodup _ _ HG) as Hnd. rewrite Hruns in Hnd.
    apply NoDup_app in Hnd as (_ & Hnd & _). intros Hin. apply (Hnd _ Hin). left. }
  destruct (status r) eqn:Hst; try done.
  - destruct Hnset. assert (ISet i ∈ queue f) as Hin by (by apply H1).
    rewrite Hq in Hin. apply elem_of_cons in Hin as [?|?]; done.
  - destruct Hnb. apply (good_ended _ _ HG). by apply H2.
  - destruct Hnb. apply (good_ended _ _ HG). by apply H2.
Qed.

Lemma status_in_flight s f t r :
  Good s f → t ∈ suspended s →
  actions s !! t_actionId t = Some r → controllers s !! abortSignal r = Some false →
  status r = Running ∧ controllers s !! abortSignal (t_action t) = Some false.
Proof.
  intros HG Ht Hr Hc.
  destruct (good_status _ _ HG _ _ Hr Hc) as (H1 & H2 & H3).
  destruct (good_inflight _ _ HG _ Ht) as (Hb & Hne).
  destruct (good_task _ _ HG _ Ht) as (r0 & Hr0 & Hsig).
  assert (r0 = r) as -> by congruence. rewrite Hsig. split; [|done].
  destruct (status r) eqn:Hst; try done.
  - destruct (good_begun _ _ HG _ Hb). by apply H1.
  - destruct Hne. by apply H2.
  - destruct Hne. by apply H2.
Qed.

Lemma tick_status s hist f id r :
  Repr s hist f → Good s f →
  actions s !! id = Some r → controllers s !! abortSignal r = Some false →
  status_step_ok (Some (status r)) (status <$> actions (tick s) !! id).
Proof.
  intros HR HG Hr Hc.
  destruct f as [c [|i sets]|[|i sets] j rest|rest|v [sets|sets j rest]].
  - rewrite tick_nil; [rewrite Hr; by left|]. by destruct HR as (_ & _ & ? & _).
  - destruct (repr_tick_idle _ _ _ _ _ HR) as [-> _].
    rewrite (updateAction_actions_ext _ _ s) by reflexivity.
    eapply status_of_running; [exact HG|reflexivity|done|done].
  - assert (IExec j ∈ queue (FJobs [] j rest)) as Hin by (simpl; left).
    destruct (Good_present_exec _ _ _ HG Hin) as (a & Ha & _).
    destruct (repr_tick_exec _ _ _ _ _ HR Ha) as [-> _]. simpl.
    rewrite (updateAction_actions_ext _ _ s) by reflexivity.
    rewrite updateAction_lookup. case_decide as Hi.
    + subst j. rewrite Hr. simpl. left.
      by erewrite (status_at_dispatch _ _ id _ r HG).
    + rewrite Hr. by left.
  - destruct (repr_tick_jobs _ _ _ _ _ _ HR) as [-> _].
    rewrite (updateAction_actions_ext _ _ s) by reflexivity.
    eapply status_of_running; [exact HG|reflexivity|done|done].
  - rewrite tick_nil; [rewrite Hr; by left|]. by destruct HR as (_ & _ & ? & _).
  - destruct (repr_tick_catch_last _ _ _ _ HR) as [-> _]. simpl. rewrite Hr. by left.
  - destruct (repr_tick_catch_seg _ _ _ _ _ _ HR) as [-> _]. simpl. rewrite Hr. by left.
Qed.

Lemma settle_task_status k sys hist f id r :
  Repr (runner sys) hist f → Good (runner sys) f →
  actions (runner sys) !! id = Some r →
  controllers (runner sys) !! abortSignal r = Some false →
  status_step_ok (Some (status r)) (status_of (settle_task k sys) id).
Proof.
  intros HR HG Hr Hc. unfold status_of.
  destruct (suspended (runner sys) !! k) as [t|] eqn:Hk.
  2:{ unfold settle_task. rewrite Hk, Hr. by left. }
  destruct (decide (t_actionId t = id)) as [Hid|Hid].
  2:{ destruct (settle_task_store k sys) as (_ & _ & Hframe).
      rewrite Hframe, Hr; [by left|]. rewrite Hk. simpl. congruence. }
  subst id.
  assert (t ∈ suspended (runner sys)) as Ht by (by eapply list_elem_of_lookup_2).
  destruct (status_in_flight _ _ _ _ HG Ht Hr Hc) as [Hst Hsig].
  destruct (run_handler (webcontainer (runner sys)) (t_killed t) (t_action t) (sandbox sys))
    as [[o w] cs] eqn:Hrun.
  destruct o as [[]|e|].
  - destruct (settle_task_effect sys k t r (Done tt) w cs Hk Hrun) as (-> & _); [done|done|].
    simpl. rewrite Hsig, Hst. simpl. right. right. right. split; [done|]. by left.
  - destruct (settle_task_effect sys k t r (Threw e) w cs Hk Hrun) as (-> & _); [done|done|].
    simpl. rewrite Hst. right. right. right. split; [done|]. by right.
  - rewrite (settle_task_hangs _ _ _ _ _ Hk Hrun). simpl. rewrite Hr. by left.
Qed.

Lemma serial_from_app c t1 t2 :
  serial_from c (t1 ++ t2) = serial_from c t1 ≫= λ c', serial_from c' t2.
Proof.
  revert c. induction t1 as [|o t1 IH]; intros c; simpl; [done|].
  destruct (serial_step c o); [apply IH|done].
Qed.

Lemma serial_settles A t c' :
  serial_from (Some A) t = Some c' → (∃ o, ObsSettle A o ∈ t) ∨ c' = Some A.
Proof.
  induction t as [|o t IH]; simpl.
  - intros [= <-]. by right.
  - destruct o as [x|x|x fl]; simpl.
    + intros H. destruct (IH H) as [[o Ho]|?]; [left; exists o; by right|by right].
    + done.
    + case_decide as Hx; [|done]. subst x. intros _. left. exists fl. left.
Qed.

Lemma serial_begin_settled c t c' A :
  serial_from c t = Some c' → ObsBegin A ∈ t →
  (∃ o, ObsSettle A o ∈ t) ∨ c' = Some A.
Proof.
  revert c. induction t as [|o t IH]; intros c; simpl.
  - intros _ Hin. by apply not_elem_of_nil in Hin.
  - destruct (serial_step c o) as [c1|] eqn:Hstep; [|done].
    intros Hs Hin. apply elem_of_cons in Hin as [Heq|Hin].
    + subst o. destruct c; simpl in Hstep; [done|]. simplify_eq.
      destruct (serial_settles _ _ _ Hs) as [[o Ho]|?]; [left; exists o; by right|by right].
    + destruct (IH _ Hs Hin) as [[o' Ho]|?]; [left; exists o'; by right|by right].
Qed.

Lemma execs_chain_head rest B more :
  execs (chain_queue rest) = B :: more → ∃ sets rest', rest = Seg sets B rest'.
Proof.
  destruct rest as [sets|sets i rest']; simpl.
  - by rewrite execs_map_ISet.
  - rewrite execs_app, execs_map_ISet. simpl. intros [= -> _]. eauto.
Qed.

Lemma tick_jobs_good s hist id sets i rest :
  Repr s hist (FJobs (id :: sets) i rest) → Good s (FJobs (id :: sets) i rest) →
  Repr (tick s) hist (FJobs sets i rest) ∧ Good (tick s) (FJobs sets i rest)
  ∧ trace (tick s) = trace s ∧ webcontainer (tick s) = webcontainer s.
Proof.
  intros HR HG. destruct (repr_tick_jobs _ _ _ _ _ _ HR) as [Eq HR'].
  split; [done|].
  match type of Eq with _ = updateAction ?i ?u ?s0 =>
    destruct (updateAction_other i u s0) as (_ & _ & _ & Es & Ec & Et & Ew) end.
  split; [|split]; [|by rewrite Eq, Et|by rewrite Eq, Ew].
  eapply (good_set_running s _ _ _ id HG); [done|rewrite Eq..].
  - by apply updateAction_actions_ext.
  - by rewrite Ec.
  - by rewrite Et.
  - by rewrite Es.
Qed.

Lemma tick_exec_good s hist i rest :
  Repr s hist (FJobs [] i rest) → Good s (FJobs [] i rest) →
  ∃ a, actions s !! i = Some a
  ∧ Repr (tick s) hist (FTask rest) ∧ Good (tick s) (FTask rest)
  ∧ trace (tick s) = trace s ++ [ObsBegin i]
  ∧ suspended (tick s) = [{| t_actionId := i; t_action := a; t_killed := false;
                             t_promise := Some (length hist) |}]
  ∧ actions (tick s) = actions (updateAction i (status_update Running) s)
  ∧ webcontainer (tick s) = webcontainer s.
Proof.
  intros HR HG.
  assert (IExec i ∈ queue (FJobs [] i rest)) as Hin by (simpl; left).
  destruct (Good_present_exec _ _ _ HG Hin) as (a & Ha & _).
  destruct (repr_tick_exec _ _ _ _ _ HR Ha) as [Eq HR'].
  exists a. split; [done|]. split; [done|].
  match type of Eq with context [updateAction ?i ?u ?s0] =>
    destruct (updateAction_other i u s0) as (_ & _ & _ & Es & Ec & Et & Ew) end.
  assert (actions (tick s) = actions (updateAction i (status_update Running) s)) as Ea.
  { rewrite Eq. simpl. by apply updateAction_actions_ext. }
  split; [|split; [|split; [|split]]]; [|by rewrite Eq; simpl; rewrite Et|by rewrite Eq|done
                                       |by rewrite Eq; simpl; rewrite Ew].
  eapply (good_begin s _ _ _ i a _ HG); [done|done|by destruct HR as (_ & _ & _ & ?)|done|..].
  - rewrite Eq. simpl. by rewrite Ec.
  - rewrite Eq. simpl. by rewrite Et.
  - by rewrite Eq.
Qed.

Lemma drain_sets sys hist sets i rest :
  Repr (runner sys) hist (FJobs sets i rest) → Good (runner sys) (FJobs sets i rest) →
  let sys' := run_events sys (replicate (length sets) EvTick) in
  Repr (runner sys') hist (FJobs [] i rest) ∧ Good (runner sys') (FJobs [] i rest)
  ∧ trace (runner sys') = trace (runner sys) ∧ sandbox sys' = sandbox sys
  ∧ webcontainer (runner sys') = webcontainer (runner sys).
Proof.
  revert sys. induction sets as [|id sets IH]; intros sys HR HG; [done|].
  destruct (tick_jobs_good _ _ _ _ _ _ HR HG) as (HR' & HG' & Et & Ew).
  destruct (IH (on_runner tick sys) HR' HG') as (H1 & H2 & H3 & H4 & H5).
  cbv zeta.
  change (run_events sys (replicate (length (id :: sets)) EvTick))
    with (run_events (on_runner tick sys) (replicate (length sets) EvTick)).
  split; [done|]. split; [done|]. split; [by rewrite H3|]. split; [done|]. by rewrite H5.
Qed.

Lemma spread_action_idem old new :
  spread_action old (spread_action old new) = spread_action old new.
Proof. destruct new as [| |? ? [|]], old as [| |? ? [|]]; done. Qed.

Lemma abortAction_suspended s f id a :
  Good s f → actions s !! id = Some a →
  suspended (abortAction id s)
  = match controllers s !! abortSignal a with
    | Some false => map (fire_listener (abortSignal a)) (suspended s)
    | _ => suspended s
    end.
Proof.
  intros HG Ha. unfold abortAction. rewrite Ha.
  destruct (good_closure _ _ HG _ _ Ha) as [-> _]. simpl.
  match goal with |- context [updateAction ?i ?u ?s0] =>
    destruct (updateAction_other i u s0) as (_ & _ & _ & -> & _) end.
  unfold signal_abort. by destruct (controllers s !! abortSignal a) as [[]|].
Qed.

Lemma tick_suspended s :
  suspended (tick s) = suspended s
  ∨ ∃ i a d, actions s !! i = Some a
             ∧ suspended (tick s)
               = suspended s ++ [{| t_actionId := i; t_action := a; t_killed := false;
                                    t_promise := d |}].
Proof.
  unfold tick. destruct (microtasks s) as [|[r v] q]; [by left|].
  set (s0 := set_microtasks q s).
  assert (∀ d v', suspended (settle d v' s0) = suspended s) as Hsettle.
  { intros d v'. by destruct (settle_other d v' s0) as (_ & _ & _ & -> & _). }
  assert (∀ cb d, suspended (run_callback cb d s0) = suspended s
                  ∨ ∃ i a d', actions s !! i = Some a
                     ∧ suspended (run_callback cb d s0)
                       = suspended s ++ [{| t_actionId := i; t_action := a;
                                            t_killed := false; t_promise := d' |}]) as Hcb.
  { intros cb d. destruct cb as [id|id|]; simpl.
    - left. match goal with |- context [settle ?d ?v ?s1] =>
        destruct (settle_other d v s1) as (_ & _ & _ & -> & _) end.
      by destruct (updateAction_other id (status_update Running) s0) as (_&_&_& -> &_).
    - unfold executeAction. change (actions s0) with (actions s).
      destruct (actions s !! id) as [a|] eqn:Ha.
      + right. exists id, a, d. split; [done|]. simpl.
        by destruct (updateAction_other id (status_update Running) s0) as (_&_&_& -> &_).
      + left. apply Hsettle.
    - left. apply Hsettle. }
  destruct r as [cb d|cb d], v as [|e]; simpl; auto.
Qed.

Lemma settle_task_suspended k sys t :
  t ∈ suspended (runner (settle_task k sys)) → t ∈ suspended (runner sys).
Proof.
  unfold settle_task. destruct (suspended (runner sys) !! k) as [t0|] eqn:Hk; [|done].
  destruct (run_handler _ _ _ _) as [[o w] cs].
  set (s0 := set_suspended (delete k (suspended (runner sys))) (runner sys)).
  assert (∀ o', o' ≠ Hangs → t ∈ suspended (finishAction t0 o' s0) →
                t ∈ suspended (runner sys)) as Hfin.
  { intros o' Ho. destruct (finishAction_effect t0 o' s0 Ho) as (_ & _ & _ & -> & _).
    simpl. intros Hin. eapply elem_of_sublist; [exact Hin|]. apply sublist_delete. }
  destruct o as [[]|e|]; [by apply Hfin|by apply Hfin|done].
Qed.

Lemma raised_step id c D sys ev :
  Inv (runner sys) → raised_before_run id c D (runner sys) →
  raised_before_run id c D (runner (step sys ev)).
Proof.
  intros (hist & f & HR & HG) ((r & Hr & Hsig & Hd & Hex) & Hc & Ht).
  destruct ev as [d|d|id'| |k]; simpl.
  - unfold addAction.
    destruct (actions (runner sys) !! actionId d) as [a|] eqn:Ha.
    { by split; [eauto|]. }
    destruct (addAction_effect _ _ _ d HR Ha) as (Ea & Ec & _ & Es & _).
    unfold addAction in Ea, Ec, Es. rewrite Ha in Ea, Ec, Es.
    split; [|split].
    + exists r. rewrite Ea, lookup_insert_ne by congruence. done.
    + rewrite Ec. rewrite lookup_app_l; [done|]. by eapply lookup_lt_Some.
    + by rewrite Es.
  - destruct (actions (runner sys) !! actionId d) as [a|] eqn:Ha.
    + destruct (executed a) eqn:Hexa.
      * unfold runAction. rewrite Ha, Hexa. by split; [eauto|].
      * destruct (runAction_effect _ _ _ d a HR Ha Hexa) as (Ea & Ec & _ & Es & _).
        assert (actionId d ≠ id) as Hne by congruence.
        split; [|split].
        -- exists r. rewrite Ea, lookup_insert_ne by done. done.
        -- by rewrite Ec.
        -- by rewrite Es.
    + unfold runAction. rewrite Ha. by split; [eauto|].
  - destruct (actions (runner sys) !! id') as [a|] eqn:Ha.
    2:{ unfold abortAction. rewrite Ha. by split; [eauto|]. }
    destruct (abortAction_effect _ _ id' a HG Ha) as (Ea & Ec & _).
    pose proof (abortAction_suspended _ _ id' a HG Ha) as Es.
    split; [|split].
    + rewrite Ea, lookup_insert. case_decide as Hid.
      * subst id'. eexists. split; [done|]. simpl.
        assert (a = r) as -> by congruence. done.
      * eauto.
    + rewrite Ec. destruct (decide (abortSignal a = c)) as [->|Hne].
      * apply list_lookup_insert_eq. by eapply lookup_lt_Some.
      * by rewrite list_lookup_insert_ne.
    + rewrite Es. intros t Hin Hid.
      destruct (controllers (runner sys) !! abortSignal a) as [[]|] eqn:Hca; try by apply Ht.
      apply list_elem_of_fmap in Hin as (t0 & -> & Hin0).
      destruct (fire_listener_same (abortSignal a) t0) as (E1 & E2 & _).
      rewrite E1 in Hid. destruct (Ht t0 Hin0 Hid) as (Hk & Hs0 & Hd0).
      rewrite E2. split; [|done].
      unfold fire_listener. rewrite Hs0.
      destruct (Nat.eqb_spec c (abortSignal a)) as [Heq|Hne].
      { rewrite <- Heq in Hca. congruence. }
      by rewrite andb_false_r.
  - destruct (tick_store (runner sys)) as (Ec & Hsame & _).
    split; [|split].
    + specialize (Hsame id). rewrite Hr in Hsame.
      destruct (actions (tick (runner sys)) !! id) as [r'|]; [|done].
      destruct Hsame as (H1 & H2 & H3 & H4). exists r'. by rewrite H4, H1, H2.
    + by rewrite Ec.
    + destruct (tick_suspended (runner sys)) as [-> | (i & a & d' & Ha & ->)]; [done|].
      intros t Hin Hid. apply elem_of_app in Hin as [Hin|Hin]; [by apply Ht|].
      apply list_elem_of_singleton in Hin. subst t. simpl in *. subst i.
      assert (a = r) as -> by congruence. done.
  - destruct (settle_task_store k sys) as (Ec & Hsame & _).
    split; [|split].
    + specialize (Hsame id). rewrite Hr in Hsame.
      destruct (actions (runner (settle_task k sys)) !! id) as [r'|]; [|done].
      destruct Hsame as (H1 & H2 & H3 & H4). exists r'. by rewrite H4, H1, H2.
    + by rewrite Ec.
    + intros t Hin. apply Ht. by eapply settle_task_suspended.
Qed.

Lemma raised_run_events id c D sys evs :
  Inv (runner sys) → raised_before_run id c D (runner sys) →
  raised_before_run id c D (runner (run_events sys evs)).
Proof.
  revert sys. induction evs as [|ev evs IH]; intros sys HI HP; [done|].
  simpl. apply IH; [by apply Inv_step | by apply raised_step].
Qed.

Lemma head_exec_front s hist f id q js :
  Repr s hist f → microtasks s = (exec_reaction id q, Fulfilled) :: js →
  suspended s = [].
Proof.
  intros (_ & _ & Hm & Hs) Hmq. rewrite Hm in Hmq.
  destruct f as [c [|x sets]|[|x sets] i rest|rest|v rest]; simpl in *; done.
Qed.

Lemma elem_of_begun t A : A ∈ begun t ↔ ObsBegin A ∈ t.
Proof.
  unfold begun. rewrite list_elem_of_omap. split.
  - intros ([x|x|x fl] & Hin & Heq); simpl in Heq; try done. by simplify_eq.
  - intros Hin. by exists (ObsBegin A).
Qed.

(** When the handler of [B] begins, no handler is in flight: each one
    that began earlier has ended. *)
Lemma begins_when_idle s f t1 t2 A B :
  Good s f → trace s = t1 ++ ObsBegin B :: t2 → ObsBegin A ∈ t1 →
  ∃ o, ObsSettle A o ∈ t1.
Proof.
  intros HG Ht HA.
  pose proof (good_serial _ _ HG) as Hser. rewrite Ht in Hser.
  rewrite serial_from_app in Hser.
  destruct (serial_from None t1) as [c1|] eqn:H1; [|done]. simpl in Hser.
  destruct c1 as [x|]; [done|].
  destruct (serial_begin_settled _ _ _ _ H1 HA) as [?|?]; done.
Qed.

(** Handlers begin in the order of the [runAction] calls. *)
Lemma begins_in_run_order s f t1 t2 i j A B :
  Good s f → trace s = t1 ++ ObsBegin B :: t2 →
  runs (trace s) !! i = Some A → runs (trace s) !! j = Some B → i < j →
  ObsBegin A ∈ t1.
Proof.
  intros HG Ht Hi Hj Hlt.
  pose proof (good_runs _ _ HG) as Hruns.
  pose proof (good_runs_nodup _ _ HG) as Hnd.
  assert (begun (trace s) = begun t1 ++ B :: begun t2) as Hb.
  { rewrite Ht. unfold begun. by rewrite omap_app. }
  rewrite Hb, <- app_assoc in Hruns.
  assert (runs (trace s) !! length (begun t1) = Some B) as Hpos.
  { rewrite Hruns. rewrite lookup_app_r by done. by rewrite Nat.sub_diag. }
  assert (j = length (begun t1)) as -> by (by eapply NoDup_lookup).
  rewrite Hruns, lookup_app_l in Hi by done.
  apply elem_of_begun. by eapply list_elem_of_lookup_2.
Qed.

(** In every state the runner can reach, a job that updates a record,
    a suspended call and an abort closure each name an id that is in
    the store: [updateAction] is never called on an absent id. *)
Lemma updateAction_targets_present boot w evs :
  let s := runner (run_events (boot_system boot w) evs) in
  (∀ j q id, microtasks s = j :: q → job_target j = Some id → is_Some (actions s !! id))
  ∧ (∀ t, t ∈ suspended s → is_Some (actions s !! t_actionId t))
  ∧ (∀ id r, actions s !! id = Some r → ac_actionId (abort r) = id).
Proof.
  intros s. destruct (Inv_reachable boot w evs) as (hist & f & HR & HG). fold s in HR, HG.
  split; [|split].
  - intros j q id Hm Hj. destruct HR as (_ & _ & Hmf & _). rewrite Hmf in Hm.
    destruct f as [c [|x sets]|[|x sets] i rest|rest|v rest]; simpl in Hm;
      try done; injection Hm as <- _; simpl in Hj; simplify_eq.
    + apply (good_sets_present _ _ HG). simpl. left.
    + destruct (Good_present_exec _ _ id HG) as (r & Hr & _); [simpl; left|]. eauto.
    + apply (good_sets_present _ _ HG). simpl. left.
    + by destruct v.
  - intros t Ht. destruct (good_task _ _ HG _ Ht) as (r & Hr & _). eauto.
  - intros id r Hr. by destruct (good_closure _ _ HG _ _ Hr) as [-> _].
Qed.

(** The shell handler on a booted container, by what the process
    does. *)
Lemma runShellAction_booted killed cmd w :
  runShellAction Booted killed cmd w
  = match spawn w cmd shell_env with
    | (inl e, w1) => (Threw e, w1, [CSpawn cmd])
    | (inr p, w1) =>
        (match proc_exit p killed with
         | ExitsAt ms code =>
             let seen := if (ms <? timeout_ms)%Z then code
                         else if long_running cmd then 0%Z else code in
             if negb (seen =? 0)%Z && negb (includes cmd "next dev")
             then Threw (ErrorObj ("Process failed with exit code " +:+ pretty seen))
             else Done tt
         | ExitFailsAt ms e =>
             if (ms <? timeout_ms)%Z then Threw e
             else if long_running cmd then Done tt else Threw e
         | NeverExits => if long_running cmd then Done tt else Hangs
         end, w1, [CSpawn cmd])
    end.
Proof.
  destruct (spawn w cmd shell_env) as [[e|p] w1] eqn:Hs.
  { unfold runShellAction, await_webcontainer.
    rewrite ret_bind. unfold mbind, Async_bind, bind, spawn_jsh. by rewrite Hs. }
  destruct (proc_exit p killed) as [ms code|ms e|] eqn:Hx.
  { by apply (runShellAction_exit w cmd killed p w1 ms code). }
  all: unfold runShellAction, await_webcontainer;
    rewrite ret_bind; unfold mbind, Async_bind, bind, spawn_jsh; rewrite Hs, Hx;
    unfold race_exit, ret, throw, hang.
  - destruct (ms <? timeout_ms)%Z; [done|]. destruct (long_running cmd); [|done].
    simpl. done.
  - destruct (long_running cmd); [|done]. simpl. done.
Qed.

Lemma follows_ret {A} (a : A) : follows (ret a) [].
Proof. intros w. simpl. split; [done|]. done. Qed.

Lemma follows_throw {A} e : follows (@throw _ A e) [].
Proof. intros w. simpl. split; done. Qed.

Lemma follows_bind {A B} (m : Async A) (k : A → Async B) P1 P2 :
  follows m P1 → (∀ a, follows (k a) P2) → follows (m ≫= k) (P1 ++ P2).
Proof.
  intros Hm Hk w. unfold mbind, Async_bind, bind. specialize (Hm w).
  destruct (m w) as [[o w1] l1]. simpl in Hm. destruct Hm as [Hp Hd].
  destruct o as [a|e|]; simpl.
  - specialize (Hk a w1). destruct (k a w1) as [[o2 w2] l2]. simpl in *.
    rewrite (Hd a eq_refl). destruct Hk as [Hp2 Hd2]. split.
    + by apply prefix_app.
    + intros b ->. by rewrite (Hd2 b eq_refl).
  - split; [|done]. by apply prefix_app_r.
  - split; [|done]. by apply prefix_app_r.
Qed.

Lemma follows_rethrow {A} (m : Async A) P : follows m P → follows (try_catch m (λ e, throw e)) P.
Proof. intros H w. rewrite try_catch_rethrow. apply H. Qed.

Lemma follows_mkdir p : follows (mkdir p) [CMkdir p].
Proof. intros w. unfold mkdir. destruct (fs_mkdir w p) as [[e|] w']; simpl; done. Qed.

Lemma follows_writeFile p c : follows (writeFile p c) [CWriteFile p c].
Proof. intros w. unfold writeFile. destruct (fs_writeFile w p c) as [[e|] w']; simpl; done. Qed.

Lemma follows_for_of {A} (xs : list A) (body : A → Async unit) (plan : A → list Call) :
  (∀ x, follows (body x) (plan x)) → follows (for_of xs body) (flat_map plan xs).
Proof.
  intros H. induction xs as [|x xs IH]; simpl.
  - apply follows_ret.
  - apply follows_bind; [apply H|]. intros _. apply IH.
Qed.

Lemma follows_import_file folder f : follows (import_file folder f) (import_file_plan folder f).
Proof.
  unfold import_file, import_file_plan. cbv zeta. apply follows_bind.
  - destruct (String.eqb _ "."); simpl; [apply follows_ret|apply follows_mkdir].
  - intros _. apply follows_writeFile.
Qed.

Lemma follows_post_import_command c : follows (post_import_command c) [CSpawn c].
Proof.
  intros w. unfold post_import_command, mbind, Async_bind, bind, spawn_jsh.
  destruct (spawn w c []) as [[e|p] w1]; simpl; [done|].
  unfold await_exit. destruct (proc_exit p false) as [ms code|ms e|]; simpl; try done.
  destruct (negb (code =? 0)%Z); simpl; done.
Qed.

Lemma flat_map_singleton {A B} (f : A → B) (l : list A) : flat_map (λ x, [f x]) l = map f l.
Proof. induction l; simpl; congruence. Qed.

Lemma follows_importRepository t fs cs :
  follows (importRepository Booted t fs cs) (import_plan t fs cs).
Proof.
  unfold importRepository, import_plan, await_webcontainer. cbv zeta.
  intros w. rewrite ret_bind. revert w. apply follows_rethrow.
  fold (import_folder t).
  apply follows_bind.
  - destruct (String.eqb _ "."); simpl; [apply follows_ret|apply follows_mkdir].
  - intros _. apply follows_bind.
    + apply follows_for_of. apply follows_import_file.
    + intros _. destruct cs as [[|c cs]|]; simpl; try apply follows_ret.
      rewrite <- (flat_map_singleton CSpawn cs).
      change (CSpawn c :: flat_map (λ x, [CSpawn x]) cs)
        with (flat_map (λ x, [CSpawn x]) (c :: cs)).
      apply (follows_for_of (c :: cs)). apply follows_post_import_command.
Qed.

(** A handler that returns has made the calls of its plan. *)
Lemma run_handler_done_plan boot killed a w w' cs :
  run_handler boot killed a w = (Done tt, w', cs) → cs = handler_plan (descriptor a).
Proof.
  destruct boot as [|e|]; [|unfold run_handler; by destruct (descriptor a)..].
  unfold run_handler. destruct (descriptor a) as [c|p c|t fs post]; simpl.
  - rewrite runShellAction_booted. destruct (spawn w c shell_env) as [[e|pr] w1]; [done|].
    by intros [= _ _ <-].
  - unfold file_plan, runFileAction, await_webcontainer, mbind, Async_bind, bind, ret,
      try_catch, mkdir, writeFile.
    destruct (String.eqb _ "."); simpl.
    + destruct (fs_writeFile w p c) as [[e'|] w2]; by intros [= _ <-].
    + destruct (fs_mkdir w _) as [[e|] w1]; simpl;
        destruct (fs_writeFile w1 p c) as [[e'|] w2]; by intros [= _ <-].
  - intros H. destruct (follows_importRepository t fs post w) as [_ Hp].
    rewrite H in Hp. by apply (Hp tt).
Qed.

(** The file handler on a booted container: the folder is created
    when it is not [.], then the file is written; neither failure
    stops it. *)
Lemma runFileAction_booted w filePath content :
  let folder := strip_trailing_slashes (dirname filePath) in
  let wm := if String.eqb folder "." then w else (fs_mkdir w folder).2 in
  runFileAction Booted filePath content w
  = (Done tt, (fs_writeFile wm filePath content).2, file_plan filePath content).
Proof.
  unfold file_plan, runFileAction, await_webcontainer, mbind, Async_bind, bind, ret,
    try_catch, mkdir, writeFile.
  destruct (String.eqb _ "."); simpl.
  - by destruct (fs_writeFile w filePath content) as [[e'|] w2].
  - destruct (fs_mkdir w _) as [[e|] w1]; simpl;
      by destruct (fs_writeFile w1 filePath content) as [[e'|] w2].
Qed.

(** The calls of a handler reach the sandbox when the sandbox does its
    work, however the handler ends. *)
Lemma settle_task_calls_now sys k t :
  suspended (runner sys) !! k = Some t →
  calls_now (settle_task k sys)
  = calls sys
    ++ (run_handler (webcontainer (runner sys)) (t_killed t) (t_action t) (sandbox sys)).2
  ∧ sandbox_now (settle_task k sys)
    = (run_handler (webcontainer (runner sys)) (t_killed t) (t_action t) (sandbox sys)).1.2.
Proof.
  intros Hk. unfold settle_task. rewrite Hk.
  destruct (run_handler _ _ _ _) as [[[[]|e|] w] cs]; unfold calls_now, sandbox_now; simpl;
    by rewrite ?app_nil_r.
Qed.

End Proofs.

(** * The claims *)

Section Claims.
Context `{WC : WebContainer} `{NP : NodePath}.

(** C1, as the code has it: for an action id on which [abort] is not
    invoked, every event moves the status along
    [Pending → Running → {Complete, Failed}] or leaves it, and a status
    that is terminal is not changed again by [addAction], [runAction],
    the scheduled running-update, the dispatch, or the abort of another
    id. *)
Theorem status_machine_without_abort (boot : Boot) (w : World) (evs : list Event)
    (ev : Event) (id : string) :
  EvAbort id ∉ evs ++ [ev] →
  let before := status_of (run_events (boot_system boot w) evs) id in
  let after := status_of (run_events (boot_system boot w) (evs ++ [ev])) id in
  status_step_ok before after
  ∧ (∀ st, before = Some st → terminal st = true → after = Some st).
Proof.
  intros Hnot before after.
  assert (status_step_ok before after) as Hok.
  { subst before after. rewrite run_events_snoc.
    apply not_elem_of_app in Hnot as [Hnot Hev]. apply not_elem_of_cons in Hev as [Hev _].
    pose proof (Inv_reachable boot w evs) as (hist & f & HR & HG).
    pose proof (λ r, unaborted boot w evs id r Hnot) as Hun.
    set (sys := run_events (boot_system boot w) evs) in *.
    unfold status_of at 1.
    destruct (actions (runner sys) !! id) as [r|] eqn:Hr; simpl.
    - specialize (Hun r eq_refl).
      destruct ev as [d|d|id'| |k]; unfold status_of; simpl.
      + destruct (actions (runner sys) !! actionId d) as [a|] eqn:Ha.
        * unfold addAction. rewrite Ha, Hr. by left.
        * destruct (addAction_effect _ _ _ d HR Ha) as (-> & _).
          rewrite lookup_insert_ne by congruence. rewrite Hr. by left.
      + destruct (actions (runner sys) !! actionId d) as [a|] eqn:Ha.
        * destruct (executed a) eqn:Hex.
          -- unfold runAction. rewrite Ha, Hex. simpl. rewrite Hr. by left.
          -- destruct (runAction_effect _ _ _ d a HR Ha Hex) as (-> & _).
             rewrite lookup_insert. case_decide as Hid.
             ++ simpl. left. rewrite Hid in Ha. congruence.
             ++ rewrite Hr. by left.
        * unfold runAction. rewrite Ha. simpl. rewrite Hr. by left.
      + assert (id' ≠ id) as Hne by congruence.
        destruct (actions (runner sys) !! id') as [a|] eqn:Ha.
        * destruct (abortAction_effect _ _ id' a HG Ha) as (-> & _).
          rewrite lookup_insert_ne by done. rewrite Hr. by left.
        * unfold abortAction. rewrite Ha, Hr. by left.
      + by eapply tick_status.
      + by eapply settle_task_status.
    - destruct ev as [d|d|id'| |k]; unfold status_of; simpl.
      + destruct (actions (runner sys) !! actionId d) as [a|] eqn:Ha.
        * unfold addAction. rewrite Ha, Hr. by left.
        * destruct (addAction_effect _ _ _ d HR Ha) as (-> & _).
          rewrite lookup_insert. case_decide.
          -- right. left. done.
          -- rewrite Hr. by left.
      + destruct (actions (runner sys) !! actionId d) as [a|] eqn:Ha.
        * destruct (executed a) eqn:Hex.
          -- unfold runAction. rewrite Ha, Hex. simpl. rewrite Hr. by left.
          -- destruct (runAction_effect _ _ _ d a HR Ha Hex) as (-> & _).
             rewrite lookup_insert_ne by congruence. rewrite Hr. by left.
        * unfold runAction. rewrite Ha. simpl. rewrite Hr. by left.
      + destruct (actions (runner sys) !! id') as [a|] eqn:Ha.
        * destruct (abortAction_effect _ _ id' a HG Ha) as (-> & _).
          rewrite lookup_insert_ne by congruence. rewrite Hr. by left.
        * unfold abortAction. rewrite Ha, Hr. by left.
      + destruct (tick_store (runner sys)) as (_ & Hsame & _).
        rewrite (same_records_None _ _ _ Hsame Hr). by left.
      + destruct (settle_task_store k sys) as (_ & Hsame & _).
        rewrite (same_records_None _ _ _ Hsame Hr). by left. }
  split; [done|].
  intros st Hb Hterm. rewrite Hb in Hok.
  destruct Hok as [?|[[? _]|[[? _]|[? _]]]]; [done|done|..]; simplify_eq; done.
Qed.

(** C2, as the code has it: a shell action whose process exits with a
    nonzero code fails, with the code in the error message, unless the
    command contains ["next dev"].  A command that contains ["npm"] is
    spared only when it is still running at the 5-second timeout, where
    the handler stops waiting and takes the exit code to be 0. *)
Theorem shell_exit_code_policy (sys : System) (k : nat) (t : Task) (r : ActionState)
    (cmd : string) (p : Process) (w1 : World) (ms code : Z) :
  suspended (runner sys) !! k = Some t →
  descriptor (t_action t) = ShellAction cmd →
  webcontainer (runner sys) = Booted →
  actions (runner sys) !! t_actionId t = Some r →
  spawn (sandbox sys) cmd shell_env = (inr p, w1) →
  proc_exit p (t_killed t) = ExitsAt ms code →
  code ≠ 0%Z →
  let sys' := settle_task k sys in
  let message := "Process failed with exit code " +:+ pretty code in
  let tolerated :=
    status_of sys' (t_actionId t)
    = Some (if default false (controllers (runner sys) !! abortSignal (t_action t))
            then Aborted else Complete)
    ∧ error <$> actions (runner sys') !! t_actionId t = Some (error r) in
  let failed :=
    status_of sys' (t_actionId t) = Some Failed
    ∧ error <$> actions (runner sys') !! t_actionId t = Some (Some message)
    ∧ includes message (pretty code) = true in
  (includes cmd "next dev" = true → tolerated)
  ∧ (includes cmd "next dev" = false → (ms < timeout_ms)%Z → failed)
  ∧ (includes cmd "next dev" = false → includes cmd "npm" = false → failed)
  ∧ (includes cmd "next dev" = false → includes cmd "npm" = true →
     (timeout_ms ≤ ms)%Z → tolerated).
Proof.
  intros Hk Hd Hb Hr Hs Hx Hc sys' message tolerated failed.
  pose proof (runShellAction_exit _ _ _ _ _ _ _ Hs Hx) as Hrun. cbv zeta in Hrun.
  assert (∀ w cs, run_handler (webcontainer (runner sys)) (t_killed t) (t_action t) (sandbox sys)
                  = (Done tt, w, cs) → tolerated) as Htol.
  { intros w cs Hh.
    destruct (settle_task_effect sys k t r (Done tt) w cs Hk Hh) as (Ha & _); [done|done|].
    unfold tolerated, status_of. subst sys'. rewrite Ha. done. }
  assert (∀ w cs, run_handler (webcontainer (runner sys)) (t_killed t) (t_action t) (sandbox sys)
                  = (Threw (ErrorObj message), w, cs) → failed) as Hfl.
  { intros w cs Hh.
    destruct (settle_task_effect sys k t r _ w cs Hk Hh) as (Ha & _); [done|done|].
    unfold failed, status_of. subst sys'. rewrite Ha.
    split; [done|]. split; [done|]. apply includes_app_r. }
  assert ((code =? 0)%Z = false) as Hnz by (by apply Z.eqb_neq).
  rewrite Hb in Htol, Hfl. unfold run_handler in Htol, Hfl. rewrite Hd in Htol, Hfl.
  split; [|split; [|split]].
  - intros Hnd. eapply Htol. rewrite Hrun, Hnd, andb_false_r. done.
  - intros Hnd Hlt. eapply Hfl. rewrite Hrun, Hnd.
    apply Z.ltb_lt in Hlt. rewrite Hlt, Hnz. done.
  - intros Hnd Hnpm. eapply Hfl. rewrite Hrun, Hnd.
    unfold long_running. rewrite Hnd, Hnpm. simpl.
    destruct (ms <? timeout_ms)%Z; rewrite Hnz; done.
  - intros Hnd Hnpm Hge. eapply Htol. rewrite Hrun, Hnd.
    unfold long_running. rewrite Hnd, Hnpm. simpl.
    apply Z.ltb_ge in Hge. rewrite Hge. done.
Qed.

(** C3: the handlers of one runner run one at a time, in the order of
    the [runAction] calls, and a failing handler does not stop the
    chain.  In every state the runner can reach: at most one call is
    suspended in its handler; the ids whose handler began are the first
    of the ids [runAction] enqueued, in that order; when the handler of
    [B] began, every handler that had begun before had ended, so that
    of an [A] enqueued before [B] had begun and ended; and when
    the handler in flight fails while [B] is the next id enqueued, the
    runtime reaches the handler of [B] after finitely many jobs, the
    failed action being [Failed]. *)
Theorem execution_is_serial (boot : Boot) (w : World) (evs : list Event) :
  let sys := run_events (boot_system boot w) evs in
  let t := trace (runner sys) in
  length (suspended (runner sys)) ≤ 1
  ∧ begun t `prefix_of` runs t
  ∧ (∀ t1 t2 A B, t = t1 ++ ObsBegin B :: t2 → ObsBegin A ∈ t1 → ∃ o, ObsSettle A o ∈ t1)
  ∧ (∀ i j A B t1 t2,
       runs t !! i = Some A → runs t !! j = Some B → i < j →
       t = t1 ++ ObsBegin B :: t2 →
       ObsBegin A ∈ t1 ∧ ∃ o, ObsSettle A o ∈ t1)
  ∧ (∀ tA e w' cs B more,
       suspended (runner sys) = [tA] →
       run_handler (webcontainer (runner sys)) (t_killed tA) (t_action tA) (sandbox sys)
       = (Threw e, w', cs) →
       runs t = begun t ++ B :: more →
       ∃ n tB,
         let sys' := run_events sys (EvSettle 0 :: replicate n EvTick) in
         status_of (step sys (EvSettle 0)) (t_actionId tA) = Some Failed
         ∧ suspended (runner sys') = [tB] ∧ t_actionId tB = B
         ∧ trace (runner sys') = t ++ [ObsSettle (t_actionId tA) (Some e); ObsBegin B]).
Proof.
  intros sys t.
  pose proof (Inv_reachable boot w evs) as (hist & f & HR & HG). fold sys in HR, HG.
  split; [|split; [|split; [|split]]].
  - destruct HR as (_ & _ & _ & Hs).
    destruct f as [c sets|sets i rest|rest|v rest].
    + destruct Hs as [_ ->]. simpl. lia.
    + rewrite Hs. simpl. lia.
    + destruct Hs as (t0 & -> & _). simpl. lia.
    + rewrite Hs. simpl. lia.
  - unfold t. rewrite (good_runs _ _ HG). by eexists.
  - intros t1 t2 A B Ht HA. by eapply begins_when_idle.
  - intros i j A B t1 t2 Hi Hj Hlt Ht.
    assert (ObsBegin A ∈ t1) as HA by (by eapply begins_in_run_order).
    split; [done|]. by eapply begins_when_idle.
  - intros tA e w' cs B more Hsus Hrun Hruns.
    assert (suspended (runner sys) !! 0 = Some tA) as Hk by (by rewrite Hsus).
    destruct (Repr_suspended _ _ _ _ _ HR Hk) as (_ & _ & rest & ->).
    unfold t in Hruns. rewrite (good_runs _ _ HG) in Hruns.
    apply app_inv_head in Hruns. simpl in Hruns.
    destruct (execs_chain_head _ _ _ Hruns) as (sets & rest' & ->).
    destruct (good_task _ _ HG tA) as (r & Hr & _); [rewrite Hsus; left|].
    destruct (settle_task_effect sys 0 tA r (Threw e) w' cs Hk Hrun) as (Ha & _ & _ & Et);
      [done|done|].
    destruct (Inv_finish _ _ _ tA (Threw e) HR HG Hsus) as [HR1 HG1]; [done|].
    set (sys1 := settle_task 0 sys) in *.
    assert (runner sys1
            = finishAction tA (Threw e)
                (set_suspended (delete 0 (suspended (runner sys))) (runner sys))) as E1.
    { unfold sys1, settle_task. rewrite Hk, Hrun. done. }
    rewrite <- E1 in HR1, HG1.
    destruct (repr_tick_catch_seg _ _ _ _ _ _ HR1) as [Eq2 HR2].
    assert (Good (tick (runner sys1)) (FJobs sets B rest')) as HG2.
    { eapply Good_same; [..|exact HG1]; rewrite ?Eq2; done. }
    destruct (drain_sets (on_runner tick sys1) _ _ _ _ HR2 HG2) as (HR3 & HG3 & Et3 & _).
    set (sys3 := run_events (on_runner tick sys1) (replicate (length sets) EvTick)) in *.
    destruct (tick_exec_good _ _ _ _ HR3 HG3) as (a & Hpres & _ & _ & Et4 & Hs4 & _).
    exists (S (length sets + 1)), {| t_actionId := B; t_action := a; t_killed := false;
                                     t_promise := Some (length (hist ++ [Rejected e] ++ [Fulfilled])) |}.
    cbv zeta. split; [|split; [|split]].
    + unfold status_of. simpl. fold sys1. by rewrite Ha.
    + simpl. fold sys1. rewrite replicate_add, run_events_app. fold sys3. simpl.
      rewrite Hs4. by rewrite <- app_assoc.
    + done.
    + simpl. fold sys1. rewrite replicate_add, run_events_app. fold sys3. simpl.
      rewrite Et4, Et3. simpl. rewrite Eq2. simpl. rewrite Et. by rewrite <- app_assoc.
Qed.

(** C4: a second [runAction] for an id whose record has
    [executed = true] returns at once, the returned promise fulfilled
    and the runner (record, chain, queue) untouched; and in no run does
    the handler of an id begin twice. *)
Theorem runAction_dispatches_once :
  (∀ data s a, actions s !! actionId data = Some a → executed a = true →
               runAction data s = (Fulfilled, s))
  ∧ (∀ boot w evs, NoDup (begun (trace (runner (run_events (boot_system boot w) evs))))).
Proof.
  split.
  - intros data s a Ha Hex. unfold runAction. by rewrite Ha, Hex.
  - intros boot w evs.
    pose proof (Inv_reachable boot w evs) as (hist & f & HR & HG).
    pose proof (good_runs_nodup _ _ HG) as Hnd. rewrite (good_runs _ _ HG) in Hnd.
    by apply NoDup_app in Hnd as (? & _).
Qed.

(** C6: an import action fails as a whole, keeping what it wrote.
    When a directory cannot be created, a file cannot be written, or
    a post-import command exits with a nonzero code, the
    status becomes [Failed] with the message of the error, the sandbox
    is the one the failing call left behind after the writes and
    commands before it, and the failing call is the last one made: no
    command is spawned after a file error, no further command after a
    failing one.  The files before the failing one have been
    written. *)
Theorem import_failure_is_terminal (sys : System) (k : nat) (t : Task) (r : ActionState)
    (targetPath : string) (files : list ImportFile) (post : option (list string)) :
  suspended (runner sys) !! k = Some t →
  descriptor (t_action t) = ImportAction targetPath files post →
  webcontainer (runner sys) = Booted →
  actions (runner sys) !! t_actionId t = Some r →
  let sys' := settle_task k sys in
  let folder := import_folder targetPath in
  let failed (e : Thrown) :=
    status_of sys' (t_actionId t) = Some Failed
    ∧ error <$> actions (runner sys') !! t_actionId t = Some (Some (error_message e)) in
  (∀ files1 f files2 w1 cs1,
     files = files1 ++ f :: files2 →
     import_prefix targetPath files1 (sandbox sys) = (Done tt, w1, cs1) →
     let filePath := folder +:+ "/" +:+ path f in
     let fileDir := dirname filePath in
     (∀ f', f' ∈ files1 → CWriteFile (folder +:+ "/" +:+ path f') (content f') ∈ cs1)
     ∧ (∀ c, CSpawn c ∉ cs1)
     ∧ (∀ e w2,
          fileDir ≠ "." → fs_mkdir w1 fileDir = (Some e, w2) →
          failed e ∧ sandbox sys' = w2
          ∧ calls sys' = calls sys ++ cs1 ++ [CMkdir fileDir])
     ∧ (∀ wd e w2,
          (fileDir = "." ∧ wd = w1) ∨ (fileDir ≠ "." ∧ fs_mkdir w1 fileDir = (None, wd)) →
          fs_writeFile wd filePath (content f) = (Some e, w2) →
          failed e ∧ sandbox sys' = w2
          ∧ calls sys'
            = calls sys ++ cs1
              ++ (if decide (fileDir = ".") then [] else [CMkdir fileDir])
              ++ [CWriteFile filePath (content f)]))
  ∧ (∀ e w2,
     folder ≠ "." → fs_mkdir (sandbox sys) folder = (Some e, w2) →
     failed e ∧ sandbox sys' = w2 ∧ calls sys' = calls sys ++ [CMkdir folder])
  ∧ (∀ cmds1 c cmds2 w1 cs1 w2 cs2 p w3 ms code,
     post = Some (cmds1 ++ c :: cmds2) →
     import_prefix targetPath files (sandbox sys) = (Done tt, w1, cs1) →
     for_of cmds1 post_import_command w1 = (Done tt, w2, cs2) →
     spawn w2 c [] = (inr p, w3) →
     proc_exit p false = ExitsAt ms code →
     code ≠ 0%Z →
     status_of sys' (t_actionId t) = Some Failed
     ∧ error <$> actions (runner sys') !! t_actionId t
       = Some (Some ("Post-import command failed: " +:+ c))
     ∧ sandbox sys' = w3
     ∧ calls sys' = calls sys ++ cs1 ++ cs2 ++ [CSpawn c]).
Proof.
  intros Hk Hd Hb Hr sys' folder failed.
  assert (∀ e w cs,
            importRepository Booted targetPath files post (sandbox sys) = (Threw e, w, cs) →
            status_of sys' (t_actionId t) = Some Failed
            ∧ error <$> actions (runner sys') !! t_actionId t = Some (Some (error_message e))
            ∧ sandbox sys' = w ∧ calls sys' = calls sys ++ cs) as Hfail.
  { intros e w cs Himp.
    destruct (settle_task_effect sys k t r (Threw e) w cs Hk) as (Ha & Hw & Hc & _);
      [by rewrite Hb; unfold run_handler; rewrite Hd|done|done|].
    unfold status_of. subst sys'. rewrite Ha, Hw, Hc. done. }
  assert (∀ files1 f files2 w1 cs1 e w2 cs2,
            files = files1 ++ f :: files2 →
            import_prefix targetPath files1 (sandbox sys) = (Done tt, w1, cs1) →
            import_file folder f w1 = (Threw e, w2, cs2) →
            failed e ∧ sandbox sys' = w2 ∧ calls sys' = calls sys ++ cs1 ++ cs2) as Hfile.
  { intros files1 f files2 w1 cs1 e w2 cs2 -> Hpre Hf.
    pose proof (import_prefix_fails targetPath files1 f files2 _ _ _ _ _ _ Hpre Hf) as Hp.
    destruct (Hfail e w2 (cs1 ++ cs2)) as (H1 & H2 & H3 & H4); [|done].
    rewrite importRepository_eq. by rewrite (bind_Threw _ _ _ _ _ _ Hp). }
  split; [|split].
  - intros files1 f files2 w1 cs1 Hfiles Hpre filePath fileDir.
    split; [intros f' Hin; by eapply import_prefix_written|].
    split; [intros c; by eapply import_prefix_calls|].
    split.
    + intros e w2 Hdir Hm.
      apply (Hfile files1 f files2 w1 cs1 e w2 [CMkdir fileDir] Hfiles Hpre).
      by apply import_file_mkdir_fails.
    + intros wd e w2 Hdir Hw.
      apply (Hfile files1 f files2 w1 cs1 e w2 _ Hfiles Hpre).
      by apply (import_file_write_fails folder f w1 wd).
  - intros e w2 Hdir Hm.
    destruct (Hfail e w2 [CMkdir folder]) as (H1 & H2 & H3 & H4); [|done].
    rewrite importRepository_eq.
    by rewrite (bind_Threw _ _ _ _ _ _ (import_prefix_base_fails _ files _ _ _ Hdir Hm)).
  - intros cmds1 c cmds2 w1 cs1 w2 cs2 p w3 ms code -> Hpre Hcmds Hs Hx Hc.
    pose proof (post_import_command_nonzero _ _ _ _ _ _ Hs Hx Hc) as Hpc.
    destruct (Hfail (ErrorObj ("Post-import command failed: " +:+ c)) w3
                (cs1 ++ cs2 ++ [CSpawn c])) as (H1 & H2 & H3 & H4); [|done].
    rewrite importRepository_eq. rewrite (bind_Done _ _ _ _ _ _ Hpre).
    assert (for_of (cmds1 ++ c :: cmds2) post_import_command w1
            = (Threw (ErrorObj ("Post-import command failed: " +:+ c)), w3,
               cs2 ++ [CSpawn c])) as Hall.
    { rewrite for_of_app. rewrite (bind_Done _ _ _ _ _ _ Hcmds). simpl.
      unfold mbind, Async_bind, bind. by rewrite Hpc. }
    destruct (cmds1 ++ c :: cmds2) as [|c0 cs0] eqn:E; [by destruct cmds1|].
    by rewrite Hall.
Qed.

(** C7: a file action never fails outward.  Whatever [fs.mkdir] and
    [fs.writeFile] do, the handler returns normally, the write having
    been attempted, no error is recorded, and the status becomes
    [Complete] ([Aborted] when the signal was raised). *)
Theorem file_action_never_fails (sys : System) (k : nat) (t : Task) (r : ActionState)
    (filePath content : string) :
  suspended (runner sys) !! k = Some t →
  descriptor (t_action t) = FileAction filePath content →
  webcontainer (runner sys) = Booted →
  actions (runner sys) !! t_actionId t = Some r →
  let sys' := settle_task k sys in
  (∃ w cs, run_handler Booted (t_killed t) (t_action t) (sandbox sys) = (Done tt, w, cs)
           ∧ CWriteFile filePath content ∈ cs)
  ∧ status_of sys' (t_actionId t)
    = Some (if default false (controllers (runner sys) !! abortSignal (t_action t))
            then Aborted else Complete)
  ∧ error <$> actions (runner sys') !! t_actionId t = Some (error r)
  ∧ trace (runner sys') = trace (runner sys) ++ [ObsSettle (t_actionId t) None].
Proof.
  intros Hk Hd Hb Hr sys'.
  destruct (runFileAction_returns (sandbox sys) filePath content) as (w & cs & Hrun & Hin).
  assert (run_handler Booted (t_killed t) (t_action t) (sandbox sys) = (Done tt, w, cs)) as Hh.
  { unfold run_handler. by rewrite Hd. }
  split; [eauto|].
  destruct (settle_task_effect sys k t r (Done tt) w cs Hk) as (Ha & _ & _ & Ht);
    [by rewrite Hb|done|done|].
  unfold status_of. subst sys'. rewrite Ha, Ht. done.
Qed.

(** C9: aborting an action that is still pending does not prevent its
    execution.  After [abort(id)] on a record with [executed = false]
    the status is [Aborted], the signal is raised and [executed] is
    still false, so the next [runAction] enqueues the execution.  From
    then on, whatever else happens: when the runtime reaches that
    execution it sets the status to [Running] and enters the handler on
    the enqueued descriptor; the call suspended there never has its
    process killed by a later abort; the handler makes its calls on
    the sandbox (a file action writes its file, a shell action spawns
    its command); and when the handler returns, having made every
    call of its plan, the status becomes [Aborted]. *)
Theorem abort_before_run_still_executes (boot : Boot) (w : World) (evs : list Event)
    (d : ActionCallbackData) (r : ActionState) :
  let sys := run_events (boot_system boot w) evs in
  let id := actionId d in
  actions (runner sys) !! id = Some r →
  executed r = false →
  let sys1 := step sys (EvAbort id) in
  let sys2 := step sys1 (EvRun d) in
  let D := spread_action (descriptor r) (action d) in
  (∃ r1, actions (runner sys1) !! id = Some r1 ∧ status r1 = Aborted
         ∧ executed r1 = false
         ∧ controllers (runner sys1) !! abortSignal r1 = Some true)
  ∧ (runAction d (runner sys1)).1 = Fulfilled
  ∧ trace (runner sys2) = trace (runner sys) ++ [ObsRun id]
  ∧ (∃ r2, actions (runner sys2) !! id = Some r2 ∧ executed r2 = true
           ∧ descriptor r2 = D ∧ status r2 = Aborted)
  ∧ ∀ evs', let sys3 := run_events sys2 evs' in
      (∀ q js, microtasks (runner sys3) = (exec_reaction id q, Fulfilled) :: js →
         status_of (step sys3 EvTick) id = Some Running
         ∧ ∃ a, suspended (runner (step sys3 EvTick))
                = [{| t_actionId := id; t_action := a; t_killed := false;
                      t_promise := Some q |}]
                ∧ descriptor a = D)
      ∧ (∀ t, suspended (runner sys3) = [t] → t_actionId t = id →
         let sys4 := step sys3 (EvSettle 0) in
         t_killed t = false ∧ descriptor (t_action t) = D
         ∧ (∀ w' cs,
             run_handler (webcontainer (runner sys3)) false (t_action t) (sandbox sys3)
             = (Done tt, w', cs) →
             status_of sys4 id = Some Aborted
             ∧ sandbox sys4 = w'
             ∧ calls sys4 = calls sys3 ++ handler_plan D)
         ∧ (∀ filePath content,
             D = FileAction filePath content → webcontainer (runner sys3) = Booted →
             let folder := strip_trailing_slashes (dirname filePath) in
             let wm := if String.eqb folder "." then sandbox sys3
                       else (fs_mkdir (sandbox sys3) folder).2 in
             status_of sys4 id = Some Aborted
             ∧ sandbox sys4 = (fs_writeFile wm filePath content).2
             ∧ calls sys4 = calls sys3 ++ file_plan filePath content)
         ∧ (∀ cmd,
             D = ShellAction cmd → webcontainer (runner sys3) = Booted →
             calls_now sys4 = calls sys3 ++ [CSpawn cmd])).
Proof.
  intros sys id Hr Hex sys1 sys2 D.
  pose proof (Inv_reachable boot w evs) as HI. fold sys in HI.
  pose proof HI as (hist & f & HR & HG).
  destruct (good_closure _ _ HG _ _ Hr) as [Hcl Hlt].
  destruct (abortAction_effect _ _ id r HG Hr) as (Ea1 & Ec1 & Et1 & _).
  assert (runner sys1 = abortAction id (runner sys)) as E1 by done.
  assert (runner sys2 = (runAction d (runner sys1)).2) as E2 by done.
  assert (Inv (runner sys1)) as HI1 by (by apply Inv_step).
  pose proof HI1 as (hist1 & f1 & HR1 & HG1).
  assert (actions (runner sys1) !! id = Some (spread r (status_update Aborted))) as Hr1.
  { by rewrite E1, Ea1, lookup_insert_eq. }
  assert (controllers (runner sys1) !! abortSignal r = Some true) as Hc1.
  { rewrite E1, Ec1. by apply list_lookup_insert_eq. }
  destruct (runAction_effect _ _ _ d _ HR1 Hr1 Hex) as (Ea2 & Ec2 & Et2 & Es2 & _).
  rewrite <- E2 in Ea2, Ec2, Et2, Es2. fold id in Ea2, Et2.
  assert (Inv (runner sys2)) as HI2 by (by apply Inv_step).
  assert (raised_before_run id (abortSignal r) D (runner sys2)) as HP2.
  { split; [|split].
    - eexists. rewrite Ea2, lookup_insert_eq. split; [done|]. simpl.
      by rewrite spread_action_idem.
    - by rewrite Ec2.
    - rewrite Es2. intros t Hin Hid.
      destruct (good_inflight _ _ HG1 _ Hin) as [Hb _].
      destruct (Good_begun_present _ _ _ HG1 Hb) as (r' & Hr' & Hex').
      rewrite Hid, Hr1 in Hr'. simplify_eq. simpl in Hex'. congruence. }
  split; [|split; [|split; [|split]]].
  - eexists. split; [exact Hr1|]. done.
  - unfold runAction. fold id. rewrite Hr1. simpl. by rewrite Hex.
  - by rewrite Et2, E1, Et1.
  - eexists. rewrite Ea2, lookup_insert_eq. split; [done|]. simpl.
    by rewrite spread_action_idem.
  - intros evs' sys3.
    pose proof (Inv_run_events sys2 evs' HI2) as HI3. fold sys3 in HI3.
    pose proof (raised_run_events id _ D sys2 evs' HI2 HP2) as HP3. fold sys3 in HP3.
    destruct HP3 as ((r3 & Hr3 & Hsig3 & Hd3 & Hex3) & Hc3 & Ht3).
    destruct HI3 as (hist3 & f3 & HR3 & HG3).
    split.
    + intros q js Hm.
      pose proof (head_exec_front _ _ _ _ _ _ HR3 Hm) as Hs3.
      unfold status_of. simpl. rewrite (tick_exec _ _ _ _ Hm).
      unfold executeAction. change (actions (set_microtasks js (runner sys3)))
        with (actions (runner sys3)). rewrite Hr3. simpl.
      match goal with |- context [updateAction ?i ?u ?s0] =>
        destruct (updateAction_other i u s0) as (_ & _ & _ & -> & _);
        rewrite (updateAction_lookup i u s0) end.
      rewrite decide_True by done. simpl. rewrite Hr3, Hs3. simpl.
      split; [done|]. eexists. split; [done|]. done.
    + intros t Hs Hid sys4.
      destruct (Ht3 t) as (Hk & Hsig & Hdt); [rewrite Hs; left|done|].
      assert (suspended (runner sys3) !! 0 = Some t) as Hlook by (by rewrite Hs).
      assert (∀ w' cs,
                run_handler (webcontainer (runner sys3)) false (t_action t) (sandbox sys3)
                = (Done tt, w', cs) →
                status_of sys4 id = Some Aborted
                ∧ sandbox sys4 = w'
                ∧ calls sys4 = calls sys3 ++ handler_plan D) as Hdone.
      { intros w' cs Hrun.
        destruct (settle_task_effect sys3 0 t r3 (Done tt) w' cs) as (Ha & Hw & Hc & _);
          [done|by rewrite Hk|done|by rewrite Hid|].
        unfold status_of, sys4. simpl. rewrite <- Hid, Ha, Hw, Hc. simpl.
        rewrite Hsig, Hc3. split; [done|]. split; [done|].
        by rewrite (run_handler_done_plan _ _ _ _ _ _ Hrun), Hdt. }
      split; [done|]. split; [done|]. split; [exact Hdone|]. split.
      * intros filePath content HD Hboot folder wm.
        destruct (Hdone (fs_writeFile wm filePath content).2 (file_plan filePath content))
          as (H1 & H2 & H3).
        { rewrite Hboot. unfold run_handler. rewrite Hdt, HD. apply runFileAction_booted. }
        split; [done|]. split; [done|]. by rewrite H3, HD.
      * intros cmd HD Hboot. unfold sys4. simpl.
        rewrite (proj1 (settle_task_calls_now sys3 0 t Hlook)).
        f_equal. rewrite Hboot, Hk. unfold run_handler. rewrite Hdt, HD.
        rewrite runShellAction_booted.
        destruct (spawn (sandbox sys3) cmd shell_env) as [[e|pr] w1]; done.
Qed.

(** C10: every change of the store is keyed to one action id.  An
    event, in any state the runner can reach, leaves the record of
    every id other than the one it operates on as it was; so does
    [#updateAction] for every id other than its argument. *)
Theorem updates_are_keyed (boot : Boot) (w : World) (evs : list Event) (ev : Event)
    (y : string) :
  let sys := run_events (boot_system boot w) evs in
  target sys ev ≠ Some y →
  actions (runner (step sys ev)) !! y = actions (runner sys) !! y
  ∧ ∀ id u s, id ≠ y → actions (updateAction id u s) !! y = actions s !! y.
Proof.
  intros sys Hy. split.
  2:{ intros id u s Hne. by rewrite updateAction_lookup, decide_False. }
  pose proof (Inv_reachable boot w evs) as (hist & f & HR & HG). fold sys in HR, HG.
  destruct ev as [d|d|id| |k]; simpl in *.
  - destruct (actions (runner sys) !! actionId d) as [a|] eqn:Ha.
    + unfold addAction. by rewrite Ha.
    + destruct (addAction_effect _ _ _ d HR Ha) as (-> & _).
      rewrite lookup_insert_ne; [done|congruence].
  - destruct (actions (runner sys) !! actionId d) as [a|] eqn:Ha.
    + destruct (executed a) eqn:Hex.
      * unfold runAction. by rewrite Ha, Hex.
      * destruct (runAction_effect _ _ _ d a HR Ha Hex) as (-> & _).
        rewrite lookup_insert_ne; [done|congruence].
    + unfold runAction. by rewrite Ha.
  - destruct (actions (runner sys) !! id) as [a|] eqn:Ha.
    + destruct (abortAction_effect _ _ id a HG Ha) as (-> & _).
      rewrite lookup_insert_ne; [done|congruence].
    + unfold abortAction. by rewrite Ha.
  - by apply tick_store.
  - by apply settle_task_store.
Qed.

End Claims.

Module WorkbenchFacts.
Import Workbench.

(** C8: registering an artifact id that is already present changes
    nothing: after two [addArtifact] calls with one message id there is
    one runner for it, and the title and closed flag the first call
    stored are kept, also across an [updateArtifact] in between. *)
Theorem addArtifact_idempotent (s : WorkbenchStore) (mid t1 i1 t2 i2 : string) :
  let d1 := {| messageId := mid; cb_title := t1; cb_id := i1 |} in
  let d2 := {| messageId := mid; cb_title := t2; cb_id := i2 |} in
  let s1 := addArtifact d1 s in
  addArtifact d2 s1 = s1
  ∧ (∀ u, addArtifact d2 (updateArtifact d1 u s1) = updateArtifact d1 u s1)
  ∧ length (instances (addArtifact d2 s1)) ≤ S (length (instances s))
  ∧ (artifacts s !! mid = None →
     instances (addArtifact d2 s1) = instances s ++ [new_runner (container s)]
     ∧ artifacts (addArtifact d2 s1) !! mid
       = Some {| id := i1; title := t1; closed := false;
                 runner := length (instances s) |}).
Proof.
  intros d1 d2 s1.
  assert (is_Some (artifacts s1 !! mid)) as [a1 Ha1].
  { unfold s1, addArtifact. simpl. destruct (artifacts s !! mid) eqn:E; simpl.
    - rewrite E. eauto.
    - rewrite lookup_insert_eq. eauto. }
  assert (addArtifact d2 s1 = s1) as Hidem.
  { unfold addArtifact at 1. simpl. by rewrite Ha1. }
  split; [done|]. split; [|split].
  - intros u. unfold addArtifact at 1, updateArtifact. simpl. rewrite Ha1. simpl.
    by rewrite lookup_insert_eq.
  - rewrite Hidem. unfold s1, addArtifact. simpl.
    destruct (artifacts s !! mid); simpl; [lia|]. rewrite length_app. simpl. lia.
  - intros Hnone. rewrite Hidem. unfold s1, addArtifact. simpl. rewrite Hnone. simpl.
    split; [done|]. by rewrite lookup_insert_eq.
Qed.

Lemma addArtifact_idempotent_witness :
  let s := empty_store Booted in
  artifacts s !! "msg-1" = None
  ∧ length (instances (addArtifact {| messageId := "msg-1"; cb_title := "Other"; cb_id := "b" |}
                (addArtifact {| messageId := "msg-1"; cb_title := "Todo app"; cb_id := "a" |} s)))
    = 1
  ∧ title <$> artifacts (addArtifact {| messageId := "msg-1"; cb_title := "Other"; cb_id := "b" |}
                (addArtifact {| messageId := "msg-1"; cb_title := "Todo app"; cb_id := "a" |} s))
              !! "msg-1" = Some "Todo app".
Proof.
  intros s.
  destruct (addArtifact_idempotent s "msg-1" "Todo app" "a" "Other" "b")
    as (_ & _ & _ & H).
  split; [reflexivity|].
  destruct (H eq_refl) as [Hi Ha]. split.
  - rewrite Hi. reflexivity.
  - rewrite Ha. reflexivity.
Defined.

End WorkbenchFacts.

(** * The claims on example runs *)

Module Runs.
Import MemBox Examples.

(** Counterexample to C2 as stated: [npm install] matches the
    long-running pattern and exits with 1 after a second; the action
    fails, it does not complete. *)
Lemma npm_nonzero_exit_fails :
  let sys := npm_sys in
  long_running "npm install" = true
  ∧ (∃ t, suspended (runner sys) !! 0 = Some t
          ∧ descriptor (t_action t) = ShellAction "npm install"
          ∧ ∃ p w, spawn (sandbox sys) "npm install" shell_env = (inr p, w)
                   ∧ proc_exit p (t_killed t) = ExitsAt 1000 1)
  ∧ status_of (settle_task 0 sys) "0" = Some Failed
  ∧ status_of (settle_task 0 sys) "0" ≠ Some Complete
  ∧ error <$> actions (runner (settle_task 0 sys)) !! "0"
    = Some (Some "Process failed with exit code 1").
Proof.
  intros sys. split; [reflexivity|]. split.
  - eexists. split; [reflexivity|]. split; [reflexivity|].
    eexists _, _. split; reflexivity.
  - split; [vm_compute; reflexivity|]. split; [vm_compute; discriminate|].
    vm_compute; reflexivity.
Qed.

Lemma shell_exit_code_policy_witness :
  status_of (settle_task 0 false_sys) "0" = Some Failed
  ∧ status_of (settle_task 0 next_sys) "0" = Some Complete.
Proof.
  destruct (shell_exit_code_policy false_sys 0 _ _ "false" _ _ 3 1
              eq_refl eq_refl eq_refl eq_refl eq_refl eq_refl) as (_ & H2 & _); [lia|].
  destruct (shell_exit_code_policy next_sys 0 _ _ "npx next dev" _ _ 60000 143
              eq_refl eq_refl eq_refl eq_refl eq_refl eq_refl) as (H1 & _); [lia|].
  split.
  - apply H2; [reflexivity|reflexivity].
  - apply H1. reflexivity.
Defined.

Lemma file_action_never_fails_witness :
  fs_mkdir (sandbox file_sys) "/home/project/locked/src"
  = (Some (eacces "/home/project/locked/src"), sandbox file_sys)
  ∧ fs_writeFile (sandbox file_sys) "/home/project/locked/src/a.txt" "hi"
    = (Some (eacces "/home/project/locked/src/a.txt"), sandbox file_sys)
  ∧ status_of (settle_task 0 file_sys) "0" = Some Complete.
Proof.
  split; [reflexivity|]. split; [reflexivity|].
  destruct (file_action_never_fails file_sys 0 _ _ "/home/project/locked/src/a.txt" "hi"
              eq_refl eq_refl eq_refl eq_refl) as (_ & H & _).
  exact H.
Defined.

Lemma import_failure_is_terminal_witness :
  status_of (settle_task 0 import_sys) "0" = Some Failed
  ∧ files (sandbox (settle_task 0 import_sys)) !! "./a.txt" = Some "A"
  ∧ calls (settle_task 0 import_sys) = [CWriteFile "./a.txt" "A"; CMkdir "./locked"]
  ∧ status_of (settle_task 0 post_sys) "0" = Some Failed
  ∧ calls (settle_task 0 post_sys)
    = [CWriteFile "./a.txt" "A"; CSpawn "npm install"; CSpawn "npm run build"].
Proof.
  destruct (import_failure_is_terminal import_sys 0 _ _ "" two_files (Some ["npm install"])
              eq_refl eq_refl eq_refl eq_refl) as (HA & _).
  destruct (HA [{| path := "a.txt"; content := "A" |}]
               {| path := "locked/b.txt"; content := "B" |} [] _ _
               eq_refl eq_refl) as (_ & _ & Hmkdir & _).
  destruct (Hmkdir (eacces "./locked") _ ltac:(discriminate) eq_refl)
    as ((H1 & _) & H3 & H4).
  destruct (import_failure_is_terminal post_sys 0 _ _ ""
              [{| path := "a.txt"; content := "A" |}]
              (Some ["npm install"; "npm run build"; "npm test"])
              eq_refl eq_refl eq_refl eq_refl) as (_ & _ & HB).
  destruct (HB ["npm install"] "npm run build" ["npm test"] _ _ _ _ _ _ 1200%Z 2%Z
               eq_refl eq_refl eq_refl eq_refl eq_refl) as (H5 & _ & _ & H8); [lia|].
  split; [exact H1|]. split; [by rewrite H3|]. split; [by rewrite H4|].
  split; [exact H5|]. by rewrite H8.
Defined.

Lemma updates_are_keyed_witness :
  actions (runner (step two_sys (EvAbort "0"))) !! "1" = actions (runner two_sys) !! "1"
  ∧ status_of (step two_sys (EvAbort "0")) "0" = Some Aborted.
Proof.
  split; [|reflexivity].
  apply (updates_are_keyed (WC := container) Booted shell_world
           [EvAdd (data "0" (ShellAction "false")); EvAdd (data "1" (ShellAction "npm install"));
            EvRun (data "0" (ShellAction "false")); EvRun (data "1" (ShellAction "npm install"));
            EvTick; EvTick; EvTick] (EvAbort "0") "1").
  discriminate.
Defined.

Lemma runAction_dispatches_once_witness :
  runAction (data "0" (ShellAction "false")) (runner false_sys) = (Fulfilled, runner false_sys).
Proof.
  eapply (proj1 runAction_dispatches_once); reflexivity.
Defined.

(** C5 on the code: the promise [runAction] returns is fulfilled when
    the call returns, before the handler has begun, and the store logs
    ['Action completed'] on it; the handler then runs and fails, which
    nothing awaiting that promise can observe. *)
Theorem runAction_handle_settles_before_handler :
  let d := data "0" (ShellAction "false") in
  ∃ st, store_with_action = Some st
  ∧ ∃ st' sys, Workbench.runAction d st = inr ("Action completed", st')
  ∧ system_of st' shell_world = Some sys
  ∧ (runAction d <$> Workbench.instances st !! 0) = Some (Fulfilled, runner sys)
  ∧ begun (trace (runner sys)) = []
  ∧ status_of sys "0" = Some Pending
  ∧ let sys' := run_events sys [EvTick; EvTick; EvSettle 0; EvTick; EvTick] in
    status_of sys' "0" = Some Failed
    ∧ error <$> actions (runner sys') !! "0"
      = Some (Some "Process failed with exit code 1")
    ∧ trace (runner sys')
      = [ObsRun "0"; ObsBegin "0";
         ObsSettle "0" (Some (ErrorObj "Process failed with exit code 1"))].
Proof.
  intros d. eexists. split; [reflexivity|].
  eexists _, _. split; [vm_compute; reflexivity|].
  split; [reflexivity|]. split; [vm_compute; reflexivity|].
  split; [vm_compute; reflexivity|]. split; [vm_compute; reflexivity|].
  split; [vm_compute; reflexivity|]. split; vm_compute; reflexivity.
Qed.

Ltac not_in_events :=
  repeat (apply not_elem_of_cons; split; [discriminate|]); apply not_elem_of_nil.

(** Counterexample to C1 as stated.  [abort] changes a terminal status:
    a completed action becomes [Aborted].  And a status leaves
    [Aborted]: an action aborted while pending is set to [Running] by
    the status update [addAction] scheduled. *)
Lemma abort_breaks_status_machine :
  status_of (run_events start complete_events) "0" = Some Complete
  ∧ status_of (run_events start (complete_events ++ [EvAbort "0"])) "0" = Some Aborted
  ∧ status_of (run_events start (dispatch file_a ++ [EvAdd shell_b])) "1" = Some Pending
  ∧ status_of (run_events start aborted_pending_events) "1" = Some Aborted
  ∧ status_of (run_events start (aborted_pending_events ++ [EvSettle 0; EvTick; EvTick])) "1"
    = Some Running.
Proof. repeat split; vm_compute; reflexivity. Qed.

Lemma status_machine_without_abort_witness :
  EvAbort "0" ∉ dispatch file_a ++ [EvSettle 0]
  ∧ status_of (run_events start (dispatch file_a)) "0" = Some Running
  ∧ status_of (run_events start (dispatch file_a ++ [EvSettle 0])) "0" = Some Complete
  ∧ status_step_ok (status_of (run_events start (dispatch file_a)) "0")
      (status_of (run_events start (dispatch file_a ++ [EvSettle 0])) "0").
Proof.
  assert (EvAbort "0" ∉ dispatch file_a ++ [EvSettle 0]) as Hnot by (simpl; not_in_events).
  split; [exact Hnot|]. split; [vm_compute; reflexivity|]. split; [vm_compute; reflexivity|].
  exact (proj1 (status_machine_without_abort (WC := container) Booted empty_world
                  (dispatch file_a) (EvSettle 0) "0" Hnot)).
Defined.

Lemma execution_is_serial_witness :
  ∃ n, t_actionId <$> head (suspended (runner
         (run_events two_sys (EvSettle 0 :: replicate n EvTick)))) = Some "1".
Proof.
  destruct (execution_is_serial (WC := container) Booted shell_world
              [EvAdd (data "0" (ShellAction "false"));
               EvAdd (data "1" (ShellAction "npm install"));
               EvRun (data "0" (ShellAction "false"));
               EvRun (data "1" (ShellAction "npm install"));
               EvTick; EvTick; EvTick]) as (_ & _ & _ & _ & H).
  edestruct (H two_task (ErrorObj "Process failed with exit code 1")
               (sandbox two_sys) [CSpawn "false"] "1" [])
    as (n & tB & _ & Hs & Hid & _).
  - vm_compute. reflexivity.
  - vm_compute. reflexivity.
  - vm_compute. reflexivity.
  - exists n. change two_sys with
      (run_events (WC := container) (boot_system Booted shell_world)
         [EvAdd (data "0" (ShellAction "false"));
          EvAdd (data "1" (ShellAction "npm install"));
          EvRun (data "0" (ShellAction "false"));
          EvRun (data "1" (ShellAction "npm install"));
          EvTick; EvTick; EvTick]).
    rewrite Hs. simpl. by rewrite Hid.
Defined.

Lemma abort_before_run_still_executes_witness :
  let sys3 := run_events start abort_then_run_events in
  let sys4 := step sys3 (EvSettle 0) in
  status_of sys3 "0" = Some Running
  ∧ status_of sys4 "0" = Some Aborted
  ∧ files (sandbox sys4) !! "/home/project/a.txt" = Some "hi"
  ∧ calls sys4 = [CMkdir "/home/project"; CWriteFile "/home/project/a.txt" "hi"].
Proof.
  intros sys3 sys4. split; [vm_compute; reflexivity|].
  destruct (abort_before_run_still_executes (WC := container) Booted empty_world
              [EvAdd file_a] file_a _ eq_refl eq_refl) as (_ & _ & _ & _ & H).
  destruct (H [EvTick; EvTick]) as (_ & H2).
  edestruct H2 as (_ & _ & _ & H3 & _).
  - vm_compute. reflexivity.
  - reflexivity.
  - destruct (H3 "/home/project/a.txt" "hi" eq_refl eq_refl) as (H4 & H5 & H6).
    split; [exact H4|]. split; [|exact H6].
    change (sandbox sys4) with
      (sandbox (step (run_events (step (step (run_events (boot_system Booted empty_world)
                                                [EvAdd file_a])
                                          (EvAbort (actionId file_a))) (EvRun file_a))
                        [EvTick; EvTick]) (EvSettle 0))).
    rewrite H5. reflexivity.
Defined.

End Runs.

(** * More properties of the code *)

(** ** The runner *)

Section RunnerExtras.
Context `{WC : WebContainer} `{NP : NodePath}.

Lemma later_record_refl r : later_record r r.
Proof. by repeat split. Qed.

Lemma later_record_trans r1 r2 r3 :
  later_record r1 r2 → later_record r2 r3 → later_record r1 r3.
Proof.
  intros (Ha & Hs & He) (Ha' & Hs' & He'). split; [congruence|split; [congruence|]].
  intros H. destruct (He H) as [H2 Hd]. destruct (He' H2) as [H3 Hd']. split; congruence.
Qed.

Lemma later_record_status_only r r' : status_only r r' → later_record r r'.
Proof. intros (Hd & He & Ha & Hs). repeat split; congruence. Qed.

Lemma same_records_later m m' id r :
  same_records m m' → m !! id = Some r → ∃ r', m' !! id = Some r' ∧ later_record r r'.
Proof.
  intros H Hr. specialize (H id). rewrite Hr in H. destruct (m' !! id) as [r'|]; [|done].
  exists r'. split; [done|]. by apply later_record_status_only.
Qed.

Lemma attach_fields p r s : same_fields s (attach p r s).
Proof. unfold attach, same_fields. by repeat case_match. Qed.

Lemma then_fields p cb s : same_fields s (then_ p cb s).2.
Proof. exact (attach_fields p _ (set_promises (promises s ++ [PendingP []]) s)). Qed.

Lemma catch_fields p cb s : same_fields s (catch_ p cb s).2.
Proof. exact (attach_fields p _ (set_promises (promises s ++ [PendingP []]) s)). Qed.

Lemma addAction_later data s id r :
  actions s !! id = Some r → actions (addAction data s) !! id = Some r.
Proof.
  intros Hr. unfold addAction. destruct (actions s !! actionId data) eqn:Ha; [done|].
  unfold then_drop.
  match goal with |- context [attach ?p ?x ?s1] =>
    destruct (attach_fields p x s1) as (-> & _) end.
  simpl. rewrite lookup_insert_ne; [done|]. intros Heq. rewrite Heq in Ha. congruence.
Qed.

Lemma runAction_actions data s a :
  actions s !! actionId data = Some a → executed a = false →
  actions (runAction data s).2
  = <[actionId data := spread a (run_update a (action data))]> (actions s).
Proof.
  intros Ha Hex. unfold runAction. rewrite Ha, Hex.
  match goal with |- context [then_ ?p ?cb ?s1] =>
    pose proof (then_fields p cb s1) as (E1 & _); destruct (then_ p cb s1) as [q s2] end.
  match goal with |- context [catch_ ?p ?cb ?s1] =>
    pose proof (catch_fields p cb s1) as (E2 & _); destruct (catch_ p cb s1) as [p' s3] end.
  simpl in *. rewrite E2, E1. unfold updateAction. by rewrite Ha.
Qed.

Lemma runAction_later data s id r :
  actions s !! id = Some r →
  ∃ r', actions (runAction data s).2 !! id = Some r' ∧ later_record r r'.
Proof.
  intros Hr. destruct (actions s !! actionId data) as [a|] eqn:Ha.
  2:{ unfold runAction. rewrite Ha. exists r. split; [done|apply later_record_refl]. }
  destruct (executed a) eqn:He.
  { unfold runAction. rewrite Ha, He. exists r. split; [done|apply later_record_refl]. }
  rewrite (runAction_actions _ _ _ Ha He).
  destruct (decide (actionId data = id)) as [Heq|Hne].
  - rewrite Heq. rewrite lookup_insert_eq. eexists. split; [done|].
    rewrite Heq in Ha. simplify_eq.
    unfold later_record, spread, run_update. simpl. repeat split; congruence.
  - rewrite lookup_insert_ne by done. exists r. split; [done|apply later_record_refl].
Qed.

Lemma abortAction_same_records id s : same_records (actions s) (actions (abortAction id s)).
Proof.
  unfold abortAction. destruct (actions s !! id) as [a|] eqn:Ha; [|apply same_records_refl].
  intros y.
  pose proof (same_records_update (ac_actionId (abort a)) (status_update Aborted)
                (signal_abort (ac_controller (abort a)) s) eq_refl eq_refl eq_refl eq_refl y) as H.
  assert (actions (signal_abort (ac_controller (abort a)) s) = actions s) as E.
  { unfold signal_abort. by repeat case_match. }
  by rewrite E in H.
Qed.

Lemma step_later sys ev id r :
  actions (runner sys) !! id = Some r →
  ∃ r', actions (runner (step sys ev)) !! id = Some r' ∧ later_record r r'.
Proof.
  intros Hr. destruct ev as [d|d|i| |k]; simpl.
  - exists r. split; [by apply addAction_later|apply later_record_refl].
  - by apply runAction_later.
  - eapply same_records_later; [apply abortAction_same_records|done].
  - eapply same_records_later; [apply tick_store|done].
  - eapply same_records_later; [apply settle_task_store|done].
Qed.

(** X1: a record, once in the store, stays there for good with the
    cancellation handle it was created with; and once [runAction] has
    marked it executed, its descriptor is frozen: whatever is added,
    run or aborted later, and whatever content a later [runAction] for
    the same id carries, the action keeps the descriptor of the first
    run. *)
Theorem records_are_permanent (sys : System) (evs : list Event) (id : string)
    (r : ActionState) :
  actions (runner sys) !! id = Some r →
  ∃ r', actions (runner (run_events sys evs)) !! id = Some r'
        ∧ abort r' = abort r ∧ abortSignal r' = abortSignal r
        ∧ (executed r = true → executed r' = true ∧ descriptor r' = descriptor r).
Proof.
  revert sys r. induction evs as [|ev evs IH]; intros sys r Hr.
  - exists r. by repeat split.
  - destruct (step_later sys ev id r Hr) as (r1 & Hr1 & HL1).
    destruct (IH (step sys ev) r1 Hr1) as (r2 & Hr2 & HL2).
    exists r2. split; [exact Hr2|]. exact (later_record_trans _ _ _ HL1 HL2).
Qed.



Lemma settle_fields d v s : same_fields s (settle d v s).
Proof. unfold settle, same_fields. by repeat case_match. Qed.

Lemma updateAction_webcontainer id u s : webcontainer (updateAction id u s) = webcontainer s.
Proof. apply updateAction_other. Qed.

Lemma tick_webcontainer s : webcontainer (tick s) = webcontainer s.
Proof.
  assert (∀ d v s0, webcontainer (settle d v s0) = webcontainer s0) as HS.
  { intros d v s0. by destruct (settle_fields d v s0) as (_ & _ & _ & _ & ->). }
  assert (∀ cb d q,
            webcontainer (run_callback cb d (set_microtasks q s)) = webcontainer s) as HC.
  { intros cb d q. destruct cb as [i|i|]; simpl.
    - by rewrite HS, updateAction_webcontainer.
    - unfold executeAction. destruct (actions _ !! _).
      + simpl. by rewrite updateAction_webcontainer.
      + by rewrite HS.
    - by rewrite HS. }
  unfold tick. destruct (microtasks s) as [|[[cb d|cb d] [|e]] q]; [done|..]; simpl;
    by rewrite ?HC, ?HS.
Qed.

Lemma step_webcontainer sys ev :
  webcontainer (runner (step sys ev)) = webcontainer (runner sys).
Proof.
  destruct ev as [d|d|i| |k]; simpl.
  - unfold addAction. destruct (actions _ !! _); [done|]. unfold then_drop.
    match goal with |- context [attach ?p ?x ?s1] =>
      by destruct (attach_fields p x s1) as (_ & _ & _ & _ & ->) end.
  - unfold runAction. destruct (actions _ !! _) as [a|]; [|done].
    destruct (executed a); [done|].
    match goal with |- context [then_ ?p ?cb ?s1] =>
      pose proof (then_fields p cb s1) as (_ & _ & _ & _ & E1); destruct (then_ p cb s1) as [q s2] end.
    match goal with |- context [catch_ ?p ?cb ?s1] =>
      pose proof (catch_fields p cb s1) as (_ & _ & _ & _ & E2); destruct (catch_ p cb s1) as [p' s3] end.
    simpl in *. rewrite E2, E1. apply updateAction_webcontainer.
  - unfold abortAction. destruct (actions _ !! _) as [a|]; [|done].
    rewrite updateAction_webcontainer. unfold signal_abort. by repeat case_match.
  - apply tick_webcontainer.
  - unfold settle_task. destruct (suspended _ !! k) as [t|]; [|done].
    destruct (run_handler _ _ _ _) as [[o w'] cs]. destruct o as [[]|e|]; simpl; [| |done].
    + destruct (settle_fields (t_promise t) Fulfilled
        (updateAction (t_actionId t)
           (status_update (if default false (controllers (set_suspended (delete k (suspended (runner sys))) (runner sys)) !! abortSignal (t_action t)) then Aborted else Complete))
           (set_suspended (delete k (suspended (runner sys))) (runner sys)))) as (_ & _ & _ & _ & E).
      simpl in E. rewrite E. by rewrite updateAction_webcontainer.
    + destruct (settle_fields (t_promise t) (Rejected e)
        (updateAction (t_actionId t) (failed_update (error_message e))
           (set_suspended (delete k (suspended (runner sys))) (runner sys)))) as (_ & _ & _ & _ & E).
      rewrite E. by rewrite updateAction_webcontainer.
Qed.

Lemma run_events_webcontainer sys evs :
  webcontainer (runner (run_events sys evs)) = webcontainer (runner sys).
Proof.
  revert sys. induction evs as [|ev evs IH]; intros sys; [done|].
  simpl. change (fold_left step evs (step sys ev)) with (run_events (step sys ev) evs).
  rewrite IH. apply step_webcontainer.
Qed.



Lemma updateAction_status id st s y :
  status <$> actions (updateAction id (status_update st) s) !! y = status <$> actions s !! y
  ∨ status <$> actions (updateAction id (status_update st) s) !! y = Some st.
Proof.
  rewrite updateAction_lookup. destruct (decide (id = y)) as [->|]; [|by left].
  destruct (actions s !! y); [by right|by left].
Qed.

Lemma tick_status_cases s y :
  (status <$> actions (tick s) !! y = status <$> actions s !! y
   ∨ status <$> actions (tick s) !! y = Some Running)
  ∧ ∀ id o, ObsSettle id o ∈ trace (tick s) → ObsSettle id o ∈ trace s.
Proof.
  assert (∀ d v s0, actions (settle d v s0) = actions s0 ∧ trace (settle d v s0) = trace s0) as HS.
  { intros d v s0. by destruct (settle_fields d v s0) as (-> & _ & -> & _). }
  assert (∀ cb d q,
    (status <$> actions (run_callback cb d (set_microtasks q s)) !! y = status <$> actions s !! y
     ∨ status <$> actions (run_callback cb d (set_microtasks q s)) !! y = Some Running)
    ∧ ∀ id o, ObsSettle id o ∈ trace (run_callback cb d (set_microtasks q s)) →
              ObsSettle id o ∈ trace s) as HC.
  { intros cb d q. destruct cb as [i|i|]; simpl.
    - destruct (HS d Fulfilled (updateAction i (status_update Running) (set_microtasks q s))) as [-> ->].
      destruct (updateAction_other i (status_update Running) (set_microtasks q s))
        as (_ & _ & _ & _ & _ & -> & _).
      split; [|done]. apply (updateAction_status i Running (set_microtasks q s) y).
    - unfold executeAction. change (actions (set_microtasks q s)) with (actions s).
      destruct (actions s !! i) as [a|].
      + simpl. split.
        * apply (updateAction_status i Running (set_microtasks q s) y).
        * intros id o. destruct (updateAction_other i (status_update Running) (set_microtasks q s))
            as (_ & _ & _ & _ & _ & -> & _). simpl.
          rewrite elem_of_app, list_elem_of_singleton. intros [H|H]; [done|discriminate].
      + destruct (HS d (Rejected (ErrorObj "TypeError")) (set_microtasks q s)) as [-> ->].
        split; [by left|done].
    - destruct (HS d Fulfilled (set_microtasks q s)) as [-> ->]. split; [by left|done]. }
  unfold tick. destruct (microtasks s) as [|[[cb d|cb d] [|e]] q]; [split; [by left|done]|..]; simpl.
  - apply HC.
  - destruct (HS d (Rejected e) (set_microtasks q s)) as [-> ->]. split; [by left|done].
  - destruct (HS d Fulfilled (set_microtasks q s)) as [-> ->]. split; [by left|done].
  - apply HC.
Qed.

Lemma run_handler_unbooted boot killed a w :
  boot ≠ Booted →
  run_handler boot killed a w
  = (match boot with BootFailed e => Threw e | _ => Hangs end, w, []).
Proof.
  intros Hb. unfold run_handler.
  destruct (descriptor a); destruct boot; try done.
Qed.



Lemma addAction_status data s y :
  status <$> actions (addAction data s) !! y = status <$> actions s !! y
  ∨ status <$> actions (addAction data s) !! y = Some Pending.
Proof.
  unfold addAction. destruct (actions s !! actionId data) eqn:Ha; [by left|].
  unfold then_drop.
  match goal with |- context [attach ?p ?x ?s1] =>
    destruct (attach_fields p x s1) as (-> & _) end.
  simpl. destruct (decide (actionId data = y)) as [<-|Hne].
  - right. by rewrite lookup_insert_eq.
  - left. by rewrite lookup_insert_ne.
Qed.

Lemma addAction_trace data s : trace (addAction data s) = trace s.
Proof.
  unfold addAction. destruct (actions s !! actionId data); [done|]. unfold then_drop.
  match goal with |- context [attach ?p ?x ?s1] =>
    by destruct (attach_fields p x s1) as (_ & _ & -> & _) end.
Qed.

Lemma runAction_status data s y :
  status <$> actions (runAction data s).2 !! y = status <$> actions s !! y.
Proof.
  destruct (actions s !! actionId data) as [a|] eqn:Ha.
  2:{ unfold runAction. by rewrite Ha. }
  destruct (executed a) eqn:He.
  { unfold runAction. by rewrite Ha, He. }
  rewrite (runAction_actions _ _ _ Ha He).
  destruct (decide (actionId data = y)) as [<-|Hne].
  - by rewrite lookup_insert_eq, Ha.
  - by rewrite lookup_insert_ne.
Qed.

Lemma runAction_trace data s id o :
  ObsSettle id o ∈ trace (runAction data s).2 → ObsSettle id o ∈ trace s.
Proof.
  unfold runAction. destruct (actions s !! actionId data) as [a|]; [|done].
  destruct (executed a); [done|].
  match goal with |- context [then_ ?p ?cb ?s1] =>
    pose proof (then_fields p cb s1) as (_ & _ & E1 & _); destruct (then_ p cb s1) as [q s2] end.
  match goal with |- context [catch_ ?p ?cb ?s1] =>
    pose proof (catch_fields p cb s1) as (_ & _ & E2 & _); destruct (catch_ p cb s1) as [p' s3] end.
  simpl in *. rewrite E2, E1.
  destruct (updateAction_other (actionId data) (run_update a (action data)) s)
    as (_ & _ & _ & _ & _ & -> & _).
  rewrite elem_of_app, list_elem_of_singleton. intros [H|H]; [done|discriminate].
Qed.

Lemma abortAction_status id s y :
  status <$> actions (abortAction id s) !! y = status <$> actions s !! y
  ∨ status <$> actions (abortAction id s) !! y = Some Aborted.
Proof.
  unfold abortAction. destruct (actions s !! id) as [a|]; [|by left].
  assert (actions (signal_abort (ac_controller (abort a)) s) = actions s) as E.
  { unfold signal_abort. by repeat case_match. }
  rewrite <- E. apply updateAction_status.
Qed.

Lemma abortAction_trace id s : trace (abortAction id s) = trace s.
Proof.
  unfold abortAction. destruct (actions s !! id) as [a|]; [|done].
  destruct (updateAction_other (ac_actionId (abort a)) (status_update Aborted)
              (signal_abort (ac_controller (abort a)) s)) as (_ & _ & _ & _ & _ & -> & _).
  unfold signal_abort. by repeat case_match.
Qed.

(** What [settle_task] does, by the outcome of the handler: the
    runner, the sandbox and the calls of the handlers that have ended
    are as they were, or the handler has ended. *)
Lemma settle_task_cases k sys :
  (runner (settle_task k sys) = runner sys
   ∧ sandbox (settle_task k sys) = sandbox sys
   ∧ calls (settle_task k sys) = calls sys
   ∧ (waiting (settle_task k sys) = waiting sys
      ∨ ∃ t w cs,
          suspended (runner sys) !! k = Some t
          ∧ run_handler (webcontainer (runner sys)) (t_killed t) (t_action t) (sandbox sys)
            = (Hangs, w, cs)
          ∧ waiting (settle_task k sys) = Some (w, cs)))
  ∨ ∃ t o w cs,
      suspended (runner sys) !! k = Some t
      ∧ run_handler (webcontainer (runner sys)) (t_killed t) (t_action t) (sandbox sys)
        = (o, w, cs)
      ∧ o ≠ Hangs
      ∧ sandbox (settle_task k sys) = w
      ∧ calls (settle_task k sys) = calls sys ++ cs
      ∧ actions (runner (settle_task k sys))
        = actions (updateAction (t_actionId t) (final_update (runner sys) t o) (runner sys))
      ∧ trace (runner (settle_task k sys))
        = trace (runner sys) ++ [ObsSettle (t_actionId t) (failure_of o)]
      ∧ waiting (settle_task k sys) = None.
Proof.
  destruct (suspended (runner sys) !! k) as [t|] eqn:Hk.
  2:{ left. unfold settle_task. rewrite Hk. auto. }
  destruct (run_handler (webcontainer (runner sys)) (t_killed t) (t_action t) (sandbox sys))
    as [[o w] cs] eqn:Hh.
  assert (o = Hangs ∨ o ≠ Hangs) as [->|Hne] by (destruct o; auto).
  { left. rewrite (settle_task_hangs _ _ _ _ _ Hk Hh). simpl.
    split; [done|]. split; [done|]. split; [done|]. right. by exists t, w, cs. }
  right. exists t, o, w, cs.
  assert (settle_task k sys
          = {| runner := finishAction t o
                           (set_suspended (delete k (suspended (runner sys))) (runner sys));
               sandbox := w; calls := calls sys ++ cs; waiting := None |}) as ->.
  { unfold settle_task. rewrite Hk, Hh. by destruct o. }
  simpl.
  destruct (finishAction_effect t o (set_suspended (delete k (suspended (runner sys))) (runner sys)) Hne)
    as (E1 & _ & E3 & _).
  split; [done|]. split; [done|]. split; [done|]. split; [done|]. split; [done|].
  split; [|by split].
  rewrite E1. apply updateAction_actions_ext. done.
Qed.



(** X2: without a booted container nothing reaches the sandbox.  When
    the promise of the container never resolves or rejects, no handler
    makes a call, the sandbox stays as it was, no action ever becomes
    [Complete], and a handler that ends ends with the error the
    container promise rejected with.  This holds of the handlers that
    have ended and of the handler in flight. *)
Theorem no_container_no_effects (boot : Boot) (w : World) (evs : list Event) :
  boot ≠ Booted →
  let sys := run_events (boot_system boot w) evs in
  sandbox sys = w ∧ calls sys = []
  ∧ (∀ id, status_of sys id ≠ Some Complete)
  ∧ (∀ id o, ObsSettle id o ∈ trace (runner sys) →
             ∃ e, boot = BootFailed e ∧ o = Some e)
  ∧ sandbox_now sys = w ∧ calls_now sys = [].
Proof.
  intros Hb. cbv zeta. induction evs as [|ev evs IH] using rev_ind.
  { simpl. split; [done|]. split; [done|]. split; [|split; [|done]].
    - intros id. unfold status_of. simpl. by rewrite lookup_empty.
    - intros id o H. by apply elem_of_nil in H. }
  rewrite run_events_snoc. set (sys := run_events (boot_system boot w) evs) in *.
  destruct IH as (Hw & Hc & Hst & Htr & Hnow).
  assert (webcontainer (runner sys) = boot) as Hboot.
  { unfold sys. by rewrite run_events_webcontainer. }
  unfold status_of in *.
  destruct ev as [d|d|i| |k]; simpl.
  - split; [done|]. split; [done|]. split; [|split; [|done]].
    + intros id. destruct (addAction_status d (runner sys) id) as [->| ->]; [apply Hst|done].
    + intros id o. rewrite addAction_trace. apply Htr.
  - split; [done|]. split; [done|]. split; [|split; [|done]].
    + intros id. rewrite runAction_status. apply Hst.
    + intros id o H. apply (Htr id o). by eapply runAction_trace.
  - split; [done|]. split; [done|]. split; [|split; [|done]].
    + intros id. destruct (abortAction_status i (runner sys) id) as [->| ->]; [apply Hst|done].
    + intros id o. rewrite abortAction_trace. apply Htr.
  - split; [done|]. split; [done|]. split; [|split; [|done]].
    + intros id. destruct (tick_status_cases (runner sys) id) as [[->| ->] _]; [apply Hst|done].
    + intros id o H. apply (Htr id o). by apply (tick_status_cases (runner sys) id).
  - destruct (settle_task_cases k sys)
      as [(Er & Es & Ec & Ewait)
         |(t & o & w' & cs & Hk & Hh & Hne & E1 & E2 & E3 & E4 & E5)].
    { rewrite Er, Es, Ec. split; [done|]. split; [done|]. split; [done|]. split; [done|].
      unfold sandbox_now, calls_now in *. rewrite Es, Ec.
      destruct Ewait as [->|(t & w' & cs & Hk & Hh & ->)]; [done|].
      rewrite Hboot, (run_handler_unbooted boot _ _ _ Hb) in Hh.
      injection Hh as _ <- <-. by rewrite Hc. }
    rewrite Hboot, (run_handler_unbooted boot _ _ _ Hb) in Hh.
    injection Hh as <- <- <-.
    destruct boot as [|e|]; [done| |done].
    unfold sandbox_now, calls_now.
    rewrite E1, E2, E3, E4, E5, !app_nil_r. split; [done|]. split; [done|].
    split; [|split; [|done]].
    + intros id. simpl.
      destruct (updateAction_lookup (t_actionId t) (failed_update (error_message e)) (runner sys) id) as [].
      rewrite updateAction_lookup. destruct (decide (t_actionId t = id)) as [->|]; [|apply Hst].
      destruct (actions (runner sys) !! id); done.
    + intros id o. rewrite elem_of_app, list_elem_of_singleton. intros [H|H].
      * by apply (Htr id o).
      * injection H as -> ->. by exists e.
Qed.













(** X4: when a shell action hangs.  The handler never settles exactly
    when the container never boots, or the process was spawned, never
    exits, and the command contains neither ["next dev"] nor ["npm"]:
    for such a command the 5-second timer never resolves. *)
Theorem shell_action_hangs_iff (boot : Boot) (killed : bool) (cmd : string) (w : World) :
  (runShellAction boot killed cmd w).1.1 = Hangs
  ↔ boot = BootPending
    ∨ (boot = Booted ∧ long_running cmd = false
       ∧ ∃ p w1, spawn w cmd shell_env = (inr p, w1) ∧ proc_exit p killed = NeverExits).
Proof.
  destruct boot as [|e|].
  - rewrite runShellAction_booted.
    destruct (spawn w cmd shell_env) as [[e|p] w1] eqn:Hsp.
    { simpl. split; [done|]. intros [?|(_ & _ & p & w1' & ? & _)]; done. }
    destruct (proc_exit p killed) as [ms code|ms e|] eqn:Hex; simpl.
    + split.
      * intros H. exfalso. revert H.
        match goal with |- context [negb (?c =? 0)%Z && ?b] =>
          destruct (negb (c =? 0)%Z && b) end; done.
      * intros [?|(_ & _ & p' & w1' & Hp & Hn)]; [done|].
        injection Hp as <- <-. congruence.
    + split.
      * intros H. exfalso. revert H.
        destruct (ms <? timeout_ms)%Z; [|destruct (long_running cmd)]; done.
      * intros [?|(_ & _ & p' & w1' & Hp & Hn)]; [done|].
        injection Hp as <- <-. congruence.
    + destruct (long_running cmd) eqn:Hl; simpl.
      * split; [done|]. intros [?|(_ & ? & _)]; done.
      * split; [|done]. intros _. right. split; [done|]. split; [done|]. by exists p, w1.
  - simpl. split; [done|]. intros [?|(? & _)]; done.
  - simpl. split; [by left|done].
Qed.

(** X5: a long-running command is reported complete at the timeout.
    For a command that contains ["next dev"] or ["npm"], once the
    process is spawned and has not exited within 5 seconds the handler
    returns normally, whatever the process does later (exit with any
    code, reject, or run on); the only call made is the spawn. *)
Theorem long_running_completes_at_timeout (killed : bool) (cmd : string) (w w1 : World)
    (p : Process) :
  long_running cmd = true →
  spawn w cmd shell_env = (inr p, w1) →
  match proc_exit p killed with
  | ExitsAt ms _ | ExitFailsAt ms _ => (timeout_ms ≤ ms)%Z
  | NeverExits => True
  end →
  runShellAction Booted killed cmd w = (Done tt, w1, [CSpawn cmd]).
Proof.
  intros Hl Hsp Hex. rewrite runShellAction_booted, Hsp, Hl.
  destruct (proc_exit p killed) as [ms code|ms e|].
  - destruct (ms <? timeout_ms)%Z eqn:Hlt; [apply Z.ltb_lt in Hlt; lia|]. done.
  - destruct (ms <? timeout_ms)%Z eqn:Hlt; [apply Z.ltb_lt in Hlt; lia|]. done.
  - done.
Qed.



(** X6: every handler keeps to its plan of sandbox calls.  The calls a
    handler makes are an initial part of the plan of its action, in
    order: the spawn of a shell command; the optional [mkdir] and the
    [writeFile] of a file action; for an import the base folder, then
    folder and file for each file in turn, then the post-import
    commands.  A handler that returns has made them all; a file action
    on a booted container always does, whatever fails; and when the
    container is not booted no call is made. *)
Theorem handlers_follow_their_plan (boot : Boot) (killed : bool) (a : ActionState)
    (w : World) :
  let r := run_handler boot killed a w in
  r.2 `prefix_of` handler_plan (descriptor a)
  ∧ (r.1.1 = Done tt → r.2 = handler_plan (descriptor a))
  ∧ (∀ p c, descriptor a = FileAction p c → boot = Booted → r.1.1 = Done tt)
  ∧ (boot ≠ Booted → r.2 = []).
Proof.
  cbv zeta. split; [|split; [|split]].
  4:{ intros Hb. by rewrite run_handler_unbooted. }
  3:{ intros p c Hd ->. unfold run_handler. rewrite Hd.
      by destruct (runFileAction_returns w p c) as (w' & cs & -> & _). }
  all: destruct boot as [|e|]; [|by rewrite run_handler_unbooted; [|done];
                                     try (simpl; apply prefix_nil)..].
  all: unfold run_handler; destruct (descriptor a) as [c|p c|t fs cs]; simpl.
  - rewrite runShellAction_booted. destruct (spawn w c shell_env) as [[e|pr] w1]; simpl; done.
  - unfold file_plan, runFileAction, await_webcontainer, mbind, Async_bind, bind, ret,
      try_catch, mkdir, writeFile.
    destruct (String.eqb _ "."); simpl.
    + by destruct (fs_writeFile w p c) as [[e'|] w2].
    + destruct (fs_mkdir w _) as [[e|] w1]; simpl;
        by destruct (fs_writeFile w1 p c) as [[e'|] w2].
  - apply follows_importRepository.
  - rewrite runShellAction_booted. destruct (spawn w c shell_env) as [[e|pr] w1]; simpl; done.
  - unfold file_plan, runFileAction, await_webcontainer, mbind, Async_bind, bind, ret,
      try_catch, mkdir, writeFile.
    destruct (String.eqb _ "."); simpl.
    + by destruct (fs_writeFile w p c) as [[e'|] w2].
    + destruct (fs_mkdir w _) as [[e|] w1]; simpl;
        by destruct (fs_writeFile w1 p c) as [[e'|] w2].
  - intros H. by apply (follows_importRepository t fs cs w) in H.
Qed.



(** X7: an abort while the handler is in flight does not have the last
    word.  It sets the status to [Aborted] at once and leaves the call
    in flight; when the handler then returns the status is [Aborted],
    but when it throws the status becomes [Failed] with the message of
    the error, the abort being overwritten. *)
Theorem abort_in_flight (boot : Boot) (w : World) (evs : list Event) (t : Task) :
  let sys := run_events (boot_system boot w) evs in
  let id := t_actionId t in
  suspended (runner sys) = [t] →
  let sys1 := step sys (EvAbort id) in
  status_of sys1 id = Some Aborted
  ∧ ∃ t1, suspended (runner sys1) = [t1] ∧ t_actionId t1 = id
          ∧ t_action t1 = t_action t
          ∧ ∀ o w' cs,
              run_handler (webcontainer (runner sys1)) (t_killed t1) (t_action t1)
                (sandbox sys1) = (o, w', cs) →
              let sys2 := step sys1 (EvSettle 0) in
              match o with
              | Threw e =>
                  status_of sys2 id = Some Failed
                  ∧ error <$> actions (runner sys2) !! id = Some (Some (error_message e))
              | _ => status_of sys2 id = Some Aborted
              end.
Proof.
  intros sys id Hs sys1. subst id.
  destruct (Inv_reachable boot w evs) as (hist & f & HR & HG). fold sys in HR, HG.
  destruct (good_task _ _ HG t) as (r & Hr & Hsig); [rewrite Hs; set_solver|].
  destruct (abortAction_effect _ _ (t_actionId t) r HG Hr)
    as (Ea & Ec & _ & Ew & _ & _ & _ & g & Hg & Esus).
  destruct (good_closure _ _ HG _ _ Hr) as [_ Hlt].
  assert (actions (runner sys1) !! t_actionId t = Some (spread r (status_update Aborted))) as Hr1.
  { unfold sys1. simpl. rewrite Ea. by rewrite lookup_insert_eq. }
  split.
  { unfold status_of. by rewrite Hr1. }
  exists (g t). destruct (Hg t) as (Hgid & Hgact & _).
  split; [unfold sys1; simpl; by rewrite Esus, Hs|].
  split; [done|]. split; [done|].
  intros o w' cs Hrun sys2.
  assert (suspended (runner sys1) !! 0 = Some (g t)) as Hk.
  { unfold sys1. simpl. by rewrite Esus, Hs. }
  assert (controllers (runner sys1) !! abortSignal (t_action (g t)) = Some true) as Hraised.
  { unfold sys1. simpl. rewrite Ec, Hgact, Hsig. by apply list_lookup_insert_eq. }
  destruct o as [[]|e|].
  - destruct (settle_task_effect sys1 0 (g t) (spread r (status_update Aborted))
                (Done tt) w' cs Hk Hrun) as (E & _); [done|by rewrite Hgid|].
    rewrite Hgid in E.
    assert (final_update (runner sys1) (g t) (Done tt) = status_update Aborted) as Ef.
    { unfold final_update. by rewrite Hraised. }
    rewrite Ef in E. unfold sys2, status_of. simpl. rewrite E. done.
  - destruct (settle_task_effect sys1 0 (g t) (spread r (status_update Aborted))
                (Threw e) w' cs Hk Hrun) as (E & _); [done|by rewrite Hgid|].
    rewrite Hgid in E. unfold sys2, status_of. simpl. rewrite E. done.
  - unfold sys2. simpl. rewrite (settle_task_hangs _ _ _ _ _ Hk Hrun).
    unfold status_of. cbn [runner]. by rewrite Hr1.
Qed.

(** X8: an abort is confined to its action.  [abort] of one id leaves
    every other record as it was with its signal not raised by this
    abort, leaves every call in flight for another id untouched (its
    listener does not fire, so its process is not killed), and takes
    nothing out of the execution chain: promises, queued jobs and
    trace are the same.  What it does reach is the record of the id,
    its signal, and the call in flight for it. *)
Theorem abort_is_confined (boot : Boot) (w : World) (evs : list Event) (id : string) :
  let sys := run_events (boot_system boot w) evs in
  let sys1 := step sys (EvAbort id) in
  (∀ y r, y ≠ id → actions (runner sys) !! y = Some r →
     actions (runner sys1) !! y = Some r
     ∧ controllers (runner sys1) !! abortSignal r
       = controllers (runner sys) !! abortSignal r)
  ∧ (∀ t, t ∈ suspended (runner sys) → t_actionId t ≠ id → t ∈ suspended (runner sys1))
  ∧ promises (runner sys1) = promises (runner sys)
  ∧ microtasks (runner sys1) = microtasks (runner sys)
  ∧ currentExecutionPromise (runner sys1) = currentExecutionPromise (runner sys)
  ∧ trace (runner sys1) = trace (runner sys).
Proof.
  intros sys sys1.
  destruct (Inv_reachable boot w evs) as (hist & f & HR & HG). fold sys in HR, HG.
  destruct (actions (runner sys) !! id) as [a|] eqn:Ha.
  2:{ assert (sys1 = sys) as ->.
      { unfold sys1, step, on_runner, abortAction. rewrite Ha. by destruct sys. }
      repeat split; try done. }
  destruct (abortAction_effect _ _ id a HG Ha)
    as (Ea & Ec & Et & _ & Ep & Ecur & Em & _).
  split; [|split; [|by repeat split]].
  - intros y r Hne Hr. unfold sys1. simpl. rewrite Ea, Ec.
    split; [by rewrite lookup_insert_ne|].
    apply list_lookup_insert_ne. intros Heq.
    apply Hne. symmetry. by apply (good_signal_inj _ _ HG id y a r).
  - intros t Ht Hne. unfold sys1. simpl. rewrite (abortAction_suspended _ _ id a HG Ha).
    destruct (controllers (runner sys) !! abortSignal a) as [[|]|]; try done.
    apply list_elem_of_fmap. exists t. split; [|done].
    unfold fire_listener.
    destruct (good_task _ _ HG t Ht) as (r & Hr & Hsig).
    destruct (Nat.eqb (abortSignal (t_action t)) (abortSignal a)) eqn:E.
    + apply Nat.eqb_eq in E. exfalso. apply Hne.
      apply (good_signal_inj _ _ HG (t_actionId t) id r a); congruence.
    + by rewrite andb_false_r.
Qed.



Lemma idle_front s hist f :
  Repr s hist f → microtasks s = [] → suspended s = [] → ∃ c, f = FIdle c [].
Proof.
  intros (_ & _ & Hm & Hs) Hnil Hsus. rewrite Hm in Hnil.
  destruct f as [c [|x sets]|sets i rest|rest|v rest]; simpl in Hnil; try done.
  - by exists c.
  - by destruct sets.
  - destruct Hs as (t & Ht & _). congruence.
Qed.

(** X9: the status [Running] does not tell that the handler started.
    On a runner with nothing queued and nothing in flight, [addAction]
    for a new id followed by one microtask sets the status of the record
    to [Running], although [runAction] was not called: the record is not
    executed, no handler has begun and nothing is in flight. *)
Theorem added_action_shows_running (boot : Boot) (w : World) (evs : list Event)
    (d : ActionCallbackData) :
  let sys := run_events (boot_system boot w) evs in
  actions (runner sys) !! actionId d = None →
  microtasks (runner sys) = [] →
  suspended (runner sys) = [] →
  let sys' := run_events sys [EvAdd d; EvTick] in
  (∃ r, actions (runner sys') !! actionId d = Some r
        ∧ status r = Running ∧ executed r = false ∧ descriptor r = action d)
  ∧ trace (runner sys') = trace (runner sys)
  ∧ suspended (runner sys') = [] ∧ microtasks (runner sys') = [].
Proof.
  intros sys Hnone Hm Hs sys'.
  destruct (Inv_reachable boot w evs) as (hist & f & HR & HG). fold sys in HR, HG.
  destruct (idle_front _ _ _ HR Hm Hs) as (c & ->).
  pose proof (repr_addAction _ _ _ d HR Hnone) as HR1. simpl in HR1.
  destruct (addAction_effect _ _ _ d HR Hnone) as (Ea & Ec & Et & Esus & _).
  destruct (repr_tick_idle _ _ _ _ _ HR1) as (Etick & HR2).
  unfold sys'. simpl. rewrite Etick.
  match goal with |- context [updateAction ?i ?u ?s0] =>
    destruct (updateAction_other i u s0) as (_ & _ & Em' & Es' & _ & Et' & _);
    rewrite Et', Es', Em'; pose proof (updateAction_lookup i u s0 (actionId d)) as Hl
  end.
  rewrite decide_True in Hl by done. simpl in Hl. rewrite Ea, lookup_insert_eq in Hl.
  simpl. split; [|by rewrite Et, Esus].
  eexists. split; [exact Hl|]. done.
Qed.

Lemma serial_balance c t c' :
  serial_from c t = Some c' →
  option_list c ++ begun t = ended t ++ option_list c'.
Proof.
  revert c. induction t as [|o t IH]; intros c; simpl.
  { intros [= <-]. by rewrite app_nil_r. }
  destruct (serial_step c o) as [c1|] eqn:Hs; [|done]. intros H. specialize (IH _ H).
  destruct o as [id|id|id e]; destruct c as [id'|]; simpl in Hs; simplify_eq; simpl in *.
  - done.
  - done.
  - unfold begun in *. simpl. done.
  - destruct (decide (id = id')) as [->|]; [|done]. simplify_eq.
    unfold ended in *. simpl in *. by f_equal.
Qed.

(** One microtask on a front that has a job queued. *)
Lemma tick_progress s hist f :
  Repr s hist f → Good s f →
  (∀ c, f ≠ FIdle c []) → (∀ rest, f ≠ FTask rest) →
  ∃ hist' f', Repr (tick s) hist' f' ∧ Good (tick s) f'
              ∧ front_size f' < front_size f
              ∧ runs (trace (tick s)) = runs (trace s)
              ∧ webcontainer (tick s) = webcontainer s.
Proof.
  intros HR HG Hidle Htask.
  destruct f as [c [|id sets]|[|id sets] i rest|rest|v [sets|sets i rest]].
  - by destruct (Hidle c).
  - destruct (repr_tick_idle _ _ _ _ _ HR) as [Eq HR'].
    exists hist, (FIdle c sets).
    match type of Eq with _ = updateAction ?i ?u ?s0 =>
      destruct (updateAction_other i u s0) as (_ & _ & _ & Es & Ec & Et & Ew) end.
    split; [done|]. split; [|split; [simpl; lia|split]].
    + eapply (good_set_running s _ _ _ id HG); [done|rewrite Eq..]; try done.
      by apply updateAction_actions_ext.
    + by rewrite Eq, Et.
    + by rewrite Eq, Ew.
  - destruct (tick_exec_good _ _ _ _ HR HG) as (a & Ha & HR' & HG' & Et & _ & _ & Ew).
    exists hist, (FTask rest). split; [done|]. split; [done|]. split; [simpl; lia|].
    split; [|done]. rewrite Et, runs_snoc. simpl. by rewrite app_nil_r.
  - destruct (tick_jobs_good _ _ _ _ _ _ HR HG) as (HR' & HG' & Et & Ew).
    exists hist, (FJobs sets i rest). split; [done|]. split; [done|]. split; [simpl; lia|].
    split; [by rewrite Et|done].
  - by destruct (Htask rest).
  - destruct (repr_tick_catch_last _ _ _ _ HR) as [Eq HR'].
    exists (hist ++ [Fulfilled]), (FIdle (length hist) sets). split; [done|].
    split; [|split; [simpl; lia|by rewrite Eq]].
    eapply Good_same; [..|exact HG]; rewrite ?Eq; done.
  - destruct (repr_tick_catch_seg _ _ _ _ _ _ HR) as [Eq HR'].
    exists (hist ++ [Fulfilled]), (FJobs sets i rest). split; [done|].
    split; [|split; [simpl; lia|by rewrite Eq]].
    eapply Good_same; [..|exact HG]; rewrite ?Eq; done.
Qed.

Lemma drains_from n sys hist f :
  front_size f ≤ n → Repr (runner sys) hist f → Good (runner sys) f →
  ∃ sched, Forall runtime_event sched
           ∧ runs (trace (runner (run_events sys sched))) = runs (trace (runner sys))
           ∧ (drained (run_events sys sched) ∨ stuck (run_events sys sched)).
Proof.
  revert sys hist f. induction n as [n IH] using lt_wf_ind. intros sys hist f Hn HR HG.
  assert ((∃ c, f = FIdle c []) ∨ (∃ rest, f = FTask rest)
          ∨ ((∀ c, f ≠ FIdle c []) ∧ (∀ rest, f ≠ FTask rest)))
    as [[c ->]|[[rest ->]|[Hidle Htask]]].
  { destruct f as [c [|id sets]|sets i rest|rest|v rest]; eauto; right; right; by split. }
  { exists []. split; [constructor|]. split; [done|]. left. simpl.
    destruct HR as (_ & _ & Hm & _ & Hs). split; [done|]. split; [done|].
    pose proof (good_runs _ _ HG) as Hr. simpl in Hr. rewrite app_nil_r in Hr.
    split; [done|].
    pose proof (serial_balance _ _ _ (good_serial _ _ HG)) as Hb.
    rewrite Hs in Hb. simpl in Hb. rewrite app_nil_r in Hb. congruence. }
  - destruct HR as (Hp & Hc & Hm & t & Hs & Ht).
    assert (Repr (runner sys) hist (FTask rest)) as HR by (repeat split; eauto).
    destruct (run_handler (webcontainer (runner sys)) (t_killed t) (t_action t) (sandbox sys))
      as [[o w'] cs] eqn:Hh.
    assert (o = Hangs ∨ o ≠ Hangs) as [->|Hne] by (destruct o; auto).
    { exists []. split; [constructor|]. split; [done|]. right. exists t. simpl.
      by rewrite Hh. }
    destruct (Inv_finish _ _ _ t o HR HG Hs Hne) as [HR' HG'].
    destruct (finishAction_effect t o
                (set_suspended (delete 0 (suspended (runner sys))) (runner sys)) Hne)
      as (_ & _ & Et & _).
    set (sys1 := settle_task 0 sys).
    assert (runner sys1
            = finishAction t o (set_suspended (delete 0 (suspended (runner sys))) (runner sys)))
      as Er.
    { unfold sys1, settle_task. rewrite Hs. simpl. rewrite Hh. by destruct o. }
    rewrite <- Er in HR', HG', Et.
    destruct (IH (front_size (FCatch (match o with Threw e => Rejected e | _ => Fulfilled end) rest))
                ltac:(simpl in *; lia) sys1 _ _ (le_n _) HR' HG') as (sched & Hf & Hruns & Hend).
    exists (EvSettle 0 :: sched). split; [constructor; [by right|done]|].
    change (run_events sys (EvSettle 0 :: sched)) with (run_events sys1 sched).
    split; [|done]. rewrite Hruns, Et, runs_snoc. simpl. by rewrite app_nil_r.
  - destruct (tick_progress _ _ _ HR HG Hidle Htask)
      as (hist' & f' & HR' & HG' & Hlt & Hruns & _).
    set (sys1 := step sys EvTick).
    destruct (IH (front_size f') ltac:(lia) sys1 hist' f' (le_n _) HR' HG')
      as (sched & Hf & Hruns' & Hend).
    exists (EvTick :: sched). split; [constructor; [by left|done]|].
    change (run_events sys (EvTick :: sched)) with (run_events sys1 sched).
    split; [|done]. by rewrite Hruns'.
Qed.

(** X24: no action that was run is forgotten.  From every state the
    runner can reach, the runtime alone (microtasks and completions of
    the handler in flight, without any further call) brings the runner
    to a state where every execution [runAction] enqueued has begun and
    ended, in the order of the calls, with nothing queued or in flight;
    unless it reaches a handler that never settles. *)
Theorem chain_drains_or_hangs (boot : Boot) (w : World) (evs : list Event) :
  let sys := run_events (boot_system boot w) evs in
  ∃ sched,
    Forall runtime_event sched
    ∧ let sys' := run_events sys sched in
      runs (trace (runner sys')) = runs (trace (runner sys))
      ∧ (drained sys' ∨ stuck sys').
Proof.
  intros sys. destruct (Inv_reachable boot w evs) as (hist & f & HR & HG).
  fold sys in HR, HG. by apply (drains_from (front_size f) sys hist f).
Qed.

Lemma earned_mono t t' id r : earned t id r → t `prefix_of` t' → earned t' id r.
Proof.
  intros [Hc Hf] [k ->]. split.
  - intros H. apply elem_of_app. left. by apply Hc.
  - intros H. destruct (Hf H) as (e & He & Herr). exists e. split; [|done].
    apply elem_of_app. by left.
Qed.

Lemma earned_status t id r st :
  st ≠ Complete → st ≠ Failed → earned t id (spread r (status_update st)).
Proof. intros H1 H2. split; simpl; intros ?; congruence. Qed.

Lemma updateAction_earned t i st s :
  st ≠ Complete → st ≠ Failed →
  (∀ id r, actions s !! id = Some r → earned t id r) →
  ∀ id r, actions (updateAction i (status_update st) s) !! id = Some r → earned t id r.
Proof.
  intros H1 H2 H id r. rewrite updateAction_lookup.
  destruct (decide (i = id)) as [->|]; [|apply H].
  destruct (actions s !! id) as [r0|]; [|done]. intros [= <-]. by apply earned_status.
Qed.

Lemma tick_earned s :
  (∀ id r, actions s !! id = Some r → earned (trace s) id r) →
  ∀ id r, actions (tick s) !! id = Some r → earned (trace (tick s)) id r.
Proof.
  intros H.
  assert (∀ d v s0, actions (settle d v s0) = actions s0 ∧ trace (settle d v s0) = trace s0) as HS.
  { intros d v s0. by destruct (settle_fields d v s0) as (-> & _ & -> & _). }
  assert (∀ cb d q id r,
    actions (run_callback cb d (set_microtasks q s)) !! id = Some r →
    earned (trace (run_callback cb d (set_microtasks q s))) id r) as HC.
  { intros cb d q id r. destruct cb as [i|i|]; simpl.
    - destruct (HS d Fulfilled (updateAction i (status_update Running) (set_microtasks q s)))
        as [-> ->].
      destruct (updateAction_other i (status_update Running) (set_microtasks q s))
        as (_ & _ & _ & _ & _ & -> & _).
      by apply (updateAction_earned (trace s) i Running (set_microtasks q s)).
    - unfold executeAction. change (actions (set_microtasks q s)) with (actions s).
      destruct (actions s !! i) as [a|].
      + simpl. intros Hr.
        destruct (updateAction_other i (status_update Running) (set_microtasks q s))
          as (_ & _ & _ & _ & _ & -> & _). simpl.
        eapply earned_mono; [|by apply prefix_app_r].
        by apply (updateAction_earned (trace s) i Running (set_microtasks q s)).
      + destruct (HS d (Rejected (ErrorObj "TypeError")) (set_microtasks q s)) as [-> ->].
        apply H.
    - destruct (HS d Fulfilled (set_microtasks q s)) as [-> ->]. apply H. }
  unfold tick. destruct (microtasks s) as [|[[cb d|cb d] [|e]] q]; [done|..]; simpl.
  - apply HC.
  - destruct (HS d (Rejected e) (set_microtasks q s)) as [-> ->]. apply H.
  - destruct (HS d Fulfilled (set_microtasks q s)) as [-> ->]. apply H.
  - apply HC.
Qed.

Lemma runAction_earned data s :
  (∀ id r, actions s !! id = Some r → earned (trace s) id r) →
  ∀ id r, actions (runAction data s).2 !! id = Some r →
          earned (trace (runAction data s).2) id r.
Proof.
  intros H id r. destruct (actions s !! actionId data) as [a|] eqn:Ha.
  2:{ unfold runAction. rewrite Ha. apply H. }
  destruct (executed a) eqn:He.
  { unfold runAction. rewrite Ha, He. apply H. }
  rewrite (runAction_actions _ _ _ Ha He). intros Hr.
  assert (trace s `prefix_of` trace (runAction data s).2) as Hp.
  { unfold runAction. rewrite Ha, He.
    match goal with |- context [then_ ?p ?cb ?s1] =>
      pose proof (then_fields p cb s1) as (_ & _ & E1 & _); destruct (then_ p cb s1) as [q s2] end.
    match goal with |- context [catch_ ?p ?cb ?s1] =>
      pose proof (catch_fields p cb s1) as (_ & _ & E2 & _); destruct (catch_ p cb s1) as [p' s3] end.
    simpl in *. rewrite E2, E1.
    destruct (updateAction_other (actionId data) (run_update a (action data)) s)
      as (_ & _ & _ & _ & _ & -> & _). by apply prefix_app_r. }
  eapply earned_mono; [|exact Hp].
  destruct (decide (actionId data = id)) as [Heq|Hne].
  - rewrite Heq in *. rewrite lookup_insert_eq in Hr. injection Hr as <-.
    destruct (H id a Ha) as [Hc Hf]. split; simpl; [exact Hc|].
    intros Hst. destruct (Hf Hst) as (e & He' & Herr). exists e. split; [done|].
    by rewrite Herr.
  - rewrite lookup_insert_ne in Hr by done. by apply H.
Qed.



Lemma addAction_earned data s :
  (∀ id r, actions s !! id = Some r → earned (trace s) id r) →
  ∀ id r, actions (addAction data s) !! id = Some r →
          earned (trace (addAction data s)) id r.
Proof.
  intros H id r. rewrite addAction_trace. unfold addAction.
  destruct (actions s !! actionId data) eqn:Ha; [apply H|]. unfold then_drop.
  match goal with |- context [attach ?p ?x ?s1] =>
    destruct (attach_fields p x s1) as (-> & _) end.
  simpl. destruct (decide (actionId data = id)) as [Heq|Hne].
  - rewrite Heq. rewrite lookup_insert_eq. intros [= <-]. split; simpl; intros ?; congruence.
  - rewrite lookup_insert_ne by done. apply H.
Qed.

Lemma abortAction_earned i s :
  (∀ id r, actions s !! id = Some r → earned (trace s) id r) →
  ∀ id r, actions (abortAction i s) !! id = Some r →
          earned (trace (abortAction i s)) id r.
Proof.
  intros H id r. rewrite abortAction_trace. unfold abortAction.
  destruct (actions s !! i) as [a|]; [|apply H].
  apply updateAction_earned; [done|done|].
  assert (actions (signal_abort (ac_controller (abort a)) s) = actions s) as ->.
  { unfold signal_abort. by repeat case_match. }
  apply H.
Qed.

Lemma settle_task_earned k sys :
  (∀ id r, actions (runner sys) !! id = Some r → earned (trace (runner sys)) id r) →
  ∀ id r, actions (runner (settle_task k sys)) !! id = Some r →
          earned (trace (runner (settle_task k sys))) id r.
Proof.
  intros H id r.
  destruct (settle_task_cases k sys)
    as [(-> & _)|(t & o & w & cs & Hk & Hh & Hne & _ & _ & Ea & Et & _)]; [apply H|].
  rewrite Ea, Et, updateAction_lookup.
  destruct (decide (t_actionId t = id)) as [Heq|Hneq].
  2:{ intros Hr. eapply earned_mono; [by apply H|by apply prefix_app_r]. }
  rewrite Heq. destruct (actions (runner sys) !! id) as [r0|]; [|done]. intros [= <-].
  destruct o as [[]|e|]; [| |done]; simpl.
  - split; simpl.
    + intros _. apply elem_of_app. right. by apply list_elem_of_singleton.
    + by destruct (default false _).
  - split; simpl; [done|]. intros _. exists e. split; [|done].
    apply elem_of_app. right. by apply list_elem_of_singleton.
Qed.

(** X26: a terminal status is earned.  In every state the runner can
    reach, a record is [Complete] only if a handler of its id returned
    normally, [Failed] only if a handler of its id threw, the record
    holding the message of that error, and [Aborted] only if its abort
    signal is raised. *)
Theorem terminal_status_is_earned (boot : Boot) (w : World) (evs : list Event)
    (id : string) (r : ActionState) :
  let s := runner (run_events (boot_system boot w) evs) in
  actions s !! id = Some r →
  (status r = Complete → ObsSettle id None ∈ trace s)
  ∧ (status r = Failed →
     ∃ e, ObsSettle id (Some e) ∈ trace s ∧ error r = Some (error_message e))
  ∧ (status r = Aborted → controllers s !! abortSignal r = Some true).
Proof.
  intros s Hr.
  assert (earned (trace s) id r) as [Hc Hf].
  { unfold s in *. clear s. revert id r Hr.
    induction evs as [|ev evs IH] using rev_ind; intros id r.
    { simpl. by rewrite lookup_empty. }
    rewrite run_events_snoc. destruct ev as [d|d|i| |k]; simpl.
    - by apply addAction_earned.
    - by apply runAction_earned.
    - by apply abortAction_earned.
    - by apply tick_earned.
    - by apply settle_task_earned. }
  split; [done|]. split; [done|]. intros Hst.
  destruct (Inv_reachable boot w evs) as (hist & f & HR & HG). fold s in HR, HG.
  destruct (good_closure _ _ HG _ _ Hr) as [_ Hlt].
  destruct (lookup_lt_is_Some_2 _ _ Hlt) as [[|] Hb]; [done|].
  by destruct (good_status _ _ HG _ _ Hr Hb) as (_ & _ & ?).
Qed.

End RunnerExtras.

(** ** The workbench store *)

Module WorkbenchCallFacts.
Import Workbench WorkbenchCalls.

Lemma on_instance_registry i f s :
  artifacts (on_instance i f s) = artifacts s
  ∧ artifactIdList (on_instance i f s) = artifactIdList s
  ∧ length (instances (on_instance i f s)) = length (instances s).
Proof. unfold on_instance. simpl. by rewrite length_alter. Qed.

Lemma registry_ok_same s s' :
  artifacts s' = artifacts s → artifactIdList s' = artifactIdList s →
  length (instances s') = length (instances s) →
  registry_ok s → registry_ok s'.
Proof. unfold registry_ok. intros -> -> ->. done. Qed.

Lemma runAction_registry d s l s' :
  runAction d s = inr (l, s') →
  artifacts s' = artifacts s ∧ artifactIdList s' = artifactIdList s
  ∧ length (instances s') = length (instances s).
Proof.
  unfold runAction. destruct (artifacts s !! action_messageId d) as [a|]; [|done].
  destruct (instances s !! runner a) as [r|]; [|done].
  destruct (runner_runAction d r) as [h r']. intros [= <- <-].
  apply on_instance_registry.
Qed.

Lemma addAction_registry d s s' :
  addAction d s = inr s' →
  artifacts s' = artifacts s ∧ artifactIdList s' = artifactIdList s
  ∧ length (instances s') = length (instances s).
Proof.
  unfold addAction. destruct (artifacts s !! action_messageId d) as [a|]; [|done].
  intros [= <-]. apply on_instance_registry.
Qed.

Lemma registry_ok_addArtifact d s : registry_ok s → registry_ok (addArtifact d s).
Proof.
  intros (Hnd & Hin & Hlen & Hidx). unfold addArtifact.
  destruct (artifacts s !! messageId d) as [a|] eqn:Ha; [done|].
  assert (messageId d ∉ artifactIdList s) as Hnotin.
  { intros H. apply Hin in H. rewrite Ha in H. by destruct H. }
  unfold registry_ok. simpl. rewrite bool_decide_eq_false_2 by done.
  split; [|split; [|split]].
  - apply NoDup_app. split; [done|]. split; [|apply NoDup_singleton].
    intros x Hx Hx'. apply list_elem_of_singleton in Hx'. by subst.
  - intros m. rewrite elem_of_app, list_elem_of_singleton, Hin.
    destruct (decide (m = messageId d)) as [->|Hne].
    + rewrite lookup_insert_eq. split; [eauto|by right].
    + rewrite lookup_insert_ne by done. split; [by intros [?|?]|by left].
  - rewrite !length_app. simpl. lia.
  - intros m a. destruct (decide (m = messageId d)) as [->|Hne].
    + rewrite lookup_insert_eq. intros [= <-]. simpl. rewrite Hlen.
      by rewrite lookup_app_r, Nat.sub_diag.
    + rewrite lookup_insert_ne by done. intros Hm.
      rewrite lookup_app_l; [by apply Hidx|]. eapply lookup_lt_Some. by apply Hidx.
Qed.

Lemma registry_ok_updateArtifact d u s : registry_ok s → registry_ok (updateArtifact d u s).
Proof.
  intros (Hnd & Hin & Hlen & Hidx). unfold updateArtifact.
  destruct (artifacts s !! messageId d) as [a|] eqn:Ha; [|done].
  unfold registry_ok. simpl. split; [done|]. split; [|split; [done|]].
  - intros m. rewrite Hin. destruct (decide (m = messageId d)) as [->|Hne].
    + rewrite lookup_insert_eq, Ha. split; eauto.
    + by rewrite lookup_insert_ne.
  - intros m a'. destruct (decide (m = messageId d)) as [->|Hne].
    + rewrite lookup_insert_eq. intros [= <-]. simpl. by apply Hidx.
    + rewrite lookup_insert_ne by done. apply Hidx.
Qed.

Lemma registry_ok_step s c :
  c ≠ ModuleReloaded → registry_ok s → registry_ok (store_step s c).
Proof.
  intros Hc H. destruct c as [d|d u|d|d|i f|]; simpl; [| | | | |done].
  - by apply registry_ok_addArtifact.
  - by apply registry_ok_updateArtifact.
  - destruct (addAction d s) as [e|s'] eqn:E; [done|].
    destruct (addAction_registry _ _ _ E) as (E1 & E2 & E3). by eapply registry_ok_same.
  - destruct (runAction d s) as [e|[l s']] eqn:E; [done|].
    destruct (runAction_registry _ _ _ _ E) as (E1 & E2 & E3). by eapply registry_ok_same.
  - destruct (on_instance_registry i f s) as (E1 & E2 & E3). by eapply registry_ok_same.
Qed.

Lemma store_run_snoc s cs c : store_run s (cs ++ [c]) = store_step (store_run s cs) c.
Proof. unfold store_run. by rewrite fold_left_app. Qed.

Lemma registry_ok_run s cs :
  ModuleReloaded ∉ cs → registry_ok s → registry_ok (store_run s cs).
Proof.
  intros Hc H. induction cs as [|c cs IH] using rev_ind; [done|].
  rewrite store_run_snoc. apply not_elem_of_app in Hc as [Hcs Hc].
  apply registry_ok_step; [|by apply IH].
  intros ->. apply Hc. by apply list_elem_of_singleton.
Qed.

Lemma registry_ok_empty boot : registry_ok (empty_store boot).
Proof.
  unfold registry_ok. simpl. split; [apply NoDup_nil_2|]. split; [|split; [done|]].
  - intros m. rewrite lookup_empty. split; [by intros ?%elem_of_nil|by intros []].
  - intros m a. by rewrite lookup_empty.
Qed.

Lemma registry_sound_same s s' :
  artifacts s' = artifacts s → artifactIdList s' = artifactIdList s →
  length (instances s') = length (instances s) →
  registry_sound s → registry_sound s'.
Proof. unfold registry_sound. intros -> -> ->. done. Qed.

Lemma registry_sound_addArtifact d s : registry_sound s → registry_sound (addArtifact d s).
Proof.
  intros (Hnd & Hin & Hlt & Hinj). unfold addArtifact.
  destruct (artifacts s !! messageId d) as [a|] eqn:Ha; [done|].
  assert (messageId d ∉ artifactIdList s) as Hnotin.
  { intros H. apply Hin in H. rewrite Ha in H. by destruct H. }
  unfold registry_sound. simpl. rewrite bool_decide_eq_false_2 by done.
  split; [|split; [|split]].
  - apply NoDup_app. split; [done|]. split; [|apply NoDup_singleton].
    intros x Hx Hx'. apply list_elem_of_singleton in Hx'. by subst.
  - intros m. rewrite elem_of_app, list_elem_of_singleton.
    destruct (decide (m = messageId d)) as [->|Hne].
    + rewrite lookup_insert_eq. eauto.
    + rewrite lookup_insert_ne by done. intros [H|H]; [by apply Hin|done].
  - intros m a. rewrite length_app. simpl.
    destruct (decide (m = messageId d)) as [->|Hne].
    + rewrite lookup_insert_eq. intros [= <-]. simpl. lia.
    + rewrite lookup_insert_ne by done. intros Hm. apply Hlt in Hm. lia.
  - intros m m' a a'.
    destruct (decide (m = messageId d)) as [->|Hne];
      destruct (decide (m' = messageId d)) as [->|Hne']; [done|..].
    + rewrite lookup_insert_eq, lookup_insert_ne by done.
      intros [= <-] Hm'. simpl. apply Hlt in Hm'. lia.
    + rewrite lookup_insert_eq, lookup_insert_ne by done.
      intros Hm [= <-]. simpl. apply Hlt in Hm. lia.
    + rewrite !lookup_insert_ne by done. apply Hinj.
Qed.

Lemma registry_sound_updateArtifact d u s :
  registry_sound s → registry_sound (updateArtifact d u s).
Proof.
  intros (Hnd & Hin & Hlt & Hinj). unfold updateArtifact.
  destruct (artifacts s !! messageId d) as [a|] eqn:Ha; [|done].
  assert (∀ m b, <[messageId d :=
                     {| id := id a; title := default (title a) (u_title u);
                        closed := default (closed a) (u_closed u);
                        runner := runner a |}]> (artifacts s) !! m = Some b →
                 ∃ b0, artifacts s !! m = Some b0 ∧ runner b = runner b0) as Hold.
  { intros m b. destruct (decide (m = messageId d)) as [->|Hne].
    - rewrite lookup_insert_eq. intros [= <-]. by exists a.
    - rewrite lookup_insert_ne by done. intros Hm. by exists b. }
  unfold registry_sound. simpl. split; [done|]. split; [|split].
  - intros m Hm. destruct (decide (m = messageId d)) as [->|Hne].
    + rewrite lookup_insert_eq. eauto.
    + rewrite lookup_insert_ne by done. by apply Hin.
  - intros m b Hb. destruct (Hold m b Hb) as (b0 & Hb0 & ->). by eapply Hlt.
  - intros m m' b b' Hb Hb' Heq.
    destruct (Hold m b Hb) as (b0 & Hb0 & E0), (Hold m' b' Hb') as (b1 & Hb1 & E1).
    apply (Hinj m m' b0 b1); [done|done|congruence].
Qed.

Lemma registry_sound_step s c : registry_sound s → registry_sound (store_step s c).
Proof.
  intros H. destruct c as [d|d u|d|d|i f|]; simpl.
  - by apply registry_sound_addArtifact.
  - by apply registry_sound_updateArtifact.
  - destruct (addAction d s) as [e|s'] eqn:E; [done|].
    destruct (addAction_registry _ _ _ E) as (E1 & E2 & E3). by eapply registry_sound_same.
  - destruct (runAction d s) as [e|[l s']] eqn:E; [done|].
    destruct (runAction_registry _ _ _ _ E) as (E1 & E2 & E3). by eapply registry_sound_same.
  - destruct (on_instance_registry i f s) as (E1 & E2 & E3). by eapply registry_sound_same.
  - destruct H as (_ & _ & Hlt & Hinj). unfold registry_sound. simpl.
    split; [apply NoDup_nil_2|]. split; [by intros m ?%elem_of_nil|]. done.
Qed.

Lemma registry_sound_run s cs : registry_sound s → registry_sound (store_run s cs).
Proof.
  intros H. induction cs as [|c cs IH] using rev_ind; [done|].
  rewrite store_run_snoc. by apply registry_sound_step.
Qed.

Lemma registry_sound_empty boot : registry_sound (empty_store boot).
Proof.
  unfold registry_sound. simpl. split; [apply NoDup_nil_2|].
  split; [by intros m ?%elem_of_nil|]. split; intros m; intros; by rewrite lookup_empty in *.
Qed.

(** No call takes an artifact out of the map, changes the id or the
    runner of one, or moves the head of a non-empty id list, a reload
    apart. *)
Lemma step_keeps_artifact s c m a :
  artifacts s !! m = Some a →
  ∃ a', artifacts (store_step s c) !! m = Some a'
        ∧ id a' = id a ∧ runner a' = runner a
        ∧ (c ≠ ModuleReloaded →
           ∀ x, head (artifactIdList s) = Some x →
                head (artifactIdList (store_step s c)) = Some x).
Proof.
  intros Ha.
  destruct c as [d|d u|d|d|i f|]; simpl.
  - unfold addArtifact. destruct (artifacts s !! messageId d) as [b|] eqn:Hb; [by exists a|].
    simpl. exists a. rewrite lookup_insert_ne by congruence.
    split; [done|]. split; [done|]. split; [done|]. intros _ x Hx.
    destruct (bool_decide _); [done|]. by destruct (artifactIdList s).
  - unfold updateArtifact. destruct (artifacts s !! messageId d) as [b|] eqn:Hb; [|by exists a].
    simpl. destruct (decide (messageId d = m)) as [Heq|Hne].
    + rewrite Heq in *. rewrite lookup_insert_eq. eexists. split; [done|].
      assert (b = a) as -> by congruence. done.
    + rewrite lookup_insert_ne by done. by exists a.
  - destruct (addAction d s) as [e|s'] eqn:E; [by exists a|].
    destruct (addAction_registry _ _ _ E) as (-> & -> & _). by exists a.
  - destruct (runAction d s) as [e|[l s']] eqn:E; [by exists a|].
    destruct (runAction_registry _ _ _ _ E) as (-> & -> & _). by exists a.
  - by exists a.
  - by exists a.
Qed.

Lemma run_keeps_artifact s cs m a :
  artifacts s !! m = Some a →
  ∃ a', artifacts (store_run s cs) !! m = Some a' ∧ id a' = id a ∧ runner a' = runner a
        ∧ (ModuleReloaded ∉ cs →
           ∀ x, head (artifactIdList s) = Some x →
                head (artifactIdList (store_run s cs)) = Some x).
Proof.
  intros Ha. induction cs as [|c cs IH] using rev_ind; [by exists a|].
  destruct IH as (a1 & Ha1 & Hid1 & Hr1 & Hh1).
  rewrite store_run_snoc.
  destruct (step_keeps_artifact _ c m a1 Ha1) as (a2 & Ha2 & Hid2 & Hr2 & Hh2).
  exists a2. split; [done|]. split; [congruence|]. split; [congruence|].
  intros Hc x Hx. apply not_elem_of_app in Hc as [Hcs Hc].
  apply Hh2; [|by apply Hh1].
  intros ->. apply Hc. by apply list_elem_of_singleton.
Qed.

(** The ids a new store has taken over never enter its id list:
    [addArtifact] returns before the push for an id that is in the
    map. *)
Lemma restored_stay_unlisted (old : gmap string ArtifactState) s c :
  (∀ m, m ∈ artifactIdList s → old !! m = None) →
  (∀ m, is_Some (old !! m) → is_Some (artifacts s !! m)) →
  (∀ m, m ∈ artifactIdList (store_step s c) → old !! m = None)
  ∧ (∀ m, is_Some (old !! m) → is_Some (artifacts (store_step s c) !! m)).
Proof.
  intros Hl Hm. split.
  2:{ intros m [a Ha]%Hm.
      destruct (step_keeps_artifact s c m a Ha) as (a' & Ha' & _). eauto. }
  destruct c as [d|d u|d|d|i f|]; simpl.
  - unfold addArtifact. destruct (artifacts s !! messageId d) as [b|] eqn:Hb; [done|].
    simpl. destruct (bool_decide _); [done|].
    intros m [H|H]%elem_of_app; [by apply Hl|].
    apply list_elem_of_singleton in H as ->.
    destruct (old !! messageId d) eqn:Ho; [|done].
    destruct (Hm (messageId d)) as [? ?]; [eauto|congruence].
  - unfold updateArtifact. by destruct (artifacts s !! messageId d).
  - destruct (addAction d s) as [e|s'] eqn:E; [done|].
    by destruct (addAction_registry _ _ _ E) as (_ & -> & _).
  - destruct (runAction d s) as [e|[l s']] eqn:E; [done|].
    by destruct (runAction_registry _ _ _ _ E) as (_ & -> & _).
  - done.
  - by intros m ?%elem_of_nil.
Qed.

(** X10: what the artifact registry keeps.  After any sequence of store
    calls, hot reloads of the module included, the id list names
    artifacts of the map, each once; every artifact owns a runner, and
    two artifacts never share one.  As long as the module has not been
    reloaded the id list names every artifact, in creation order, the
    [n]-th artifact owning the [n]-th runner.  A reload breaks that for
    good: the new store takes the artifacts over but starts with an
    empty id list, and an artifact taken over is never listed again. *)
Theorem registry_is_well_formed (boot : Boot) (cs : list StoreCall) :
  let s := store_run (empty_store boot) cs in
  NoDup (artifactIdList s)
  ∧ (∀ m, m ∈ artifactIdList s → is_Some (artifacts s !! m))
  ∧ (∀ m a, artifacts s !! m = Some a → is_Some (instances s !! runner a))
  ∧ (∀ m m' a a', artifacts s !! m = Some a → artifacts s !! m' = Some a' →
                  runner a = runner a' → m = m')
  ∧ (ModuleReloaded ∉ cs →
     (∀ m, is_Some (artifacts s !! m) → m ∈ artifactIdList s)
     ∧ length (instances s) = length (artifactIdList s)
     ∧ (∀ m a, artifacts s !! m = Some a → artifactIdList s !! runner a = Some m))
  ∧ (∀ cs' m, is_Some (artifacts s !! m) →
       let s' := store_run (store_step s ModuleReloaded) cs' in
       is_Some (artifacts s' !! m) ∧ m ∉ artifactIdList s').
Proof.
  intros s.
  destruct (registry_sound_run _ cs (registry_sound_empty boot)) as (H1 & H2 & H3 & H4).
  fold s in H1, H2, H3, H4.
  split; [done|]. split; [done|]. split; [|split; [done|split]].
  - intros m a Ha. apply lookup_lt_is_Some_2. by eapply H3.
  - intros Hc. destruct (registry_ok_run _ cs Hc (registry_ok_empty boot)) as (_ & K2 & K3 & K4).
    fold s in K2, K3, K4. split; [|done]. intros m. apply K2.
  - intros cs' m Hm. cbv zeta.
    assert ((∀ x, x ∈ artifactIdList (store_run (store_step s ModuleReloaded) cs') →
                  artifacts s !! x = None)
            ∧ (∀ x, is_Some (artifacts s !! x) →
                    is_Some (artifacts (store_run (store_step s ModuleReloaded) cs') !! x)))
      as [Hl Hk].
    { induction cs' as [|c cs' IH] using rev_ind.
      - split; [by intros x ?%elem_of_nil|done].
      - rewrite store_run_snoc. destruct IH as [IH1 IH2].
        by apply restored_stay_unlisted. }
    split; [by apply Hk|]. intros Hin. apply Hl in Hin. destruct Hm. congruence.
Qed.



(** X11: an action reaches the runner of its artifact and no other.  In
    any store reached by store calls, [addAction] and [runAction] for a
    message id either reject with ['Artifact not found'], or leave the
    registry as it is and change at most the runner of that artifact:
    the runner of every other artifact is untouched. *)
Theorem actions_reach_one_runner (boot : Boot) (cs : list StoreCall)
    (d : ActionCallbackData) (m : string) (a : ArtifactState) :
  let s := store_run (empty_store boot) cs in
  m ≠ action_messageId d →
  artifacts s !! m = Some a →
  (∀ s', addAction d s = inr s' →
     artifacts s' = artifacts s ∧ artifactIdList s' = artifactIdList s
     ∧ instances s' !! runner a = instances s !! runner a)
  ∧ (∀ l s', runAction d s = inr (l, s') →
     artifacts s' = artifacts s ∧ artifactIdList s' = artifactIdList s
     ∧ instances s' !! runner a = instances s !! runner a)
  ∧ (artifacts s !! action_messageId d = None →
     addAction d s = inl (ErrorObj "Artifact not found")
     ∧ runAction d s = inl (ErrorObj "Artifact not found")).
Proof.
  intros s Hne Ha.
  destruct (registry_sound_run _ cs (registry_sound_empty boot)) as (_ & _ & _ & Hinj).
  fold s in Hinj.
  assert (∀ b, artifacts s !! action_messageId d = Some b → runner b ≠ runner a) as Hdiff.
  { intros b Hb Heq. apply Hne. by apply (Hinj m (action_messageId d) a b). }
  split; [|split].
  - intros s'. unfold addAction.
    destruct (artifacts s !! action_messageId d) as [b|] eqn:Hb; [|done].
    intros [= <-]. simpl. split; [done|]. split; [done|].
    apply list_lookup_alter_ne. by apply Hdiff.
  - intros l s'. unfold runAction.
    destruct (artifacts s !! action_messageId d) as [b|] eqn:Hb; [|done].
    destruct (instances s !! runner b) as [r|]; [|done].
    destruct (runner_runAction d r) as [h r']. intros [= <- <-]. simpl.
    split; [done|]. split; [done|].
    apply list_lookup_alter_ne. by apply Hdiff.
  - intros Hnone. unfold addAction, runAction. by rewrite Hnone.
Qed.

(** X12: what [firstArtifact] names.  On the store of a page load it
    is undefined until an artifact is created, and then names the
    first artifact created, for good: after every further sequence of
    store calls it is the same artifact with the same runner (title
    and closed flag may be updated).  A reload of the module breaks
    this: the new store has the artifacts but an empty id list, so
    [firstArtifact] looks up the key ["undefined"], and the next
    artifact created, not the oldest one, becomes the first. *)
Theorem firstArtifact_is_stable (boot : Boot) (cs cs' : list StoreCall)
    (a : ArtifactState) :
  let s := store_run (empty_store boot) cs in
  firstArtifact (empty_store boot) = None
  ∧ (ModuleReloaded ∉ cs → (firstArtifact s = None ↔ artifacts s = ∅))
  ∧ (artifactIdList s ≠ [] → is_Some (firstArtifact s))
  ∧ (ModuleReloaded ∉ cs ∨ artifactIdList s ≠ [] →
     ModuleReloaded ∉ cs' →
     firstArtifact s = Some a →
     ∃ a', firstArtifact (store_run s cs') = Some a'
           ∧ id a' = id a ∧ runner a' = runner a)
  ∧ (ModuleReloaded ∉ cs → firstArtifact s = Some a → runner a = 0)
  ∧ firstArtifact (store_step s ModuleReloaded) = artifacts s !! "undefined"
  ∧ (∀ d, artifacts s !! messageId d = None →
       firstArtifact (addArtifact d (store_step s ModuleReloaded))
       = Some {| id := cb_id d; title := cb_title d; closed := false;
                 runner := length (instances s) |}).
Proof.
  intros s.
  pose proof (registry_sound_run _ cs (registry_sound_empty boot)) as Hsound.
  fold s in Hsound. destruct Hsound as (Hnd & Hin & _).
  assert (ModuleReloaded ∉ cs → registry_ok s) as Hok.
  { intros Hc. by apply registry_ok_run, registry_ok_empty. }
  assert (ModuleReloaded ∉ cs → firstArtifact s = Some a → artifactIdList s ≠ []) as Hne.
  { intros Hc Hfirst El. destruct (Hok Hc) as (_ & Hiff & _).
    unfold firstArtifact, getArtifact in Hfirst. rewrite El in Hfirst. simpl in Hfirst.
    assert ("undefined" ∈ artifactIdList s) as H by (apply Hiff; eauto).
    rewrite El in H. by apply elem_of_nil in H. }
  split; [done|]. split; [|split; [|split; [|split; [|split]]]].
  - intros Hc. destruct (Hok Hc) as (_ & Hiff & _). unfold firstArtifact, getArtifact. split.
    + intros Hnone. apply map_eq. intros m. rewrite lookup_empty.
      destruct (artifactIdList s) as [|x l] eqn:El.
      * destruct (artifacts s !! m) eqn:Hm; [|done].
        assert (m ∈ []) as H by (apply Hiff; eauto). by apply elem_of_nil in H.
      * simpl in Hnone. assert (is_Some (artifacts s !! x)) as [? H].
        { apply Hiff. left. }
        congruence.
    + intros ->. by rewrite lookup_empty.
  - intros El. unfold firstArtifact, getArtifact.
    destruct (artifactIdList s) as [|x l] eqn:E; [done|]. simpl. apply Hin. left.
  - intros Hor Hc' Hfirst.
    assert (artifactIdList s ≠ []) as El.
    { destruct Hor as [Hc|El]; [by apply Hne|done]. }
    unfold firstArtifact, getArtifact in *.
    destruct (artifactIdList s) as [|x l] eqn:E; [done|]. simpl in Hfirst.
    destruct (run_keeps_artifact s cs' x a Hfirst) as (a' & Ha' & Hid & Hr & Hh).
    exists a'. rewrite (Hh Hc' x); [|by rewrite E]. done.
  - intros Hc Hfirst. pose proof (Hne Hc Hfirst) as El.
    destruct (Hok Hc) as (Hnd' & _ & _ & Hidx).
    unfold firstArtifact, getArtifact in Hfirst.
    destruct (artifactIdList s) as [|x l] eqn:E; [done|]. simpl in Hfirst.
    apply Hidx in Hfirst. destruct (runner a) as [|n]; [done|]. simpl in Hfirst.
    apply list_elem_of_lookup_2 in Hfirst. by apply NoDup_cons in Hnd' as [? _].
  - done.
  - intros d Hd. unfold firstArtifact, getArtifact, addArtifact. simpl. rewrite Hd. simpl.
    by rewrite lookup_insert_eq.
Qed.

(** X25: updates of an artifact compose.  Two [updateArtifact] calls
    for one message id amount to one call with the keys of both, those
    of the later call winning; an update without keys, and an update
    for a message id the store does not know, change nothing; and no
    update touches a runner, the id list, or another artifact. *)
Theorem updateArtifact_merges (d : ArtifactCallbackData) (u1 u2 : ArtifactUpdate)
    (s : WorkbenchStore) :
  updateArtifact d u2 (updateArtifact d u1 s) = updateArtifact d (merge_update u1 u2) s
  ∧ updateArtifact d {| u_title := None; u_closed := None |} s = s
  ∧ (artifacts s !! messageId d = None → updateArtifact d u1 s = s)
  ∧ instances (updateArtifact d u1 s) = instances s
  ∧ artifactIdList (updateArtifact d u1 s) = artifactIdList s
  ∧ (∀ m, m ≠ messageId d → artifacts (updateArtifact d u1 s) !! m = artifacts s !! m).
Proof.
  destruct (artifacts s !! messageId d) as [a|] eqn:Ha.
  2:{ unfold updateArtifact. rewrite Ha. simpl. rewrite Ha. repeat split; done. }
  assert (∀ u, updateArtifact d u s
               = {| artifacts :=
                      <[messageId d :=
                          {| id := id a; title := default (title a) (u_title u);
                             closed := default (closed a) (u_closed u);
                             runner := runner a |}]> (artifacts s);
                    artifactIdList := artifactIdList s; instances := instances s;
                    container := container s |}) as Hu.
  { intros u. unfold updateArtifact. by rewrite Ha. }
  split; [|split; [|split; [congruence|split; [|split]]]].
  - rewrite (Hu u1), (Hu (merge_update u1 u2)).
    unfold updateArtifact. simpl. rewrite lookup_insert_eq. simpl.
    rewrite insert_insert_eq.
    destruct u1 as [[t1|] [c1|]], u2 as [[t2|] [c2|]]; reflexivity.
  - rewrite Hu. simpl. destruct s as [arts l ins boot]. simpl in *. f_equal.
    apply insert_id. rewrite Ha. by destruct a.
  - by rewrite Hu.
  - by rewrite Hu.
  - intros m Hm. rewrite Hu. simpl. by rewrite lookup_insert_ne.
Qed.

End WorkbenchCallFacts.

(** ** Unsaved files *)

Module DocumentFacts.
Import Documents.

Section Facts.
Context `{FS : FilesStore} `{ES : EditorStore}.

Lemma elem_of_set_add x y s : y ∈ set_add x s ↔ y = x ∨ y ∈ s.
Proof.
  unfold set_add, set_has. case_bool_decide as H.
  - split; [by right|]. by intros [->|?].
  - rewrite elem_of_app, list_elem_of_singleton. tauto.
Qed.

Lemma elem_of_set_delete x y s : y ∈ set_delete x s ↔ y ≠ x ∧ y ∈ s.
Proof. unfold set_delete. by rewrite list_elem_of_filter. Qed.

Lemma NoDup_set_add x s : NoDup s → NoDup (set_add x s).
Proof.
  intros H. unfold set_add, set_has. case_bool_decide as Hx; [done|].
  apply NoDup_app. split; [done|]. split; [|apply NoDup_singleton].
  intros y Hy ->%list_elem_of_singleton. done.
Qed.

Lemma NoDup_set_delete x s : NoDup s → NoDup (set_delete x s).
Proof. apply NoDup_filter. Qed.

(** [setCurrentDocumentContent] on a document with a path, in one
    piece: the editor is updated, and the document then current is
    marked or unmarked. *)
Lemma setCurrentDocumentContent_eq (newContent : string) (st : DocumentState)
    (document current : EditorDocument) :
  editor_currentDocument (editorStore st) = Some document →
  doc_filePath document ≠ "" →
  let editor := editor_updateFile (editorStore st) (doc_filePath document) newContent in
  editor_currentDocument editor = Some current →
  setCurrentDocumentContent newContent st
  = {| filesStore := filesStore st; editorStore := editor;
       unsavedFiles :=
         match files_getFile (filesStore st) (doc_filePath document) with
         | Some c =>
             if String.eqb c newContent
             then set_delete (doc_filePath current) (unsavedFiles st)
             else set_add (doc_filePath current) (unsavedFiles st)
         | None => set_delete (doc_filePath current) (unsavedFiles st)
         end |}.
Proof.
  intros Hdoc Hpath editor Hcur. unfold setCurrentDocumentContent. rewrite Hdoc.
  destruct (is_empty (doc_filePath document)) eqn:He.
  { by destruct (doc_filePath document). }
  cbv zeta. simpl. fold editor. rewrite Hcur.
  destruct (files_getFile (filesStore st) (doc_filePath document)) as [c|]; [|done].
  destruct (String.eqb c newContent); simpl; [done|].
  unfold set_add. by destruct (set_has (doc_filePath current) (unsavedFiles st)).
Qed.

Lemma setCurrentDocumentContent_editor (newContent : string) (st : DocumentState)
    (document : EditorDocument) :
  editor_currentDocument (editorStore st) = Some document →
  doc_filePath document ≠ "" →
  editorStore (setCurrentDocumentContent newContent st)
  = editor_updateFile (editorStore st) (doc_filePath document) newContent.
Proof.
  intros Hdoc Hpath. unfold setCurrentDocumentContent. rewrite Hdoc.
  destruct (is_empty (doc_filePath document)) eqn:He.
  { by destruct (doc_filePath document). }
  cbv zeta. simpl.
  destruct (editor_currentDocument (editor_updateFile _ _ _)); [|done].
  by destruct (_ && _).
Qed.

(** X13: the unsaved mark of the current document tells whether the
    editor differs from the files store.  After
    [setCurrentDocumentContent(newContent)] on a document with a path,
    the document then current is in [unsavedFiles] exactly when the
    files store holds the edited file with another content than
    [newContent]; so a file the store does not hold is never marked,
    and typing the stored content back removes the mark.  The marks of
    all other files are as before, and the files store is not
    touched. *)
Theorem unsaved_mark_tracks_changes (newContent : string) (st : DocumentState)
    (document current : EditorDocument) :
  editor_currentDocument (editorStore st) = Some document →
  doc_filePath document ≠ "" →
  let st' := setCurrentDocumentContent newContent st in
  editor_currentDocument (editorStore st') = Some current →
  (doc_filePath current ∈ unsavedFiles st'
   ↔ ∃ c, files_getFile (filesStore st) (doc_filePath document) = Some c
          ∧ c ≠ newContent)
  ∧ (∀ q, q ≠ doc_filePath current → q ∈ unsavedFiles st' ↔ q ∈ unsavedFiles st)
  ∧ (NoDup (unsavedFiles st) → NoDup (unsavedFiles st'))
  ∧ filesStore st' = filesStore st
  ∧ editorStore st'
    = editor_updateFile (editorStore st) (doc_filePath document) newContent.
Proof.
  intros Hdoc Hpath st' Hcur. unfold st' in *.
  rewrite (setCurrentDocumentContent_editor newContent st document Hdoc Hpath) in Hcur.
  rewrite (setCurrentDocumentContent_eq newContent st document current Hdoc Hpath Hcur).
  simpl. destruct (files_getFile (filesStore st) (doc_filePath document)) as [c|].
  - destruct (String.eqb_spec c newContent) as [->|Hne].
    + split; [|split; [|split]]; try done.
      * rewrite elem_of_set_delete. split; [by intros [? _]|].
        by intros (c & [= <-] & ?).
      * intros q Hq. rewrite elem_of_set_delete. tauto.
      * apply NoDup_set_delete.
    + split; [|split; [|split]]; try done.
      * rewrite elem_of_set_add. split; [intros _; by exists c|by left].
      * intros q Hq. rewrite elem_of_set_add. tauto.
      * apply NoDup_set_add.
  - split; [|split; [|split]]; try done.
    + rewrite elem_of_set_delete. split; [by intros [? _]|]. by intros (c & ? & _).
    + intros q Hq. rewrite elem_of_set_delete. tauto.
    + apply NoDup_set_delete.
Qed.




Lemma saveFile_editor p st : editorStore (saveFile p st).2 = editorStore st.
Proof.
  unfold saveFile. destruct (editor_documents _ _); [|done].
  by destruct (files_saveFile _ _ _) as [[err|] fs].
Qed.

Lemma saveFile_cases p st :
  (editor_documents (editorStore st) p = None ∧ saveFile p st = (None, st))
  ∨ (∃ d e fs, editor_documents (editorStore st) p = Some d
       ∧ saveFile p st
         = (Some e, {| filesStore := fs; editorStore := editorStore st;
                       unsavedFiles := unsavedFiles st |}))
  ∨ (∃ d fs, editor_documents (editorStore st) p = Some d
       ∧ saveFile p st
         = (None, {| filesStore := fs; editorStore := editorStore st;
                     unsavedFiles := set_delete p (unsavedFiles st) |})).
Proof.
  unfold saveFile. destruct (editor_documents _ _) as [d|]; [|by left]. right.
  destruct (files_saveFile _ _ _) as [[err|] fs]; [left|right]; eauto.
Qed.

Lemma filter_all {A} (P : A → Prop) `{!∀ x, Decision (P x)} (l : list A) :
  (∀ x, P x) → filter P l = l.
Proof.
  intros Hall. induction l as [|x l IH]; [done|]. rewrite filter_cons_True by done. by f_equal.
Qed.

Lemma save_each_marks paths st :
  let editor := editorStore st in
  let r := save_each paths st in
  editorStore r.2 = editor
  ∧ (r.1 = None →
     unsavedFiles r.2 = filter (stays_unsaved editor paths) (unsavedFiles st))
  ∧ (∀ e, r.1 = Some e →
     ∃ saved p rest, paths = saved ++ p :: rest
       ∧ is_Some (editor_documents editor p)
       ∧ unsavedFiles r.2 = filter (stays_unsaved editor saved) (unsavedFiles st)).
Proof.
  revert st. induction paths as [|p ps IH]; intros st; cbv zeta.
  { simpl. split; [done|]. split; [|done]. intros _.
    rewrite filter_all; [done|]. intros q [?%elem_of_nil _]. done. }
  simpl. destruct (saveFile_cases p st) as [[Hd E]|[(d & err & fs & Hd & E)|(d & fs & Hd & E)]];
    rewrite E.
  - destruct (IH st) as (He & Hok & Hfail). split; [done|]. split.
    + intros Hn. rewrite (Hok Hn). apply list_filter_iff. intros q. unfold stays_unsaved.
      rewrite elem_of_cons. split.
      * intros Hk [[->|Hin] Hs]; [rewrite Hd in Hs; by destruct Hs|]. by apply Hk.
      * intros Hk [Hin Hs]. apply Hk. split; [by right|done].
    + intros e He'. destruct (Hfail e He') as (saved & p' & rest & -> & Hs & Hu).
      exists (p :: saved), p', rest. split; [done|]. split; [done|].
      rewrite Hu. apply list_filter_iff. intros q. unfold stays_unsaved.
      rewrite elem_of_cons. split.
      * intros Hk [[->|Hin] Hs']; [rewrite Hd in Hs'; by destruct Hs'|]. by apply Hk.
      * intros Hk [Hin Hs']. apply Hk. split; [by right|done].
  - simpl. split; [done|]. split; [done|]. intros e' [= <-].
    exists [], p, ps. split; [done|]. split; [by rewrite Hd|].
    rewrite filter_all; [done|]. intros q [?%elem_of_nil _]. done.
  - match goal with |- context [save_each ps ?s1] =>
      destruct (IH s1) as (He & Hok & Hfail) end.
    simpl in He, Hok, Hfail. split; [done|]. split.
    + intros Hn. rewrite (Hok Hn). unfold set_delete. rewrite list_filter_filter.
      apply list_filter_iff. intros q. unfold stays_unsaved.
      rewrite elem_of_cons. split.
      * intros [Hk Hq] [[->|Hin] Hs]; [done|]. by apply Hk.
      * intros Hk. split.
        -- intros [Hin Hs]. apply Hk. split; [by right|done].
        -- intros ->. apply Hk. split; [by left|]. by rewrite Hd.
    + intros e He'. destruct (Hfail e He') as (saved & p' & rest & -> & Hs & Hu).
      exists (p :: saved), p', rest. split; [done|]. split; [done|].
      rewrite Hu. unfold set_delete. rewrite list_filter_filter.
      apply list_filter_iff. intros q. unfold stays_unsaved.
      rewrite elem_of_cons. split.
      * intros [Hk Hq] [[->|Hin] Hs']; [done|]. by apply Hk.
      * intros Hk. split.
        -- intros [Hin Hs']. apply Hk. split; [by right|done].
        -- intros ->. apply Hk. split; [by left|]. by rewrite Hd.
Qed.

Lemma filter_iff_in {A} (P Q : A → Prop) `{!∀ x, Decision (P x), !∀ x, Decision (Q x)}
    (l : list A) :
  (∀ x, x ∈ l → P x ↔ Q x) → filter P l = filter Q l.
Proof.
  induction l as [|a l IH]; intros Hiff; [done|].
  rewrite !filter_cons. rewrite IH by (intros x Hx; apply Hiff; by right).
  apply decide_ext. apply Hiff. left.
Qed.

(** X14: [saveAllFiles] removes the unsaved mark of every file it
    saved, and of no other.  When it returns normally the files still
    marked are exactly those without a document in the editor, which
    were not saved; when saving a file fails it rejects, the files
    before it in the set have been saved and unmarked, and that file and
    those after it keep their marks.  The editor is not touched. *)
Theorem saveAllFiles_clears_marks (st : DocumentState) :
  let editor := editorStore st in
  let r := saveAllFiles st in
  editorStore r.2 = editor
  ∧ (r.1 = None →
     unsavedFiles r.2
     = filter (λ p, ¬ is_Some (editor_documents editor p)) (unsavedFiles st))
  ∧ (∀ e, r.1 = Some e →
     ∃ saved p rest, unsavedFiles st = saved ++ p :: rest
       ∧ is_Some (editor_documents editor p)
       ∧ unsavedFiles r.2
         = filter (λ q, ¬ (q ∈ saved ∧ is_Some (editor_documents editor q)))
             (unsavedFiles st)).
Proof.
  intros editor r. unfold r, saveAllFiles.
  destruct (save_each_marks (unsavedFiles st) st) as (He & Hok & Hfail).
  split; [done|]. split; [|exact Hfail].
  intros Hn. rewrite (Hok Hn). apply filter_iff_in. intros q Hq. unfold stays_unsaved.
  fold editor. tauto.
Qed.

(** X15: resetting the current document removes its unsaved mark.  When
    the editor shows a document with a path that the files store holds,
    [resetCurrentDocument] gives the editor the stored content, and the
    document then current is not in [unsavedFiles]; when there is no
    current document or the store does not hold its file, nothing
    changes. *)
Theorem resetCurrentDocument_clears_mark (st : DocumentState)
    (document current : EditorDocument) (content : string) :
  editor_currentDocument (editorStore st) = Some document →
  doc_filePath document ≠ "" →
  files_getFile (filesStore st) (doc_filePath document) = Some content →
  let st' := resetCurrentDocument st in
  editor_currentDocument (editorStore st') = Some current →
  (doc_filePath current ∉ unsavedFiles st')
  ∧ editorStore st' = editor_updateFile (editorStore st) (doc_filePath document) content
  ∧ filesStore st' = filesStore st.
Proof.
  intros Hdoc Hpath Hfile st' Hcur.
  assert (st' = setCurrentDocumentContent content st) as E.
  { unfold st', resetCurrentDocument. by rewrite Hdoc, Hfile. }
  rewrite E in *.
  rewrite (setCurrentDocumentContent_editor content st document Hdoc Hpath) in Hcur.
  rewrite (setCurrentDocumentContent_eq content st document current Hdoc Hpath Hcur).
  simpl. rewrite Hfile, String.eqb_refl. split; [|done].
  rewrite elem_of_set_delete. by intros [? _].
Qed.

End Facts.
End DocumentFacts.

(** ** Strings *)

(** Appending strings. *)
Lemma append_cons (c : ascii) (a b : string) : String c a +:+ b = String c (a +:+ b).
Proof. done. Qed.

Lemma append_assoc (a b c : string) : (a +:+ b) +:+ c = a +:+ b +:+ c.
Proof. induction a as [|x a IH]; [done|]. by rewrite !append_cons, IH. Qed.

Lemma append_inj_l (a x y : string) : a +:+ x = a +:+ y → x = y.
Proof. induction a as [|c a IH]; [done|]. rewrite !append_cons. intros [= H]. by apply IH. Qed.

Lemma append_empty (a b : string) : a +:+ b = "" → a = "".
Proof. by destruct a. Qed.

Lemma append_nil_r (a : string) : a +:+ "" = a.
Proof. induction a as [|c a IH]; [done|]. by rewrite append_cons, IH. Qed.

Lemma append_nil (t : string) : "" +:+ t = t.
Proof. done. Qed.

(** ** The import of a local directory *)

Module LocalImportFacts.
Import LocalImport.

Section Facts.
Context `{FS : FilesStore}.

Lemma Handle_nested_ind (P : Handle → Prop) :
  (∀ g, P (FileHandle g)) →
  (∀ values fails, Forall (λ ne, P ne.2) values → P (DirectoryHandle values fails)) →
  ∀ h, P h.
Proof.
  intros Hf Hd. fix IH 1. intros [g|values fails]; [apply Hf|].
  apply Hd. induction values as [|[name entry] values IHv]; constructor; [apply IH|apply IHv].
Qed.

(** The loops of the walk over the entries of one directory. *)
Lemma countFiles_nil fails n :
  countFiles (DirectoryHandle [] fails) n
  = match fails with Some e => inl e | None => inr n end.
Proof. done. Qed.

Lemma countFiles_cons name entry values fails n :
  countFiles (DirectoryHandle ((name, entry) :: values) fails) n
  = if skipped name then countFiles (DirectoryHandle values fails) n
    else match entry with
         | FileHandle _ => countFiles (DirectoryHandle values fails) (S n)
         | DirectoryHandle _ _ =>
             match countFiles entry n with
             | inl e => inl e
             | inr m => countFiles (DirectoryHandle values fails) m
             end
         end.
Proof. done. Qed.

Lemma visited_cons name entry values fails path :
  visited (DirectoryHandle ((name, entry) :: values) fails) path
  = if skipped name then visited (DirectoryHandle values fails) path
    else match entry with
         | FileHandle getFile =>
             (entry_path path name, getFile) :: visited (DirectoryHandle values fails) path
         | DirectoryHandle _ _ =>
             visited entry (entry_path path name) ++ visited (DirectoryHandle values fails) path
         end.
Proof. done. Qed.

Lemma listable_cons name entry values fails :
  listable (DirectoryHandle ((name, entry) :: values) fails)
  = if skipped name then listable (DirectoryHandle values fails)
    else listable entry && listable (DirectoryHandle values fails).
Proof. done. Qed.

Lemma readDirectory_nil total fails path n :
  readDirectory total (DirectoryHandle [] fails) path n
  = match fails with Some e => imp_throw e | None => mret n end.
Proof. done. Qed.

Lemma readDirectory_cons total name entry values fails path n :
  readDirectory total (DirectoryHandle ((name, entry) :: values) fails) path n
  = if skipped name then readDirectory total (DirectoryHandle values fails) path n
    else match entry with
         | FileHandle getFile =>
             m ← read_file total (entry_path path name) getFile n;
             readDirectory total (DirectoryHandle values fails) path m
         | DirectoryHandle _ _ =>
             m ← readDirectory total entry (entry_path path name) n;
             readDirectory total (DirectoryHandle values fails) path m
         end.
Proof. done. Qed.

Lemma countFiles_listable h n path :
  listable h = true → countFiles h n = inr (n + length (visited h path)).
Proof.
  revert n path. induction h as [g|values fails IH] using Handle_nested_ind; intros n path.
  { intros _. simpl. f_equal. lia. }
  revert n. induction values as [|[name entry] values IHv]; intros n.
  { rewrite countFiles_nil. simpl. destruct fails; [done|]. intros _. f_equal. lia. }
  apply Forall_cons in IH as [IHe IHr]. specialize (IHv IHr). simpl in IHe.
  rewrite countFiles_cons, visited_cons, listable_cons.
  destruct (skipped name); [apply IHv|].
  intros [Hl1 Hl2]%andb_true_iff.
  destruct entry as [g|vs fl].
  - rewrite (IHv _ Hl2). simpl. f_equal. lia.
  - rewrite (IHe n (entry_path path name) Hl1), (IHv _ Hl2), length_app. f_equal. lia.
Qed.

Lemma countFiles_unlistable h n :
  listable h = false → ∃ e, countFiles h n = inl e.
Proof.
  revert n. induction h as [g|values fails IH] using Handle_nested_ind; intros n; [done|].
  revert n. induction values as [|[name entry] values IHv]; intros n.
  { rewrite countFiles_nil. simpl. destruct fails; [eauto|done]. }
  apply Forall_cons in IH as [IHe IHr]. specialize (IHv IHr). simpl in IHe.
  rewrite countFiles_cons, listable_cons.
  destruct (skipped name); [apply IHv|].
  intros [Hl|Hl]%andb_false_iff.
  - destruct entry as [g|vs fl]; [done|].
    destruct (IHe n Hl) as [e ->]. eauto.
  - destruct entry as [g|vs fl]; [by apply IHv|].
    destruct (countFiles (DirectoryHandle vs fl) n); [eauto|by apply IHv].
Qed.

Lemma countFiles_inr h n m path :
  countFiles h n = inr m → listable h = true ∧ m = n + length (visited h path).
Proof.
  intros H. destruct (listable h) eqn:El.
  - rewrite (countFiles_listable h n path El) in H. by injection H as <-.
  - destruct (countFiles_unlistable h n El) as [e He]. congruence.
Qed.




Lemma walked_nil total n st : walked total n [] st st.
Proof.
  unfold walked. simpl. rewrite app_nil_r. split; [done|]. split; [|done].
  exists []. rewrite app_nil_r. repeat split; try done.
Qed.

Lemma walked_app total n fs1 fs2 st1 st2 st3 :
  walked total n fs1 st1 st2 → walked total (n + length fs1) fs2 st2 st3 →
  walked total n (fs1 ++ fs2) st1 st3.
Proof.
  intros (Hs1 & (sts1 & Hl1 & Hp1 & Hf1 & Hc1) & Hw1 & Hv1)
         (Hs2 & (sts2 & Hl2 & Hp2 & Hf2 & Hc2) & Hw2 & Hv2).
  unfold walked. split; [|split; [|split; congruence]].
  - rewrite Hs2, Hs1, omap_app. by rewrite app_assoc.
  - exists (sts1 ++ sts2). split; [rewrite Hl2, Hl1; by rewrite app_assoc|].
    split; [|split].
    + rewrite map_app, Hp1, Hp2, length_app, seq_app, map_app. do 3 f_equal.
    + by apply Forall_app.
    + rewrite Hc2, Hc1, last_app. by destruct (last sts2).
Qed.

Lemma walked_one total p g n st st' msg :
  saveLog st' = saveLog st ++ omap to_save [(p, g)] →
  statusLog st' = statusLog st ++ [importing msg (S n) total] →
  importStatus st' = Some (importing msg (S n) total) →
  showWorkbench st' = showWorkbench st → currentView st' = currentView st →
  walked total n [(p, g)] st st'.
Proof.
  intros Hs Hl Hi Hw Hv. unfold walked. split; [done|]. split; [|done].
  exists [importing msg (S n) total]. repeat split; try done. by repeat constructor.
Qed.

Lemma read_file_walked total p g n st :
  ∃ st', read_file total p g n st = (inr (S n), st') ∧ walked total n [(p, g)] st st'.
Proof.
  unfold read_file, imp_try, mbind, Imp_bind, imp_await, imp_throw, store_saveFile,
    set_importStatus, mret, Imp_ret.
  destruct g as [e|file].
  { eexists. split; [reflexivity|].
    eapply walked_one; [simpl; by rewrite app_nil_r|done..]. }
  destruct (large_file <? size file)%Z eqn:Hlarge.
  { eexists. split; [reflexivity|].
    eapply walked_one; [unfold to_save; simpl; by rewrite Hlarge, app_nil_r|done..]. }
  destruct (read_content file) as [e|content] eqn:Hread.
  { eexists. split; [reflexivity|].
    eapply walked_one; [unfold to_save; simpl; by rewrite Hlarge, Hread, app_nil_r|done..]. }
  destruct (files_saveFile (filesStore st) ("/home/project/" +:+ p) content) as [[e|] fs'].
  - eexists. split; [reflexivity|].
    eapply walked_one; [unfold to_save; simpl; by rewrite Hlarge, Hread|done..].
  - eexists. split; [reflexivity|].
    eapply walked_one; [unfold to_save; simpl; by rewrite Hlarge, Hread|done..].
Qed.

Lemma readDirectory_walked total h path n st :
  listable h = true →
  ∃ st', readDirectory total h path n st = (inr (n + length (visited h path)), st')
         ∧ walked total n (visited h path) st st'.
Proof.
  revert path n st.
  induction h as [g|values fails IH] using Handle_nested_ind; intros path n st.
  { intros _. exists st. simpl. rewrite Nat.add_0_r. split; [done|apply walked_nil]. }
  revert n st. induction values as [|[name entry] values IHv]; intros n st.
  { rewrite readDirectory_nil. simpl. destruct fails; [done|]. intros _.
    exists st. rewrite Nat.add_0_r. split; [done|apply walked_nil]. }
  apply Forall_cons in IH as [IHe IHr]. specialize (IHv IHr). simpl in IHe.
  rewrite readDirectory_cons, visited_cons, listable_cons.
  destruct (skipped name); [apply IHv|].
  intros [Hl1 Hl2]%andb_true_iff.
  destruct entry as [g|vs fl].
  - destruct (read_file_walked total (entry_path path name) g n st) as (st1 & E1 & W1).
    destruct (IHv (S n) st1 Hl2) as (st2 & E2 & W2).
    exists st2. unfold mbind, Imp_bind. rewrite E1, E2. split.
    + simpl. do 2 f_equal. lia.
    + apply (walked_app total n [_] _ st st1 st2 W1).
      by replace (n + length [(entry_path path name, g)]) with (S n) by (simpl; lia).
  - destruct (IHe (entry_path path name) n st Hl1) as (st1 & E1 & W1).
    destruct (IHv (n + length (visited (DirectoryHandle vs fl) (entry_path path name))) st1 Hl2)
      as (st2 & E2 & W2).
    exists st2. unfold mbind, Imp_bind. rewrite E1, E2. split.
    + rewrite length_app. do 2 f_equal. lia.
    + by apply (walked_app total n _ _ st st1 st2 W1).
Qed.




(** A successful import, step by step. *)
Lemma importLocalRepo_succeeds dir st N :
  (files_clearFiles (filesStore st)).1 = None →
  countFiles dir 0 = inr N →
  ∃ st1 st2,
    st1 = {| filesStore := (files_clearFiles (filesStore st)).2;
             importStatus := Some (importing "Importing project files..." 0 N);
             showWorkbench := showWorkbench st; currentView := currentView st;
             statusLog := statusLog st ++ [importing "Importing project files..." 0 N];
             saveLog := saveLog st |}
    ∧ walked N 0 (visited dir "") st1 st2
    ∧ N = length (visited dir "")
    ∧ importLocalRepo dir st
      = (inr true,
         {| filesStore := filesStore st2; importStatus := Some import_complete;
            showWorkbench := true; currentView := CodeView;
            statusLog := statusLog st2 ++ [import_complete];
            saveLog := saveLog st2 |}).
Proof.
  intros Hclear Hcount.
  destruct (countFiles_inr dir 0 N "" Hcount) as [Hl HN]. simpl in HN.
  set (st1 := {| filesStore := (files_clearFiles (filesStore st)).2;
                 importStatus := Some (importing "Importing project files..." 0 N);
                 showWorkbench := showWorkbench st; currentView := currentView st;
                 statusLog := statusLog st ++ [importing "Importing project files..." 0 N];
                 saveLog := saveLog st |}).
  destruct (readDirectory_walked N dir "" 0 st1 Hl) as (st2 & E & W).
  simpl in E. rewrite <- HN in E.
  exists st1, st2. split; [done|]. split; [exact W|]. split; [exact HN|].
  revert E. unfold st1. clear st1 W. intros E.
  unfold importLocalRepo, imp_try, mbind, Imp_bind, store_clearFiles.
  destruct (files_clearFiles (filesStore st)) as [[e|] fs']; [done|]. simpl in *.
  rewrite Hcount. simpl. rewrite E. done.
Qed.

(** X16: the progress of an import is complete.  When the files store
    can be cleared and the directory listed, the import returns [true];
    with [N] the number of files counted, it sets the importing status
    [N + 1] times, the counter going 0, 1, ..., [N] against the total
    [N], once for every file visited, read or not, and then the
    complete status; the workbench is shown in the code view. *)
Theorem import_progress_is_complete (dir : Handle) (st : ImportState) (N : nat) :
  (files_clearFiles (filesStore st)).1 = None →
  countFiles dir 0 = inr N →
  let r := importLocalRepo dir st in
  r.1 = inr true
  ∧ (∃ sts, statusLog r.2 = statusLog st ++ sts ++ [import_complete]
            ∧ map stage sts = replicate (S N) StageImporting
            ∧ map progress sts = map (λ i, Some (i, N)) (seq 0 (S N)))
  ∧ importStatus r.2 = Some import_complete
  ∧ showWorkbench r.2 = true ∧ currentView r.2 = CodeView.
Proof.
  intros Hclear Hcount r.
  destruct (importLocalRepo_succeeds dir st N Hclear Hcount)
    as (st1 & st2 & -> & (_ & (sts & Hl & Hp & Hf & _) & _) & HN & E).
  unfold r. rewrite E. simpl. split; [done|]. split; [|done].
  exists (importing "Importing project files..." 0 N :: sts).
  rewrite Hl. simpl. split; [by rewrite <- !app_assoc|]. split.
  - f_equal. assert (length sts = N) as <-.
    { rewrite <- (length_map progress), Hp, length_map, length_seq. done. }
    clear -Hf. induction Hf as [|s sts Hs _ IH]; simpl; [done|]. by rewrite Hs, IH.
  - f_equal. rewrite Hp. by rewrite <- HN.
Qed.

(** X17: an import saves every file it visits, whatever fails on the
    way.  [saveFile] is called, in the order of the walk, once for
    every visited file that can be read and is not larger than 10MB,
    with the path below [/home/project/] and the content read; a file
    that cannot be read or saved does not stop the files after it. *)
Theorem import_saves_visited_files (dir : Handle) (st : ImportState) (N : nat) :
  (files_clearFiles (filesStore st)).1 = None →
  countFiles dir 0 = inr N →
  saveLog (importLocalRepo dir st).2 = saveLog st ++ omap to_save (visited dir "").
Proof.
  intros Hclear Hcount.
  destruct (importLocalRepo_succeeds dir st N Hclear Hcount)
    as (st1 & st2 & -> & (Hs & _) & _ & E).
  rewrite E. simpl. by rewrite Hs.
Qed.

(** X19: a failed import is reported and leaves nothing imported.  When
    the files store cannot be cleared, or a directory cannot be listed,
    the import rejects with that error after setting the error status;
    no file has been saved and the workbench view is as before, but
    when it was the listing that failed the files store has already
    been cleared. *)
Theorem import_failure_is_reported (dir : Handle) (st : ImportState) (e : Thrown) :
  (files_clearFiles (filesStore st)).1 = Some e
  ∨ ((files_clearFiles (filesStore st)).1 = None ∧ countFiles dir 0 = inl e) →
  let r := importLocalRepo dir st in
  r.1 = inl e
  ∧ importStatus r.2 = Some import_error
  ∧ statusLog r.2 = statusLog st ++ [import_error]
  ∧ saveLog r.2 = saveLog st
  ∧ filesStore r.2 = (files_clearFiles (filesStore st)).2
  ∧ showWorkbench r.2 = showWorkbench st ∧ currentView r.2 = currentView st.
Proof.
  intros H r. unfold r, importLocalRepo, imp_try, mbind, Imp_bind, store_clearFiles.
  destruct (files_clearFiles (filesStore st)) as [[e'|] fs'] eqn:Hc; simpl in *.
  - destruct H as [[= ->]|[? _]]; done.
  - destruct H as [?|[_ Hcount]]; [done|]. rewrite Hcount. done.
Qed.




Lemma path_of_from (acc : string) (names : list string) :
  acc ≠ "" → fold_left entry_path names acc = acc +:+ path_tail names.
Proof.
  revert acc. induction names as [|n names IH]; intros acc Hacc; simpl.
  - by rewrite append_nil_r.
  - assert (entry_path acc n = acc +:+ "/" +:+ n) as -> by (by destruct acc).
    rewrite IH.
    + by rewrite !append_assoc.
    + by destruct acc.
Qed.

Lemma path_of_cons (n : string) (names : list string) :
  n ≠ "" → path_of (n :: names) = n +:+ path_tail names.
Proof. intros Hn. unfold path_of. simpl. by apply path_of_from. Qed.

(** Two paths are the same only if they start with the same name. *)
Lemma first_name (a b r r' : string) :
  no_slash a = true → no_slash b = true →
  (r = "" ∨ ∃ t, r = "/" +:+ t) → (r' = "" ∨ ∃ t, r' = "/" +:+ t) →
  a +:+ r = b +:+ r' → a = b ∧ r = r'.
Proof.
  revert b. induction a as [|c a IH]; intros [|c' b] Ha Hb Hr Hr'.
  - done.
  - rewrite append_cons. change ("" +:+ r) with r. intros ->. exfalso. simpl in Hb. apply andb_prop in Hb as [Hc _].
    destruct Hr as [H|[t H]]; [done|]. rewrite append_cons in H. injection H as -> _. done.
  - rewrite append_cons. change ("" +:+ r') with r'. intros <-. exfalso. simpl in Ha. apply andb_prop in Ha as [Hc _].
    destruct Hr' as [H|[t H]]; [done|]. rewrite append_cons in H. injection H as -> _. done.
  - simpl in Ha, Hb. apply andb_prop in Ha as [_ Ha]. apply andb_prop in Hb as [_ Hb].
    rewrite !append_cons.
    intros [= -> H]. destruct (IH b Ha Hb Hr Hr' H) as [-> ->]. done.
Qed.

Lemma path_tail_shape names : path_tail names = "" ∨ ∃ t, path_tail names = "/" +:+ t.
Proof. destruct names as [|n names]; [by left|right]. by eexists. Qed.

Lemma path_tail_inj names names' :
  Forall (λ n, plain n = true) names → Forall (λ n, plain n = true) names' →
  path_tail names = path_tail names' → names = names'.
Proof.
  intros H. revert names'. induction H as [|n names Hn H IH]; intros [|n' names'] H'; try done.
  apply Forall_cons in H' as [Hn' H']. simpl. intros E. apply append_inj_l in E.
  unfold plain in Hn, Hn'. apply andb_prop in Hn as [_ Hn]. apply andb_prop in Hn' as [_ Hn'].
  destruct (first_name n n' _ _ Hn Hn' (path_tail_shape names) (path_tail_shape names') E)
    as [-> E']. f_equal. by apply IH.
Qed.

Lemma path_of_inj names names' :
  Forall (λ n, plain n = true) names → Forall (λ n, plain n = true) names' →
  path_of names = path_of names' → names = names'.
Proof.
  intros H H'.
  assert (∀ n, plain n = true → n ≠ "") as Hne.
  { intros n Hn ->. done. }
  destruct H as [|n names Hn H], H' as [|n' names' Hn' H'].
  - done.
  - rewrite (path_of_cons n') by auto. intros E. symmetry in E.
    apply append_empty in E. by apply Hne in E.
  - rewrite (path_of_cons n) by auto. intros E.
    apply append_empty in E. by apply Hne in E.
  - rewrite (path_of_cons n), (path_of_cons n') by auto. intros E.
    pose proof Hn as Hn0. pose proof Hn' as Hn0'.
    unfold plain in Hn0, Hn0'.
    apply andb_prop in Hn0 as [_ Hn0]. apply andb_prop in Hn0' as [_ Hn0'].
    destruct (first_name n n' _ _ Hn0 Hn0' (path_tail_shape names) (path_tail_shape names') E)
      as [-> E']. f_equal. by apply path_tail_inj.
Qed.

Lemma plain_names_entry values fails name entry :
  plain_names (DirectoryHandle values fails) = true → (name, entry) ∈ values →
  plain name = true ∧ plain_names entry = true.
Proof.
  induction values as [|[n e] values IH]; [by intros _ ?%elem_of_nil|].
  intros H Hin.
  change (plain n && plain_names e && plain_names (DirectoryHandle values fails) = true) in H.
  apply andb_prop in H as [H Hrest]. apply andb_prop in H as [Hn He].
  apply elem_of_cons in Hin as [[= -> ->]|Hin]; [done|]. by apply IH.
Qed.

Lemma reaches_plain h names target :
  plain_names h = true → reaches h names target → Forall (λ n, plain n = true) names.
Proof.
  revert h. induction names as [|n names IH]; intros h Hp Hr; [done|].
  destruct h as [g|values fails]; [done|]. destruct Hr as (entry & Hin & Hr).
  destruct (plain_names_entry _ _ _ _ Hp Hin) as [Hn He].
  constructor; [done|]. by eapply IH.
Qed.

(** A visited file is an entry of the tree, at the end of a path none
    of whose names is skipped. *)
Lemma visited_reaches h names p g :
  (p, g) ∈ visited h (path_of names) →
  ∃ more, p = path_of (names ++ more)
          ∧ Forall (λ name, skipped name = false) more
          ∧ reaches h more (FileHandle g).
Proof.
  revert names. induction h as [g'|values fails IH] using Handle_nested_ind; intros names.
  { simpl. by intros ?%elem_of_nil. }
  assert (∀ vs, (∀ name entry, (name, entry) ∈ vs → (name, entry) ∈ values) →
                Forall (λ ne, ∀ names, (p, g) ∈ visited ne.2 (path_of names) →
                          ∃ more, p = path_of (names ++ more)
                                  ∧ Forall (λ name, skipped name = false) more
                                  ∧ reaches ne.2 more (FileHandle g)) vs →
                (p, g) ∈ visited (DirectoryHandle vs fails) (path_of names) →
                ∃ more, p = path_of (names ++ more)
                        ∧ Forall (λ name, skipped name = false) more
                        ∧ reaches (DirectoryHandle values fails) more (FileHandle g)) as Hgen.
  { induction vs as [|[name entry] vs IHv]; intros Hsub Hall.
    { simpl. by intros ?%elem_of_nil. }
    apply Forall_cons in Hall as [IHe IHr].
    assert (∀ name0 entry0, (name0, entry0) ∈ vs → (name0, entry0) ∈ values) as Hsub'.
    { intros ? ? ?. apply Hsub. by right. }
    specialize (IHv Hsub' IHr). simpl in IHe.
    rewrite visited_cons. destruct (skipped name) eqn:Hsk; [apply IHv|].
    assert (entry_path (path_of names) name = path_of (names ++ [name])) as Hp.
    { unfold path_of. by rewrite fold_left_app. }
    destruct entry as [g'|vs' fl].
    - intros [[= -> ->]|H]%elem_of_cons; [|by apply IHv].
      exists [name]. split; [done|]. split; [by constructor|].
      simpl. eexists. split; [apply Hsub; left|done].
    - intros [H|H]%elem_of_app; [|by apply IHv].
      rewrite Hp in H. destruct (IHe _ H) as (more & -> & Hf & Hr).
      exists (name :: more). split; [by rewrite <- app_assoc|].
      split; [by constructor|]. simpl. eexists. split; [apply Hsub; left|done]. }
  apply Hgen; [done|exact IH].
Qed.

(** X18: an import never takes a file from [node_modules] or from a
    hidden entry, nor a file larger than 10MB.  Every call of
    [saveFile] is for a file of the directory tree that is reached
    through entries none of which is named [node_modules] or starts
    with a dot: the path is [/home/project/] followed by those names
    joined by slashes, the file is at most 10MB large and the content
    is what reading it gave.  When the names in the tree are names a
    file system gives (not empty, no slash), nothing is saved under
    the path of an entry that lies in [node_modules] or below a hidden
    entry, or is hidden itself. *)
Theorem import_skips_modules_and_hidden_entries (dir : Handle) (st : ImportState)
    (N : nat) :
  (files_clearFiles (filesStore st)).1 = None →
  countFiles dir 0 = inr N →
  ∃ saved,
    saveLog (importLocalRepo dir st).2 = saveLog st ++ saved
    ∧ (∀ p c, (p, c) ∈ saved →
        ∃ names file,
          reaches dir names (FileHandle (inr file))
          ∧ p = "/home/project/" +:+ path_of names
          ∧ Forall (λ name, name ≠ "node_modules" ∧ String.prefix "." name = false) names
          ∧ (size file ≤ large_file)%Z ∧ read_content file = inr c)
    ∧ (plain_names dir = true →
       ∀ names g c,
         reaches dir names (FileHandle g) →
         Exists (λ name, name = "node_modules" ∨ String.prefix "." name = true) names →
         ("/home/project/" +:+ path_of names, c) ∉ saved).
Proof.
  intros Hclear Hcount.
  destruct (importLocalRepo_succeeds dir st N Hclear Hcount)
    as (st1 & st2 & -> & (Hs & _) & _ & E).
  exists (omap to_save (visited dir "")). rewrite E. simpl. split; [by rewrite Hs|].
  assert (∀ p c, (p, c) ∈ omap to_save (visited dir "") →
            ∃ names file,
              reaches dir names (FileHandle (inr file))
              ∧ p = "/home/project/" +:+ path_of names
              ∧ Forall (λ name, skipped name = false) names
              ∧ (size file ≤ large_file)%Z ∧ read_content file = inr c) as Hsaved.
  { intros p c [[p0 g] [Hin Hsave]]%list_elem_of_omap.
    unfold to_save in Hsave. simpl in Hsave.
    destruct g as [e|file]; [done|].
    destruct (large_file <? size file)%Z eqn:Hlarge; [done|].
    destruct (read_content file) as [e|content] eqn:Hread; [done|].
    injection Hsave as <- <-.
    destruct (visited_reaches dir [] p0 (inr file) Hin) as (more & -> & Hf & Hr).
    exists more, file. split; [done|]. split; [done|]. split; [done|].
    split; [|done]. apply Z.ltb_ge in Hlarge. done. }
  split.
  - intros p c Hin. destruct (Hsaved p c Hin) as (names & file & Hr & -> & Hf & Hsz & Hrd).
    exists names, file. split; [done|]. split; [done|]. split; [|done].
    eapply Forall_impl; [exact Hf|]. intros name Hsk. unfold skipped in Hsk.
    apply orb_false_iff in Hsk as [Hn Hd]. split; [|done].
    by apply String.eqb_neq in Hn.
  - intros Hplain names g c Hr Hex Hin.
    destruct (Hsaved _ c Hin) as (names' & file & Hr' & Hp & Hf & _).
    apply append_inj_l in Hp.
    apply path_of_inj in Hp; [|by eapply reaches_plain..]. subst names'.
    apply Exists_exists in Hex as (name & Hname & Hbad).
    rewrite Forall_forall in Hf. specialize (Hf name Hname). unfold skipped in Hf.
    apply orb_false_iff in Hf as [Hn Hd]. destruct Hbad as [->|Hbad]; [done|congruence].
Qed.
End Facts.
End LocalImportFacts.

(** ** Grouping by date *)

Module DateBinningFacts.
Import DateBinning.

Lemma first_seen_snoc l x :
  first_seen (l ++ [x]) = if bool_decide (x ∈ first_seen l) then first_seen l
                          else first_seen l ++ [x].
Proof. unfold first_seen. by rewrite fold_left_app. Qed.

Lemma elem_of_first_seen l x : x ∈ first_seen l ↔ x ∈ l.
Proof.
  induction l as [|y l IH] using rev_ind.
  { done. }
  rewrite first_seen_snoc, elem_of_app, list_elem_of_singleton.
  case_bool_decide as Hy.
  - rewrite IH. split; [by left|]. intros [?| ->]; [done|]. by apply IH.
  - rewrite elem_of_app, list_elem_of_singleton, IH. done.
Qed.

Lemma in_first_seen l x : x ∈ l → x ∈ first_seen l.
Proof. apply elem_of_first_seen. Qed.

Lemma notin_first_seen l x : x ∉ l → x ∉ first_seen l.
Proof. intros H Hin. apply H. by apply (proj1 (elem_of_first_seen l x)). Qed.

Lemma NoDup_first_seen l : NoDup (first_seen l).
Proof.
  induction l as [|y l IH] using rev_ind; [apply NoDup_nil_2|].
  rewrite first_seen_snoc. case_bool_decide as Hy; [done|].
  apply NoDup_app. split; [done|]. split; [|apply NoDup_singleton].
  intros x Hx ->%list_elem_of_singleton. done.
Qed.

Section Objects.
Context {V : Type}.
Implicit Types o : list (string * V).

Lemma own_map_in (f : string → V) keys key :
  key ∈ keys → own (map (λ k, (k, f k)) keys) key = Some (f key).
Proof.
  induction keys as [|k keys IH]; [by intros ?%elem_of_nil|].
  intros Hin. simpl. destruct (String.eqb_spec k key) as [->|Hne]; [done|].
  apply IH. apply elem_of_cons in Hin as [->|?]; done.
Qed.

Lemma own_map_notin (f : string → V) keys key :
  key ∉ keys → own (map (λ k, (k, f k)) keys) key = None.
Proof.
  induction keys as [|k keys IH]; [done|].
  intros Hin. simpl. destruct (String.eqb_spec k key) as [->|Hne].
  - exfalso. apply Hin. left.
  - apply IH. intros ?. apply Hin. by right.
Qed.

Lemma set_map_in (f : string → V) keys key v :
  NoDup keys → key ∈ keys →
  set (map (λ k, (k, f k)) keys) key v
  = map (λ k, (k, if bool_decide (k = key) then v else f k)) keys.
Proof.
  induction keys as [|k keys IH]; [by intros _ ?%elem_of_nil|].
  intros [Hk Hnd]%NoDup_cons Hin. simpl.
  destruct (String.eqb_spec k key) as [->|Hne].
  - rewrite bool_decide_eq_true_2 by done. f_equal.
    apply map_ext_in. intros k' Hk'%list_elem_of_In.
    rewrite bool_decide_eq_false_2; [done|]. by intros ->.
  - rewrite bool_decide_eq_false_2 by done. f_equal.
    apply IH; [done|]. apply elem_of_cons in Hin as [->|?]; done.
Qed.

Lemma set_map_notin (f : string → V) keys key v :
  key ∉ keys →
  set (map (λ k, (k, f k)) keys) key v = map (λ k, (k, f k)) keys ++ [(key, v)].
Proof.
  induction keys as [|k keys IH]; [done|].
  intros Hin. simpl. destruct (String.eqb_spec k key) as [->|Hne].
  - exfalso. apply Hin. left.
  - f_equal. apply IH. intros ?. apply Hin. by right.
Qed.

End Objects.


Section Facts.
Context `{DF : DateFns} {T : Type} (timestamp : T → Number).

Lemma of_category_snoc c items item :
  of_category timestamp c (items ++ [item])
  = of_category timestamp c items
    ++ (if bool_decide (category timestamp item = c) then [item] else []).
Proof.
  unfold of_category. rewrite filter_app. f_equal.
  rewrite filter_cons, filter_nil. case_bool_decide; case_decide; done.
Qed.

Lemma of_category_nil c items :
  c ∉ map (category timestamp) items → of_category timestamp c items = [].
Proof.
  intros Hc. unfold of_category. induction items as [|i items IH]; [done|].
  rewrite filter_cons_False.
  - apply IH. intros ?. apply Hc. by right.
  - intros Heq. apply Hc. simpl. rewrite <- Heq. left.
Qed.

Lemma grouped_snoc items item :
  grouped timestamp (items ++ [item])
  = if bool_decide (category timestamp item ∈ map (category timestamp) items)
    then map (λ c, (c, if bool_decide (c = category timestamp item)
                       then of_category timestamp c items ++ [item]
                       else of_category timestamp c items))
           (first_seen (map (category timestamp) items))
    else grouped timestamp items ++ [(category timestamp item, [item])].
Proof.
  unfold grouped. rewrite map_app. simpl. rewrite first_seen_snoc.
  case_bool_decide as Hin; rewrite elem_of_first_seen in Hin.
  - rewrite bool_decide_eq_true_2 by done.
    apply map_ext. intros c. rewrite of_category_snoc.
    case_bool_decide as Hc.
    + subst c. by rewrite bool_decide_eq_true_2.
    + rewrite bool_decide_eq_false_2 by congruence. by rewrite app_nil_r.
  - rewrite bool_decide_eq_false_2 by done. rewrite map_app. simpl. f_equal.
    + apply map_ext_in. intros c Hc%list_elem_of_In.
      apply (proj1 (elem_of_first_seen _ _)) in Hc.
      rewrite of_category_snoc, bool_decide_eq_false_2; [by rewrite app_nil_r|].
      intros Heq. apply Hin. by rewrite Heq.
    + rewrite of_category_snoc, bool_decide_eq_true_2 by done.
      by rewrite of_category_nil.
Qed.

Lemma bin_item_grouped items item :
  bin_item timestamp (grouped timestamp items) item
  = if bool_decide (category timestamp item ∈ map (category timestamp) items)
    then inr (grouped timestamp (items ++ [item]))
    else if bool_decide (category timestamp item ∈ inherited) then inl push_error
    else inr (grouped timestamp (items ++ [item])).
Proof.
  unfold bin_item. cbv zeta. fold (category timestamp item). rewrite grouped_snoc. unfold get, grouped.
  destruct (decide (category timestamp item ∈ map (category timestamp) items)) as [Hin|Hin].
  - rewrite !(bool_decide_eq_true_2 (category timestamp item ∈ map (category timestamp) items)) by done.
    rewrite own_map_in by (by apply in_first_seen). simpl.
    rewrite own_map_in by (by apply in_first_seen).
    rewrite set_map_in; [|apply NoDup_first_seen|by apply in_first_seen].
    f_equal. apply map_ext. intros c. case_bool_decide; [subst c|]; done.
  - rewrite !(bool_decide_eq_false_2 (category timestamp item ∈ map (category timestamp) items)) by done.
    rewrite own_map_notin by (by apply notin_first_seen).
    destruct (decide (category timestamp item ∈ inherited)) as [Hinh|Hinh].
    + rewrite !(bool_decide_eq_true_2 (category timestamp item ∈ inherited)) by done.
      by rewrite own_map_notin by (by apply notin_first_seen).
    + rewrite !(bool_decide_eq_false_2 (category timestamp item ∈ inherited)) by done.
      rewrite set_map_notin by (by apply notin_first_seen).
      assert (∀ (o : list (string * list T)) k v,
                own o k = None → own (o ++ [(k, v)]) k = Some v) as Hown.
      { intros o k v. induction o as [|[k' v'] o IH]; simpl.
        - by rewrite String.eqb_refl.
        - destruct (String.eqb k' k); [done|apply IH]. }
      rewrite Hown by (apply own_map_notin; by apply notin_first_seen).
      assert (∀ (o : list (string * list T)) k v v',
                own o k = None → set (o ++ [(k, v)]) k v' = o ++ [(k, v')]) as Hset.
      { intros o k v v'. induction o as [|[k' v1] o IH]; simpl.
        - by rewrite String.eqb_refl.
        - destruct (String.eqb k' k); [done|]. intros Ho. by rewrite IH. }
      rewrite Hset by (apply own_map_notin; by apply notin_first_seen).
      done.
Qed.

Lemma forEach_returns rest items :
  Forall (λ item, category timestamp item ∉ inherited) rest →
  forEach timestamp rest (grouped timestamp items)
  = inr (grouped timestamp (items ++ rest)).
Proof.
  revert items. induction rest as [|item rest IH]; intros items Hok; simpl.
  { by rewrite app_nil_r. }
  apply Forall_cons in Hok as [Hitem Hrest].
  rewrite bin_item_grouped.
  rewrite (bool_decide_eq_false_2 (category timestamp item ∈ inherited)) by done.
  assert (grouped timestamp (items ++ item :: rest)
          = grouped timestamp ((items ++ [item]) ++ rest)) as ->.
  { by rewrite <- app_assoc. }
  case_bool_decide; by apply IH.
Qed.

Lemma forEach_throws rest items :
  Forall (λ item, category timestamp item ∉ inherited) items →
  Exists (λ item, category timestamp item ∈ inherited) rest →
  forEach timestamp rest (grouped timestamp items) = inl push_error.
Proof.
  revert items. induction rest as [|item rest IH]; intros items Hitems Hex; simpl.
  { by apply Exists_nil in Hex. }
  rewrite bin_item_grouped.
  destruct (decide (category timestamp item ∈ inherited)) as [Hinh|Hinh].
  - rewrite bool_decide_eq_false_2.
    + by rewrite bool_decide_eq_true_2.
    + intros (i & Heq & Hi)%list_elem_of_fmap.
      rewrite Forall_forall in Hitems. apply (Hitems i Hi). by rewrite <- Heq.
  - rewrite (bool_decide_eq_false_2 (category timestamp item ∈ inherited)) by done.
    apply Exists_cons in Hex as [?|Hex]; [done|].
    assert (forEach timestamp rest (grouped timestamp (items ++ [item])) = inl push_error)
      as Hgoal.
    { apply IH; [|done]. apply Forall_app. split; [done|]. by constructor. }
    by case_bool_decide.
Qed.

Lemma entries_Permutation {V} (o : list (string * V)) : entries o ≡ₚ o.
Proof.
  unfold entries. rewrite merge_sort_Permutation. apply filter_app_complement.
Qed.

Lemma entries_no_index {V} (o : list (string * V)) :
  Forall (λ e, array_index e.1 = None) o → entries o = o.
Proof.
  intros H. unfold entries.
  assert (filter (λ e : string * V, is_Some (array_index e.1)) o = []) as ->.
  { induction H as [|e o He _ IH]; [done|].
    rewrite filter_cons_False; [done|]. rewrite He. by intros []. }
  simpl. induction H as [|e o He _ IH]; [done|].
  rewrite filter_cons_True; [by f_equal|]. rewrite He. by intros [].
Qed.

Lemma binDates_returns items :
  Forall (λ item, category timestamp item ∉ inherited) items →
  binDates timestamp items
  = inr (map (λ e, {| date := e.1; items := e.2 |}) (entries (grouped timestamp items))).
Proof.
  intros H. unfold binDates.
  change (@nil (string * list T)) with (grouped timestamp []).
  by rewrite (forEach_returns items [] H).
Qed.

Lemma binDates_throws items :
  Exists (λ item, category timestamp item ∈ inherited) items →
  binDates timestamp items = inl push_error.
Proof.
  intros H. unfold binDates.
  change (@nil (string * list T)) with (grouped timestamp []).
  by rewrite (forEach_throws items [] (Forall_nil_2 _) H).
Qed.

Lemma inherited_cases items :
  Forall (λ item, category timestamp item ∉ inherited) items
  ∨ Exists (λ item, category timestamp item ∈ inherited) items.
Proof.
  induction items as [|item items [IH|IH]].
  - left. constructor.
  - destruct (decide (category timestamp item ∈ inherited)); [right; by left|left; by constructor].
  - right. by right.
Qed.

(** X20: [binDates] puts every item in the bin of its date.  When it
    returns, no two bins have the same date; the items of a bin are
    exactly the items of the input with that date category, in the
    order of the input, and there is at least one; and every item of
    the input is in the bin of its category.  Items whose timestamp is
    not a valid date all share the bin ["Invalid Date"]. *)
Theorem binDates_groups_by_date (items0 : list T) (bins : list (DateBin T)) :
  binDates timestamp items0 = inr bins →
  NoDup (map date bins)
  ∧ (∀ bin, bin ∈ bins →
       items bin = of_category timestamp (date bin) items0 ∧ items bin ≠ [])
  ∧ (∀ item, item ∈ items0 →
       ∃ bin, bin ∈ bins ∧ date bin = category timestamp item ∧ item ∈ items bin)
  ∧ (∀ item, item ∈ items0 → isValid (timestamp item) = false →
       category timestamp item = "Invalid Date").
Proof.
  intros Hbins.
  destruct (inherited_cases items0) as [Hok|Hex].
  2:{ rewrite (binDates_throws items0 Hex) in Hbins. done. }
  rewrite (binDates_returns items0 Hok) in Hbins. injection Hbins as <-.
  pose proof (entries_Permutation (grouped timestamp items0)) as HP.
  split; [|split; [|split]].
  - rewrite map_map. simpl.
    assert (map (λ e : string * list T, e.1) (entries (grouped timestamp items0))
            ≡ₚ first_seen (map (category timestamp) items0)) as ->.
    { rewrite HP. unfold grouped. rewrite map_map. simpl. by rewrite map_id. }
    apply NoDup_first_seen.
  - intros bin (e & -> & He)%list_elem_of_fmap. simpl.
    rewrite HP in He. unfold grouped in He.
    apply list_elem_of_fmap in He as (c & -> & Hc). simpl. split; [done|].
    apply (proj1 (elem_of_first_seen _ _)) in Hc.
    apply list_elem_of_fmap in Hc as (i & Hi & Hin).
    intros Hnil. assert (i ∈ of_category timestamp c items0) as Hmem.
    { unfold of_category. apply list_elem_of_filter. by split. }
    rewrite Hnil in Hmem. by apply elem_of_nil in Hmem.
  - intros item Hitem.
    exists {| date := category timestamp item; items := of_category timestamp (category timestamp item) items0 |}.
    split; [|split; [done|]].
    + apply list_elem_of_fmap.
      exists (category timestamp item, of_category timestamp (category timestamp item) items0).
      split; [done|]. rewrite HP. unfold grouped. apply list_elem_of_fmap.
      exists (category timestamp item). split; [done|]. apply in_first_seen.
      apply list_elem_of_fmap. by exists item.
    + simpl. unfold of_category. apply list_elem_of_filter. by split.
  - intros item _ Hv. unfold DateBinning.category, dateCategory. by rewrite Hv.
Qed.

(** X21: the bins come in the order in which their dates first occur.
    When no date category is an array index (a formatted date never
    is), the dates of the bins [binDates] returns are the categories of
    the input without repetition, in the order of first occurrence. *)
Theorem binDates_keeps_input_order (items0 : list T) (bins : list (DateBin T)) :
  binDates timestamp items0 = inr bins →
  Forall (λ item, array_index (category timestamp item) = None) items0 →
  map date bins = first_seen (map (category timestamp) items0)
  ∧ bins = map (λ c, {| date := c; items := of_category timestamp c items0 |})
             (first_seen (map (category timestamp) items0)).
Proof.
  intros Hbins Hidx.
  destruct (inherited_cases items0) as [Hok|Hex].
  2:{ rewrite (binDates_throws items0 Hex) in Hbins. done. }
  rewrite (binDates_returns items0 Hok) in Hbins. injection Hbins as <-.
  rewrite entries_no_index.
  - unfold grouped. rewrite !map_map. simpl. by rewrite map_id.
  - unfold grouped. apply Forall_fmap, Forall_forall. intros c Hc. simpl.
    apply (proj1 (elem_of_first_seen _ _)) in Hc.
    apply list_elem_of_fmap in Hc as (i & -> & Hin).
    rewrite Forall_forall in Hidx. by apply Hidx.
Qed.

(** X22: [binDates] throws exactly when a date category is the name of a
    property every object inherits.  The map of bins is a plain object,
    so for a category such as ["constructor"] the lookup finds the
    inherited property, no bin is created and [push] is not a function;
    for any other input [binDates] returns, and on the empty list it
    returns no bin. *)
Theorem binDates_throws_iff (items0 : list T) :
  ((∃ e, binDates timestamp items0 = inl e)
   ↔ ∃ item, item ∈ items0 ∧ category timestamp item ∈ inherited)
  ∧ binDates timestamp [] = inr [].
Proof.
  split; [|done]. split.
  - intros [e He]. destruct (inherited_cases items0) as [Hok|Hex].
    + by rewrite (binDates_returns items0 Hok) in He.
    + by apply Exists_exists in Hex.
  - intros Hex. exists push_error. apply binDates_throws. by apply Exists_exists.
Qed.

End Facts.
End DateBinningFacts.

(** ** The chat store *)

Module ChatFacts.
Import Chat.

(** X23: the chat keeps its messages in the order they were added.
    After any sequence of [addMessage] calls the list of messages is
    the list before followed by the added messages, in call order, each
    with the identifier, content and role it was given and the clock
    reading of its call; no other field of the store changes, and
    after [clearChat] only the messages added since are left. *)
Theorem addMessage_appends_in_order (calls : list (option Z * NewMessage)) (s : ChatStore) :
  let s' := addMessages calls s in
  messages s' = messages s ++ omap stamped calls
  ∧ (started s', aborted s', showChat s', pendingMessage s', isGenerating s',
     error s', currentAssistantMessage s')
    = (started s, aborted s, showChat s, pendingMessage s, isGenerating s,
       error s, currentAssistantMessage s)
  ∧ messages (addMessages calls (clearChat s)) = omap stamped calls.
Proof.
  assert (∀ s0, messages (addMessages calls s0) = messages s0 ++ omap stamped calls
                ∧ (started (addMessages calls s0), aborted (addMessages calls s0),
                   showChat (addMessages calls s0), pendingMessage (addMessages calls s0),
                   isGenerating (addMessages calls s0), error (addMessages calls s0),
                   currentAssistantMessage (addMessages calls s0))
                  = (started s0, aborted s0, showChat s0, pendingMessage s0,
                     isGenerating s0, error s0, currentAssistantMessage s0)) as H.
  { induction calls as [|[now m] calls IH]; intros s0; simpl.
    - by rewrite app_nil_r.
    - destruct (IH (addMessage now m s0)) as [IH1 IH2].
      unfold addMessages in *. rewrite IH1, IH2.
      destruct now as [t|]; simpl; [|done]. by rewrite <- app_assoc. }
  intros s'. destruct (H s) as [H1 H2]. split; [done|]. split; [done|].
  by destruct (H (clearChat s)) as [-> _].
Qed.

End ChatFacts.

Module ViteConfigFacts.
Import ViteConfig.

Lemma strip_Some (p s r : string) : strip p s = Some r → s = p +:+ r.
Proof.
  revert s; induction p as [|a p IH]; intros [|b s]; simpl; try done.
  - by intros [= <-].
  - by intros [= <-].
  - destruct (Ascii.eqb a b) eqn:E; [|done].
    apply Ascii.eqb_eq in E as ->. by intros ->%IH.
Qed.

Lemma strip_cons (a b : ascii) (p s : string) :
  strip (String a p) (String b s) = if Ascii.eqb a b then strip p s else None.
Proof. done. Qed.

Lemma strip_app (p r : string) : strip p (p +:+ r) = Some r.
Proof. induction p as [|a p IH]; simpl; [done|]. by rewrite Ascii.eqb_refl. Qed.

Lemma digits_spec (s ds r : string) :
  digits s = (ds, r) → s = ds +:+ r ∧ all_digits ds = true.
Proof.
  revert ds r; induction s as [|c s IH]; simpl; intros ds r.
  - by intros [= <- <-].
  - destruct (is_digit c) eqn:E.
    + destruct (digits s) as [ds' r'] eqn:D. intros [= <- <-].
      destruct (IH _ _ eq_refl) as [-> ?]. simpl. by rewrite E.
    + by intros [= <- <-].
Qed.

Lemma digits_app (ds r : string) :
  all_digits ds = true → digits (ds +:+ "." +:+ r) = (ds, "." +:+ r).
Proof.
  induction ds as [|c ds IH]; simpl; [done|].
  intros [-> ?]%andb_prop. by rewrite IH.
Qed.

Lemma version_here_Some (s ds : string) :
  version_here s = Some ds →
  ∃ suf, s = "/" +:+ ds +:+ "." +:+ suf ∧ ds ≠ "" ∧ all_digits ds = true.
Proof.
  unfold version_here. destruct (strip "/" s) as [r|] eqn:S; [cbn -[strip digits]|done].
  apply strip_Some in S as ->.
  destruct (digits r) as [d r'] eqn:D. apply digits_spec in D as [-> Hd].
  destruct d as [|c d]; [done|].
  destruct (strip "." r') as [suf|] eqn:S; [|done].
  apply strip_Some in S as ->. intros [= <-]. by exists suf.
Qed.

Lemma version_here_app (ds suf : string) :
  ds ≠ "" → all_digits ds = true →
  version_here ("/" +:+ ds +:+ "." +:+ suf) = Some ds.
Proof.
  intros Hne Hd. unfold version_here.
  rewrite (strip_app "/" (ds +:+ "." +:+ suf)). cbn -[strip digits String.append].
  rewrite (digits_app _ _ Hd). destruct ds; [done|].
  by rewrite (strip_app "." suf).
Qed.

Lemma match_here_Some (s ds : string) :
  match_here s = Some ds →
  ∃ tok suf, s = "Chrom" +:+ tok +:+ "/" +:+ ds +:+ "." +:+ suf
             ∧ (tok = "e" ∨ tok = "ium") ∧ ds ≠ "" ∧ all_digits ds = true.
Proof.
  unfold match_here. destruct (strip "Chrom" s) as [r|] eqn:S; [cbn -[strip version_here]|done].
  apply strip_Some in S as ->.
  destruct (strip "e" r ≫= version_here) as [d|] eqn:E.
  - intros [= ->]. destruct (strip "e" r) as [r1|] eqn:S; [simpl in E|done].
    apply strip_Some in S as ->.
    apply version_here_Some in E as (suf & -> & ? & ?). exists "e", suf. auto.
  - clear E. intros E. destruct (strip "ium" r) as [r1|] eqn:S; [simpl in E|done].
    apply strip_Some in S as ->.
    apply version_here_Some in E as (suf & -> & ? & ?). exists "ium", suf. auto.
Qed.

Lemma match_version_Some (s ds : string) :
  match_version s = Some ds →
  ∃ pre tok suf, s = pre +:+ "Chrom" +:+ tok +:+ "/" +:+ ds +:+ "." +:+ suf
                 ∧ (tok = "e" ∨ tok = "ium") ∧ ds ≠ "" ∧ all_digits ds = true.
Proof.
  induction s as [|c s IH]; simpl.
  - done.
  - destruct (match_here (String c s)) as [d|] eqn:M.
    + intros [= ->]. apply match_here_Some in M as (tok & suf & -> & ?).
      by exists "", tok, suf.
    + intros (pre & tok & suf & -> & ?)%IH. by exists (String c pre), tok, suf.
Qed.

Lemma match_here_token (tok ds suf : string) :
  tok = "e" ∨ tok = "ium" → ds ≠ "" → all_digits ds = true →
  match_here ("Chrom" +:+ tok +:+ "/" +:+ ds +:+ "." +:+ suf) = Some ds.
Proof.
  intros [-> | ->] Hne Hd; unfold match_here;
    rewrite (strip_app "Chrom"); cbn -[strip version_here String.append].
  - rewrite (strip_app "e"). cbn -[strip version_here String.append].
    by rewrite version_here_app.
  - change (strip "e" _) with (@None string). cbn -[strip version_here String.append].
    rewrite (strip_app "ium"). cbn -[strip version_here String.append].
    by rewrite version_here_app.
Qed.

(** An occurrence of [Chrom] cannot start in [pre] and end in the token
    that follows: the word does not overlap itself. *)
Lemma strip_Chrom_before (c : ascii) (pre rest : string) :
  strip "Chrom" (String c pre) = None →
  strip "Chrom" (String c pre +:+ "Chrom" +:+ rest) = None.
Proof.
  intros H.
  destruct pre as [|c2 [|c3 [|c4 [|c5 pre]]]]; repeat (rewrite append_cons || rewrite append_nil);
    rewrite !strip_cons;
    repeat match goal with
           | |- context [Ascii.eqb ?a ?b] =>
               destruct (Ascii.eqb_spec a b) as [E|?]; [try discriminate E; subst|done]
           end.
  by simpl in H.
Qed.

Lemma match_version_here (s ds : string) :
  match_here s = Some ds → match_version s = Some ds.
Proof. destruct s; cbn [match_version]; by intros ->. Qed.

Lemma match_version_first (pre tok ds suf : string) :
  occurs "Chrom" pre = false →
  tok = "e" ∨ tok = "ium" → ds ≠ "" → all_digits ds = true →
  match_version (pre +:+ "Chrom" +:+ tok +:+ "/" +:+ ds +:+ "." +:+ suf) = Some ds.
Proof.
  intros Ho Ht Hne Hd. induction pre as [|c pre IH].
  - rewrite append_nil. by apply match_version_here, match_here_token.
  - cbn [occurs] in Ho. destruct (strip "Chrom" (String c pre)) eqn:S; [done|].
    assert (M : match_here (String c pre +:+ "Chrom" +:+ tok +:+ "/" +:+ ds +:+ "." +:+ suf) = None).
    { unfold match_here. by rewrite (strip_Chrom_before c pre _ S). }
    rewrite append_cons in *. cbn [match_version]. rewrite M. by apply IH.
Qed.

(** X27: the development server turns a request away only when its user
    agent names Chrome or Chromium with a major version that reads as
    129; then it answers with the HTML page.  A request without a user
    agent is always passed on. *)
Theorem chrome129_turns_away_only_129 (userAgent : option string) (contentType body : string) :
  middleware userAgent = Answered contentType body →
  (∃ pre tok ds suf,
      userAgent = Some (pre +:+ "Chrom" +:+ tok +:+ "/" +:+ ds +:+ "." +:+ suf)
      ∧ (tok = "e" ∨ tok = "ium") ∧ ds ≠ "" ∧ all_digits ds = true
      ∧ parseInt ds = 129%N)
  ∧ contentType = "text/html" ∧ body = chrome129_page.
Proof.
  unfold middleware. destruct userAgent as [s|]; simpl; [|done].
  destruct (match_version s) as [ds|] eqn:M; [|done].
  destruct (parseInt ds =? 129)%N eqn:E; [|done].
  intros [= <- <-]. split; [|done].
  apply match_version_Some in M as (pre & tok & suf & -> & ? & ? & ?).
  apply N.eqb_eq in E. by exists pre, tok, ds, suf.
Qed.

(** X28: the first Chrome or Chromium token of the user agent decides.
    When [Chrom] does not occur before it, the request is turned away if
    the version of that token reads as 129 and passed on otherwise,
    whatever follows the token. *)
Theorem chrome129_first_token_decides (pre tok ds suf : string) :
  occurs "Chrom" pre = false →
  tok = "e" ∨ tok = "ium" → ds ≠ "" → all_digits ds = true →
  middleware (Some (pre +:+ "Chrom" +:+ tok +:+ "/" +:+ ds +:+ "." +:+ suf))
  = if (parseInt ds =? 129)%N then Answered "text/html" chrome129_page else Next.
Proof.
  intros Ho Ht Hne Hd. unfold middleware. simpl.
  by rewrite (match_version_first pre tok ds suf Ho Ht Hne Hd).
Qed.

End ViteConfigFacts.

(** ** The properties on example runs *)

Module MoreRuns.
Import MemBox Examples MoreExamples.

Lemma records_are_permanent_witness :
  descriptor
    <$> actions (runner (run_events false_sys
                   [EvRun (data "0" (ShellAction "rm -rf /")); EvAbort "0";
                    EvSettle 0])) !! "0"
  = Some (ShellAction "false").
Proof.
  destruct (records_are_permanent (WC := container) false_sys
              [EvRun (data "0" (ShellAction "rm -rf /")); EvAbort "0"; EvSettle 0]
              "0" false_record eq_refl) as (r' & Hr & _ & _ & He).
  rewrite Hr. simpl. f_equal. apply He. reflexivity.
Defined.

Lemma no_container_no_effects_witness :
  let sys := run_events (boot_system (BootFailed (ErrorObj "boot failed")) shell_world)
               (false_events ++ [EvSettle 0]) in
  calls sys = [] ∧ status_of sys "0" ≠ Some Complete.
Proof.
  intros sys.
  destruct (no_container_no_effects (WC := container) (BootFailed (ErrorObj "boot failed"))
              shell_world (false_events ++ [EvSettle 0])) as (_ & Hc & Hs & _);
    [discriminate|].
  split; [exact Hc|exact (Hs "0")].
Defined.


Lemma long_running_completes_at_timeout_witness :
  runShellAction Booted false "npm run dev" hang_world
  = (Done tt, hang_world, [CSpawn "npm run dev"]).
Proof.
  apply (long_running_completes_at_timeout (WC := container) false "npm run dev"
           hang_world hang_world {| proc_exit := program (programs hang_world) "npm run dev" |}
           eq_refl eq_refl).
  exact I.
Defined.

Lemma abort_in_flight_witness :
  let sys := run_events (boot_system Booted shell_world) false_events in
  status_of (step sys (EvAbort "0")) "0" = Some Aborted
  ∧ status_of (step (step sys (EvAbort "0")) (EvSettle 0)) "0" = Some Failed.
Proof.
  intros sys.
  destruct (abort_in_flight (WC := container) Booted shell_world false_events false_task
              eq_refl) as (Ha & t1 & Hs & _ & _ & H).
  split; [exact Ha|].
  vm_compute in Hs. injection Hs as <-.
  edestruct (H (Threw (ErrorObj "Process failed with exit code 1"))) as [Hf _];
    [vm_compute; reflexivity|exact Hf].
Defined.

Lemma added_action_shows_running_witness :
  let sys := run_events (boot_system Booted empty_world) [EvAdd file_a; EvTick] in
  status_of sys "0" = Some Running ∧ trace (runner sys) = [].
Proof.
  intros sys.
  destruct (added_action_shows_running (WC := container) Booted empty_world [] file_a
              eq_refl eq_refl eq_refl) as ((r & Hr & Hst & _) & Ht & _).
  split; [|exact Ht].
  change (actions (runner sys) !! "0" = Some r) in Hr.
  unfold status_of. rewrite Hr. simpl. by rewrite Hst.
Defined.

Lemma actions_reach_one_runner_witness :
  ∃ s', Workbench.addAction (data "0" (ShellAction "false")) two_store = inr s'
        ∧ Workbench.instances s' !! 1 = Workbench.instances two_store !! 1
        ∧ Workbench.instances s' !! 0 ≠ Workbench.instances two_store !! 0.
Proof.
  destruct (WorkbenchCallFacts.actions_reach_one_runner Booted (take 2 two_artifacts)
              (data "0" (ShellAction "false")) "msg-2" blog) as (H & _).
  - discriminate.
  - reflexivity.
  - eexists. split; [reflexivity|]. split.
    + apply (H _ eq_refl).
    + vm_compute. discriminate.
Defined.

Lemma registry_is_well_formed_witness :
  let again := WorkbenchCalls.CallAddArtifact
                 {| Workbench.messageId := "msg-1"; Workbench.cb_title := "Todo app";
                    Workbench.cb_id := "todo" |} in
  let shop := WorkbenchCalls.CallAddArtifact
                {| Workbench.messageId := "msg-3"; Workbench.cb_title := "Shop";
                   Workbench.cb_id := "shop" |} in
  let s' := WorkbenchCalls.store_run
              (WorkbenchCalls.store_step two_store WorkbenchCalls.ModuleReloaded)
              [again; shop] in
  is_Some (Workbench.artifacts s' !! "msg-1")
  ∧ "msg-1" ∉ Workbench.artifactIdList s'
  ∧ Workbench.artifactIdList s' = ["msg-3"].
Proof.
  intros again shop s'.
  destruct (WorkbenchCallFacts.registry_is_well_formed Booted (take 2 two_artifacts))
    as (_ & _ & _ & _ & _ & H).
  destruct (H [again; shop] "msg-1") as [H1 H2].
  - eexists. reflexivity.
  - split; [exact H1|]. split; [exact H2|reflexivity].
Defined.

Lemma firstArtifact_is_stable_witness :
  WorkbenchCalls.firstArtifact two_store = Some todo
  ∧ WorkbenchCalls.firstArtifact
      (Workbench.addArtifact
         {| Workbench.messageId := "msg-3"; Workbench.cb_title := "Shop";
            Workbench.cb_id := "shop" |}
         (WorkbenchCalls.store_step two_store WorkbenchCalls.ModuleReloaded))
    = Some {| Workbench.id := "shop"; Workbench.title := "Shop"; Workbench.closed := false;
              Workbench.runner := 2 |}.
Proof.
  split; [reflexivity|].
  destruct (WorkbenchCallFacts.firstArtifact_is_stable Booted (take 2 two_artifacts) [] todo)
    as (_ & _ & _ & _ & _ & _ & H).
  apply (H {| Workbench.messageId := "msg-3"; Workbench.cb_title := "Shop";
              Workbench.cb_id := "shop" |}).
  reflexivity.
Defined.

Lemma import_progress_is_complete_witness :
  let r := LocalImport.importLocalRepo project (import_start old_files) in
  r.1 = inr true
  ∧ LocalImport.importStatus r.2 = Some LocalImport.import_complete
  ∧ LocalImport.showWorkbench r.2 = true.
Proof.
  intros r.
  destruct (LocalImportFacts.import_progress_is_complete project (import_start old_files) 4
              eq_refl eq_refl) as (H1 & _ & H2 & H3 & _).
  split; [exact H1|]. split; [exact H2|exact H3].
Defined.

Lemma import_saves_visited_files_witness :
  LocalImport.saveLog (LocalImport.importLocalRepo project (import_start old_files)).2
  = [] ++ omap LocalImport.to_save (LocalImport.visited project "").
Proof.
  exact (LocalImportFacts.import_saves_visited_files project (import_start old_files) 4
           eq_refl eq_refl).
Defined.

Lemma import_skips_modules_and_hidden_entries_witness :
  ∃ saved,
    LocalImport.saveLog (LocalImport.importLocalRepo project (import_start old_files)).2
    = [] ++ saved
    ∧ (∀ c, ("/home/project/node_modules/left-pad.js", c) ∉ saved)
    ∧ (∀ c, ("/home/project/.env", c) ∉ saved).
Proof.
  destruct (LocalImportFacts.import_skips_modules_and_hidden_entries project
              (import_start old_files) 4 eq_refl eq_refl) as (saved & Hs & _ & Hnot).
  exists saved. split; [exact Hs|]. split; intros c.
  - apply (Hnot eq_refl ["node_modules"; "left-pad.js"] (small "module.exports") c).
    + eexists. split; [repeat constructor|]. eexists. split; [repeat constructor|reflexivity].
    + apply Exists_cons_hd. left. reflexivity.
  - apply (Hnot eq_refl [".env"] (small "SECRET=1") c).
    + eexists. split; [repeat constructor|reflexivity].
    + apply Exists_cons_hd. right. reflexivity.
Defined.

Lemma import_failure_is_reported_witness :
  let r := LocalImport.importLocalRepo unlistable_project (import_start old_files) in
  r.1 = inl (ErrorObj "NotAllowedError")
  ∧ LocalImport.importStatus r.2 = Some LocalImport.import_error
  ∧ contents (LocalImport.filesStore r.2) = ∅.
Proof.
  intros r.
  destruct (LocalImportFacts.import_failure_is_reported unlistable_project
              (import_start old_files) (ErrorObj "NotAllowedError"))
    as (H1 & H2 & _ & _ & H3 & _).
  - right. split; reflexivity.
  - split; [exact H1|]. split; [exact H2|]. fold r in H3. rewrite H3. reflexivity.
Defined.

Lemma unsaved_mark_tracks_changes_witness :
  app_js ∈ Documents.unsavedFiles (Documents.setCurrentDocumentContent "let x = 2" one_document).
Proof.
  destruct (DocumentFacts.unsaved_mark_tracks_changes "let x = 2" one_document
              {| doc_filePath := app_js; doc_value := "let x = 1" |}
              {| doc_filePath := app_js; doc_value := "let x = 2" |}) as (H & _).
  - reflexivity.
  - discriminate.
  - reflexivity.
  - apply H. exists "let x = 1". split; [reflexivity|discriminate].
Defined.

Lemma resetCurrentDocument_clears_mark_witness :
  Documents.unsavedFiles edited_document = [app_js]
  ∧ app_js ∉ Documents.unsavedFiles (Documents.resetCurrentDocument edited_document).
Proof.
  split; [reflexivity|].
  destruct (DocumentFacts.resetCurrentDocument_clears_mark edited_document
              {| doc_filePath := app_js; doc_value := "let x = 2" |}
              {| doc_filePath := app_js; doc_value := "let x = 1" |} "let x = 1")
    as (H & _).
  - reflexivity.
  - discriminate.
  - reflexivity.
  - reflexivity.
  - exact H.
Defined.

Lemma binDates_groups_by_date_witness :
  NoDup (map DateBinning.date history_bins)
  ∧ ∀ item, item ∈ history →
      ∃ bin, bin ∈ history_bins
             ∧ DateBinning.date bin = DateBinning.category snd item
             ∧ item ∈ DateBinning.items bin.
Proof.
  destruct (DateBinningFacts.binDates_groups_by_date (DF := utc_dates) (T := string * option Z) snd history
              history_bins eq_refl) as (H1 & _ & H3 & _).
  split; [exact H1|exact H3].
Defined.

Lemma binDates_keeps_input_order_witness :
  map DateBinning.date history_bins
  = ["November 2, 2026"; "November 1, 2026"; "Invalid Date"].
Proof.
  destruct (DateBinningFacts.binDates_keeps_input_order (DF := utc_dates) (T := string * option Z) snd history
              history_bins eq_refl) as (H & _).
  - repeat (constructor; [reflexivity|]). constructor.
  - rewrite H. reflexivity.
Defined.

Lemma terminal_status_is_earned_witness :
  status failed_record = Failed
  ∧ ∃ e, ObsSettle "0" (Some e)
           ∈ trace (runner (run_events (boot_system Booted shell_world)
                              (false_events ++ [EvSettle 0])))
         ∧ error failed_record = Some (error_message e).
Proof.
  split; [reflexivity|].
  destruct (terminal_status_is_earned (WC := container) Booted shell_world
              (false_events ++ [EvSettle 0])
              "0" failed_record) as (_ & H & _).
  - vm_compute. reflexivity.
  - apply H. reflexivity.
Defined.

Lemma chrome129_turns_away_only_129_witness :
  ∃ pre tok ds suf,
    Some chrome129_agent = Some (pre +:+ "Chrom" +:+ tok +:+ "/" +:+ ds +:+ "." +:+ suf)
    ∧ (tok = "e" ∨ tok = "ium") ∧ ds ≠ "" ∧ ViteConfig.all_digits ds = true
    ∧ ViteConfig.parseInt ds = 129%N.
Proof.
  destruct (ViteConfigFacts.chrome129_turns_away_only_129 (Some chrome129_agent)
              "text/html" ViteConfig.chrome129_page) as [H _].
  - vm_compute. reflexivity.
  - exact H.
Defined.

Lemma chrome129_first_token_decides_witness :
  ViteConfig.middleware
    (Some (webkit_prefix +:+ "Chrom" +:+ "e" +:+ "/" +:+ "130" +:+ "." +:+ "0.0.0 Safari/537.36"))
  = ViteConfig.Next.
Proof.
  rewrite (ViteConfigFacts.chrome129_first_token_decides webkit_prefix "e" "130"
             "0.0.0 Safari/537.36").
  - reflexivity.
  - reflexivity.
  - left. reflexivity.
  - discriminate.
  - reflexivity.
Defined.

End MoreRuns.
